(* ===== verification/_CoqProject ===== *)
-Q . S2P
Prelude.v
Clock.v
FileSystem.v
Sink.v
Scanner.v
Pruner.v
Style.v
Format.v
Writer.v
Names.v
Output.v
Lifecycle.v
Race.v
Sessions.v
Serial.v
Spaced.v
Pipeline.v
