(* ===== verification/Prelude.v ===== *)
(** * Verification of tracing-utils: rotating log writer and source formatter

    The repository is two small Rust adapters over the [tracing] logging
    framework:

    - [src/src/writer.rs]: [RotatingFileWriter::new] creates the log
      directory, lists the regular files whose name starts with a prefix,
      sorts them by name, deletes the oldest ones so that at most [max - 1]
      remain, and creates a fresh file [prefix.YYYY-MM-DDTHH:MM:SS] wrapped
      in a [BufWriter]; [write] and [flush] forward to that buffer.
    - [src/src/format.rs]: [SourceFormatter::format_event] renders one log
      line: dimmed timestamp, coloured level, cyan [[file:line]] tag, the
      span stack from root to leaf, the event's fields, and a newline.

    ** Files of the development (in dependency order)

    - [Prelude] (this file): [result] and [outcome], which stand for
      Rust's [Result] and for a panic; the state-passing monad [M] in which
      every effectful function of the model runs, with its notations (scope
      [io_scope]) and its laws up to pointwise equality ([M_equiv], with
      [Proper] instances); Hoare triples for total correctness ([hoare]);
      [usize] arithmetic with wrap-around; [starts_with] and the lemmas on
      strings, characters and lists that the components share; the tactics
      [io_simpl] and [case_scrut] and the hint databases [logs].
    - [Clock]: the calendar record, an interpreter of [strftime] format
      strings, the format string of writer.rs line 46 ([time_format]), and
      the facts about its text: it always renders, it has 19 characters in
      the years 0 to 9999, and texts compare as the moments do; the text
      of [to_rfc2822] (format.rs line 25) with the day of the week,
      whose formula counts the days of the calendar ([next_day],
      [weekday_next_day], [weekday_since_1970]).
    - [FileSystem]: the world the writer acts on (a tree of paths, file
      contents, the paths on which the system refuses an operation, the
      room left on the device, the clock, the warnings logged) and the
      library calls of writer.rs as
      functions on it: [create_dir_all] (line 16), [walk_dir] (22 to 25),
      [remove_file] (37), [file_create] (49), [path_join] (50),
      [local_now] (46), [warn] (42). Well-formedness [wf_world] and its
      preservation; the relation [dirs_added], which says what
      [create_dir_all] may change.
    - [Sink]: [std::io::Write] as the class [Write], and the class
      [Lawful] of what a byte sink promises; the file as a sink
      ([file_write]); [BufWriter] over any sink, after the standard
      library ([buf_write], [write_cold], [flush_buf], [buf_flush],
      [buf_drop]), with the proof that it is [Lawful] when the sink
      below it is; [zoom],
      which runs a method of a field on the object; sequences of calls
      ([run_calls]). The class [Confined] is what a sink promises in
      every state, valid or not: a call changes nothing outside the
      file of its handle.
    - [Scanner]: lines 22 to 32. [is_log_entry] is the closure of
      [filter_entry], [by_file_name] the order of [sorted_by],
      [collect_logs] the iterator chain and [scan_logs] the chain over the
      walk. The specification is [log_names], the set of the names of the
      qualifying files, and [sorted_logs], its entries in increasing order.
    - [Pruner]: lines 18 to 20 and 34 to 44. [coerce_max], [remove_log]
      (the body of the loop) and [prune_logs] (guard, [usize] arithmetic
      and loop). The specification is [doomed] and [retained], the names
      the policy removes and keeps, and [unlink_or_warn], one turn of the
      loop as a function on worlds.
    - [Style]: the text of a styled value of the [console] library, as
      escape sequences around the text ([render_styled]).
    - [Format]: src/src/format.rs. The class [FmtWrite] is the sink the
      formatter writes to, with its law and two instances; [time_now]
      is the text of the time (line 25), [message], [level_style] and
      [callsite] are the head of the line (lines 27 to 43),
      [render_span] and [render_spans] the loop over the spans (lines 49
      to 69), [format_event] the method (lines 19 to 73) and
      [SourceFormatter_FormatEvent] the implementation of the trait
      (lines 14 to 74), an instance of the class [FormatEvent]. The
      specification is [event_line], the text of the line of an event;
      [LineFormat] is what the fmt layer relies on of a formatter.
    - [Writer]: [RotatingFileWriter] and [new] (src/src/writer.rs, lines
      10 to 53), the composition of [FileSystem], [Scanner] and [Pruner]
      in the order of the code. [new_outcome] is the relation between a
      start world and the three ways in which [new] ends.
    - [Names]: a reader of the names [new] gives its files
      ([parse_timestamp], [log_time]), which is no part of the
      repository: it is the inverse against which the round trips of
      the name format (lines 46 and 50) are stated.
    - [Output]: [impl io::Write for RotatingFileWriter] (lines 56 to
      64): [RotatingFileWriter_write] and [RotatingFileWriter_flush]
      forward to the field [sink]. The specification is [log_stream],
      the bytes in the file of the writer followed by the bytes in its
      buffer, and [writer_valid], the condition under which the writer
      works.
    - [Lifecycle]: the directory over many runs. The relation [step]
      is what happens in a deployment: the clock moves forward, a
      process starts and calls [new], the running process calls [write]
      or [flush], it ends and its writer is dropped, or it is killed. [settled] and [dated] are the invariants: at most
      [max] log files in a well-formed, permissive world with a working
      writer, and no log file named after a moment the clock has not
      reached.
    - [Race]: several processes inside [new] at once. [proc] is the
      point of [new] a process has reached (before line 16, before the
      scan, in the loop with the list of line 32 and the indices left,
      before line 46, before line 49, returned, panicked) and
      [proc_step] the call of the system it makes next; [race_step]
      lets any process of a list make its next call on the world they
      share, or the clock change, or the environment [env] act, a
      relation on worlds that stands for what else runs on the machine
      ([writes]: programs that write to files they have open).
      [rest_of] is what is left of [new] at a point, [touched] what a
      call may do to the world, [race_inv] the invariant of the
      interleavings.
    - [Sessions]: both halves of writer.rs in one system. A [task] is
      a process inside [new], one that runs with its writer, or one
      that has ended; [turn] is what a task does next (the next call of
      [new], a call of [write] or [flush], the drop of the writer, a
      kill) and [session_step] lets any task of a list take its turn.
      A running task carries the bytes its calls have reported as
      accepted. [session_inv] is the invariant: every open file has
      one name, that name is the one [new] has built for the task, and
      a writer that is alone on its file is valid with the recorded
      stream.
    - [Serial]: the deployment between [Lifecycle] and [Sessions]:
      many processes log, and they start one at a time. [alike]
      relates the worlds that differ in the contents of files and the
      room on the device only, which is all a writer changes; [blind]
      and [timeless] say that a computation reads neither of them, or
      not the clock; [due] is what a process inside [new] still owes;
      [serial_step] is a step of [Sessions] in which no process is
      inside [new] while another is, and [serial_play] its schedule.
    - [Spaced]: processes that read the clock in different seconds.
      [claim] is the path a task has formed the name of, and
      [spaced_step] a step of [Sessions] in which a process reads the
      clock at line 46 only when the path it is about to form is the
      path of no other task ([unclaimed]); [apart] is the invariant.
    - [Pipeline]: the path of an event. [write_all] is the method
      [io::Write] gives every writer, [on_event] the fmt layer of the
      log subsystem (format into a [String], then [write_all]),
      [session] the life of a process that constructs the writer, logs
      and ends. The specification is [lines], the bytes of the lines of
      the events, and [file_at], the contents of the file at a path.

    ** How code is modelled

    - A Rust function with side effects is a function into [M W A]: it takes
      the state [W] and returns an [outcome A] with the new state. The state
      is returned on every path, so what a failed call has already done
      stays done, as in the code (nothing is rolled back).
    - [Result<T, E>] is [result E T]; the [?] operator is the notation
      [x <-? c ;; k]. A panic ([expect] on [None]) is [Panicked]; theorems
      that say a function returns are stated as equalities with [Returned],
      which a panicking run does not satisfy.
    - A method with [&mut self] runs on the pair of the object and the
      world. The writer is written against the interface [Write]: what
      its methods promise is proved from the laws of the sink below
      ([Lawful]), which the file and the buffered writer discharge.
    - The formatter is written against an interface: its state is any
      type [S] with an instance of [FmtWrite], and its theorems hold for
      every such sink. The local time, its offset and the colour
      capability it reads from the process are the record [Env].
    - [usize] values are [N]; subtraction and addition are taken modulo
      [2^64] ([usize_sub], [usize_add]), and the theorems say when they do
      not wrap.
    - A path is the list of its components, innermost first, so that the
      entry [n] of the directory [d] is [n :: d]. The tree is a finite map
      from paths ([gmap]); sets of names are [gset]s.
    - Faults of the system are part of the world: [w_denied] is the set of
      paths on which it refuses to create, remove or list, and [w_space]
      the number of bytes the device still takes, so that a write may be
      partial or fail. The theorems hold for every such set and number.

    ** What the theorems show

    - Scanner: the chain keeps exactly the regular files with the prefix
      ([collect_logs_elem]), in increasing order of name
      ([collect_logs_sorted]); the scan has no effect and finds exactly
      the log files of a listable directory ([scan_logs_finds]), and
      nothing at all when the directory cannot be listed
      ([scan_logs_unlistable]).
    - Pruner: the loop removes the [len - max + 1] oldest log files and
      keeps the rest ([prune_logs_removes_oldest],
      [prune_logs_oldest_first], [prune_logs_below_max],
      [prune_logs_under_limit]); the arithmetic does not wrap
      ([prune_arithmetic_exact]); a refused removal is logged and the loop
      goes on ([prune_logs_tolerates_failures]); for [max >= 1] it never
      panics and touches nothing else ([prune_logs_never_panics]); for
      [max = 0] it would panic ([prune_logs_zero_panics]).
    - Writer: [new] refines the retention policy ([new_retention]), keeps
      at most [max] log files ([new_at_most_max], [new_exact_count],
      [new_max_one_keeps_only_new], [new_zero_is_one]), never panics
      ([new_never_panics]), removes nothing but doomed log files and
      changes nothing outside its directory ([new_removes_only_doomed],
      [new_frame]), creates an empty file and keeps the world well formed
      ([new_creates_empty_file], [new_succeeds]), propagates the errors of
      lines 16 and 49 without rolling back ([new_dir_blocked],
      [new_file_refused]) and logs one warning per refused removal
      ([new_warns_per_refusal], [new_unlistable_keeps_all]). The name of
      the file is one path component that starts with the prefix, and
      names order as moments do up to the year 9999
      ([new_log_name_in_dir], [timestamp_renders],
      [log_file_name_chronological]); the name of a file of a later
      year sorts before all of them ([log_file_name_after_9999]).
    - Sink: a write to a file at its end appends what the device has
      room for ([file_write_spec]); the loop of [flush_buf] returns with
      the stream unchanged and the buffer empty on success
      ([flush_buf_loop_spec]); the buffered writer keeps the promise of
      the sink below ([buf_write_spec], [buf_flush_spec],
      [BufWriter_Lawful]); every sequence of calls on a lawful sink
      returns and appends what it reports ([run_calls_spec]).
    - Output: [write] implements the contract of a sink
      ([write_appends]) and [flush] neither loses nor repeats a byte
      ([flush_drains]); the writer [new] returns works, and stays so
      over every sequence of calls, on the file of this run only
      ([new_then_calls], [calls_append]); a full device makes [flush]
      fail without effect ([flush_storage_full]), room makes it succeed
      ([flush_enough_space]); a small write reaches no file
      ([write_buffers]).
    - Lifecycle: by induction on the steps, a settled deployment stays
      settled ([settled_for_ever]), and a process that starts after the
      clock has moved creates the newest file, keeps the newest
      [max - 1] others and empties none ([restart_keeps_logs], from
      [new_fresh_keeps_contents] of [Writer]).
    - Format: with the fields of the spans cached, [format_event] is a
      sequence of writes of the pieces of the line
      ([format_event_pieces]); on a sink that accepts everything it
      appends exactly [event_line] ([format_event_line]); on any sink it
      appends a beginning of it and stops at the first failure
      ([format_event_truncates]); a span without cached fields makes it
      panic ([format_event_missing_cache]), and so does a year that has
      no RFC 2822 text ([format_event_year_panics]). The layout without colours,
      the colour of each level and the defaults of the tag are
      [event_line_plain], [level_colours] and [callsite_defaults].
    - Names: the timestamp reads back as the time of the run
      ([timestamp_round_trip]), the reader accepts nothing but what the
      format prints ([timestamp_read_printed]), and the file [new]
      creates is found by the next scan under a name that gives back
      the moment of the run ([new_log_found]).
    - Race: a process alone, call by call, computes [new], result and
      world, panics included ([alone_is_new], from [proc_step_rest]);
      the world is well formed after every call ([new_keeps_wf]). Over
      every interleaving of any number of processes and every change of
      the clock, by induction on the steps ([race_ok_step], [race_typed_step],
      [race_inv_step]): no process panics, whatever the environment
      does ([race_never_panics]), and the local variables of every
      process are what the code computes ([race_points_typed], the
      invariant [typed]: in the loop a list of log files of the
      directory sorted by name and indices that increase and stop
      short of the newest [max - 1] entries, then a text of the clock,
      then a writer with an empty buffer at offset zero); when the
      environment leaves the tree as it is, nothing but log files of
      the directory is removed ([race_removes_only_logs]), and each process adds at most
      one log file ([race_adds_one_each]); the calls of the processes
      come to an end in every order ([race_terminates], by the
      lexicographic [rank] of a point and [list_step_wf]), and from
      every state the processes can reach there is a schedule after
      which each of them has returned from [new] ([race_completes],
      from [exec_ends]). The bound
      [max] is not among them: [example_race_under_pruned] and
      [example_race_removed_twice] are the two races the specification
      names, [example_race_shared_file] two writers on one file, and
      [example_live_file_removed] a running process whose file a later
      one removes.
    - Sinks in any state: the file, the buffered writer over a
      confined sink and the writer of the repository change nothing
      outside the file of their handle, whether the call succeeds,
      fails or finds the handle in the middle of the file
      ([File_Confined], [BufWriter_Confined],
      [RotatingFileWriter_Confined], [drop_confined]).
    - Sessions: by induction on the turns ([session_inv_step], from
      [turn_effect], what one turn does to the world): a running
      writer whose file no other task has opened is valid and its
      stream is what its calls have reported, in their order
      ([writer_alone_in_order]); after its end what is not in the file
      is what the drop could not write ([exited_alone_keeps]); the
      other tasks leave its file as it is ([others_keep_file]); two
      tasks hold the same file only when [new] gave them the same name,
      that is when they read the clock in the same second
      ([shared_only_same_name]), and line 49 empties the file of a
      running writer exactly when it creates under the same name
      ([create_empties_same_name]). Forgetting the writers, a run of
      sessions is a race in the environment [writes]
      ([sessions_are_races], a forward simulation), so that the
      theorems of [Race] hold while the others log
      ([sessions_keep_directory]). [example_sessions_apart] runs two
      processes that start in different seconds, and
      [example_sessions_together] two that start in the same second:
      the second truncates the file of the first, and what the first
      then flushes lands past the end of what the second has written.
    - Serial: the calls of the system that [new] makes read the tree
      and the clock only ([blind_system], [timeless_system]), and so
      does every stage of [new]: both properties pass through [ret]
      and [bind], proved once for every such property ([Section
      calls], with [proc_step_blind] and [rest_of_blind] as [Proper]
      instances). Hence what a process inside [new] owes is kept by
      the writes of the others and by the clock ([due_alike],
      [due_tick], [due_call]): a construction among writers ends as
      [new] ends when run at once in the world in which it started,
      with the clock at some time ([construction_among_writers]), and
      when the processes enter [new] one at a time the directory holds
      at most [max] log files in every state, however many writers are
      open
      ([serial_keeps_limit], by [serial_inv_step]).
    - Spaced: a turn keeps the path of a task, gives it up or forms it
      from the clock ([turn_claim]), so the paths stay different
      ([apart_step]) and no file is shared ([apart_unshared]); every
      writer is in order in every state, also when its file has been
      removed from the directory ([spaced_writers_in_order]). With
      both orders a deployment keeps the limit and the logs
      ([orderly_deployment]).
    - Pipeline: [write_all] returns on every lawful sink and appends
      all the bytes or a beginning of them ([write_all_spec],
      [write_all_returns]); the formatter of the repository returns no
      error on a [String] ([unfailing_format_event] of [Format],
      [on_event_source]); an event leaves the stream of the writer
      followed by a beginning of its line ([on_event_keeps_stream]), by
      the whole line when the device has room ([on_event_logs_line]);
      and a process that constructs the writer, logs its events and
      ends leaves a file that holds exactly their lines
      ([session_file_holds_lines], [example_session]).
    - The examples at the end of [Writer], [Output], [Lifecycle],
      [Race], [Sessions], [Serial], [Spaced] and [Pipeline] evaluate the model on a small world
      ([example_world] of [FileSystem]) and record where the code and
      its specification part ways.

    ** Bounds and assumptions

    - Two functions take fuel: the loops of [flush_buf] and of
      [write_all] run until no byte is left, and [flush_buf_loop] and
      [write_all_loop] are given the number of bytes as fuel. Every
      turn writes at least one byte or ends the loop, so this is
      enough: [flush_buf_loop_spec] and [write_all_loop_spec] show that
      the loops return for every fuel that is at least that number, and
      the branch that runs out of fuel is never taken. [run_proc] takes
      the number of calls to make; [alone_is_new] shows that finitely
      many reach the end of [new] and that more change nothing. Every
      other function is structurally recursive ([create_dir_all] on
      the path, the loops on the list of indices and on the list of
      spans).
    - The theorems about [write] and [flush] assume [writer_valid]: the
      handle is at the end of its file and the buffer within its
      capacity. [new] establishes it and every call keeps it
      ([new_then_calls]). The capacity of the buffer is 8192 bytes, the
      default of the standard library.
    - The theorems about [new] that speak of names assume [new_pre]: a
      well-formed tree, a prefix without the separator [/], a clock in the
      years 0 to 9999 with fields in their calendar ranges, a directory
      the system lists, and fewer than [2^64] log files. The last three
      are where the code's behaviour changes ([log_file_name_after_9999],
      [new_unlistable_keeps_all], [prune_arithmetic_exact]);
      [new_never_panics] assumes none of them.
    - The theorems of [Lifecycle] assume a limit that fits [usize], a
      prefix without the separator, a system that refuses nothing in
      the directory ([permissive]), a clock that stays in range and
      moves forward, and one process at a time.
    - The theorems of [Race] assume nothing of the world, the limit,
      the prefix or the clock, which may be set to any time between two
      calls. All processes run [new] with the same limit, directory and
      prefix. A call of the system is one step: the calls
      [create_dir_all] makes and the reading of the directory by the
      walk are each taken as atomic. [race_never_panics] and
      [race_completes] hold for every environment; the theorems about
      the tree assume one that changes file contents only, which
      [writes] is ([touched_writes]).
    - The theorems of [Sessions] start from a well-formed world
      without hard links ([unlinked]: no file has two names) in which
      every task is before the first line of [new]. A call of [write]
      or [flush] is one step, as if the lock of the log subsystem
      around the writer were held for the call; a kill falls between
      two calls. [unshared] is decided on the state, so the
      hypothesis of [writer_alone_in_order] can be computed.
    - The theorems of [Serial] assume, like those of [Lifecycle], a
      settled start, a prefix without the separator, a limit that fits
      [usize] and a clock that stays in range; the clock may go back.
      That no process is inside [new] while another is, and in
      [Spaced] that no two processes form the same path, are
      assumptions on the deployment: nothing in the code enforces
      them, and [example_race_under_pruned] and
      [example_sessions_together] show what happens without them.
      [construction_among_writers] assumes nothing of the world, the
      limit or the clock.
    - The theorems of [Pipeline] that say the whole line is written
      assume room on the device for what waits in the buffer and for
      the lines ([roomy]); without it [on_event_keeps_stream] holds.
      The offset of the local time and the colour capability are the
      same for all events of a run.
    - [usize] is taken to be 64 bits wide.

    ** What is not modelled

    - Vectored writes, and system calls that are interrupted and tried
      again.
    - The detection of colour support by [console]: the formatter takes
      its result from [Env]. The field formatter of the subscriber: an
      event carries the pieces it writes, and it does not fail by
      itself. The rest of the log subsystem: the registry of spans, the
      filtering of events by level, the lock around a shared writer,
      the notice the fmt layer can write when a formatter fails, and
      what it prints on the standard error stream.
    - Symbolic links and other special files beyond their presence in a
      directory ([IOther]); file names that are not valid UTF-8
      ([to_string_lossy]); relative paths and the current directory; time
      zones and daylight saving; programs other than this one that
      create, rename or remove entries of the directory while [new]
      runs (those that write to open files are the environment
      [writes]). Of two writers open on one file the development shows
      when it happens ([shared_only_same_name]) and, by example, what
      is lost; it has no theorem on the contents of a shared file.
    - Nothing more of the repository is left to model: every line of
      code of writer.rs and format.rs has a definition, and what is
      left of the two files is [use] declarations, blank lines and
      comments. The log framework the two adapters plug into is a
      library the sources call; its registry, its dispatch and its
      field formatter appear as the interfaces [FormatEvent],
      [LineFormat] and [FmtWrite] and as the data of an event. *)

From Stdlib Require Import Ascii.
From stdpp Require Import base tactics option list strings sorting.

Set Default Proof Using "Type".

(** ** Results and outcomes *)

(** Rust's [Result<T, E>]. *)
Inductive result (E T : Type) : Type :=
| Ok (t : T)
| Err (e : E).
Arguments Ok {E T} t.
Arguments Err {E T} e.

(** What running a function produces: a value, or a panic with its message. *)
Inductive outcome (A : Type) : Type :=
| Returned (a : A)
| Panicked (msg : string).
Arguments Returned {A} a.
Arguments Panicked {A} msg.

#[export] Instance result_eq_dec `{EqDecision E, EqDecision T} :
  EqDecision (result E T).
Proof. solve_decision. Defined.

#[export] Instance outcome_eq_dec `{EqDecision A} : EqDecision (outcome A).
Proof. solve_decision. Defined.

(** [Result::ok]. *)
Definition result_ok {E T} (r : result E T) : option T :=
  match r with Ok t => Some t | Err _ => None end.

(** [Result::is_ok] and [Result::is_err]. *)
Definition is_ok {E T} (r : result E T) : bool :=
  match r with Ok _ => true | Err _ => false end.

Definition is_err {E T} (r : result E T) : bool := negb (is_ok r).

(** ** The monad of effectful functions *)

Definition M (W A : Type) : Type := W → outcome A * W.

Definition ret {W A} (a : A) : M W A := λ w, (Returned a, w).

Definition bind {W A B} (c : M W A) (k : A → M W B) : M W B :=
  λ w, match c w with
       | (Returned a, w') => k a w'
       | (Panicked msg, w') => (Panicked msg, w')
       end.

Definition panic {W A} (msg : string) : M W A := λ w, (Panicked msg, w).

Definition get {W} : M W W := λ w, (Returned w, w).

Definition gets {W A} (f : W → A) : M W A := λ w, (Returned (f w), w).

Definition modify {W} (f : W → W) : M W () := λ w, (Returned (), f w).

(** The [?] operator: an [Err] ends the function with that error. *)
Definition bind_try {W E A B} (c : M W (result E A))
    (k : A → M W (result E B)) : M W (result E B) :=
  bind c (λ r, match r with Ok a => k a | Err e => ret (Err e) end).

(** [Option::expect]. *)
Definition expect {W A} (o : option A) (msg : string) : M W A :=
  match o with Some a => ret a | None => panic msg end.

Declare Scope io_scope.
Delimit Scope io_scope with io.
Notation "x <- c ;; k" := (bind c (λ x, k))
  (at level 100, c at next level, right associativity) : io_scope.
Notation "c ;;; k" := (bind c (λ _, k))
  (at level 100, right associativity) : io_scope.
Notation "x <-? c ;; k" := (bind_try c (λ x, k))
  (at level 100, c at next level, right associativity) : io_scope.

(** A [for] loop over a list whose body cannot fail with an error. *)
Fixpoint for_each {W A} (body : A → M W ()) (l : list A) : M W () :=
  match l with
  | [] => ret ()
  | x :: l' => bind (body x) (λ _, for_each body l')
  end.

(** A [for] loop whose body ends in the [?] operator: the first error
    leaves the loop. *)
Fixpoint for_each_try {W E A} (body : A → M W (result E ())) (l : list A) :
    M W (result E ()) :=
  match l with
  | [] => ret (Ok ())
  | x :: l' => bind_try (body x) (λ _, for_each_try body l')
  end.

(** The concatenation of a list of strings. *)
Definition joined (l : list string) : string := foldr String.append EmptyString l.

(** A run that returned (did not panic). *)
Definition returns {W A} (c : M W A) (w : W) (a : A) (w' : W) : Prop :=
  c w = (Returned a, w').

(** Pointwise equality of computations: the equivalence the monad laws
    hold for, without function extensionality. *)
Definition M_equiv {W A} (c1 c2 : M W A) : Prop := ∀ w, c1 w = c2 w.

Infix "≃" := M_equiv (at level 70, no associativity) : io_scope.

#[export] Instance M_equiv_equivalence {W A} : Equivalence (@M_equiv W A).
Proof.
  split.
  - by intros c w.
  - by intros c1 c2 H w.
  - intros c1 c2 c3 H1 H2 w. by rewrite H1.
Qed.

#[export] Instance bind_proper {W A B} :
  Proper (M_equiv ==> pointwise_relation A M_equiv ==> M_equiv) (@bind W A B).
Proof.
  intros c1 c2 Hc k1 k2 Hk w. unfold bind. rewrite Hc.
  destruct (c2 w) as [[a|msg] w']; [apply Hk | done].
Qed.

(** ** Tactics *)

(** Unfold the monad's operations in the goal and in the hypotheses. *)
Ltac io_unfold :=
  unfold returns, bind_try, expect, bind, ret, panic, get, gets, modify in *.

Ltac io_simpl := io_unfold; simpl in *.

(** Case analysis on the scrutinee of the first [match] or [if] of the goal. *)
Ltac case_scrut :=
  match goal with
  | |- context [match ?x with _ => _ end] =>
      lazymatch x with
      | context [match _ with _ => _ end] => fail
      | _ => destruct x eqn:?
      end
  end.

Create HintDb logs discriminated.
Create Rewrite HintDb logs.

(** ** Monad laws *)

Section monad_laws.
Context {W A B C : Type}.
Local Open Scope io_scope.

Lemma bind_ret_l (a : A) (k : A → M W B) : bind (ret a) k ≃ k a.
Proof. by intros w. Qed.

Lemma bind_ret_r (c : M W A) : bind c ret ≃ c.
Proof. intros w. unfold bind, ret. by destruct (c w) as [[?|?] ?]. Qed.

Lemma bind_assoc (c : M W A) (k : A → M W B) (h : B → M W C) :
  bind (bind c k) h ≃ bind c (λ a, bind (k a) h).
Proof. intros w. unfold bind. by destruct (c w) as [[?|?] ?]. Qed.

Lemma bind_returns (c : M W A) (k : A → M W B) w b w'' :
  returns (bind c k) w b w'' ↔ ∃ a w', returns c w a w' ∧ returns (k a) w' b w''.
Proof.
  unfold returns, bind. destruct (c w) as [[a|msg] w'] eqn:Hc; split.
  - intros Hk. by exists a, w'.
  - by intros (a' & w1 & [= -> ->] & Hk).
  - done.
  - by intros (a' & w1 & [=] & _).
Qed.

End monad_laws.

(** The laws of the [?] operator. *)
Section try_laws.
Context {W E A B C : Type}.
Local Open Scope io_scope.

Lemma bind_try_ret_l (a : A) (k : A → M W (result E B)) :
  bind_try (ret (Ok a)) k ≃ k a.
Proof. by intros w. Qed.

Lemma bind_try_err (e : E) (k : A → M W (result E B)) :
  bind_try (ret (Err e)) k ≃ ret (Err e).
Proof. by intros w. Qed.

Lemma bind_try_assoc (c : M W (result E A)) (k : A → M W (result E B))
    (h : B → M W (result E C)) :
  bind_try (bind_try c k) h ≃ bind_try c (λ a, bind_try (k a) h).
Proof.
  intros w. unfold bind_try, bind. by destruct (c w) as [[[?|?]|?] ?].
Qed.

Lemma bind_try_bind (c : M W A) (k : A → M W (result E B))
    (h : B → M W (result E C)) :
  bind_try (bind c k) h ≃ bind c (λ a, bind_try (k a) h).
Proof. intros w. unfold bind_try, bind. by destruct (c w) as [[?|?] ?]. Qed.

Lemma bind_try_proper (c c' : M W (result E A)) (k k' : A → M W (result E B)) :
  c ≃ c' → (∀ a, k a ≃ k' a) → bind_try c k ≃ bind_try c' k'.
Proof.
  intros Hc Hk. unfold bind_try. apply bind_proper; [done|].
  intros [a|e]; [apply Hk | done].
Qed.

(** Running [?]: after an [Ok] the rest runs, after an [Err] it does
    not. *)
Lemma bind_try_run_ok (c : M W (result E A)) (k : A → M W (result E B)) w a w' :
  c w = (Returned (Ok a), w') → bind_try c k w = k a w'.
Proof. intros Hc. unfold bind_try, bind. by rewrite Hc. Qed.

Lemma bind_try_run_err (c : M W (result E A)) (k : A → M W (result E B)) w e w' :
  c w = (Returned (Err e), w') → bind_try c k w = (Returned (Err e), w').
Proof. intros Hc. unfold bind_try, bind. by rewrite Hc. Qed.

End try_laws.

(** ** Loops *)

Section loops.
Context {W A : Type}.
Implicit Types (body : A → M W ()) (l : list A) (P : W → Prop).

Lemma for_each_app body l1 l2 :
  M_equiv (for_each body (l1 ++ l2))
          (bind (for_each body l1) (λ _, for_each body l2)).
Proof.
  induction l1 as [|x l1 IH]; simpl; [done|].
  etrans; [|symmetry; apply bind_assoc].
  apply bind_proper; [done | intros []; apply IH].
Qed.

(** A loop whose body always returns and keeps an invariant returns and
    keeps it. *)
Lemma for_each_invariant body l P :
  (∀ x w, x ∈ l → P w → ∃ w', body x w = (Returned (), w') ∧ P w') →
  ∀ w, P w → ∃ w', for_each body l w = (Returned (), w') ∧ P w'.
Proof.
  induction l as [|x l IH]; intros Hbody w HP; simpl.
  - by exists w.
  - destruct (Hbody x w) as (w1 & Hx & HP1); [left | done |].
    unfold bind. rewrite Hx. apply IH; [|done].
    intros y w2 Hy. apply Hbody. by right.
Qed.

End loops.

(** ** Strings *)

(** [str::starts_with]. *)
Definition starts_with (s pat : string) : bool := String.prefix pat s.

Section strings.
Implicit Types (s t p r : string) (a b : ascii).
Local Open Scope string_scope.

Lemma string_app_nil_r s : s +:+ "" = s.
Proof. induction s as [|a s IH]; [done|]. by rewrite <-IH at 2. Qed.

Lemma string_app_assoc s t r : (s +:+ t) +:+ r = s +:+ (t +:+ r).
Proof.
  induction s as [|a s IH]; [done|].
  change (String a ((s +:+ t) +:+ r) = String a (s +:+ (t +:+ r))).
  by rewrite IH.
Qed.

Lemma string_app_cons a s t : String a s +:+ t = String a (s +:+ t).
Proof. done. Qed.

Lemma string_length_app s t :
  String.length (s +:+ t) = String.length s + String.length t.
Proof.
  induction s as [|a s IH]; [done|].
  rewrite string_app_cons. simpl. by rewrite IH.
Qed.

Lemma starts_with_nil s : starts_with s "" = true.
Proof. by destruct s. Qed.

Lemma starts_with_cons a b s p :
  starts_with (String a s) (String b p) = bool_decide (a = b) && starts_with s p.
Proof.
  unfold starts_with. simpl. destruct (Ascii.ascii_dec b a) as [->|Hne].
  - by rewrite bool_decide_eq_true_2.
  - rewrite bool_decide_eq_false_2; [done | congruence].
Qed.

(** [starts_with] holds exactly of the strings that extend the pattern. *)
Lemma starts_with_spec s p : starts_with s p = true ↔ ∃ r, s = p +:+ r.
Proof.
  revert s. induction p as [|b p IH]; intros s.
  - rewrite starts_with_nil. split; [by exists s | done].
  - destruct s as [|a s]; [split; [done | by intros [r ?]]|].
    rewrite starts_with_cons, andb_true_iff, bool_decide_eq_true, IH.
    split.
    + intros [-> [r ->]]. by exists r.
    + intros [r Hr]. rewrite string_app_cons in Hr.
      injection Hr as -> ->. eauto.
Qed.

Lemma starts_with_app p r : starts_with (p +:+ r) p = true.
Proof. apply starts_with_spec. by exists r. Qed.

Lemma starts_with_trans s p q :
  starts_with s p = true → starts_with p q = true → starts_with s q = true.
Proof.
  rewrite !starts_with_spec. intros [r ->] [r' ->].
  exists (r' +:+ r). apply string_app_assoc.
Qed.

(** Two strings with a common head compare as their tails do. *)
Lemma string_compare_app_l p s t : (p +:+ s ?= p +:+ t) = (s ?= t).
Proof.
  induction p as [|a p IH]; [done|].
  rewrite !string_app_cons. simpl.
  unfold Ascii.compare. by rewrite N.compare_refl.
Qed.

(** Heads of equal length decide the comparison, and the tails break
    the tie. *)
Lemma string_compare_app s1 s2 t1 t2 :
  String.length s1 = String.length s2 →
  (s1 +:+ t1 ?= s2 +:+ t2) =
    match (s1 ?= s2) with Eq => (t1 ?= t2) | c => c end.
Proof.
  revert s2. induction s1 as [|a s1 IH]; intros [|b s2] Hlen; try done.
  rewrite !string_app_cons. simpl.
  destruct (Ascii.compare a b); [|done..].
  apply IH. by injection Hlen.
Qed.

Lemma string_compare_refl s : (s ?= s) = Eq.
Proof.
  induction s as [|a s IH]; [done|]. simpl.
  unfold Ascii.compare. by rewrite N.compare_refl.
Qed.

(** The first characters decide when they differ. *)
Lemma string_compare_head a b s t :
  (N_of_ascii a < N_of_ascii b)%N → (String a s ?= String b t) = Lt.
Proof.
  intros Hlt. simpl. unfold Ascii.compare.
  by rewrite (proj2 (N.compare_lt_iff _ _) Hlt).
Qed.

Lemma string_le_compare s t : String.le s t ↔ (s ?= t) ≠ Gt.
Proof.
  unfold String.le, String.leb. destruct (s ?= t); simpl; intuition congruence.
Qed.

Lemma string_lt_compare s t : strict String.le s t ↔ (s ?= t) = Lt.
Proof.
  unfold strict. rewrite !string_le_compare, (String.compare_antisym t s).
  destruct (s ?= t); simpl; intuition congruence.
Qed.

Lemma starts_with_app_l s t p : starts_with s p = true → starts_with (s +:+ t) p = true.
Proof.
  rewrite !starts_with_spec. intros [r ->]. exists (r +:+ t).
  apply string_app_assoc.
Qed.

Lemma starts_with_app_r s t p :
  starts_with t p = true → starts_with (s +:+ t) (s +:+ p) = true.
Proof.
  rewrite !starts_with_spec. intros [r ->]. exists r.
  by rewrite string_app_assoc.
Qed.

Lemma starts_with_refl s : starts_with s s = true.
Proof. apply starts_with_spec. exists "". by rewrite string_app_nil_r. Qed.

Lemma starts_with_substring s n : starts_with s (String.substring 0 n s) = true.
Proof.
  revert s. induction n as [|n IH]; intros [|a s]; try apply starts_with_nil.
  change (String.substring 0 (S n) (String a s))
    with (String a (String.substring 0 n s)).
  rewrite starts_with_cons, IH. by rewrite bool_decide_eq_true_2.
Qed.

Lemma joined_app (l1 l2 : list string) : joined (l1 ++ l2) = joined l1 +:+ joined l2.
Proof.
  induction l1 as [|x l1 IH]; simpl; [done|]. by rewrite IH, string_app_assoc.
Qed.

End strings.

#[export] Hint Rewrite string_app_nil_r string_app_assoc string_length_app
  starts_with_nil starts_with_app string_compare_refl : logs.

(** ** Lists *)

Lemma list_filter_True_in {A} (P : A → Prop) `{!∀ x, Decision (P x)} (l : list A) :
  (∀ x, x ∈ l → P x) → filter P l = l.
Proof.
  induction l as [|x l IH]; intros Hl; [done|].
  rewrite filter_cons_True by (apply Hl; left).
  rewrite IH; [done|]. intros y Hy. apply Hl. by right.
Qed.

Lemma list_filter_False_in {A} (P : A → Prop) `{!∀ x, Decision (P x)} (l : list A) :
  (∀ x, x ∈ l → ¬ P x) → filter P l = [].
Proof.
  induction l as [|x l IH]; intros Hl; [done|].
  rewrite filter_cons_False by (apply Hl; left).
  apply IH. intros y Hy. apply Hl. by right.
Qed.

(** The elements of a list at every index but [i]. *)
Definition others {A} (P : A → Prop) (l : list A) (i : nat) : Prop :=
  ∀ j x, j ≠ i → l !! j = Some x → P x.

Lemma others_alt {A} (P : A → Prop) (l : list A) i :
  others P l i ↔ Forall (λ jx, jx.1 ≠ i → P jx.2) (imap pair l).
Proof.
  rewrite Forall_lookup. split.
  - intros Hall j [j' x]. rewrite list_lookup_imap.
    destruct (l !! j) eqn:Hj; intros ??; simplify_eq/=. by eapply Hall.
  - intros Hall j x Hne Hj. apply (Hall j (j, x)); [|done].
    by rewrite list_lookup_imap, Hj.
Qed.

#[export] Instance others_dec {A} (P : A → Prop) `{!∀ x, Decision (P x)} l i :
  Decision (others P l i).
Proof.
  refine (cast_if (decide (Forall (λ jx, jx.1 ≠ i → P jx.2) (imap pair l))));
    by rewrite others_alt.
Defined.

(** After the element at [i] has changed they are what they were. *)
Lemma others_insert {A} (P : A → Prop) (l : list A) i x :
  others P l i ↔ others P (<[i := x]> l) i.
Proof.
  split; intros Hall j y Hne Hj; apply (Hall j y Hne);
    by rewrite list_lookup_insert_ne in * by done.
Qed.

(** ** Machine integers *)

(** [usize] on a 64-bit target: a number below [2^64]. Subtraction and
    addition wrap around, as they do in a release build. *)
Definition usize_modulus : N := 2 ^ 64.

Definition usize_max : N := usize_modulus - 1.

Definition usize_sub (a b : N) : N :=
  Z.to_N ((Z.of_N a - Z.of_N b) `mod` Z.of_N usize_modulus).

Definition usize_add (a b : N) : N := ((a + b) `mod` usize_modulus)%N.

(** The range [0..n] a [for] loop runs over. *)
Definition range (n : N) : list nat := seq 0 (N.to_nat n).

Section usize.
Implicit Types a b : N.

Lemma usize_sub_le a b : (b ≤ a)%N → (a ≤ usize_max)%N → usize_sub a b = (a - b)%N.
Proof.
  unfold usize_sub, usize_max, usize_modulus. intros Hba Ha.
  rewrite Z.mod_small; lia.
Qed.

Lemma usize_add_small a b : (a + b ≤ usize_max)%N → usize_add a b = (a + b)%N.
Proof.
  unfold usize_add, usize_max, usize_modulus. intros H.
  apply N.mod_small. lia.
Qed.

Lemma usize_sub_lt a b :
  (a < b)%N → (b ≤ usize_max)%N → usize_sub a b = (usize_modulus - (b - a))%N.
Proof.
  unfold usize_sub, usize_max, usize_modulus. intros Hab Hb.
  rewrite <-(Z.mod_add _ 1) by lia. rewrite Z.mod_small; lia.
Qed.

Lemma elem_of_range n (i : nat) : i ∈ range n ↔ (N.of_nat i < n)%N.
Proof. unfold range. rewrite elem_of_seq. lia. Qed.

Lemma length_range n : length (range n) = N.to_nat n.
Proof. apply length_seq. Qed.

Lemma range_sorted n : StronglySorted lt (range n).
Proof.
  unfold range. generalize 0%nat.
  induction (N.to_nat n) as [|k IH]; intros s; simpl; constructor; [apply IH|].
  apply Forall_forall. intros i Hi%elem_of_seq. lia.
Qed.

(** Wrapping never makes a sum larger, nor a difference that does not
    go below zero. *)
Lemma usize_add_le a b : (usize_add a b ≤ a + b)%N.
Proof. apply N.Div0.mod_le. Qed.

Lemma usize_sub_below a b : (b ≤ a)%N → (usize_sub a b ≤ a - b)%N.
Proof.
  intros Hba. unfold usize_sub.
  pose proof (Z.mod_le (Z.of_N a - Z.of_N b) (Z.of_N usize_modulus)).
  unfold usize_modulus in *. lia.
Qed.

End usize.

(** ** Hoare triples for total correctness

    [hoare P c Q]: from every state that satisfies [P], [c] returns (it
    does not panic), and its value and final state satisfy [Q]. The rules
    below follow the structure of the code. *)

Definition hoare {W A} (P : W → Prop) (c : M W A) (Q : A → W → Prop) : Prop :=
  ∀ w, P w → ∃ a w', c w = (Returned a, w') ∧ Q a w'.

Section hoare.
Context {W : Type}.
Implicit Types (P : W → Prop).

Lemma hoare_run {A} P (c : M W A) Q w a w' :
  hoare P c Q → P w → c w = (Returned a, w') → Q a w'.
Proof. intros Hc HP Hrun. destruct (Hc w HP) as (a' & w'' & ? & ?). congruence. Qed.

Lemma hoare_conseq {A} P P' (c : M W A) (Q Q' : A → W → Prop) :
  hoare P' c Q' → (∀ w, P w → P' w) → (∀ a w, Q' a w → Q a w) → hoare P c Q.
Proof.
  intros Hc HP HQ w Hw. destruct (Hc w (HP w Hw)) as (a & w' & ? & ?). eauto.
Qed.

Lemma hoare_ret {A} P (a : A) (Q : A → W → Prop) :
  (∀ w, P w → Q a w) → hoare P (ret a) Q.
Proof. intros HQ w Hw. exists a, w. eauto. Qed.

Lemma hoare_bind {A B} P (c : M W A) (k : A → M W B) R (Q : B → W → Prop) :
  hoare P c R → (∀ a, hoare (R a) (k a) Q) → hoare P (bind c k) Q.
Proof.
  intros Hc Hk w Hw. destruct (Hc w Hw) as (a & w' & Hrun & HR).
  destruct (Hk a w' HR) as (b & w'' & Hrun' & HQ).
  exists b, w''. unfold bind. by rewrite Hrun.
Qed.

Lemma hoare_bind_try {E A B} P (c : M W (result E A))
    (k : A → M W (result E B)) R (Q : result E B → W → Prop) :
  hoare P c R → (∀ a, hoare (R (Ok a)) (k a) Q) →
  (∀ e w, R (Err e) w → Q (Err e) w) → hoare P (bind_try c k) Q.
Proof.
  intros Hc Hk He. unfold bind_try. eapply hoare_bind; [done|].
  intros [a|e]; [apply Hk | apply hoare_ret, He].
Qed.

Lemma hoare_get P (Q : W → W → Prop) : (∀ w, P w → Q w w) → hoare P get Q.
Proof. intros HQ w Hw. exists w, w. eauto. Qed.

Lemma hoare_gets {A} P (f : W → A) (Q : A → W → Prop) :
  (∀ w, P w → Q (f w) w) → hoare P (gets f) Q.
Proof. intros HQ w Hw. exists (f w), w. eauto. Qed.

Lemma hoare_modify P (f : W → W) (Q : () → W → Prop) :
  (∀ w, P w → Q () (f w)) → hoare P (modify f) Q.
Proof. intros HQ w Hw. exists (), (f w). eauto. Qed.

Lemma hoare_expect {A} P (o : option A) msg (Q : A → W → Prop) :
  (∀ w, P w → ∃ a, o = Some a ∧ Q a w) → hoare P (expect o msg) Q.
Proof.
  intros HQ w Hw. destruct (HQ w Hw) as (a & -> & ?). exists a, w. eauto.
Qed.

(** A precondition may be assumed to have a witness. *)
Lemma hoare_pre {A} P (c : M W A) Q : (∀ w0, P w0 → hoare (λ w, w = w0) c Q) → hoare P c Q.
Proof. intros Hc w Hw. by apply (Hc w Hw). Qed.

(** A loop, by an invariant indexed by the elements still to visit. *)
Lemma hoare_for_each {A} (I : list A → W → Prop) (body : A → M W ()) l :
  (∀ x l', hoare (I (x :: l')) (body x) (λ _, I l')) →
  hoare (I l) (for_each body l) (λ _, I []).
Proof.
  intros Hbody. induction l as [|x l IH]; simpl.
  - by apply hoare_ret.
  - eapply hoare_bind; [apply Hbody | intros []; apply IH].
Qed.

End hoare.

(** ** The characters of a string *)

Definition chars (s : string) : list ascii := String.list_ascii_of_string s.

Section chars.
Implicit Types (s t : string) (a : ascii).
Local Open Scope string_scope.

Lemma chars_cons a s : chars (String a s) = a :: chars s.
Proof. done. Qed.

Lemma chars_app s t : chars (s +:+ t) = (chars s ++ chars t)%list.
Proof.
  induction s as [|a s IH]; [done|].
  rewrite string_app_cons, !chars_cons, IH. done.
Qed.

Lemma length_chars s : length (chars s) = String.length s.
Proof. induction s as [|a s IH]; [done|]. rewrite chars_cons. simpl. by rewrite IH. Qed.

Lemma chars_inj s t : chars s = chars t → s = t.
Proof.
  intros H%(f_equal String.string_of_list_ascii).
  unfold chars in H. by rewrite !String.string_of_list_ascii_of_string in H.
Qed.

End chars.

#[export] Hint Rewrite chars_cons chars_app length_chars : logs.
#[export] Hint Rewrite joined_app : logs.
#[export] Hint Resolve starts_with_app starts_with_nil starts_with_refl : logs.
