(* ===== verification/Clock.v ===== *)
(** * Clock: local date and time, and the formats the code uses

    [RotatingFileWriter::new] names the new file after
    [chrono::Local::now().format("%Y-%m-%dT%H:%M:%S")] (src/src/writer.rs,
    line 46). This file holds the calendar record the clock returns, the
    interpretation of a [strftime] format string over it, and the facts
    about the resulting text that the writer relies on: it always renders,
    it is 19 characters wide for the years 0 to 9999, it contains no path
    separator, and comparing two such texts as strings compares the moments
    they denote. It also holds [to_rfc2822], the text the formatter puts
    at the head of a line (src/src/format.rs, line 25), which exists for
    the years 0 to 9999 only; the formula for the day of the week in it
    is checked against the calendar: from every date to the next the
    day of the week moves on by one ([weekday_next_day]). *)

From Stdlib Require Import Ascii.
From stdpp Require Import base tactics numbers list strings pretty.
From S2P Require Import Prelude.

Local Open Scope string_scope.

(** ** Data *)

(** A local calendar date and time of day, as [chrono::DateTime<Local>]
    exposes it to a formatter. *)
Record DateTime : Type := mkDateTime {
  dt_year : Z;
  dt_month : N;
  dt_day : N;
  dt_hour : N;
  dt_minute : N;
  dt_second : N;
}.

#[export] Instance DateTime_eq_dec : EqDecision DateTime.
Proof. solve_decision. Defined.

(** The numeric fields a format can ask for. *)
Inductive Numeric : Type :=
| Year      (* %Y *)
| Month     (* %m *)
| Day       (* %d *)
| Hour      (* %H *)
| Minute    (* %M *)
| Second.   (* %S *)

(** One item of a parsed format string. *)
Inductive Item : Type :=
| Literal (c : ascii)
| Field (f : Numeric)
| ItemError.

(** ** Rendering numbers *)

Definition digit (n : N) : ascii := ascii_of_N (48 + n).

(** [n] in exactly [w] decimal digits, most significant first (the digits
    of [n mod 10^w]). *)
Fixpoint fixed_digits (w : nat) (n : N) : string :=
  match w with
  | O => ""
  | S w' => String (digit (n / 10 ^ N.of_nat w'))
                   (fixed_digits w' (n mod 10 ^ N.of_nat w'))
  end.

(** [n] padded with zeros to at least [w] digits. *)
Definition pad_decimal (w : nat) (n : N) : string :=
  if decide (n < 10 ^ N.of_nat w)%N then fixed_digits w n else pretty n.

(** [%Y]: four digits for the years 0 to 9999, a sign and at least four
    digits outside that range. *)
Definition render_year (y : Z) : string :=
  if decide (0 ≤ y ≤ 9999)%Z then pad_decimal 4 (Z.to_N y)
  else (if decide (y < 0)%Z then "-" else "+") +:+ pad_decimal 4 (Z.abs_N y).

Definition render_field (f : Numeric) (dt : DateTime) : string :=
  match f with
  | Year => render_year (dt_year dt)
  | Month => pad_decimal 2 (dt_month dt)
  | Day => pad_decimal 2 (dt_day dt)
  | Hour => pad_decimal 2 (dt_hour dt)
  | Minute => pad_decimal 2 (dt_minute dt)
  | Second => pad_decimal 2 (dt_second dt)
  end.

(** ** Format strings *)

Definition spec_item (c : ascii) : Item :=
  if decide (c = "Y"%char) then Field Year
  else if decide (c = "m"%char) then Field Month
  else if decide (c = "d"%char) then Field Day
  else if decide (c = "H"%char) then Field Hour
  else if decide (c = "M"%char) then Field Minute
  else if decide (c = "S"%char) then Field Second
  else if decide (c = "%"%char) then Literal "%"
  else ItemError.

Fixpoint parse_format (s : string) : list Item :=
  match s with
  | "" => []
  | String c rest =>
      if decide (c = "%"%char) then
        match rest with
        | "" => [ItemError]
        | String c' rest' => spec_item c' :: parse_format rest'
        end
      else Literal c :: parse_format rest
  end.

Definition render_item (dt : DateTime) (i : Item) : option string :=
  match i with
  | Literal c => Some (String c "")
  | Field f => Some (render_field f dt)
  | ItemError => None
  end.

(** The text of the items in order, or [None] when one of them is an
    error (an unknown specifier). *)
Fixpoint render_items (dt : DateTime) (items : list Item) : option string :=
  match items with
  | [] => Some ""
  | i :: items' =>
      match render_item dt i, render_items dt items' with
      | Some s, Some rest => Some (s +:+ rest)
      | _, _ => None
      end
  end.

(** [DateTime::format(fmt).to_string()]. *)
Definition strftime (fmt : string) (dt : DateTime) : option string :=
  render_items dt (parse_format fmt).

Arguments strftime : simpl never.

(** The format of the name of a log file (writer.rs, line 46). *)
Definition time_format : string := "%Y-%m-%dT%H:%M:%S".

(** ** Calendar validity and order *)

(** The field ranges in which the format is fixed-width. Second 60 is a
    leap second, which chrono renders as 60. *)
Definition valid_datetime (dt : DateTime) : Prop :=
  (0 ≤ dt_year dt ≤ 9999)%Z ∧
  (1 ≤ dt_month dt ≤ 12)%N ∧ (1 ≤ dt_day dt ≤ 31)%N ∧
  (dt_hour dt < 24)%N ∧ (dt_minute dt < 60)%N ∧ (dt_second dt ≤ 60)%N.

#[export] Instance valid_datetime_dec dt : Decision (valid_datetime dt).
Proof. unfold valid_datetime. apply _. Defined.

(** The text of a moment in the format of line 46: what [time_format]
    renders (lemma [strftime_time_format]). *)
Definition timestamp_text (dt : DateTime) : string :=
  render_year (dt_year dt) +:+ "-" +:+ pad_decimal 2 (dt_month dt)
  +:+ "-" +:+ pad_decimal 2 (dt_day dt) +:+ "T"
  +:+ pad_decimal 2 (dt_hour dt) +:+ ":"
  +:+ pad_decimal 2 (dt_minute dt) +:+ ":"
  +:+ pad_decimal 2 (dt_second dt).

(** Comparison of tuples: the first components decide, the next ones break
    the tie. *)
Definition lex (c1 c2 : comparison) : comparison :=
  match c1 with Eq => c2 | Lt => Lt | Gt => Gt end.

(** The order of moments. *)
Definition dt_compare (a b : DateTime) : comparison :=
  lex (dt_year a ?= dt_year b)%Z
  (lex (dt_month a ?= dt_month b)%N
  (lex (dt_day a ?= dt_day b)%N
  (lex (dt_hour a ?= dt_hour b)%N
  (lex (dt_minute a ?= dt_minute b)%N
       (dt_second a ?= dt_second b)%N)))).

(** ** Characters of a timestamp *)

Definition is_digit (c : ascii) : Prop := (48 ≤ N_of_ascii c ≤ 57)%N.

(** Digits and the three separators of the format. *)
Definition timestamp_char (c : ascii) : Prop :=
  is_digit c ∨ c = "-"%char ∨ c = "T"%char ∨ c = ":"%char.

(** ** RFC 2822 *)

Definition short_weekdays : list string :=
  ["Sun"; "Mon"; "Tue"; "Wed"; "Thu"; "Fri"; "Sat"].

Definition short_months : list string :=
  ["Jan"; "Feb"; "Mar"; "Apr"; "May"; "Jun"; "Jul"; "Aug"; "Sep"; "Oct"; "Nov"; "Dec"].

(** The day of the week of a date of the proleptic Gregorian calendar,
    0 for Sunday: the years before, their leap days, the months before
    (from a table) and the day of the month, modulo 7. January and
    February count with the year before. *)
Definition weekday (dt : DateTime) : N :=
  let y := (if decide (dt_month dt < 3)%N then dt_year dt - 1 else dt_year dt)%Z in
  let t := nth (N.to_nat (dt_month dt) - 1) [0; 3; 2; 5; 0; 3; 5; 1; 4; 6; 2; 4]%Z 0%Z in
  Z.to_N ((y + y / 4 - y / 100 + y / 400 + t + Z.of_N (dt_day dt)) `mod` 7)%Z.

(** The day of the month, without padding. *)
Definition render_day (d : N) : string :=
  if decide (d < 10)%N then String (digit d) "" else fixed_digits 2 d.

(** The offset from UTC in minutes, as a sign, two digits of hours and
    two of minutes. *)
Definition render_offset (minutes : Z) : string :=
  (if decide (minutes < 0)%Z then "-" else "+") +:+
  fixed_digits 2 (Z.abs_N minutes / 60) +:+ fixed_digits 2 (Z.abs_N minutes `mod` 60).

(** [DateTime::to_rfc2822], such as [Tue, 1 Jul 2003 10:52:37 +0200],
    for a local time [offset] minutes east of UTC. The format is defined
    for the years 0 to 9999; outside of them there is no text, and the
    library panics. *)
Definition to_rfc2822 (dt : DateTime) (offset : Z) : option string :=
  if decide (0 ≤ dt_year dt ≤ 9999)%Z then
    Some (nth (N.to_nat (weekday dt)) short_weekdays "" +:+ ", " +:+
          render_day (dt_day dt) +:+ " " +:+
          nth (N.to_nat (dt_month dt) - 1) short_months "" +:+ " " +:+
          fixed_digits 4 (Z.to_N (dt_year dt)) +:+ " " +:+
          fixed_digits 2 (dt_hour dt) +:+ ":" +:+
          fixed_digits 2 (dt_minute dt) +:+ ":" +:+
          fixed_digits 2 (dt_second dt) +:+ " " +:+ render_offset offset)
  else None.

(** *** The calendar, as a reference for [weekday] *)

(** A leap year of the Gregorian calendar. *)
Definition is_leap (y : Z) : bool :=
  bool_decide (y `mod` 4 = 0)%Z &&
  (negb (bool_decide (y `mod` 100 = 0)%Z) || bool_decide (y `mod` 400 = 0)%Z).

Definition days_in_month (y : Z) (m : N) : N :=
  match m with
  | 2 => if is_leap y then 29 else 28
  | 4 | 6 | 9 | 11 => 30
  | _ => 31
  end%N.

(** A date of the calendar. *)
Definition real_date (dt : DateTime) : Prop :=
  (1 ≤ dt_month dt ≤ 12)%N ∧
  (1 ≤ dt_day dt ≤ days_in_month (dt_year dt) (dt_month dt))%N.

#[export] Instance real_date_dec dt : Decision (real_date dt).
Proof. unfold real_date. apply _. Defined.

(** The same time on the day after. *)
Definition next_day (dt : DateTime) : DateTime :=
  if decide (dt_day dt < days_in_month (dt_year dt) (dt_month dt))%N then
    mkDateTime (dt_year dt) (dt_month dt) (dt_day dt + 1)
               (dt_hour dt) (dt_minute dt) (dt_second dt)
  else if decide (dt_month dt < 12)%N then
    mkDateTime (dt_year dt) (dt_month dt + 1) 1 (dt_hour dt) (dt_minute dt) (dt_second dt)
  else mkDateTime (dt_year dt + 1) 1 1 (dt_hour dt) (dt_minute dt) (dt_second dt).

(** ** The format always renders *)

Lemma parse_time_format :
  parse_format time_format =
    [Field Year; Literal "-"; Field Month; Literal "-"; Field Day;
     Literal "T"; Field Hour; Literal ":"; Field Minute; Literal ":";
     Field Second].
Proof. reflexivity. Qed.

Lemma strftime_time_format dt :
  strftime time_format dt = Some (timestamp_text dt).
Proof.
  unfold strftime. rewrite parse_time_format. simpl.
  by rewrite string_app_nil_r.
Qed.

(** ** Digits *)

Section digits.
Implicit Types (w : nat) (n a b : N).

Lemma N_of_digit n : (n < 10)%N → N_of_ascii (digit n) = (48 + n)%N.
Proof. intros. unfold digit. apply N_ascii_embedding. lia. Qed.

Lemma digit_is_digit n : (n < 10)%N → is_digit (digit n).
Proof. intros. unfold is_digit. rewrite N_of_digit; lia. Qed.

Lemma digit_compare a b :
  (a < 10)%N → (b < 10)%N → Ascii.compare (digit a) (digit b) = (a ?= b)%N.
Proof.
  intros. unfold Ascii.compare. rewrite !N_of_digit by done.
  destruct (N.compare_spec a b), (N.compare_spec (48 + a) (48 + b)); lia || done.
Qed.

Lemma fixed_digits_length w n : String.length (fixed_digits w n) = w.
Proof. revert n. induction w as [|w IH]; intros n; simpl; [done | by rewrite IH]. Qed.

Lemma pow10_succ w : (10 ^ N.of_nat (S w) = 10 * 10 ^ N.of_nat w)%N.
Proof. rewrite Nat2N.inj_succ, N.pow_succ_r'. done. Qed.

Lemma fixed_digits_chars w n :
  (n < 10 ^ N.of_nat w)%N → Forall is_digit (chars (fixed_digits w n)).
Proof.
  revert n. induction w as [|w IH]; intros n Hn; simpl; [constructor|].
  rewrite pow10_succ in Hn. constructor.
  - apply digit_is_digit, N.Div0.div_lt_upper_bound. lia.
  - apply IH, N.mod_lt. lia.
Qed.

Lemma compare_div_mod a b p :
  (0 < p)%N →
  (a ?= b)%N = lex (a `div` p ?= b `div` p)%N (a `mod` p ?= b `mod` p)%N.
Proof.
  intros Hp.
  pose proof (N.div_mod a p ltac:(lia)) as Ha.
  pose proof (N.div_mod b p ltac:(lia)) as Hb.
  pose proof (N.mod_lt a p ltac:(lia)). pose proof (N.mod_lt b p ltac:(lia)).
  set (qa := (a `div` p)%N) in *. set (ra := (a `mod` p)%N) in *.
  set (qb := (b `div` p)%N) in *. set (rb := (b `mod` p)%N) in *.
  clearbody qa ra qb rb.
  destruct (N.compare_spec qa qb) as [->|Hlt|Hlt]; simpl.
  - destruct (N.compare_spec ra rb);
      [apply N.compare_eq_iff | apply N.compare_lt_iff | apply N.compare_gt_iff];
      lia.
  - apply N.compare_lt_iff.
    assert (p * (qa + 1) ≤ p * qb)%N by (apply N.mul_le_mono_l; lia). lia.
  - apply N.compare_gt_iff.
    assert (p * (qb + 1) ≤ p * qa)%N by (apply N.mul_le_mono_l; lia). lia.
Qed.

(** Numbers of the same width compare as their digits do. *)
Lemma fixed_digits_compare w a b :
  (a < 10 ^ N.of_nat w)%N → (b < 10 ^ N.of_nat w)%N →
  (fixed_digits w a ?= fixed_digits w b) = (a ?= b)%N.
Proof.
  revert a b. induction w as [|w IH]; intros a b Ha Hb.
  - simpl in *. replace a with 0%N by lia. by replace b with 0%N by lia.
  - rewrite pow10_succ in Ha, Hb. simpl.
    assert (0 < 10 ^ N.of_nat w)%N
      by (apply N.neq_0_lt_0, N.pow_nonzero; lia).
    rewrite digit_compare by (apply N.Div0.div_lt_upper_bound; lia).
    rewrite IH by (apply N.mod_lt; lia).
    symmetry. by apply compare_div_mod.
Qed.

Lemma fixed_digits_inj w a b :
  (a < 10 ^ N.of_nat w)%N → (b < 10 ^ N.of_nat w)%N →
  fixed_digits w a = fixed_digits w b → a = b.
Proof.
  intros Ha Hb Heq. apply N.compare_eq_iff.
  rewrite <-(fixed_digits_compare w) by done. rewrite Heq.
  apply string_compare_refl.
Qed.

End digits.

#[export] Hint Rewrite fixed_digits_length : logs.

(** ** Timestamps *)

Section timestamps.
Implicit Types (dt a b : DateTime) (w : nat) (n : N).

Lemma pad_decimal_fixed w n :
  (n < 10 ^ N.of_nat w)%N → pad_decimal w n = fixed_digits w n.
Proof. intros. unfold pad_decimal. by rewrite decide_True. Qed.

Lemma render_year_fixed y :
  (0 ≤ y ≤ 9999)%Z → render_year y = fixed_digits 4 (Z.to_N y).
Proof.
  intros. unfold render_year. rewrite decide_True by done.
  apply pad_decimal_fixed. simpl. lia.
Qed.

(** In the calendar's ranges every field has its fixed width. *)
Lemma timestamp_text_valid dt :
  valid_datetime dt →
  timestamp_text dt =
    fixed_digits 4 (Z.to_N (dt_year dt)) +:+ "-" +:+
    fixed_digits 2 (dt_month dt) +:+ "-" +:+ fixed_digits 2 (dt_day dt) +:+ "T" +:+
    fixed_digits 2 (dt_hour dt) +:+ ":" +:+ fixed_digits 2 (dt_minute dt) +:+ ":" +:+
    fixed_digits 2 (dt_second dt).
Proof.
  intros (Hy & Hm & Hd & Hh & Hmi & Hs). unfold timestamp_text.
  rewrite render_year_fixed by done.
  rewrite !pad_decimal_fixed by (simpl; lia). done.
Qed.

Lemma timestamp_text_length dt :
  valid_datetime dt → String.length (timestamp_text dt) = 19.
Proof.
  intros Hv. rewrite timestamp_text_valid by done.
  by autorewrite with logs.
Qed.

Lemma timestamp_text_chars dt :
  valid_datetime dt → Forall timestamp_char (chars (timestamp_text dt)).
Proof.
  intros Hv. rewrite timestamp_text_valid by done.
  destruct Hv as (Hy & Hm & Hd & Hh & Hmi & Hs).
  rewrite !chars_app. repeat apply Forall_app_2;
    try (eapply Forall_impl; [apply fixed_digits_chars; simpl; lia | by left]).
  all: apply Forall_singleton; unfold timestamp_char; auto.
Qed.

Lemma timestamp_text_no_slash dt :
  valid_datetime dt → "/"%char ∉ chars (timestamp_text dt).
Proof.
  intros Hv Hin. eapply Forall_forall in Hin; [|by apply timestamp_text_chars].
  destruct Hin as [[? ?]|[?|[?|?]]]; [simpl in *; lia | done..].
Qed.

(** Timestamps compare as strings the way the moments compare. *)
Lemma timestamp_text_compare a b :
  valid_datetime a → valid_datetime b →
  (timestamp_text a ?= timestamp_text b) = dt_compare a b.
Proof.
  intros Ha Hb. rewrite !timestamp_text_valid by done.
  destruct Ha as (Hy & Hm & Hd & Hh & Hmi & Hs).
  destruct Hb as (Hy' & Hm' & Hd' & Hh' & Hmi' & Hs').
  unfold dt_compare.
  repeat (rewrite string_compare_app by (by rewrite !fixed_digits_length);
          rewrite fixed_digits_compare by (simpl; lia);
          rewrite string_compare_app_l).
  rewrite fixed_digits_compare by (simpl; lia).
  by rewrite Z2N.inj_compare by lia.
Qed.

(** Past the year 9999 the text begins with a sign, which sorts before
    every digit: the text of the later moment is the smaller one. *)
Lemma timestamp_text_late a b :
  (9999 < dt_year a)%Z → valid_datetime b →
  (timestamp_text a ?= timestamp_text b) = Lt ∧ dt_compare a b = Gt.
Proof.
  intros Ha Hb. rewrite (timestamp_text_valid b) by done.
  destruct Hb as (Hy & _). split.
  - unfold timestamp_text, render_year.
    rewrite decide_False, decide_False by lia. cbn [fixed_digits].
    rewrite !string_app_cons. apply string_compare_head.
    rewrite N_of_digit by (apply N.Div0.div_lt_upper_bound; simpl; lia).
    by apply N.lt_lt_add_r.
  - unfold dt_compare. by rewrite (proj2 (Z.compare_gt_iff _ _)) by lia.
Qed.

Lemma lex_eq c1 c2 : lex c1 c2 = Eq ↔ c1 = Eq ∧ c2 = Eq.
Proof. destruct c1; simpl; intuition congruence. Qed.

Lemma dt_compare_eq a b : dt_compare a b = Eq ↔ a = b.
Proof.
  unfold dt_compare. rewrite !lex_eq, Z.compare_eq_iff, !N.compare_eq_iff.
  destruct a, b; simpl. intuition congruence.
Qed.

(** Distinct moments have distinct timestamps. *)
Lemma timestamp_text_inj a b :
  valid_datetime a → valid_datetime b →
  timestamp_text a = timestamp_text b → a = b.
Proof.
  intros Ha Hb Heq. apply dt_compare_eq.
  rewrite <-timestamp_text_compare by done. rewrite Heq.
  apply string_compare_refl.
Qed.

End timestamps.

(** ** Facts about [to_rfc2822] *)

Section rfc2822.
Implicit Types (dt : DateTime) (offset : Z).

Lemma weekday_lt dt : (weekday dt < 7)%N.
Proof.
  unfold weekday.
  match goal with
  | |- (Z.to_N (?x `mod` 7) < 7)%N => pose proof (Z.mod_pos_bound x 7 ltac:(lia))
  end. lia.
Qed.

Lemma to_rfc2822_is_Some dt offset :
  is_Some (to_rfc2822 dt offset) ↔ (0 ≤ dt_year dt ≤ 9999)%Z.
Proof. unfold to_rfc2822. case_decide; [by split; eauto | split; [by intros [] | done]]. Qed.

Lemma to_rfc2822_None dt offset :
  to_rfc2822 dt offset = None ↔ ¬ (0 ≤ dt_year dt ≤ 9999)%Z.
Proof. by rewrite eq_None_not_Some, to_rfc2822_is_Some. Qed.

(** *** The day of the week counts the days *)

Lemma month_cases (m : N) :
  (1 ≤ m ≤ 12)%N →
  (m = 1 ∨ m = 2 ∨ m = 3 ∨ m = 4 ∨ m = 5 ∨ m = 6 ∨ m = 7 ∨ m = 8 ∨ m = 9 ∨
   m = 10 ∨ m = 11 ∨ m = 12)%N.
Proof. lia. Qed.

Lemma next_day_real dt : real_date dt → real_date (next_day dt).
Proof.
  destruct dt as [y m d hh mm ss]. intros [Hm Hd]. unfold next_day, real_date in *.
  simpl in *. repeat case_decide; simpl; [lia | | done].
  pose proof (month_cases m Hm) as Hcases. destruct_or! Hcases; subst m;
    simpl; try lia; destruct (is_leap y); lia.
Qed.

(** The formula of [weekday] is right from one day to the next, over
    the ends of months, of years and of February in leap years and in
    others: the day after has the next day of the week. *)
Lemma weekday_next_day dt :
  real_date dt → weekday (next_day dt) = ((weekday dt + 1) `mod` 7)%N.
Proof.
  destruct dt as [y m d hh mm ss]. intros [Hm Hd]. simpl in *.
  unfold next_day, weekday, days_in_month, is_leap in *. simpl in *.
  pose proof (month_cases m Hm) as Hcases. destruct_or! Hcases; subst m;
    simpl in *; repeat (case_bool_decide || case_decide); simpl in *; try lia;
    apply N2Z.inj; rewrite ?N2Z.inj_mod, ?N2Z.inj_add, ?Z2N.id by (apply Z.mod_pos_bound; lia);
    Z.div_mod_to_equations; lia.
Qed.

(** So the day of the week is the number of days since a known day,
    modulo 7. *)
Lemma weekday_days_after n dt :
  real_date dt →
  real_date (Nat.iter n next_day dt) ∧
  weekday (Nat.iter n next_day dt) = ((weekday dt + N.of_nat n) `mod` 7)%N.
Proof.
  intros Hdt. induction n as [|n [Hreal IH]]; simpl.
  - split; [done|]. rewrite N.add_0_r, N.mod_small; [done | apply weekday_lt].
  - split; [by apply next_day_real|]. rewrite weekday_next_day, IH by done.
    rewrite N.Div0.add_mod_idemp_l. f_equal. lia.
Qed.

(** Thursday, 1 January 1970, and the days after it. *)
Lemma weekday_since_1970 n :
  weekday (Nat.iter n next_day (mkDateTime 1970 1 1 0 0 0)) = ((4 + N.of_nat n) `mod` 7)%N.
Proof. by apply weekday_days_after. Qed.

(** The days of the week of some known dates, the examples of the
    documentation of the code and of the library among them. *)
Lemma weekday_examples :
  weekday (mkDateTime 1997 11 12 9 55 6) = 3%N ∧
  weekday (mkDateTime 2003 7 1 10 52 37) = 2%N ∧
  weekday (mkDateTime 1970 1 1 0 0 0) = 4%N ∧
  weekday (mkDateTime 2000 2 29 0 0 0) = 2%N ∧
  weekday (mkDateTime 2024 1 4 9 5 6) = 4%N.
Proof. done. Qed.

Lemma to_rfc2822_examples :
  to_rfc2822 (mkDateTime 1997 11 12 9 55 6) (-360) =
    Some "Wed, 12 Nov 1997 09:55:06 -0600" ∧
  to_rfc2822 (mkDateTime 2003 7 1 10 52 37) 120 =
    Some "Tue, 1 Jul 2003 10:52:37 +0200" ∧
  to_rfc2822 (mkDateTime 10000 1 1 0 0 0) 0 = None.
Proof. done. Qed.

End rfc2822.
