(* ===== verification/FileSystem.v ===== *)
(** * FileSystem: the files and directories the writer acts on

    The operating system as [RotatingFileWriter] sees it through [std::fs],
    [fs_err] and [walkdir]: a tree of directories and files, the contents of
    the files, the paths on which the system refuses an operation, the room
    left on the device, the local clock, and the warnings the process has
    logged. Every operation is a
    function of the monad [M world]; it returns the [io::Result] the Rust
    call returns and the world it leaves behind.

    Paths are lists of names with the innermost name first, so that the
    child [n] of a directory [d] is [n :: d] and the parent of a path is
    its tail; the root is the empty list. *)

From Stdlib Require Import Ascii.
From stdpp Require Import base tactics option list strings gmap.
From S2P Require Import Prelude Clock.

Local Open Scope string_scope.
Local Open Scope io_scope.

(** ** Data *)

Notation path := (list string) (only parsing).

Notation bytes := (list Byte.byte) (only parsing).

(** The kinds of [std::io::Error] the modelled calls produce. *)
Inductive io_error : Type :=
| NotFound
| PermissionDenied
| AlreadyExists
| NotADirectory
| IsADirectory
| Unsupported
| StorageFull
| WriteZero.

#[export] Instance io_error_eq_dec : EqDecision io_error.
Proof. solve_decision. Defined.

(** What a directory entry is: [walkdir]'s [FileType]. *)
Inductive file_type : Type :=
| FtFile
| FtDir
| FtOther.

#[export] Instance file_type_eq_dec : EqDecision file_type.
Proof. solve_decision. Defined.

(** What a path leads to: a regular file with the number of its contents,
    a directory, or something else (a symbolic link, a fifo, a device). *)
Inductive inode : Type :=
| IFile (ino : N)
| IDir
| IOther.

#[export] Instance inode_eq_dec : EqDecision inode.
Proof. solve_decision. Defined.

Definition inode_type (i : inode) : file_type :=
  match i with IFile _ => FtFile | IDir => FtDir | IOther => FtOther end.

Record world : Type := mkWorld {
  w_tree : gmap path inode;      (* what every existing path leads to *)
  w_data : gmap N bytes;         (* the contents of the regular files *)
  w_next_ino : N;                (* the next unused file number *)
  w_denied : gset path;          (* where the system refuses to create,
                                    remove or list *)
  w_space : N;                   (* the bytes the device has room for *)
  w_now : DateTime;              (* the local clock *)
  w_warnings : list io_error;    (* what [warn!] has logged, oldest first *)
}.

Definition set_tree (f : gmap path inode → gmap path inode) (w : world) : world :=
  mkWorld (f (w_tree w)) (w_data w) (w_next_ino w) (w_denied w) (w_space w)
          (w_now w) (w_warnings w).

Definition set_data (f : gmap N bytes → gmap N bytes) (w : world) : world :=
  mkWorld (w_tree w) (f (w_data w)) (w_next_ino w) (w_denied w) (w_space w)
          (w_now w) (w_warnings w).

Definition set_next_ino (n : N) (w : world) : world :=
  mkWorld (w_tree w) (w_data w) n (w_denied w) (w_space w) (w_now w)
          (w_warnings w).

Definition add_warning (e : io_error) (w : world) : world :=
  mkWorld (w_tree w) (w_data w) (w_next_ino w) (w_denied w) (w_space w)
          (w_now w) (w_warnings w ++ [e]).

Definition set_space (n : N) (w : world) : world :=
  mkWorld (w_tree w) (w_data w) (w_next_ino w) (w_denied w) n (w_now w)
          (w_warnings w).

(** An open file: the number of its contents and the position of the next
    write. *)
Record File : Type := mkFile {
  f_ino : N;
  f_pos : nat;
}.

(** An entry that a directory walk yields. *)
Record DirEntry : Type := mkDirEntry {
  dent_path : path;
  dent_type : file_type;
}.

#[export] Instance DirEntry_eq_dec : EqDecision DirEntry.
Proof. solve_decision. Defined.

(** [DirEntry::file_name]. *)
Definition file_name (e : DirEntry) : string :=
  match dent_path e with n :: _ => n | [] => "" end.

(** ** Path syntax *)

(** The pieces of [s] between the occurrences of [sep]. *)
Fixpoint split_on (sep : ascii) (s : string) : list string :=
  match s with
  | "" => [""]
  | String c s' =>
      if decide (c = sep) then "" :: split_on sep s'
      else match split_on sep s' with
           | [] => [String c ""]
           | x :: xs => String c x :: xs
           end
  end.

(** [Path::components] without the root: empty pieces and [.] are dropped. *)
Definition components (s : string) : list string :=
  filter (λ c, c ≠ "" ∧ c ≠ ".") (split_on "/" s).

Definition push_component (d : path) (c : string) : path :=
  if decide (c = "..") then tail d else c :: d.

(** [Path::join] followed by the system's resolution of the result: an
    absolute [name] replaces [d]. *)
Definition path_join (d : path) (name : string) : path :=
  foldl push_component (if starts_with name "/" then [] else d)
        (components name).

(** A name that is one component of a path. *)
Definition plain_name (n : string) : Prop :=
  components n = [n] ∧ n ≠ ".." ∧ starts_with n "/" = false.

#[export] Instance plain_name_dec n : Decision (plain_name n).
Proof. unfold plain_name. apply _. Defined.

(** ** Reading the tree *)

(** The entries of directory [d], each with what it leads to. *)
Definition child_of (d : path) (kv : path * inode) : option (string * inode) :=
  match kv.1 with
  | n :: d' => if decide (d' = d) then Some (n, kv.2) else None
  | [] => None
  end.

Definition children (t : gmap path inode) (d : path) : list (string * inode) :=
  omap (child_of d) (map_to_list t).

(** The names of the regular files of [d] that start with [prefix]: the
    files the retention policy counts. *)
Definition log_child (prefix : string) (c : string * inode) : option string :=
  if decide (inode_type c.2 = FtFile ∧ starts_with c.1 prefix) then Some c.1
  else None.

Definition log_names (t : gmap path inode) (d : path) (prefix : string) :
    gset string :=
  list_to_set (omap (log_child prefix) (children t d)).

Definition is_dir (p : path) : M world bool :=
  gets (λ w, bool_decide (w_tree w !! p = Some IDir)).

(** ** Operations *)

(** [mkdir(2)]. *)
Definition mkdir (p : path) : M world (result io_error ()) :=
  w <- get ;;
  match p with
  | [] => ret (Err AlreadyExists)
  | _ :: parent =>
      match w_tree w !! parent with
      | None => ret (Err NotFound)
      | Some IDir =>
          match w_tree w !! p with
          | Some _ => ret (Err AlreadyExists)
          | None =>
              if decide (p ∈ w_denied w) then ret (Err PermissionDenied)
              else modify (set_tree <[p := IDir]>) ;;; ret (Ok ())
          end
      | Some _ => ret (Err NotADirectory)
      end
  end.

(** What [create_dir_all] answers when [mkdir] failed with [e]: success
    when the path is a directory all the same. *)
Definition unless_is_dir (p : path) (e : io_error) : M world (result io_error ()) :=
  d <- is_dir p ;;
  ret (if d then Ok () else Err e).

(** [std::fs::create_dir_all]: try the directory itself; when a parent is
    missing, create the parents first and try again. *)
Fixpoint create_dir_all (p : path) : M world (result io_error ()) :=
  match p with
  | [] => ret (Ok ())
  | _ :: parent =>
      r <- mkdir p ;;
      match r with
      | Ok () => ret (Ok ())
      | Err NotFound =>
          _ <-? create_dir_all parent ;;
          r' <- mkdir p ;;
          match r' with
          | Ok () => ret (Ok ())
          | Err e => unless_is_dir p e
          end
      | Err e => unless_is_dir p e
      end
  end.

(** [std::fs::remove_file]: [unlink(2)]. *)
Definition remove_file (p : path) : M world (result io_error ()) :=
  w <- get ;;
  match w_tree w !! p with
  | None => ret (Err NotFound)
  | Some IDir => ret (Err IsADirectory)
  | Some _ =>
      if decide (p ∈ w_denied w) then ret (Err PermissionDenied)
      else modify (set_tree (delete p)) ;;; ret (Ok ())
  end.

(** [File::create]: open for writing, create the file if it is missing and
    empty it if it exists. *)
Definition file_create (p : path) : M world (result io_error File) :=
  w <- get ;;
  match p with
  | [] => ret (Err IsADirectory)
  | _ :: parent =>
      match w_tree w !! parent with
      | None => ret (Err NotFound)
      | Some IDir =>
          match w_tree w !! p with
          | Some IDir => ret (Err IsADirectory)
          | Some IOther => ret (Err Unsupported)
          | Some (IFile ino) =>
              if decide (p ∈ w_denied w) then ret (Err PermissionDenied)
              else modify (set_data <[ino := []]>) ;;;
                   ret (Ok (mkFile ino 0))
          | None =>
              if decide (p ∈ w_denied w) then ret (Err PermissionDenied)
              else
                let ino := w_next_ino w in
                modify (λ w, set_next_ino (N.succ ino)
                               (set_data <[ino := []]>
                                 (set_tree <[p := IFile ino]> w))) ;;;
                ret (Ok (mkFile ino 0))
          end
      | Some _ => ret (Err NotADirectory)
      end
  end.

(** What the walk yields for one entry of the directory: the entry with
    the type the listing reports for it. With [max_depth(1)] the walk
    never reads inside a subdirectory, so no entry is an error of its
    own. *)
Definition walk_entry (d : path) (c : string * inode) :
    result io_error DirEntry :=
  Ok (mkDirEntry (c.1 :: d) (inode_type c.2)).

(** [WalkDir::new(d).max_depth(1).min_depth(1).into_iter()], collected:
    the entries directly inside [d], in the order the system lists them.
    A root that is missing or cannot be listed yields one error; a root
    that is not a directory is at depth 0 and yields nothing. *)
Definition walk_dir (d : path) : M world (list (result io_error DirEntry)) :=
  gets (λ w,
    match w_tree w !! d with
    | None => [Err NotFound]
    | Some IDir =>
        if decide (d ∈ w_denied w) then [Err PermissionDenied]
        else walk_entry d <$> children (w_tree w) d
    | Some _ => []
    end).

(** [chrono::Local::now()]. *)
Definition local_now : M world DateTime := gets w_now.

(** [warn!(%e)]. *)
Definition warn (e : io_error) : M world () := modify (add_warning e).

(** ** Well-formed worlds *)

(** The root is a directory, every other path lies in a directory, and the
    contents of every file exist under a number that has been used. *)
Record wf_world (w : world) : Prop := mkWf {
  wf_root : w_tree w !! [] = Some IDir;
  wf_parent : ∀ n d i, w_tree w !! (n :: d) = Some i → w_tree w !! d = Some IDir;
  wf_data : ∀ p ino, w_tree w !! p = Some (IFile ino) →
              is_Some (w_data w !! ino) ∧ (ino < w_next_ino w)%N;
}.

(** The condition of [wf_world] on one entry of the tree, so that a
    concrete world can be checked by evaluation. *)
Definition wf_entry (w : world) (p : path) (i : inode) : Prop :=
  match p with [] => i = IDir | _ :: d => w_tree w !! d = Some IDir end ∧
  match i with
  | IFile ino => is_Some (w_data w !! ino) ∧ (ino < w_next_ino w)%N
  | _ => True
  end.

#[export] Instance wf_entry_dec w p i : Decision (wf_entry w p i).
Proof. unfold wf_entry. destruct p, i; apply _. Defined.

(** ** A small world for the examples

    The directory [/var/log] with three log files of the prefix [app], a
    file of another name, and a directory whose name starts with the
    prefix; the device has room for 10000 bytes and the clock shows
    4 January 2024, 09:05:06. *)
Definition example_dir : path := ["log"; "var"].

Definition example_tree : gmap path inode :=
  list_to_map
    [([], IDir); (["var"], IDir); (example_dir, IDir);
     ("app.2024-01-01T00:00:00" :: example_dir, IFile 0);
     ("app.2024-01-02T00:00:00" :: example_dir, IFile 1);
     ("app.2024-01-03T00:00:00" :: example_dir, IFile 2);
     ("other.txt" :: example_dir, IFile 3);
     ("app.d" :: example_dir, IDir);
     ("app.2023-12-31T00:00:00" :: "app.d" :: example_dir, IFile 4)].

(** The example world in which the system refuses the paths [denied]. *)
Definition example_world_denying (denied : gset path) : world :=
  mkWorld example_tree
          (list_to_map [(0, []); (1, []); (2, []); (3, []); (4, [])]%N)
          5 denied 10000 (mkDateTime 2024 1 4 9 5 6) [].

Definition example_world : world := example_world_denying ∅.

(** The same world in which the system refuses to remove the oldest log
    file. *)
Definition example_denied_world : world :=
  example_world_denying {[ "app.2024-01-01T00:00:00" :: example_dir ]}.

(** ** Facts about reading the tree *)

Section tree.
Implicit Types (t : gmap path inode) (d p : path) (n prefix : string) (i : inode).

Lemma elem_of_children t d n i : (n, i) ∈ children t d ↔ t !! (n :: d) = Some i.
Proof.
  unfold children. rewrite list_elem_of_omap. split.
  - intros ([k j] & Hin & Hc). apply elem_of_map_to_list in Hin.
    unfold child_of in Hc. simpl in Hc. destruct k as [|n' d']; [done|].
    case_decide; by simplify_eq.
  - intros H. exists (n :: d, i). split; [by apply elem_of_map_to_list|].
    unfold child_of. simpl. by rewrite decide_True.
Qed.

Lemma child_of_inj d kv1 kv2 c :
  child_of d kv1 = Some c → child_of d kv2 = Some c → kv1 = kv2.
Proof.
  destruct kv1 as [[|n1 d1] i1], kv2 as [[|n2 d2] i2]; unfold child_of; simpl;
    try done.
  repeat case_decide; naive_solver.
Qed.

Lemma NoDup_children t d : NoDup (children t d).*1.
Proof.
  apply NoDup_fmap_fst.
  - intros n i1 i2 H1%elem_of_children H2%elem_of_children. congruence.
  - unfold children. assert (NoDup (map_to_list t)) as Hnd by apply NoDup_map_to_list.
    induction Hnd as [|kv l Hkv Hnd IH]; simpl; [constructor|].
    destruct (child_of d kv) as [c|] eqn:Hc; [|done].
    constructor; [|done].
    rewrite list_elem_of_omap. intros (kv' & Hin & Hc').
    by rewrite (child_of_inj d kv kv' c) in Hkv.
Qed.

Lemma elem_of_log_names t d prefix n :
  n ∈ log_names t d prefix ↔
    (∃ ino, t !! (n :: d) = Some (IFile ino)) ∧ starts_with n prefix = true.
Proof.
  unfold log_names. rewrite elem_of_list_to_set, list_elem_of_omap. split.
  - intros ([n' i] & Hin%elem_of_children & Hc). unfold log_child in Hc.
    simpl in Hc. case_decide as Hd; simplify_eq. destruct Hd as [Hi Hp]. simpl in *.
    split; [destruct i; naive_solver | by apply Is_true_true].
  - intros [[ino Hino] Hp]. exists (n, IFile ino).
    split; [by apply elem_of_children|]. unfold log_child. simpl.
    rewrite decide_True; [done|]. by rewrite Hp.
Qed.

End tree.

(** ** Checking well-formedness *)

Lemma wf_world_entries (w : world) :
  wf_world w ↔ w_tree w !! [] = Some IDir ∧ map_Forall (wf_entry w) (w_tree w).
Proof.
  split.
  - intros [R P D]. split; [done|]. intros p i Hp. split.
    + destruct p; [congruence | by eapply P].
    + destruct i; [by eapply D | done..].
  - intros [R H]. split; [done|..].
    + intros n d i Hp. by destruct (H _ _ Hp).
    + intros p ino Hp. by destruct (H _ _ Hp).
Qed.

#[export] Instance wf_world_dec (w : world) : Decision (wf_world w).
Proof.
  refine (cast_if (decide (w_tree w !! [] = Some IDir ∧
                           map_Forall (wf_entry w) (w_tree w))));
    by rewrite wf_world_entries.
Defined.

Lemma example_world_wf : wf_world example_world.
Proof. by apply (bool_decide_unpack _); vm_compute. Qed.

(** ** Effects of the operations *)

(** [w'] is [w] with directories created on the way to [p]: nothing else
    of the world has changed, every old entry is still there, and every new
    entry is a directory at [p] or above. *)
Record dirs_added (p : path) (w w' : world) : Prop := mkDirsAdded {
  da_frame : w' = set_tree (λ _, w_tree w') w;
  da_old : ∀ q i, w_tree w !! q = Some i → w_tree w' !! q = Some i;
  da_new : ∀ q i, w_tree w' !! q = Some i →
             w_tree w !! q = Some i ∨ (i = IDir ∧ q `suffix_of` p);
}.

Section ops.
Implicit Types (w : world) (p d q : path) (n prefix : string) (i : inode).

Lemma set_tree_id w : set_tree (λ _, w_tree w) w = w.
Proof. by destruct w. Qed.

Lemma set_tree_set_tree f g w : set_tree f (set_tree g w) = set_tree (f ∘ g) w.
Proof. done. Qed.

Lemma dirs_added_refl p w : dirs_added p w w.
Proof. split; [by rewrite set_tree_id | done | eauto]. Qed.

Lemma dirs_added_trans p w1 w2 w3 :
  dirs_added p w1 w2 → dirs_added p w2 w3 → dirs_added p w1 w3.
Proof.
  intros [F1 O1 N1] [F2 O2 N2]. split.
  - rewrite F2 at 1. rewrite F1 at 1. done.
  - eauto.
  - intros q i H3. destruct (N2 q i H3) as [H2|?]; eauto.
Qed.

Lemma dirs_added_cons n d w w' : dirs_added d w w' → dirs_added (n :: d) w w'.
Proof.
  intros [F O N]. split; [done..|].
  intros q i H. destruct (N q i H) as [?|[? ?]]; [by left|right].
  split; [done|]. by apply suffix_cons_r.
Qed.

Lemma dirs_added_insert p w :
  w_tree w !! p = None → dirs_added p w (set_tree <[p := IDir]> w).
Proof.
  intros Hp. split; simpl.
  - done.
  - intros q i Hq. rewrite lookup_insert_ne; [done | congruence].
  - intros q i. rewrite lookup_insert. case_decide; naive_solver.
Qed.

(** Creating directories does not change which log files there are. *)
Lemma dirs_added_log_names p w w' d prefix :
  dirs_added p w w' →
  log_names (w_tree w') d prefix = log_names (w_tree w) d prefix.
Proof.
  intros [_ O N]. apply set_eq. intros n. rewrite !elem_of_log_names.
  split; intros [[ino Hn] Hp]; (split; [|done]); exists ino; [|by apply O].
  by destruct (N _ _ Hn) as [?|[? _]].
Qed.

Lemma wf_world_insert_dir n d w :
  wf_world w → w_tree w !! d = Some IDir → w_tree w !! (n :: d) = None →
  wf_world (set_tree <[n :: d := IDir]> w).
Proof.
  intros [R P D] Hd Hn. split; simpl.
  - rewrite lookup_insert_ne; done.
  - intros n' d' i. rewrite !lookup_insert. repeat case_decide; simplify_eq; eauto.
  - intros q ino. rewrite lookup_insert. case_decide; [done | apply D].
Qed.

(** What [mkdir] does: it adds the directory, or fails and changes
    nothing. *)
Lemma mkdir_total w0 p :
  hoare (λ w, w = w0) (mkdir p)
    (λ r w', match r with
             | Ok _ => w' = set_tree <[p := IDir]> w0 ∧ w_tree w0 !! p = None ∧
                       ∃ n d, p = n :: d ∧ w_tree w0 !! d = Some IDir
             | Err _ => w' = w0
             end).
Proof.
  intros w ->. unfold mkdir. io_simpl.
  repeat case_match; (do 2 eexists; split; [reflexivity|]); naive_solver.
Qed.

Definition create_dir_all_post (p : path) (w0 : world) (r : result io_error ())
    (w' : world) : Prop :=
  dirs_added p w0 w' ∧
  (wf_world w0 → wf_world w' ∧ (r = Ok () → w_tree w' !! p = Some IDir)).

Lemma unless_is_dir_total w0 w1 p e :
  dirs_added p w0 w1 → (wf_world w0 → wf_world w1) →
  hoare (λ w, w = w1) (unless_is_dir p e) (create_dir_all_post p w0).
Proof.
  intros Hda Hwf w ->. unfold unless_is_dir. io_simpl.
  do 2 eexists. split; [reflexivity|]. split; [done|].
  intros Hw0. split; [auto|]. by case_bool_decide.
Qed.

Lemma create_dir_all_post_insert w0 w1 p :
  dirs_added p w0 w1 → (wf_world w0 → wf_world w1) →
  w_tree w1 !! p = None → (∃ n d, p = n :: d ∧ w_tree w1 !! d = Some IDir) →
  create_dir_all_post p w0 (Ok ()) (set_tree <[p := IDir]> w1).
Proof.
  intros Hda Hwf Hp (n & d & -> & Hd). split.
  - eapply dirs_added_trans; [done | by apply dirs_added_insert].
  - intros Hw0. split; [by apply wf_world_insert_dir; auto|].
    intros _. simpl. apply lookup_insert_eq.
Qed.

Lemma mkdir_again_total w0 w1 p :
  dirs_added p w0 w1 → (wf_world w0 → wf_world w1) →
  hoare (λ w, w = w1)
    (r <- mkdir p ;;
     match r with Ok () => ret (Ok ()) | Err e => unless_is_dir p e end)
    (create_dir_all_post p w0).
Proof.
  intros Hda Hwf. eapply hoare_bind; [apply mkdir_total|].
  intros [[]|e]; simpl.
  - apply hoare_ret. intros w (-> & Hp & Hd).
    by apply create_dir_all_post_insert.
  - by apply unless_is_dir_total.
Qed.

(** [create_dir_all] always returns; it only adds directories on the way
    to [p]; it keeps the world well formed; and when it succeeds [p] is a
    directory. *)
Lemma create_dir_all_total w0 p :
  hoare (λ w, w = w0) (create_dir_all p) (create_dir_all_post p w0).
Proof.
  revert w0. induction p as [|n d IH]; intros w0; simpl.
  - apply hoare_ret. intros w ->. split; [apply dirs_added_refl|].
    intros Hwf. split; [done|]. intros _. apply Hwf.
  - eapply hoare_bind; [apply mkdir_total|]. intros [[]|e]; simpl.
    { apply hoare_ret. intros w (-> & Hp & Hd).
      apply create_dir_all_post_insert; auto using dirs_added_refl. }
    assert (hoare (λ w, w = w0) (unless_is_dir (n :: d) e)
              (create_dir_all_post (n :: d) w0)) as Hother.
    { apply unless_is_dir_total; [apply dirs_added_refl | done]. }
    destruct e; try exact Hother.
    eapply hoare_bind_try; [apply IH| |].
    + intros []. apply hoare_pre. intros w1 [Hda Hwf].
      apply mkdir_again_total; [by apply dirs_added_cons|].
      intros Hw0. by destruct (Hwf Hw0).
    + intros e w1 [Hda Hwf]. split; [by apply dirs_added_cons|].
      intros Hw0. by destruct (Hwf Hw0).
Qed.


Lemma create_dir_all_run w p :
  ∃ r w', create_dir_all p w = (Returned r, w') ∧ create_dir_all_post p w r w'.
Proof. by apply create_dir_all_total. Qed.

(** On a directory that exists, [create_dir_all] succeeds and changes
    nothing. *)
Lemma create_dir_all_existing w p :
  wf_world w → w_tree w !! p = Some IDir →
  create_dir_all p w = (Returned (Ok ()), w).
Proof.
  intros Hwf Hp. destruct p as [|n d]; [done|].
  pose proof (wf_parent w Hwf n d IDir Hp) as Hd.
  unfold create_dir_all, mkdir, unless_is_dir, is_dir. io_simpl.
  rewrite Hd, Hp. simpl. by rewrite Hp, bool_decide_eq_true_2.
Qed.

Lemma dirs_added_denied p w w' : dirs_added p w w' → w_denied w' = w_denied w.
Proof. intros [-> _ _]. done. Qed.

Lemma dirs_added_now p w w' : dirs_added p w w' → w_now w' = w_now w.
Proof. intros [-> _ _]. done. Qed.

Lemma dirs_added_space p w w' : dirs_added p w w' → w_space w' = w_space w.
Proof. intros [-> _ _]. done. Qed.

Lemma dirs_added_data p w w' : dirs_added p w w' → w_data w' = w_data w.
Proof. intros [-> _ _]. done. Qed.

Lemma dirs_added_next_ino p w w' : dirs_added p w w' → w_next_ino w' = w_next_ino w.
Proof. intros [-> _ _]. done. Qed.

Lemma dirs_added_warnings p w w' : dirs_added p w w' → w_warnings w' = w_warnings w.
Proof. intros [-> _ _]. done. Qed.

(** Creating directories on the way to [p] leaves every path that is not
    [p] or above it as it was. *)
Lemma dirs_added_lookup_other p w w' q :
  dirs_added p w w' → ¬ q `suffix_of` p → w_tree w' !! q = w_tree w !! q.
Proof.
  intros [_ O N] Hq. destruct (w_tree w !! q) as [i|] eqn:Hw; [by apply O|].
  destruct (w_tree w' !! q) as [i|] eqn:Hw'; [|done].
  destruct (N q i Hw') as [?|[_ ?]]; [congruence | done].
Qed.

(** *** Removing a file *)

Lemma remove_file_ok w p i :
  w_tree w !! p = Some i → i ≠ IDir → p ∉ w_denied w →
  remove_file p w = (Returned (Ok ()), set_tree (delete p) w).
Proof.
  intros Hp Hi Hd. unfold remove_file. io_simpl. rewrite Hp.
  destruct i; [|done|]; by rewrite decide_False.
Qed.

Lemma remove_file_denied w p i :
  w_tree w !! p = Some i → i ≠ IDir → p ∈ w_denied w →
  remove_file p w = (Returned (Err PermissionDenied), w).
Proof.
  intros Hp Hi Hd. unfold remove_file. io_simpl. rewrite Hp.
  destruct i; [|done|]; by rewrite decide_True.
Qed.

Lemma remove_file_missing w p :
  w_tree w !! p = None → remove_file p w = (Returned (Err NotFound), w).
Proof. intros Hp. unfold remove_file. io_simpl. by rewrite Hp. Qed.

Lemma remove_file_dir w p :
  w_tree w !! p = Some IDir → remove_file p w = (Returned (Err IsADirectory), w).
Proof. intros Hp. unfold remove_file. io_simpl. by rewrite Hp. Qed.

(** [remove_file] removes the path, or fails and changes nothing. *)
Lemma remove_file_total w0 p :
  hoare (λ w, w = w0) (remove_file p)
    (λ r w', match r with
             | Ok _ => w' = set_tree (delete p) w0 ∧ (p ∉ w_denied w0) ∧
                       (∃ i, w_tree w0 !! p = Some i ∧ i ≠ IDir)
             | Err _ => w' = w0
             end).
Proof.
  intros w ->. unfold remove_file. io_simpl.
  repeat case_match; (do 2 eexists; split; [reflexivity|]); naive_solver.
Qed.

Lemma wf_world_delete w p i :
  wf_world w → w_tree w !! p = Some i → i ≠ IDir →
  wf_world (set_tree (delete p) w).
Proof.
  intros [R P D] Hp Hi. split; simpl.
  - rewrite lookup_delete_ne; [done|]. intros ->. congruence.
  - intros n d j [Hne Hj]%lookup_delete_Some.
    rewrite lookup_delete_ne; [by eapply P|]. intros <-.
    apply P in Hj. congruence.
  - intros q ino [_ Hq]%lookup_delete_Some. by eapply D.
Qed.

(** *** Creating a file *)

Lemma list_neq_cons {A} (l : list A) x : l ≠ x :: l.
Proof. intros H%(f_equal length). simpl in H. lia. Qed.

Lemma wf_world_set_data w ino bs :
  wf_world w → wf_world (set_data <[ino := bs]> w).
Proof.
  intros [R P D]. split; simpl; [done..|].
  intros q ino' Hq. destruct (D q ino' Hq) as [Hs Hlt]. split; [|done].
  rewrite lookup_insert_is_Some. destruct (decide (ino = ino')); eauto.
Qed.

Lemma wf_world_new_file w n d :
  wf_world w → w_tree w !! d = Some IDir → w_tree w !! (n :: d) = None →
  wf_world (set_next_ino (N.succ (w_next_ino w))
              (set_data <[w_next_ino w := []]>
                 (set_tree <[n :: d := IFile (w_next_ino w)]> w))).
Proof.
  intros [R P D] Hd Hn. split; simpl.
  - rewrite lookup_insert_ne; done.
  - intros n' d' i. rewrite !lookup_insert.
    repeat case_decide; simplify_eq; eauto.
    + by destruct (list_neq_cons d n').
    + intros Hc%P. congruence.
  - intros q ino. rewrite lookup_insert, lookup_insert_is_Some.
    case_decide; simplify_eq.
    + intros [= <-]. split; [by left | lia].
    + intros Hq. destruct (D q ino Hq) as [Hs Hlt]. split; [|lia].
      destruct (decide (w_next_ino w = ino)); eauto.
Qed.


Lemma file_create_new w n d :
  w_tree w !! d = Some IDir → w_tree w !! (n :: d) = None →
  n :: d ∉ w_denied w →
  file_create (n :: d) w =
    (Returned (Ok (mkFile (w_next_ino w) 0)),
     set_next_ino (N.succ (w_next_ino w))
       (set_data <[w_next_ino w := []]>
          (set_tree <[n :: d := IFile (w_next_ino w)]> w))).
Proof.
  intros Hd Hp Hden. unfold file_create. io_simpl.
  by rewrite Hd, Hp, decide_False.
Qed.

Lemma file_create_existing w n d ino :
  w_tree w !! d = Some IDir → w_tree w !! (n :: d) = Some (IFile ino) →
  n :: d ∉ w_denied w →
  file_create (n :: d) w =
    (Returned (Ok (mkFile ino 0)), set_data <[ino := []]> w).
Proof.
  intros Hd Hp Hden. unfold file_create. io_simpl.
  by rewrite Hd, Hp, decide_False.
Qed.

Lemma file_create_denied w n d :
  w_tree w !! d = Some IDir → w_tree w !! (n :: d) = None →
  n :: d ∈ w_denied w →
  file_create (n :: d) w = (Returned (Err PermissionDenied), w).
Proof.
  intros Hd Hp Hden. unfold file_create. io_simpl.
  by rewrite Hd, Hp, decide_True.
Qed.

(** [File::create] leaves an empty regular file at the path and returns a
    handle at its start, or fails and changes nothing. *)
Lemma file_create_total w0 p :
  hoare (λ w, w = w0) (file_create p)
    (λ r w', match r with
             | Ok f =>
                 w_tree w' = <[p := IFile (f_ino f)]> (w_tree w0) ∧
                 w_data w' = <[f_ino f := []]> (w_data w0) ∧ f_pos f = 0 ∧
                 w_denied w' = w_denied w0 ∧ w_now w' = w_now w0 ∧
                 w_warnings w' = w_warnings w0 ∧
                 (w_tree w0 !! p = None ∨ w_tree w0 !! p = Some (IFile (f_ino f))) ∧
                 (∃ n d, p = n :: d ∧ w_tree w0 !! d = Some IDir) ∧
                 (wf_world w0 → wf_world w')
             | Err _ => w' = w0
             end).
Proof.
  intros w ->. unfold file_create. io_simpl.
  repeat case_match; (do 2 eexists; split; [reflexivity|]); simpl; try done;
    subst; (split; [first [done | by rewrite insert_id]|]); split_and!; eauto.
  - by apply wf_world_set_data.
  - intros Hwf. by apply wf_world_new_file.
Qed.

(** What [File::create] does to the files: the path leads to the file it
    returns, which is the file that was there or one under the next
    unused number; that file is empty and has a number in use; no other
    contents change, and no number in use is given out again. *)
Lemma file_create_files w p r w' :
  file_create p w = (Returned r, w') →
  (w_next_ino w ≤ w_next_ino w')%N ∧
  match r with
  | Ok f => w_tree w' = <[p := IFile (f_ino f)]> (w_tree w) ∧
            w_data w' = <[f_ino f := []]> (w_data w) ∧ f_pos f = 0 ∧
            (w_tree w !! p = Some (IFile (f_ino f)) ∨
             w_tree w !! p = None ∧ f_ino f = w_next_ino w) ∧
            (wf_world w → (f_ino f < w_next_ino w')%N)
  | Err _ => w' = w
  end.
Proof.
  unfold file_create. io_simpl.
  repeat case_match; intros [= <- <-]; simpl; (split; [lia|]); try done.
  - split_and!; [by rewrite insert_id | done | done | by left |].
    intros Hwf. by eapply wf_data.
  - split_and!; [done | done | done | by right | lia].
Qed.

(** Creating a file takes no room on the device. *)
Lemma file_create_space w p o w' : file_create p w = (o, w') → w_space w' = w_space w.
Proof.
  unfold file_create. io_simpl. repeat case_match; by intros [= <- <-].
Qed.

(** *** Log files under edits of the tree *)

Lemma log_names_delete t d prefix n :
  log_names (delete (n :: d) t) d prefix = log_names t d prefix ∖ {[n]}.
Proof.
  apply set_eq. intros m.
  rewrite elem_of_difference, !elem_of_log_names, elem_of_singleton.
  setoid_rewrite lookup_delete_Some. naive_solver.
Qed.

Lemma log_names_delete_other t d prefix p :
  (∀ n, p ≠ n :: d) → log_names (delete p t) d prefix = log_names t d prefix.
Proof.
  intros Hp. apply set_eq. intros m. rewrite !elem_of_log_names.
  setoid_rewrite lookup_delete_Some. naive_solver.
Qed.

Lemma log_names_insert_file t d prefix n ino :
  starts_with n prefix = true →
  log_names (<[n :: d := IFile ino]> t) d prefix = {[n]} ∪ log_names t d prefix.
Proof.
  intros Hn. apply set_eq. intros m.
  rewrite elem_of_union, !elem_of_log_names, elem_of_singleton.
  setoid_rewrite lookup_insert_Some. split.
  - intros [[ino' [[? ?]|[? ?]]] Hp]; simplify_eq; [by left | right; eauto].
  - intros [->|[[ino' H] Hp]]; (split; [|done]); [by exists ino; left|].
    destruct (decide (m = n)) as [->|]; [by exists ino; left|].
    exists ino'. right. split; [congruence | done].
Qed.

End ops.

(** ** Facts about path syntax *)

Section paths.
Implicit Types (d : path) (n s : string) (sep : ascii).

Lemma split_on_absent sep s : sep ∉ chars s → split_on sep s = [s].
Proof.
  induction s as [|c s IH]; simpl; [done|].
  rewrite not_elem_of_cons. intros [Hc Hs].
  rewrite decide_False by done. by rewrite IH.
Qed.

Lemma starts_with_absent sep s : sep ∉ chars s → starts_with s (String sep "") = false.
Proof.
  destruct s as [|c s]; simpl; [done|].
  rewrite not_elem_of_cons. intros [Hc _].
  unfold starts_with. simpl. by destruct (ascii_dec sep c).
Qed.

(** A name without a separator that is not [.], [..] or empty is one
    component. *)
Lemma plain_name_chars n :
  "/"%char ∉ chars n → n ≠ "" → n ≠ "." → n ≠ ".." → plain_name n.
Proof.
  intros Hsep ???. split_and!; [|done|by apply starts_with_absent].
  unfold components. rewrite split_on_absent by done.
  by rewrite filter_cons_True.
Qed.

Lemma path_join_plain d n : plain_name n → path_join d n = n :: d.
Proof.
  intros (Hc & Hdots & Hroot). unfold path_join. rewrite Hc, Hroot. simpl.
  unfold push_component. by rewrite decide_False.
Qed.

End paths.
