(* ===== verification/Sink.v ===== *)
(** * Sink: [io::Write] and the buffered file

    [RotatingFileWriter] writes through a [BufWriter<fs::File>]
    (src/src/writer.rs, lines 11 and 56 to 63). This file holds the
    interface [Write] with the two methods the code calls and the class
    [Lawful] of what a sink promises about them; the file as a sink, on
    a device with finite room; [BufWriter] over any sink, after the
    standard library, with the proof that it keeps the promise when the
    sink below it does; the buffered file on a device with room, where
    a write takes all the bytes; sequences of calls on a lawful sink;
    and the class [Confined] of the sinks whose calls, in whatever state
    they are made, change nothing outside the file of the handle, with
    its instances for the file and for the buffered writer.

    A method with [&mut self] runs on the pair of the object and the
    world: it returns the [io::Result] and leaves both changed. *)

From Stdlib Require Import Ascii.
From stdpp Require Import base tactics option list strings gmap.
From S2P Require Import Prelude Clock FileSystem.

Local Open Scope io_scope.

(** ** The interface *)

(** [std::io::Write]. *)
Class Write (T : Type) : Type := {
  write : bytes → M (T * world) (result io_error nat);
  flush : M (T * world) (result io_error ());
}.

(** The file a sink writes to, by the number of its contents. *)
Class Handle (T : Type) : Type := handle : T → N.

(** The world [w'] differs from [w] at most in the contents of the file
    number [h], which still exist if they did, and in the room left on
    the device. *)
Record only_file (h : N) (w w' : world) : Prop := mkOnlyFile {
  of_tree : w_tree w' = w_tree w;
  of_next_ino : w_next_ino w' = w_next_ino w;
  of_denied : w_denied w' = w_denied w;
  of_now : w_now w' = w_now w;
  of_warnings : w_warnings w' = w_warnings w;
  of_others : ∀ i, i ≠ h → w_data w' !! i = w_data w !! i;
  of_kept : is_Some (w_data w !! h) → is_Some (w_data w' !! h);
}.

#[export] Instance only_file_preorder h : PreOrder (only_file h).
Proof.
  split; [by intros w | intros w1 w2 w3 [Ht Hn Hd Hc Hw Ho Hk] [Ht' Hn' Hd' Hc' Hw' Ho' Hk']].
  split; [congruence.. | | auto]. intros i Hi. by rewrite Ho', Ho.
Qed.

Lemma only_file_wf h w w' : only_file h w w' → wf_world w → wf_world w'.
Proof.
  intros [Ht Hn _ _ _ Ho Hk] [Hroot Hpar Hdata]. split; rewrite ?Ht, ?Hn; [done..|].
  intros p ino [Hsome Hlt]%Hdata. split; [|done].
  destruct (decide (ino = h)) as [->|Hne]; [auto | by rewrite Ho].
Qed.

(** What a sink leaves alone: it stays with its file, and the world
    changes in that file only. *)
Definition same_file {T : Type} `{!Handle T} (s s' : T * world) : Prop :=
  handle s'.1 = handle s.1 ∧ only_file (handle s.1) s.2 s'.2.

#[export] Instance same_file_preorder {T : Type} `{!Handle T} :
  PreOrder (same_file (T := T)).
Proof.
  split; [by intros s | intros s1 s2 s3 [Hh Ho] [Hh' Ho']].
  split; [congruence|]. rewrite Hh in Ho'. by etrans.
Qed.

(** What a sink promises. [stream] is the sequence of bytes it has
    accepted, wherever it keeps them; [valid] is the condition under
    which it works. A write accepts a beginning of the bytes it is given
    and appends it to the stream, or fails and leaves the stream as it
    is; a flush does not change the stream. Both stay with the file. *)
Class Lawful (T : Type) `{!Write T, !Handle T} : Type := {
  stream : T * world → bytes;
  valid : T * world → Prop;
  write_spec (buf : bytes) (s : T * world) :
    valid s →
    ∃ r s', write buf s = (Returned r, s') ∧ valid s' ∧ same_file s s' ∧
      match r with
      | Ok n => n ≤ length buf ∧ stream s' = stream s ++ take n buf
      | Err _ => stream s' = stream s
      end;
  flush_spec (s : T * world) :
    valid s →
    ∃ r s', flush s = (Returned r, s') ∧ valid s' ∧ same_file s s' ∧
      stream s' = stream s;
}.

(** A method of a field: run [c] on the part [get] of the object and put
    the part back. *)
Definition zoom {T U A : Type} (get : T → U) (set : U → T → T)
    (c : M (U * world) A) : M (T * world) A :=
  λ s, let (o, s') := c (get s.1, s.2) in (o, (set s'.1 s.1, s'.2)).

Lemma zoom_run {T U A : Type} (get : T → U) (set : U → T → T)
    (c : M (U * world) A) (s : T * world) o u w' :
  c (get s.1, s.2) = (o, (u, w')) → zoom get set c s = (o, (set u s.1, w')).
Proof. intros Hc. unfold zoom. by rewrite Hc. Qed.

(** ** The file as a sink *)

(** The contents of an open file. *)
Definition file_data (f : File) (w : world) : bytes :=
  default [] (w_data w !! f_ino f).

(** The contents after [buf] has been written at position [pos]: a gap
    between the end and the position is filled with zeros. *)
Definition write_at (pos : nat) (buf data : bytes) : bytes :=
  take pos data ++ replicate (pos - length data) Byte.x00 ++ buf ++
  drop (pos + length buf) data.

(** [write(2)] through [fs::File]: as many bytes as the device has room
    for are written at the position of the handle, which moves on; with
    no room left the call fails. *)
Definition file_write (buf : bytes) : M (File * world) (result io_error nat) :=
  s <- get ;;
  if decide (buf = []) then ret (Ok 0)
  else if decide (w_space s.2 = 0)%N then ret (Err StorageFull)
  else
    let n := length buf `min` N.to_nat (w_space s.2) in
    let data := write_at (f_pos s.1) (take n buf) (file_data s.1 s.2) in
    modify (λ _, (mkFile (f_ino s.1) (f_pos s.1 + n),
                  set_space (w_space s.2 - N.of_nat n)
                            (set_data <[f_ino s.1 := data]> s.2))) ;;;
    ret (Ok n).

(** [flush] of a file does nothing. *)
Definition file_flush : M (File * world) (result io_error ()) := ret (Ok ()).

#[export] Instance File_Write : Write File := {|
  write := file_write;
  flush := file_flush;
|}.

#[export] Instance File_Handle : Handle File := f_ino.

(** ** The buffered writer *)

(** [std::io::BufWriter<W>]: the sink below and the bytes not yet written
    to it. *)
Record BufWriter (T : Type) : Type := mkBufWriter {
  bw_inner : T;
  bw_buf : bytes;
  bw_capacity : N;
}.
Arguments mkBufWriter {T} _ _ _.
Arguments bw_inner {T} _.
Arguments bw_buf {T} _.
Arguments bw_capacity {T} _.

(** [BufWriter::new]: an empty buffer of 8 KiB. *)
Definition BufWriter_new {T : Type} (inner : T) : BufWriter T :=
  mkBufWriter inner [] 8192.

Definition set_inner {T : Type} (inner : T) (bw : BufWriter T) : BufWriter T :=
  mkBufWriter inner (bw_buf bw) (bw_capacity bw).

Definition set_buf {T : Type} (buf : bytes) (bw : BufWriter T) : BufWriter T :=
  mkBufWriter (bw_inner bw) buf (bw_capacity bw).

Definition spare_capacity {T : Type} (bw : BufWriter T) : N :=
  (bw_capacity bw - N.of_nat (length (bw_buf bw)))%N.

Section bufwriter.
Context {T : Type} `{!Write T}.

Definition write_to_buffer (buf : bytes) : M (BufWriter T * world) () :=
  modify (λ s, (set_buf (bw_buf s.1 ++ buf) s.1, s.2)).

Definition consume (n : nat) : M (BufWriter T * world) () :=
  modify (λ s, (set_buf (drop n (bw_buf s.1)) s.1, s.2)).

Definition inner_write (buf : bytes) : M (BufWriter T * world) (result io_error nat) :=
  zoom bw_inner set_inner (write buf).

(** The loop of [flush_buf]: write what is left of the buffer until it is
    empty; a write of no byte is an error. Every turn removes a byte or
    ends the loop, so the length of the buffer is fuel enough. *)
Fixpoint flush_buf_loop (fuel : nat) : M (BufWriter T * world) (result io_error ()) :=
  s <- get ;;
  if decide (bw_buf s.1 = []) then ret (Ok ())
  else
    match fuel with
    | O => panic "flush_buf: the loop made no progress"
    | S fuel' =>
        r <- inner_write (bw_buf s.1) ;;
        match r with
        | Ok O => ret (Err WriteZero)
        | Ok n => consume n ;;; flush_buf_loop fuel'
        | Err e => ret (Err e)
        end
    end.

Definition flush_buf : M (BufWriter T * world) (result io_error ()) :=
  s <- get ;;
  flush_buf_loop (length (bw_buf s.1)).

(** [BufWriter::write_cold]: make room if the bytes do not fit, then
    send them past the buffer when they would fill it, into the buffer
    otherwise. *)
Definition write_cold (buf : bytes) : M (BufWriter T * world) (result io_error nat) :=
  s <- get ;;
  _ <-? (if decide (spare_capacity s.1 < N.of_nat (length buf))%N
         then flush_buf else ret (Ok ())) ;;
  s <- get ;;
  if decide (bw_capacity s.1 ≤ N.of_nat (length buf))%N then inner_write buf
  else write_to_buffer buf ;;; ret (Ok (length buf)).

(** [BufWriter::write]. *)
Definition buf_write (buf : bytes) : M (BufWriter T * world) (result io_error nat) :=
  s <- get ;;
  if decide (N.of_nat (length buf) < spare_capacity s.1)%N
  then write_to_buffer buf ;;; ret (Ok (length buf))
  else write_cold buf.

(** [BufWriter::flush]. *)
Definition buf_flush : M (BufWriter T * world) (result io_error ()) :=
  _ <-? flush_buf ;;
  zoom bw_inner set_inner flush.

(** [Drop for BufWriter]: the bytes that wait are written, and an
    error is dropped with the writer. *)
Definition buf_drop : M (BufWriter T * world) () :=
  _ <- flush_buf ;; ret ().

#[export] Instance BufWriter_Write : Write (BufWriter T) := {|
  write := buf_write;
  flush := buf_flush;
|}.

#[export] Instance BufWriter_Handle `{!Handle T} : Handle (BufWriter T) :=
  λ b, handle (bw_inner b).

End bufwriter.

(** ** The file keeps the promise *)

Section file.
Implicit Types (f : File) (w : world) (buf data : bytes).

Lemma write_at_end buf data : write_at (length data) buf data = data ++ buf.
Proof.
  unfold write_at. rewrite take_ge, drop_ge by lia.
  replace (length data - length data) with 0 by lia. simpl.
  by rewrite app_nil_r.
Qed.

Lemma file_data_written f w data pos n :
  file_data (mkFile (f_ino f) pos) (set_space n (set_data <[f_ino f := data]> w))
    = data.
Proof. unfold file_data. simpl. by rewrite lookup_insert_eq. Qed.

Lemma same_file_written (s : File * world) pos n data :
  same_file s (mkFile (f_ino s.1) pos,
               set_space n (set_data <[f_ino s.1 := data]> s.2)).
Proof.
  split; [done|]. split; simpl; [done.. | |].
  - intros i Hi. by apply lookup_insert_ne.
  - by rewrite lookup_insert_eq.
Qed.

(** A handle at the end of its file. *)
Definition at_end (s : File * world) : Prop :=
  f_pos s.1 = length (file_data s.1 s.2).

Lemma file_write_spec buf (s : File * world) :
  at_end s →
  ∃ r s', file_write buf s = (Returned r, s') ∧ at_end s' ∧ same_file s s' ∧
    match r with
    | Ok n => n ≤ length buf ∧ file_data s'.1 s'.2 = file_data s.1 s.2 ++ take n buf
    | Err _ => file_data s'.1 s'.2 = file_data s.1 s.2
    end.
Proof.
  intros Hend. unfold file_write, at_end in *. io_simpl.
  destruct (decide (buf = [])) as [->|Hbuf].
  { do 2 eexists. split; [done|]. simpl. by rewrite app_nil_r. }
  destruct (decide (w_space s.2 = 0%N)); [by exists (Err StorageFull), s|].
  do 2 eexists. split; [done|]. cbn [fst snd f_pos].
  rewrite !file_data_written, Hend, write_at_end, length_app, length_take.
  split_and!; [lia | apply same_file_written | lia | done].
Qed.

(** With no room on the device a write of some bytes fails. *)
Lemma file_write_full buf (s : File * world) :
  buf ≠ [] → w_space s.2 = 0%N → file_write buf s = (Returned (Err StorageFull), s).
Proof. intros Hbuf Hfull. unfold file_write. io_simpl. by rewrite decide_False, decide_True. Qed.

(** With room for all of them the bytes go to the end of the file. *)
Lemma file_write_all buf (s : File * world) :
  at_end s → buf ≠ [] → (N.of_nat (length buf) ≤ w_space s.2)%N →
  file_write buf s =
    (Returned (Ok (length buf)),
     (mkFile (f_ino s.1) (f_pos s.1 + length buf),
      set_space (w_space s.2 - N.of_nat (length buf))
                (set_data <[f_ino s.1 := file_data s.1 s.2 ++ buf]> s.2))).
Proof.
  intros Hend Hbuf Hroom. unfold file_write, at_end in *. io_simpl.
  rewrite !decide_False by (done || (intros Hz; rewrite Hz in Hroom; destruct buf; [done | simpl in Hroom; lia])).
  replace (length buf `min` N.to_nat (w_space s.2)) with (length buf) by lia.
  by rewrite take_ge, Hend, write_at_end by lia.
Qed.

End file.

#[export] Program Instance File_Lawful : Lawful File := {|
  stream s := file_data s.1 s.2;
  valid := at_end;
|}.
Next Obligation. exact file_write_spec. Qed.
Next Obligation. intros s Hs. by exists (Ok ()), s. Qed.

(** ** The buffered writer keeps the promise of the sink below it *)

Section bufwriter_lawful.
Context {T : Type} `{!Write T, !Handle T, !Lawful T}.
Implicit Types (s : BufWriter T * world) (buf : bytes).

(** The stream of a buffered writer: what the sink below has accepted,
    then what waits in the buffer. *)
Definition buf_stream s : bytes := stream (bw_inner s.1, s.2) ++ bw_buf s.1.

(** The sink below works and the buffer is within its capacity. *)
Definition buf_valid s : Prop :=
  valid (bw_inner s.1, s.2) ∧ (N.of_nat (length (bw_buf s.1)) ≤ bw_capacity s.1)%N.

(** The same writer with other bytes waiting. *)
Definition same_sink s s' : Prop :=
  valid (bw_inner s'.1, s'.2) ∧ same_file s s' ∧
  bw_capacity s'.1 = bw_capacity s.1.

Lemma inner_write_spec buf s :
  valid (bw_inner s.1, s.2) →
  ∃ r s', inner_write buf s = (Returned r, s') ∧ same_sink s s' ∧
    bw_buf s'.1 = bw_buf s.1 ∧
    match r with
    | Ok n => n ≤ length buf ∧
              stream (bw_inner s'.1, s'.2) = stream (bw_inner s.1, s.2) ++ take n buf
    | Err _ => stream (bw_inner s'.1, s'.2) = stream (bw_inner s.1, s.2)
    end.
Proof.
  intros Hv. unfold inner_write, zoom.
  destruct (write_spec buf _ Hv) as (r & [t' w'] & -> & Hv' & Ht & Hr).
  exists r, (set_inner t' s.1, w'). by split_and!.
Qed.

(** What [flush_buf] leaves: the same stream, the same sink still
    working, no more bytes waiting than before, and none when it
    succeeded. *)
Definition flushed s (r : result io_error ()) s' : Prop :=
  buf_valid s' ∧ same_sink s s' ∧ buf_stream s' = buf_stream s ∧
  length (bw_buf s'.1) ≤ length (bw_buf s.1) ∧
  (r = Ok () → bw_buf s'.1 = []).

Lemma flushed_stop s (r : result io_error ()) :
  buf_valid s → (r = Ok () → bw_buf s.1 = []) → flushed s r s.
Proof. intros [Hv Hcap] Hr. by split_and!. Qed.

(** A write that failed or wrote nothing ends the loop. *)
Lemma flushed_fail s s1 e :
  buf_valid s → same_sink s s1 → bw_buf s1.1 = bw_buf s.1 →
  stream (bw_inner s1.1, s1.2) = stream (bw_inner s.1, s.2) →
  flushed s (Err e) s1.
Proof.
  intros [Hv Hcap] (Hv1 & Ht1 & Hc1) Hb Hs. unfold flushed, buf_valid, buf_stream.
  rewrite Hb, Hc1, Hs. by split_and!.
Qed.

(** A write of [n] bytes and the rest of the loop. *)
Lemma flushed_step s s1 n r s' :
  buf_valid s → same_sink s s1 → bw_buf s1.1 = bw_buf s.1 →
  stream (bw_inner s1.1, s1.2) = stream (bw_inner s.1, s.2) ++ take n (bw_buf s.1) →
  flushed (set_buf (drop n (bw_buf s1.1)) s1.1, s1.2) r s' → flushed s r s'.
Proof.
  intros [Hv Hcap] (Hv1 & Ht1 & Hc1) Hb Hs (Hv' & (Hi & Ht & Hc) & Hst & Hlen & Hr).
  unfold flushed, same_sink, buf_stream in *. simpl in *.
  rewrite Hb, length_drop in Hlen. rewrite Hb, Hs, <-app_assoc, take_drop in Hst.
  split_and!; [done | done | by etrans | congruence | done | lia | done].
Qed.

Lemma consumed_valid s s1 n :
  buf_valid s → same_sink s s1 → bw_buf s1.1 = bw_buf s.1 →
  buf_valid (set_buf (drop n (bw_buf s1.1)) s1.1, s1.2).
Proof.
  intros [Hv Hcap] (Hv1 & Ht1 & Hc1) Hb. split; [done|]. simpl.
  rewrite Hb, Hc1, length_drop. lia.
Qed.

Lemma flush_buf_loop_spec fuel s :
  buf_valid s → length (bw_buf s.1) ≤ fuel →
  ∃ r s', flush_buf_loop fuel s = (Returned r, s') ∧ flushed s r s'.
Proof.
  revert s. induction fuel as [|fuel IH]; intros s Hs Hfuel; simpl;
    unfold bind at 1, get; simpl; destruct (decide (bw_buf s.1 = [])) as [Hb|Hb];
    try (exists (Ok ()), s; split; [done | by apply flushed_stop]).
  { destruct (bw_buf s.1); [done | simpl in Hfuel; lia]. }
  unfold bind at 1.
  destruct (inner_write_spec (bw_buf s.1) s (proj1 Hs))
    as ([[|n]|e] & s1 & -> & Hsame & Hb1 & Hr).
  - exists (Err WriteZero), s1. split; [done|]. apply flushed_fail; try done.
    destruct Hr as [_ ->]. by rewrite take_0, app_nil_r.
  - unfold bind, consume, modify. simpl.
    destruct (IH (set_buf (drop (S n) (bw_buf s1.1)) s1.1, s1.2))
      as (r & s' & -> & Hf); [by apply (consumed_valid s) | |].
    + simpl. rewrite Hb1, length_drop. lia.
    + exists r, s'. split; [done|]. eapply flushed_step; try done. apply Hr.
  - exists (Err e), s1. split; [done|]. by apply flushed_fail.
Qed.

Lemma flush_buf_spec s :
  buf_valid s → ∃ r s', flush_buf s = (Returned r, s') ∧ flushed s r s'.
Proof. intros Hs. unfold flush_buf, bind, get. by apply flush_buf_loop_spec. Qed.

Lemma buf_drop_spec s :
  buf_valid s → ∃ r s', buf_drop s = (Returned (), s') ∧ flushed s r s'.
Proof.
  intros Hs. destruct (flush_buf_spec s Hs) as (r & s' & Hrun & Hf).
  exists r, s'. split; [|done]. unfold buf_drop, bind. by rewrite Hrun.
Qed.

(** What a write leaves: the promise of [Lawful] for the buffered
    writer. *)
Definition accepted buf s (r : result io_error nat) s' : Prop :=
  buf_valid s' ∧ same_file s s' ∧
  match r with
  | Ok n => n ≤ length buf ∧ buf_stream s' = buf_stream s ++ take n buf
  | Err _ => buf_stream s' = buf_stream s
  end.

(** Bytes that fit are kept in the buffer. *)
Lemma write_to_buffer_spec buf s :
  buf_valid s →
  (N.of_nat (length (bw_buf s.1) + length buf) ≤ bw_capacity s.1)%N →
  ∃ s', (write_to_buffer buf ;;; ret (Ok (length buf))) s =
          (Returned (Ok (E := io_error) (length buf)), s') ∧
        accepted buf s (Ok (length buf)) s'.
Proof.
  intros [Hv Hcap] Hfit. eexists. split; [done|].
  unfold accepted, buf_valid, buf_stream. simpl.
  rewrite length_app, take_ge, app_assoc by lia. by split_and!.
Qed.

(** With nothing waiting in the buffer, bytes may go straight to the
    sink below. *)
Lemma direct_write_spec buf s :
  buf_valid s → bw_buf s.1 = [] →
  ∃ r s', inner_write buf s = (Returned r, s') ∧ accepted buf s r s'.
Proof.
  intros [Hv Hcap] Hempty.
  destruct (inner_write_spec buf s Hv) as (r & s1 & -> & (Hv1 & Ht1 & Hc1) & Hb1 & Hr).
  exists r, s1. split; [done|]. unfold accepted, buf_valid, buf_stream.
  rewrite Hb1, Hc1, Hempty, !app_nil_r.
  split_and!; [done | simpl; lia | done | done].
Qed.

(** The second half of [write_cold], once there is room or nothing
    waits. *)
Lemma write_cold_rest_spec buf s :
  buf_valid s →
  bw_buf s.1 = [] ∨
    (N.of_nat (length (bw_buf s.1) + length buf) ≤ bw_capacity s.1)%N →
  ∃ r s',
    (s <- get ;;
     if decide (bw_capacity s.1 ≤ N.of_nat (length buf))%N then inner_write buf
     else write_to_buffer buf ;;; ret (Ok (length buf))) s = (Returned r, s') ∧
    accepted buf s r s'.
Proof.
  intros Hs Hroom. unfold bind at 1, get.
  destruct (decide (bw_capacity s.1 ≤ N.of_nat (length buf))%N) as [Hbig|Hsmall].
  - apply direct_write_spec; [done|]. destruct Hroom as [?|Hfit]; [done|].
    apply length_zero_iff_nil. lia.
  - destruct (write_to_buffer_spec buf s Hs) as (s' & -> & Ha); [|by eauto].
    destruct Hroom as [->|?]; [simpl; lia | done].
Qed.

Lemma accepted_after_flush buf s s1 r s' :
  flushed s (Ok ()) s1 → accepted buf s1 r s' → accepted buf s r s'.
Proof.
  intros (_ & (_ & Ht1 & _) & Hst & _) (Hv & Ht & Hr). unfold accepted.
  rewrite <-Hst. split_and!; [done | by etrans | done].
Qed.

Lemma write_cold_spec buf s :
  buf_valid s → ∃ r s', write_cold buf s = (Returned r, s') ∧ accepted buf s r s'.
Proof.
  intros Hs. unfold write_cold, bind at 1, get, spare_capacity. case_decide as Hflush.
  - destruct (flush_buf_spec s Hs) as ([[]|e] & s1 & Hrun & Hf).
    + rewrite (bind_try_run_ok _ _ _ _ _ Hrun).
      destruct (write_cold_rest_spec buf s1) as (r & s' & Hrest & Ha);
        [apply Hf | left; by apply Hf |].
      exists r, s'. split; [done|]. by eapply accepted_after_flush.
    + rewrite (bind_try_run_err _ _ _ _ _ Hrun). exists (Err e), s1. split; [done|].
      destruct Hf as (Hv1 & (_ & Ht1 & _) & Hst & _). by split_and!.
  - rewrite (bind_try_run_ok _ _ s () s) by done.
    apply write_cold_rest_spec; [done|]. right. destruct Hs. lia.
Qed.

Lemma buf_write_spec buf s :
  buf_valid s → ∃ r s', buf_write buf s = (Returned r, s') ∧ accepted buf s r s'.
Proof.
  intros Hs. pose proof Hs as [Hv Hcap]. unfold buf_write, bind at 1, get.
  unfold spare_capacity. case_decide as Hfast; [|by apply write_cold_spec].
  destruct (write_to_buffer_spec buf s Hs) as (s' & -> & Ha); [lia | by eauto].
Qed.

Lemma buf_flush_spec s :
  buf_valid s →
  ∃ r s', buf_flush s = (Returned r, s') ∧ buf_valid s' ∧
    same_file s s' ∧ buf_stream s' = buf_stream s ∧
    (r = Ok () → bw_buf s'.1 = []).
Proof.
  intros Hs. unfold buf_flush, bind_try, bind.
  destruct (flush_buf_spec s Hs)
    as ([[]|e] & s1 & -> & [Hv1 Hcap1] & (_ & Ht1 & _) & Hst & _ & Hempty).
  - unfold zoom. destruct (flush_spec _ Hv1) as (r & [t' w'] & -> & Hv' & Ht' & Hst').
    exists r, (set_inner t' s1.1, w'). split; [done|].
    unfold buf_valid, buf_stream in *. simpl in *.
    rewrite Hst', <-Hst. split_and!; [done | done | by etrans | done | auto].
  - exists (Err e), s1. by split_and!.
Qed.

End bufwriter_lawful.

(** ** The buffered file *)

Section buffered_file.
Implicit Types (s : BufWriter File * world) (buf : bytes).

(** A device with no room refuses whatever waits in the buffer, and
    nothing changes. *)
Lemma flush_buf_storage_full s :
  bw_buf s.1 ≠ [] → w_space s.2 = 0%N →
  flush_buf s = (Returned (Err StorageFull), s).
Proof.
  intros Hb Hfull. destruct s as [[f [|b buf] c] w]; [done|].
  unfold flush_buf, bind at 1, get. simpl. unfold bind at 1, get. simpl.
  unfold bind at 1, inner_write. simpl in Hfull.
  by erewrite zoom_run by (by apply (file_write_full (b :: buf) (f, w))).
Qed.

Lemma flush_buf_loop_empty fuel s :
  bw_buf s.1 = [] → flush_buf_loop fuel s = (Returned (Ok ()), s).
Proof. intros Hb. destruct fuel; simpl; unfold bind, get; by rewrite decide_True. Qed.

(** A device with room takes the buffer in one write. *)
Lemma flush_buf_all s :
  at_end (bw_inner s.1, s.2) →
  (N.of_nat (length (bw_buf s.1)) ≤ w_space s.2)%N →
  ∃ s', flush_buf s = (Returned (Ok ()), s') ∧ bw_buf s'.1 = [] ∧
    bw_capacity s'.1 = bw_capacity s.1 ∧ at_end (bw_inner s'.1, s'.2) ∧
    file_data (bw_inner s'.1) s'.2 = file_data (bw_inner s.1) s.2 ++ bw_buf s.1 ∧
    w_space s'.2 = (w_space s.2 - N.of_nat (length (bw_buf s.1)))%N ∧
    w_tree s'.2 = w_tree s.2.
Proof.
  intros Hend Hroom. destruct s as [[f [|b buf] c] w]; simpl in *.
  { exists (mkBufWriter f [] c, w). simpl. rewrite app_nil_r, N.sub_0_r. by split_and!. }
  unfold flush_buf, bind at 1, get. simpl. unfold bind at 1, get. simpl.
  unfold bind at 1, inner_write.
  erewrite zoom_run by (by apply (file_write_all (b :: buf) (f, w))).
  simpl. unfold bind at 1, consume, modify. rewrite flush_buf_loop_empty by (simpl; apply drop_all).
  eexists. split; [done|]. unfold at_end in *. simpl in *.
  rewrite !file_data_written, length_app, Hend, drop_all. by split_and!.
Qed.

Lemma buf_drop_all s :
  at_end (bw_inner s.1, s.2) →
  (N.of_nat (length (bw_buf s.1)) ≤ w_space s.2)%N →
  ∃ s', buf_drop s = (Returned (), s') ∧
    file_data (bw_inner s'.1) s'.2 = file_data (bw_inner s.1) s.2 ++ bw_buf s.1.
Proof.
  intros Hend Hroom.
  destruct (flush_buf_all s Hend Hroom) as (s' & Hrun & _ & _ & _ & Hdata & _).
  exists s'. split; [|done]. unfold buf_drop, bind. by rewrite Hrun.
Qed.

Lemma buf_flush_storage_full s :
  bw_buf s.1 ≠ [] → w_space s.2 = 0%N →
  buf_flush s = (Returned (Err StorageFull), s).
Proof. intros Hb Hfull. by apply bind_try_run_err, flush_buf_storage_full. Qed.

Lemma buf_flush_all s :
  at_end (bw_inner s.1, s.2) →
  (N.of_nat (length (bw_buf s.1)) ≤ w_space s.2)%N →
  ∃ s', buf_flush s = (Returned (Ok ()), s') ∧ bw_buf s'.1 = [] ∧
    bw_capacity s'.1 = bw_capacity s.1 ∧ at_end (bw_inner s'.1, s'.2) ∧
    file_data (bw_inner s'.1) s'.2 = file_data (bw_inner s.1) s.2 ++ bw_buf s.1 ∧
    w_space s'.2 = (w_space s.2 - N.of_nat (length (bw_buf s.1)))%N ∧
    w_tree s'.2 = w_tree s.2.
Proof.
  intros Hend Hroom. destruct (flush_buf_all s Hend Hroom) as ([[f b c] w'] & Hrun & Hs').
  exists (mkBufWriter f b c, w'). split; [|done].
  unfold buf_flush. by rewrite (bind_try_run_ok _ _ _ _ _ Hrun).
Qed.

(** *** A device with room

    [paid buf s s']: from [s] to [s'] the room on the device went down by
    the bytes that reached the file, of those that waited and of [buf]. *)
Definition paid buf s s' : Prop :=
  (w_space s'.2 + N.of_nat (length (bw_buf s.1) + length buf) =
   w_space s.2 + N.of_nat (length (bw_buf s'.1)))%N.

Lemma inner_write_room buf s :
  at_end (bw_inner s.1, s.2) → (N.of_nat (length buf) ≤ w_space s.2)%N →
  ∃ s', inner_write buf s = (Returned (Ok (length buf)), s') ∧
        bw_buf s'.1 = bw_buf s.1 ∧
        w_space s'.2 = (w_space s.2 - N.of_nat (length buf))%N.
Proof.
  intros Hend Hroom. unfold inner_write. destruct (decide (buf = [])) as [->|Hbuf].
  - exists s. split; [|simpl; split; [done | lia]]. by destruct s as [[f b c] w].
  - eexists. split; [|split].
    + apply zoom_run. by apply (file_write_all buf (bw_inner s.1, s.2)).
    + done.
    + done.
Qed.

(** With room on the device for what waits and for [buf], [write] takes
    all of [buf]. *)
Lemma buf_write_room buf s :
  at_end (bw_inner s.1, s.2) →
  (N.of_nat (length (bw_buf s.1) + length buf) ≤ w_space s.2)%N →
  ∃ s', buf_write buf s = (Returned (Ok (length buf)), s') ∧ paid buf s s'.
Proof.
  intros Hend Hroom. unfold buf_write, bind at 1, get, paid.
  case_decide as Hfast; [eexists; split; [done|]; simpl; rewrite length_app; lia|].
  unfold write_cold, bind at 1, get. case_decide as Hflush.
  - destruct (flush_buf_all s Hend) as (s1 & Hrun & Hb1 & _ & Hend1 & _ & Hsp1 & _); [lia|].
    rewrite (bind_try_run_ok _ _ _ _ _ Hrun). unfold bind at 1, get. case_decide.
    + destruct (inner_write_room buf s1 Hend1) as (s' & -> & Hb' & Hsp'); [lia|].
      exists s'. split; [done|]. rewrite Hb', Hb1, Hsp', Hsp1. simpl. lia.
    + eexists. split; [done|]. simpl. rewrite Hb1, Hsp1. simpl. lia.
  - rewrite (bind_try_run_ok _ _ s () s) by done. unfold bind at 1, get. case_decide.
    + destruct (inner_write_room buf s Hend) as (s' & -> & Hb' & Hsp'); [lia|].
      exists s'. split; [done|]. rewrite Hb', Hsp'. lia.
    + eexists. split; [done|]. simpl. rewrite length_app. lia.
Qed.

End buffered_file.

#[export] Program Instance BufWriter_Lawful {T : Type}
    `{!Write T, !Handle T, !Lawful T} : Lawful (BufWriter T) := {|
  stream := buf_stream;
  valid := buf_valid;
|}.
Next Obligation.
  intros T ??? buf s Hs.
  destruct (buf_write_spec buf s Hs) as (r & s' & Hrun & Hv & Ht & Hr). eauto 10.
Qed.
Next Obligation.
  intros T ??? s Hs.
  destruct (buf_flush_spec s Hs) as (r & s' & Hrun & Hv & Ht & Hst & _). eauto 10.
Qed.

(** ** A sink inside an object *)

Section zoomed.
Context {T U A : Type} (get : T → U) (set : U → T → T).
Hypothesis get_set : ∀ u t, get (set u t) = u.

(** What a method of the field ensures of the field, the method of the
    object ensures of the field of the object. *)
Lemma zoom_spec (c : M (U * world) A) (Q : A → U * world → Prop) (s : T * world) :
  (∃ a s', c (get s.1, s.2) = (Returned a, s') ∧ Q a s') →
  ∃ a s', zoom get set c s = (Returned a, s') ∧ Q a (get s'.1, s'.2).
Proof.
  intros (a & [u w'] & Hrun & HQ). exists a, (set u s.1, w').
  split; [by apply zoom_run|]. simpl. by rewrite get_set.
Qed.

End zoomed.

(** ** Sequences of calls *)

(** What the owner of a sink does with it, and what it is told. *)
Inductive call : Type :=
  | Write_call (buf : bytes)
  | Flush_call.

Inductive reply : Type :=
  | Wrote (r : result io_error nat)
  | Flushed (r : result io_error ()).

(** The bytes a call has added to the stream. *)
Definition taken (c : call) (r : reply) : bytes :=
  match c, r with
  | Write_call buf, Wrote (Ok n) => take n buf
  | _, _ => []
  end.

Definition all_taken (cs : list call) (rs : list reply) : bytes :=
  concat (zip_with taken cs rs).

Section calls.
Context {T : Type} `{!Write T, !Handle T, !Lawful T}.
Implicit Types (s : T * world) (cs : list call).

Definition run_call (c : call) : M (T * world) reply :=
  match c with
  | Write_call buf => r <- write buf ;; ret (Wrote r)
  | Flush_call => r <- flush ;; ret (Flushed r)
  end.

Fixpoint run_calls (cs : list call) : M (T * world) (list reply) :=
  match cs with
  | [] => ret []
  | c :: cs => r <- run_call c ;; rs <- run_calls cs ;; ret (r :: rs)
  end.

Lemma run_call_spec c s :
  valid s →
  ∃ r s', run_call c s = (Returned r, s') ∧ valid s' ∧ same_file s s' ∧
    stream s' = stream s ++ taken c r.
Proof.
  intros Hs. destruct c as [buf|]; simpl; unfold bind.
  - destruct (write_spec buf s Hs) as ([n|e] & s' & -> & Hv & Hsame & Hr);
      eexists _, s'; (split; [done|]); simpl; [by destruct Hr|].
    by rewrite app_nil_r.
  - destruct (flush_spec s Hs) as (r & s' & -> & Hv & Hsame & Hr).
    exists (Flushed r), s'. simpl. by rewrite app_nil_r.
Qed.

(** Every sequence of calls on a sink that works returns; the sink still
    works, it has stayed with its file, and its stream has grown by what
    the calls report, in the order of the calls. *)
Lemma run_calls_spec cs s :
  valid s →
  ∃ rs s', run_calls cs s = (Returned rs, s') ∧ length rs = length cs ∧
    valid s' ∧ same_file s s' ∧ stream s' = stream s ++ all_taken cs rs.
Proof.
  revert s. induction cs as [|c cs IH]; intros s Hs; simpl.
  { exists [], s. unfold all_taken. simpl. by rewrite app_nil_r. }
  unfold bind at 1.
  destruct (run_call_spec c s Hs) as (r & s1 & -> & Hv1 & Hsame1 & Hst1).
  unfold bind. destruct (IH s1 Hv1) as (rs & s' & -> & Hlen & Hv & Hsame & Hst).
  exists (r :: rs), s'. unfold all_taken in *. simpl.
  rewrite Hst, Hst1, Hlen, <-app_assoc. split_and!; [done | done | done | by etrans | done].
Qed.

End calls.

(** ** Confinement

    The promise of [Lawful] is about a sink that works. What follows
    holds of every sink, also of one that has lost its place in its file:
    whatever state it is in and however the call ends, a call changes no
    file but the one of the sink, and the sink stays with it. *)

Definition confined {T A : Type} `{!Handle T} (c : M (T * world) A) : Prop :=
  ∀ s, same_file s (c s).2.

Class Confined (T : Type) `{!Write T, !Handle T} : Prop := {
  write_confined (buf : bytes) : confined (write buf);
  flush_confined : confined flush;
}.

Section confined.
Context {T : Type} `{!Handle T}.

Lemma confined_ret {A : Type} (a : A) : confined (T := T) (ret a).
Proof. by intros s. Qed.

Lemma confined_panic {A : Type} msg : confined (T := T) (A := A) (panic msg).
Proof. by intros s. Qed.

Lemma confined_get : confined (T := T) get.
Proof. by intros s. Qed.

Lemma confined_modify (f : T * world → T * world) :
  (∀ s, same_file s (f s)) → confined (modify f).
Proof. intros Hf s. apply Hf. Qed.

Lemma confined_bind {A B : Type} (c : M (T * world) A) (k : A → M (T * world) B) :
  confined c → (∀ a, confined (k a)) → confined (bind c k).
Proof.
  intros Hc Hk s. unfold bind. specialize (Hc s).
  destruct (c s) as [[a|msg] s1]; [|done]. etrans; [exact Hc | apply Hk].
Qed.

Lemma confined_bind_try {E A B : Type} (c : M (T * world) (result E A))
    (k : A → M (T * world) (result E B)) :
  confined c → (∀ a, confined (k a)) → confined (bind_try c k).
Proof.
  intros Hc Hk. apply confined_bind; [done|]. intros [a|e]; [apply Hk | apply confined_ret].
Qed.

(** A method of a field that holds the file of the object. *)
Lemma confined_zoom {U A : Type} `{!Handle U} (get : T → U) (set : U → T → T)
    (c : M (U * world) A) :
  (∀ t, handle (get t) = handle t) → (∀ u t, handle (set u t) = handle u) →
  confined c → confined (zoom get set c).
Proof.
  intros Hget Hset Hc s. unfold zoom. destruct (Hc (get s.1, s.2)) as [Hh Ho].
  destruct (c (get s.1, s.2)) as [o [u w']]. simpl in *.
  split; simpl; [by rewrite Hset, Hh, Hget | by rewrite <-Hget].
Qed.

End confined.

(** Goals of confinement, by the shape of the computation. *)
Ltac solve_confined :=
  repeat lazymatch goal with
    | |- ∀ _, _ => intros ?
    | |- confined (ret _) => apply confined_ret
    | |- confined (panic _) => apply confined_panic
    | |- confined get => apply confined_get
    | |- confined (bind_try _ _) => apply confined_bind_try
    | |- confined (bind _ _) => apply confined_bind
    | |- confined (if ?b then _ else _) => destruct b
    | |- confined (match ?o with _ => _ end) => destruct o
    end.

Lemma file_write_confined buf : confined (file_write buf).
Proof.
  intros s. unfold file_write. io_simpl.
  repeat case_decide; [done | done | apply same_file_written].
Qed.

#[export] Instance File_Confined : Confined File.
Proof. split; [exact file_write_confined | apply confined_ret]. Qed.

Section bufwriter_confined.
Context {T : Type} `{!Write T, !Handle T, !Confined T}.

(** The buffer changes, the file and the world do not. *)
Lemma set_buf_confined (f : BufWriter T → bytes) :
  confined (modify (λ s : BufWriter T * world, (set_buf (f s.1) s.1, s.2))).
Proof. apply confined_modify. by intros s. Qed.

Lemma inner_write_confined buf : confined (inner_write (T := T) buf).
Proof. by apply confined_zoom; [..|apply write_confined]. Qed.

Lemma write_to_buffer_confined buf : confined (write_to_buffer (T := T) buf).
Proof. apply (set_buf_confined (λ b, bw_buf b ++ buf)). Qed.

Lemma consume_confined n : confined (consume (T := T) n).
Proof. apply (set_buf_confined (λ b, drop n (bw_buf b))). Qed.

Lemma flush_buf_loop_confined fuel : confined (flush_buf_loop (T := T) fuel).
Proof.
  induction fuel as [|fuel IH]; simpl; solve_confined;
    first [apply inner_write_confined | apply consume_confined | exact IH].
Qed.

Lemma flush_buf_confined : confined (flush_buf (T := T)).
Proof. unfold flush_buf. solve_confined. apply flush_buf_loop_confined. Qed.

Lemma buf_write_confined buf : confined (buf_write (T := T) buf).
Proof.
  unfold buf_write, write_cold. solve_confined;
    first [apply write_to_buffer_confined | apply flush_buf_confined
          | apply inner_write_confined].
Qed.

Lemma buf_flush_confined : confined (buf_flush (T := T)).
Proof.
  unfold buf_flush. solve_confined; [apply flush_buf_confined|].
  by apply confined_zoom; [..|apply flush_confined].
Qed.

(** The end of a buffered writer is confined as its calls are. *)
Lemma buf_drop_confined : confined (buf_drop (T := T)).
Proof. unfold buf_drop. solve_confined. apply flush_buf_confined. Qed.

#[export] Instance BufWriter_Confined : Confined (BufWriter T).
Proof. split; [exact buf_write_confined | exact buf_flush_confined]. Qed.

End bufwriter_confined.

Lemma run_call_confined {T : Type} `{!Write T, !Handle T, !Confined T} (c : call) :
  confined (run_call (T := T) c).
Proof.
  destruct c; simpl; solve_confined;
    first [apply write_confined | apply flush_confined].
Qed.
