(* ===== verification/Scanner.v ===== *)
(** * Scanner: the log files of a directory, oldest first

    The first half of [RotatingFileWriter::new] (src/src/writer.rs, lines
    22 to 32): walk the entries directly inside the directory, keep the
    regular files whose name starts with the prefix, drop the entries the
    walk could not read, and sort what is left by file name. *)

From Stdlib Require Import Ascii.
From stdpp Require Import base tactics option list strings gmap sorting.
From S2P Require Import Prelude Clock FileSystem.

Local Open Scope string_scope.
Local Open Scope io_scope.

(** ** Definitions *)

(** The closure given to [filter_entry] (lines 26 to 29). *)
Definition is_log_entry (prefix : string) (e : DirEntry) : bool :=
  bool_decide (dent_type e = FtFile) && starts_with (file_name e) prefix.

(** [walkdir]'s [filter_entry]: an entry is yielded when the predicate
    holds of it; an error of the walk is yielded as it is. *)
Definition passes (pred : DirEntry → bool) (r : result io_error DirEntry) : bool :=
  match r with Ok e => pred e | Err _ => true end.

Definition filter_entry (pred : DirEntry → bool)
    (it : list (result io_error DirEntry)) : list (result io_error DirEntry) :=
  filter (λ r, Is_true (passes pred r)) it.

(** The order given to [sorted_by] (line 31): [Ord::cmp] on the file
    names, which compares them byte by byte. *)
Definition by_file_name (a b : DirEntry) : Prop :=
  String.le (file_name a) (file_name b).

#[export] Instance by_file_name_dec : RelDecision by_file_name.
Proof. intros a b. unfold by_file_name. apply _. Defined.

(** The iterator chain of lines 22 to 32 over what the walk yields:
    [filter_entry], [flat_map(|it| it.ok())], [sorted_by], [collect_vec]. *)
Definition collect_logs (prefix : string)
    (it : list (result io_error DirEntry)) : list DirEntry :=
  merge_sort by_file_name
    (omap result_ok (filter_entry (is_log_entry prefix) it)).

(** Lines 22 to 32. *)
Definition scan_logs (dir : path) (prefix : string) : M world (list DirEntry) :=
  it <- walk_dir dir ;;
  ret (collect_logs prefix it).

(** ** What the scan promises *)

(** The entry of the regular file named [n] in [dir]. *)
Definition log_entry (dir : path) (n : string) : DirEntry :=
  mkDirEntry (n :: dir) FtFile.

(** The names of a set in increasing order. *)
Definition sorted_names (names : gset string) : list string :=
  merge_sort String.le (elements names).

(** The log files of [dir], oldest name first. *)
Definition sorted_logs (t : gmap path inode) (dir : path) (prefix : string) :
    list DirEntry :=
  log_entry dir <$> sorted_names (log_names t dir prefix).

(** What the scan of [dir] finds in the world [w]: its log files when it
    is a directory the system lists, nothing otherwise (the errors of the
    walk are dropped at line 30). *)
Definition visible_logs (w : world) (dir : path) (prefix : string) :
    list DirEntry :=
  match w_tree w !! dir with
  | Some IDir =>
      if decide (dir ∈ w_denied w) then [] else sorted_logs (w_tree w) dir prefix
  | _ => []
  end.

(** ** Facts *)

#[export] Instance by_file_name_trans : Transitive by_file_name.
Proof. intros a b c. unfold by_file_name. apply transitivity. Qed.

#[export] Instance by_file_name_total : Total by_file_name.
Proof. intros a b. unfold by_file_name. apply total, _. Qed.

Section scanner.
Implicit Types (w : world) (t : gmap path inode) (d dir : path).
Implicit Types (n prefix : string) (e : DirEntry) (l : list (string * inode)).

Lemma file_name_log_entry d n : file_name (log_entry d n) = n.
Proof. done. Qed.

#[export] Instance log_entry_inj d : Inj (=) (=) (log_entry d).
Proof. by intros n1 n2 [= ->]. Qed.

(** The iterator chain keeps exactly the children that are log files. *)
Lemma filter_walk_entry d prefix c :
  omap result_ok (filter_entry (is_log_entry prefix) [walk_entry d c]) =
    log_entry d <$> option_list (log_child prefix c).
Proof.
  destruct c as [n i].
  unfold filter_entry, walk_entry, log_child, is_log_entry, passes, file_name.
  rewrite filter_cons, filter_nil.
  destruct i; simpl; destruct (starts_with n prefix) eqn:Hn; simpl;
    repeat (case_decide; simpl; try done); naive_solver.
Qed.

Lemma filter_entry_cons pred (r : result io_error DirEntry) it :
  filter_entry pred (r :: it) = (filter_entry pred [r] ++ filter_entry pred it)%list.
Proof. unfold filter_entry. rewrite !filter_cons, filter_nil. by case_decide. Qed.

Lemma filter_walk_entries d prefix l :
  omap result_ok (filter_entry (is_log_entry prefix) (walk_entry d <$> l)) =
    log_entry d <$> omap (log_child prefix) l.
Proof.
  induction l as [|c l IH]; [done|].
  rewrite fmap_cons, filter_entry_cons, omap_app, IH, filter_walk_entry. simpl.
  by destruct (log_child prefix c).
Qed.

Lemma NoDup_log_children t d prefix :
  NoDup (omap (log_child prefix) (children t d)).
Proof.
  apply (sublist_NoDup _ _ (NoDup_children t d)).
  induction (children t d) as [|[n i] l IH]; [done|]. simpl.
  unfold log_child at 1. simpl.
  case_decide; [by apply sublist_skip | by apply sublist_cons].
Qed.

Lemma elements_log_names t d prefix :
  elements (log_names t d prefix) ≡ₚ omap (log_child prefix) (children t d).
Proof. apply elements_list_to_set, NoDup_log_children. Qed.

Lemma sorted_logs_sorted t d prefix :
  StronglySorted by_file_name (sorted_logs t d prefix).
Proof.
  eapply StronglySorted_fmap; [|apply (StronglySorted_merge_sort String.le); apply _].
  by intros n1 n2.
Qed.

(** Sorting the log entries of a directory has one possible result. *)
Lemma sort_logs_unique d (names : list string) (l : list DirEntry) :
  l ≡ₚ log_entry d <$> names → StronglySorted by_file_name l →
  StronglySorted String.le names → l = log_entry d <$> names.
Proof.
  intros Hperm Hl Hnames.
  apply (StronglySorted_unique_strong by_file_name); [|done| |done].
  - intros e1 e2 He1 He2 H12 H21. rewrite Hperm in He1.
    apply list_elem_of_fmap in He1 as (n1 & -> & _).
    apply list_elem_of_fmap in He2 as (n2 & -> & _).
    f_equal. by apply (anti_symm String.le).
  - by eapply StronglySorted_fmap; [|done].
Qed.

(** The chain of lines 22 to 32 over the listing of a directory yields
    its log files in increasing order of name. *)
Lemma collect_logs_walk w d prefix :
  collect_logs prefix (walk_entry d <$> children (w_tree w) d) =
    sorted_logs (w_tree w) d prefix.
Proof.
  unfold collect_logs, sorted_logs, sorted_names. rewrite filter_walk_entries.
  apply sort_logs_unique.
  - rewrite !merge_sort_Permutation. by rewrite elements_log_names.
  - apply StronglySorted_merge_sort; apply _.
  - apply StronglySorted_merge_sort; apply _.
Qed.

(** [scan_logs] on a directory that can be listed: the log files in
    increasing order of name, and an unchanged world. *)
Lemma scan_logs_listed w dir prefix :
  w_tree w !! dir = Some IDir → dir ∉ w_denied w →
  scan_logs dir prefix w = (Returned (sorted_logs (w_tree w) dir prefix), w).
Proof.
  intros Hdir Hden. unfold scan_logs, walk_dir. io_simpl.
  by rewrite Hdir, decide_False, collect_logs_walk.
Qed.

(** [scan_logs] on any world: it returns what is visible and changes
    nothing. *)
Lemma scan_logs_run w dir prefix :
  scan_logs dir prefix w = (Returned (visible_logs w dir prefix), w).
Proof.
  unfold scan_logs, walk_dir, visible_logs. io_simpl.
  destruct (w_tree w !! dir) as [[]|]; try done.
  case_decide; [done | by rewrite collect_logs_walk].
Qed.

Lemma visible_logs_unlistable w dir prefix :
  dir ∈ w_denied w ∨ w_tree w !! dir ≠ Some IDir → visible_logs w dir prefix = [].
Proof.
  intros H. unfold visible_logs.
  destruct (w_tree w !! dir) as [[]|]; try done.
  destruct H as [H|H]; [by rewrite decide_True | done].
Qed.

Lemma elem_of_sorted_names (names : gset string) n :
  n ∈ sorted_names names ↔ n ∈ names.
Proof. unfold sorted_names. by rewrite merge_sort_Permutation, elem_of_elements. Qed.

Lemma sorted_names_sorted (names : gset string) :
  StronglySorted String.le (sorted_names names).
Proof. apply StronglySorted_merge_sort; apply _. Qed.

Lemma NoDup_sorted_names (names : gset string) : NoDup (sorted_names names).
Proof. unfold sorted_names. rewrite merge_sort_Permutation. apply NoDup_elements. Qed.

Lemma length_sorted_names (names : gset string) :
  length (sorted_names names) = size names.
Proof. unfold sorted_names. by rewrite merge_sort_Permutation. Qed.

Lemma elem_of_sorted_logs t d prefix e :
  e ∈ sorted_logs t d prefix ↔
    ∃ n ino, e = log_entry d n ∧ t !! (n :: d) = Some (IFile ino) ∧
             starts_with n prefix = true.
Proof.
  unfold sorted_logs. rewrite list_elem_of_fmap.
  setoid_rewrite elem_of_sorted_names. setoid_rewrite elem_of_log_names.
  naive_solver.
Qed.

Lemma length_sorted_logs t d prefix :
  length (sorted_logs t d prefix) = size (log_names t d prefix).
Proof. unfold sorted_logs. by rewrite length_fmap, length_sorted_names. Qed.

Lemma file_name_sorted_logs t d prefix :
  file_name <$> sorted_logs t d prefix = sorted_names (log_names t d prefix).
Proof.
  unfold sorted_logs. rewrite <-list_fmap_compose. apply list_fmap_id.
Qed.

End scanner.

(** ** Properties of the scan *)

(** The iterator chain of lines 22 to 32 keeps exactly
    the entries the walk yielded without error that are regular files whose
    name starts with the prefix: errors of the walk, directories, other
    kinds of entries and files of other names are all dropped. *)
Theorem collect_logs_elem (prefix : string)
    (it : list (result io_error DirEntry)) (e : DirEntry) :
  e ∈ collect_logs prefix it ↔
    Ok e ∈ it ∧ dent_type e = FtFile ∧ starts_with (file_name e) prefix = true.
Proof.
  unfold collect_logs, filter_entry. rewrite merge_sort_Permutation.
  rewrite list_elem_of_omap. setoid_rewrite list_elem_of_filter.
  unfold is_log_entry. split.
  - intros ([e'|?] & [Hp Hin] & [= <-]). simpl in Hp.
    apply andb_prop_elim in Hp as [Hf%bool_decide_unpack Hs%Is_true_true].
    done.
  - intros (Hin & Hf & Hs). exists (Ok e). split_and!; [|done..]. simpl.
    rewrite Hs. by rewrite bool_decide_true.
Qed.

(** The chain yields the entries in increasing
    order of file name, compared byte by byte, so that the oldest
    timestamp comes first. *)
Theorem collect_logs_sorted (prefix : string)
    (it : list (result io_error DirEntry)) :
  StronglySorted String.le (file_name <$> collect_logs prefix it).
Proof.
  eapply StronglySorted_fmap;
    [|apply (StronglySorted_merge_sort by_file_name); apply _].
  by intros e1 e2.
Qed.

(** C5: on a directory the system lists, the scan returns
    without changing the world, and what it returns is, without
    repetition, the entries of the regular files directly inside the
    directory whose name starts with the prefix. *)
Theorem scan_logs_finds (w : world) (dir : path) (prefix : string) :
  w_tree w !! dir = Some IDir → dir ∉ w_denied w →
  ∃ logs, scan_logs dir prefix w = (Returned logs, w) ∧ NoDup logs ∧
    ∀ e, e ∈ logs ↔
      ∃ n ino, e = mkDirEntry (n :: dir) FtFile ∧
               w_tree w !! (n :: dir) = Some (IFile ino) ∧
               starts_with n prefix = true.
Proof.
  intros Hdir Hden. exists (sorted_logs (w_tree w) dir prefix).
  split; [by apply scan_logs_listed|]. split.
  - apply (NoDup_fmap_2 _), NoDup_sorted_names.
  - apply elem_of_sorted_logs.
Qed.

Lemma scan_logs_finds_witness :
  ∃ logs, scan_logs example_dir "app" example_world = (Returned logs, example_world) ∧
    NoDup logs ∧
    ∀ e, e ∈ logs ↔
      ∃ n ino, e = mkDirEntry (n :: example_dir) FtFile ∧
               w_tree example_world !! (n :: example_dir) = Some (IFile ino) ∧
               starts_with n "app" = true.
Proof.
  apply scan_logs_finds; [vm_compute; reflexivity|].
  apply (bool_decide_unpack _). vm_compute. exact I.
Defined.

(** When the directory cannot be listed or is not
    a directory, the errors of the walk are dropped and the scan returns
    the empty list: the caller sees no log file and no failure. *)
Theorem scan_logs_unlistable (w : world) (dir : path) (prefix : string) :
  dir ∈ w_denied w ∨ w_tree w !! dir ≠ Some IDir →
  scan_logs dir prefix w = (Returned [], w).
Proof.
  intros H. by rewrite scan_logs_run, visible_logs_unlistable.
Qed.

Lemma scan_logs_unlistable_witness :
  scan_logs ("other.txt" :: example_dir) "app" example_world =
    (Returned [], example_world).
Proof.
  apply scan_logs_unlistable. right. vm_compute. discriminate.
Defined.
