(* ===== verification/Pruner.v ===== *)
(** * Pruner: deleting the oldest log files

    The second half of the retention policy of [RotatingFileWriter::new]
    (src/src/writer.rs, lines 18 to 20 and 34 to 44): with the limit
    raised to at least 1, when there are at least [max] log files the
    [len - max + 1] first ones are removed, so that [max - 1] remain. A
    removal that fails is logged and the loop goes on. *)

From Stdlib Require Import Ascii.
From stdpp Require Import base tactics option list strings gmap sorting.
From S2P Require Import Prelude Clock FileSystem Scanner.

Local Open Scope io_scope.

(** ** Definitions *)

(** Lines 18 to 20: [if max < 1 { max = 1 }]. *)
Definition coerce_max (max : N) : N :=
  if decide (max < 1)%N then 1%N else max.

(** [Result::inspect_err]. *)
Definition inspect_err {W E A} (r : result E A) (f : E → M W ()) :
    M W (result E A) :=
  match r with
  | Ok _ => ret r
  | Err e => f e ;;; ret r
  end.

(** The body of the loop (lines 37 to 42): remove the [i]-th log file and
    warn when that fails. The result of the removal is discarded. *)
Definition remove_log (logs : list DirEntry) (i : nat) : M world () :=
  e <- expect (logs !! i) "loop only iterates over valid indices"%string ;;
  r <- remove_file (dent_path e) ;;
  _ <- inspect_err r warn ;;
  ret ().

(** Lines 34 to 44. *)
Definition prune_logs (logs : list DirEntry) (max : N) : M world () :=
  let len := N.of_nat (length logs) in
  if decide (max ≤ len)%N then
    let extra_logs := usize_sub len max in
    for_each (remove_log logs) (range (usize_add extra_logs 1))
  else ret ().

(** ** What pruning promises *)

(** How many of [len] log files go when at most [max - 1] may stay. *)
Definition victim_count (len : nat) (max : N) : nat :=
  if decide (max ≤ N.of_nat len)%N then len - N.to_nat max + 1 else 0.

(** How many turns the loop of line 36 takes, with the arithmetic of
    [usize]. *)
Definition attempts (len : nat) (max : N) : nat :=
  if decide (max ≤ N.of_nat len)%N
  then N.to_nat (usize_add (usize_sub (N.of_nat len) max) 1)
  else 0.

(** The log files the policy removes: the first ones of the sorted list. *)
Definition victims (logs : list DirEntry) (max : N) : list DirEntry :=
  take (victim_count (length logs) max) logs.

(** The log files the policy keeps. *)
Definition survivors (logs : list DirEntry) (max : N) : list DirEntry :=
  drop (victim_count (length logs) max) logs.

(** Whether the system lets the process remove [p]. *)
Definition removable (w : world) (p : path) : Prop :=
  match w_tree w !! p with
  | None | Some IDir => False
  | Some _ => p ∉ w_denied w
  end.

#[export] Instance removable_dec w p : Decision (removable w p).
Proof. unfold removable. repeat case_match; apply _. Defined.

(** The error of a removal that the system refuses. *)
Definition removal_error (w : world) (p : path) : io_error :=
  match w_tree w !! p with
  | None => NotFound
  | Some IDir => IsADirectory
  | Some _ => PermissionDenied
  end.

(** One turn of the loop as a function of the world: the file is gone, or
    a warning is logged. *)
Definition unlink_or_warn (w : world) (p : path) : world :=
  if decide (removable w p) then set_tree (delete p) w
  else add_warning (removal_error w p) w.

(** The policy on the set of the names of the log files: the names it
    removes, oldest first, and the names it keeps. *)
Definition doomed (max : N) (names : gset string) : list string :=
  take (victim_count (size names) max) (sorted_names names).

Definition retained (max : N) (names : gset string) : gset string :=
  list_to_set (drop (victim_count (size names) max) (sorted_names names)).

(** The world after the loop has run over the log files of [d]. *)
Definition pruned (max : N) (d : path) (prefix : string) (w : world) : world :=
  foldl unlink_or_warn w (dent_path <$> victims (sorted_logs (w_tree w) d prefix) max).

(** The system lets the process remove every one of the names. *)
Definition all_removable (w : world) (d : path) (names : gset string) : Prop :=
  set_Forall (λ n, n :: d ∉ w_denied w) names.

#[export] Instance all_removable_dec w d names : Decision (all_removable w d names).
Proof. unfold all_removable. apply _. Defined.

(** ** Facts *)

Section pruner.
Implicit Types (w : world) (p q : path) (logs : list DirEntry) (max : N).

Lemma coerce_max_pos max : (1 ≤ coerce_max max)%N.
Proof. unfold coerce_max. case_decide; lia. Qed.

Lemma coerce_max_id max : (1 ≤ max)%N → coerce_max max = max.
Proof. unfold coerce_max. intros. case_decide; [lia | done]. Qed.

Lemma victim_count_le len max : (1 ≤ max)%N → victim_count len max ≤ len.
Proof. unfold victim_count. intros. case_decide; lia. Qed.

Lemma victims_survivors logs max : (victims logs max ++ survivors logs max)%list = logs.
Proof. apply take_drop. Qed.

Lemma length_survivors logs max :
  (1 ≤ max)%N → length (survivors logs max) = length logs `min` (N.to_nat max - 1).
Proof.
  intros. unfold survivors, victim_count. rewrite length_drop.
  case_decide; lia.
Qed.

Lemma remove_file_removable w p :
  removable w p → remove_file p w = (Returned (Ok ()), set_tree (delete p) w).
Proof.
  unfold removable. destruct (w_tree w !! p) as [i|] eqn:Hp; [|done].
  intros Hr. apply (remove_file_ok w p i); by destruct i.
Qed.

Lemma remove_file_not_removable w p :
  ¬ removable w p → remove_file p w = (Returned (Err (removal_error w p)), w).
Proof.
  unfold removable, removal_error.
  destruct (w_tree w !! p) as [i|] eqn:Hp; [|by rewrite remove_file_missing].
  intros Hr. destruct i; [|by apply remove_file_dir|];
    (eapply remove_file_denied; [done..|]); by apply dec_stable.
Qed.

(** One turn of the loop on a valid index. *)
Lemma remove_log_run logs i e w :
  logs !! i = Some e →
  remove_log logs i w = (Returned (), unlink_or_warn w (dent_path e)).
Proof.
  intros Hi. unfold remove_log, unlink_or_warn. rewrite Hi. simpl.
  unfold bind at 1. simpl. unfold bind.
  case_decide as Hr.
  - by rewrite remove_file_removable.
  - by rewrite remove_file_not_removable.
Qed.

(** The loop over a range of valid indices. *)
Lemma remove_logs_run logs i k w :
  i + k ≤ length logs →
  for_each (remove_log logs) (seq i k) w =
    (Returned (), foldl unlink_or_warn w (dent_path <$> take k (drop i logs))).
Proof.
  revert i w. induction k as [|k IH]; intros i w Hk; simpl.
  - done.
  - destruct (lookup_lt_is_Some_2 logs i) as [e He]; [lia|].
    unfold bind. rewrite (remove_log_run logs i e w He).
    rewrite IH by lia. by rewrite (drop_S _ _ _ He).
Qed.

(** The arithmetic of lines 35 and 36 stays within [usize]: the loop
    never takes more turns than there are log files. *)
Lemma attempts_le len max : (1 ≤ max)%N → attempts len max ≤ len.
Proof.
  intros Hmax. unfold attempts, usize_add, usize_sub. case_decide; [|lia].
  pose proof (N.Div0.mod_le
    (Z.to_N ((Z.of_N (N.of_nat len) - Z.of_N max) `mod` Z.of_N usize_modulus) + 1)
    usize_modulus).
  pose proof (Z.mod_le (Z.of_N (N.of_nat len) - Z.of_N max) (Z.of_N usize_modulus)).
  unfold usize_modulus in *. lia.
Qed.

Lemma attempts_victim_count len max :
  (1 ≤ max)%N → (N.of_nat len ≤ usize_max)%N →
  attempts len max = victim_count len max.
Proof.
  intros Hmax Hlen. unfold attempts, victim_count. case_decide; [|done].
  rewrite usize_sub_le, usize_add_small by (unfold usize_max in *; lia). lia.
Qed.

(** Lines 34 to 44 with a limit of at least 1: the loop returns, having
    tried the first entries in order. *)
Lemma prune_logs_attempts logs max w :
  (1 ≤ max)%N →
  prune_logs logs max w =
    (Returned (),
     foldl unlink_or_warn w (dent_path <$> take (attempts (length logs) max) logs)).
Proof.
  intros Hmax. pose proof (attempts_le (length logs) max Hmax) as Hle.
  unfold prune_logs, attempts in *. case_decide; [|done].
  unfold range. by rewrite remove_logs_run, drop_0.
Qed.

Lemma prune_logs_run logs max w :
  (1 ≤ max)%N → (N.of_nat (length logs) ≤ usize_max)%N →
  prune_logs logs max w =
    (Returned (), foldl unlink_or_warn w (dent_path <$> victims logs max)).
Proof.
  intros Hmax Hlen. rewrite prune_logs_attempts by done.
  unfold victims. by rewrite attempts_victim_count.
Qed.

(** A turn of the loop on an index past the end panics. *)
Lemma remove_log_panic logs i w :
  logs !! i = None →
  remove_log logs i w =
    (Panicked "loop only iterates over valid indices"%string, w).
Proof. intros Hi. unfold remove_log. by rewrite Hi. Qed.

(** *** The world after the loop *)

Lemma unlink_or_warn_tree w p :
  w_tree (unlink_or_warn w p) =
    if decide (removable w p) then delete p (w_tree w) else w_tree w.
Proof. unfold unlink_or_warn. by case_decide. Qed.

Lemma unlink_or_warn_denied w p : w_denied (unlink_or_warn w p) = w_denied w.
Proof. unfold unlink_or_warn. by case_decide. Qed.

Lemma unlink_or_warn_now w p : w_now (unlink_or_warn w p) = w_now w.
Proof. unfold unlink_or_warn. by case_decide. Qed.

Lemma unlink_or_warn_wf w p : wf_world w → wf_world (unlink_or_warn w p).
Proof.
  intros Hwf. unfold unlink_or_warn. case_decide as Hr; [|by destruct Hwf].
  unfold removable in Hr. destruct (w_tree w !! p) as [i|] eqn:Hp; [|done].
  apply (wf_world_delete w p i); [done..|]. by intros ->.
Qed.

Lemma removable_unlink_ne w p q :
  q ≠ p → removable (unlink_or_warn w p) q ↔ removable w q.
Proof.
  intros Hne. unfold removable.
  rewrite unlink_or_warn_tree, unlink_or_warn_denied.
  case_decide; [by rewrite lookup_delete_ne | done].
Qed.

Lemma unlink_or_warn_lookup w p q :
  w_tree (unlink_or_warn w p) !! q =
    if decide (q = p ∧ removable w q) then None else w_tree w !! q.
Proof.
  rewrite unlink_or_warn_tree. destruct (decide (q = p)) as [->|Hne].
  - destruct (decide (removable w p)) as [Hr|Hr].
    + rewrite decide_True by done. apply lookup_delete_eq.
    + by rewrite decide_False by naive_solver.
  - rewrite (decide_False (P := q = p ∧ _)) by naive_solver.
    case_decide; [by rewrite lookup_delete_ne | done].
Qed.

(** After the loop, the victims the system let go are gone and every other
    path leads where it led. *)
Lemma fold_unlink_lookup w ps q :
  w_tree (foldl unlink_or_warn w ps) !! q =
    if decide (q ∈ ps ∧ removable w q) then None else w_tree w !! q.
Proof.
  revert w. induction ps as [|p ps IH]; intros w.
  - rewrite decide_False; [done|]. by intros [?%not_elem_of_nil _].
  - change (foldl unlink_or_warn w (p :: ps))
      with (foldl unlink_or_warn (unlink_or_warn w p) ps).
    rewrite IH, unlink_or_warn_lookup. destruct (decide (q = p)) as [->|Hne].
    + destruct (decide (removable w p)) as [Hr|Hr].
      * rewrite (decide_True (P := p = p ∧ _)) by done.
        rewrite (decide_True (P := p ∈ p :: ps ∧ _)) by (split; [left | done]).
        by destruct (decide _).
      * rewrite (decide_False (P := p = p ∧ _)) by naive_solver.
        rewrite (decide_False (P := p ∈ p :: ps ∧ _)) by naive_solver.
        destruct (decide (p ∈ ps ∧ removable (unlink_or_warn w p) p))
          as [[_ Hr']|]; [|done].
        unfold removable in Hr'. rewrite unlink_or_warn_lookup in Hr'.
        rewrite decide_False in Hr' by naive_solver.
        rewrite unlink_or_warn_denied in Hr'. done.
    + rewrite (decide_False (P := q = p ∧ _)) by naive_solver.
      apply decide_ext. rewrite elem_of_cons, removable_unlink_ne by done.
      naive_solver.
Qed.

Lemma fold_unlink_denied w ps : w_denied (foldl unlink_or_warn w ps) = w_denied w.
Proof.
  revert w. induction ps as [|p ps IH]; intros w; simpl; [done|].
  by rewrite IH, unlink_or_warn_denied.
Qed.

Lemma unlink_or_warn_space w p : w_space (unlink_or_warn w p) = w_space w.
Proof. unfold unlink_or_warn. by case_decide. Qed.

Lemma fold_unlink_space w ps : w_space (foldl unlink_or_warn w ps) = w_space w.
Proof.
  revert w. induction ps as [|p ps IH]; intros w; simpl; [done|].
  by rewrite IH, unlink_or_warn_space.
Qed.

Lemma fold_unlink_now w ps : w_now (foldl unlink_or_warn w ps) = w_now w.
Proof.
  revert w. induction ps as [|p ps IH]; intros w; simpl; [done|].
  by rewrite IH, unlink_or_warn_now.
Qed.

Lemma fold_unlink_wf w ps : wf_world w → wf_world (foldl unlink_or_warn w ps).
Proof.
  revert w. induction ps as [|p ps IH]; intros w Hwf; simpl; [done|].
  by apply IH, unlink_or_warn_wf.
Qed.

(** The log files left in [d] after the loop has tried the entries of the
    names [names]. *)
Lemma log_names_fold_unlink w d prefix (names : list string) :
  log_names (w_tree (foldl unlink_or_warn w (dent_path <$> (log_entry d <$> names))))
            d prefix =
    log_names (w_tree w) d prefix ∖
      list_to_set (filter (λ n, removable w (n :: d)) names).
Proof.
  apply set_eq. intros n.
  rewrite elem_of_difference, !elem_of_log_names, elem_of_list_to_set,
    list_elem_of_filter.
  setoid_rewrite fold_unlink_lookup.
  assert (n :: d ∈ dent_path <$> (log_entry d <$> names) ↔ n ∈ names) as Hin.
  { rewrite <-list_fmap_compose. rewrite list_elem_of_fmap. naive_solver. }
  case_decide as Hc; rewrite Hin in Hc; naive_solver.
Qed.

Lemma unlink_or_warn_data w p : w_data (unlink_or_warn w p) = w_data w.
Proof. unfold unlink_or_warn. by case_decide. Qed.

Lemma fold_unlink_data w ps : w_data (foldl unlink_or_warn w ps) = w_data w.
Proof.
  revert w. induction ps as [|p ps IH]; intros w; simpl; [done|].
  by rewrite IH, unlink_or_warn_data.
Qed.

Lemma unlink_or_warn_next_ino w p : w_next_ino (unlink_or_warn w p) = w_next_ino w.
Proof. unfold unlink_or_warn. by case_decide. Qed.

Lemma fold_unlink_next_ino w ps : w_next_ino (foldl unlink_or_warn w ps) = w_next_ino w.
Proof.
  revert w. induction ps as [|p ps IH]; intros w; simpl; [done|].
  by rewrite IH, unlink_or_warn_next_ino.
Qed.

(** *** The policy on names *)

Lemma doomed_retained max (names : gset string) :
  list_to_set (doomed max names) ∪ retained max names = names.
Proof.
  unfold doomed, retained. rewrite <-list_to_set_app_L, take_drop.
  apply set_eq. intros n. by rewrite elem_of_list_to_set, elem_of_sorted_names.
Qed.

Lemma doomed_retained_disjoint max (names : gset string) n :
  n ∈ doomed max names → n ∉ retained max names.
Proof.
  unfold doomed, retained. rewrite elem_of_list_to_set.
  pose proof (NoDup_sorted_names names) as Hnd.
  rewrite <-(take_drop (victim_count (size names) max)) in Hnd.
  apply NoDup_app in Hnd as (_ & H & _). apply H.
Qed.

Lemma retained_difference max (names : gset string) :
  names ∖ list_to_set (doomed max names) = retained max names.
Proof.
  pose proof (doomed_retained max names).
  pose proof (doomed_retained_disjoint max names). set_solver.
Qed.

Lemma elem_of_doomed max (names : gset string) n :
  n ∈ doomed max names → n ∈ names.
Proof. pose proof (doomed_retained max names). set_solver. Qed.

Lemma size_retained max (names : gset string) :
  (1 ≤ max)%N → size (retained max names) = size names `min` (N.to_nat max - 1).
Proof.
  intros. unfold retained. rewrite size_list_to_set.
  - rewrite length_drop, length_sorted_names. unfold victim_count.
    case_decide; lia.
  - apply (sublist_NoDup _ _ (NoDup_sorted_names names)), sublist_drop.
Qed.

(** The names that go are older than the names that stay. *)
Lemma doomed_before_retained max (names : gset string) a b :
  a ∈ doomed max names → b ∈ retained max names → String.le a b.
Proof.
  unfold doomed, retained. rewrite elem_of_list_to_set. intros Ha Hb.
  eapply (StronglySorted_app_1_elem_of String.le); [|done..].
  rewrite take_drop. apply sorted_names_sorted.
Qed.

(** With the file of the run added, the names the policy retains are at
    most [max], and exactly [min (n, max - 1) + 1] when the name is new. *)
Lemma size_add_retained max (names : gset string) n :
  (1 ≤ max)%N → (N.of_nat (size ({[n]} ∪ retained max names)) ≤ max)%N.
Proof.
  intros Hmax. rewrite size_union_alt, size_singleton.
  pose proof (subseteq_size (retained max names ∖ {[n]}) (retained max names)
                ltac:(set_solver)).
  rewrite size_retained in * by done. lia.
Qed.

Lemma size_add_retained_fresh max (names : gset string) n :
  (1 ≤ max)%N → n ∉ names →
  size ({[n]} ∪ retained max names) = size names `min` (N.to_nat max - 1) + 1.
Proof.
  intros Hmax Hn. rewrite size_union.
  - rewrite size_singleton, size_retained by done. lia.
  - pose proof (doomed_retained max names). set_solver.
Qed.

Lemma coerce_max_le_one max : (max ≤ 1)%N → coerce_max max = 1%N.
Proof. unfold coerce_max. intros. case_decide; lia. Qed.

Lemma retained_one (names : gset string) : retained 1 names = ∅.
Proof.
  apply leibniz_equiv, size_empty_inv. rewrite size_retained by done. lia.
Qed.

Lemma victims_sorted_logs t d prefix max :
  victims (sorted_logs t d prefix) max =
    log_entry d <$> doomed max (log_names t d prefix).
Proof.
  unfold victims, doomed. by rewrite length_sorted_logs, fmap_take.
Qed.

Lemma removable_file w p ino :
  w_tree w !! p = Some (IFile ino) → removable w p ↔ p ∉ w_denied w.
Proof. intros Hp. unfold removable. by rewrite Hp. Qed.

Lemma removable_log_name w d prefix n :
  n ∈ log_names (w_tree w) d prefix → removable w (n :: d) ↔ n :: d ∉ w_denied w.
Proof. intros [[ino Hn] _]%elem_of_log_names. by eapply removable_file. Qed.

(** The warnings of the loop over distinct regular files: one for every
    file the system refuses to remove, in the order of the loop. *)
Lemma fold_unlink_warnings w d (names : list string) :
  NoDup names → Forall (λ n, ∃ ino, w_tree w !! (n :: d) = Some (IFile ino)) names →
  w_warnings (foldl unlink_or_warn w (dent_path <$> (log_entry d <$> names))) =
    (w_warnings w ++
       (const PermissionDenied <$> filter (λ n, n :: d ∈ w_denied w) names))%list.
Proof.
  revert w. induction names as [|n names IH]; intros w Hnd Hfiles.
  { simpl. by rewrite app_nil_r. }
  apply NoDup_cons in Hnd as [Hn Hnd].
  apply Forall_cons in Hfiles as [[ino Hino] Hfiles].
  cbn [fmap list_fmap foldl dent_path log_entry]. rewrite IH; [|done|].
  - rewrite unlink_or_warn_denied, filter_cons. unfold unlink_or_warn.
    rewrite (decide_ext _ _ _ _ (removable_file w _ ino Hino)).
    unfold removal_error. rewrite Hino.
    destruct (decide (n :: d ∈ w_denied w)).
    + rewrite decide_False by naive_solver. simpl. by rewrite <-app_assoc.
    + by rewrite decide_True.
  - apply Forall_forall. intros m Hm. rewrite Forall_forall in Hfiles.
    destruct (Hfiles m Hm) as [ino' Hino']. exists ino'.
    rewrite unlink_or_warn_lookup, decide_False; [done|].
    intros [[= ->] _]. done.
Qed.

(** *** The world after the loop over the log files of a directory *)

Section pruned.
Context (max : N) (d : path) (prefix : string) (w : world).

Lemma prune_sorted_logs :
  (1 ≤ max)%N → (N.of_nat (size (log_names (w_tree w) d prefix)) ≤ usize_max)%N →
  prune_logs (sorted_logs (w_tree w) d prefix) max w =
    (Returned (), pruned max d prefix w).
Proof. intros. apply prune_logs_run; [done|]. by rewrite length_sorted_logs. Qed.

Lemma log_names_pruned :
  log_names (w_tree (pruned max d prefix w)) d prefix =
    log_names (w_tree w) d prefix ∖
      list_to_set (filter (λ n, n :: d ∉ w_denied w)
                          (doomed max (log_names (w_tree w) d prefix))).
Proof.
  unfold pruned. rewrite victims_sorted_logs, log_names_fold_unlink.
  f_equal. apply set_eq. intros n.
  rewrite !elem_of_list_to_set, !list_elem_of_filter.
  split; intros [Hr Hn]; (split; [|done]);
    by apply (removable_log_name w d prefix n (elem_of_doomed max _ n Hn)).
Qed.

Lemma log_names_pruned_all :
  all_removable w d (log_names (w_tree w) d prefix) →
  log_names (w_tree (pruned max d prefix w)) d prefix =
    retained max (log_names (w_tree w) d prefix).
Proof.
  intros Hall. rewrite log_names_pruned, <-retained_difference. f_equal.
  f_equal. apply list_filter_True_in. intros n Hn%elem_of_doomed. by apply Hall.
Qed.

Lemma pruned_warnings :
  w_warnings (pruned max d prefix w) =
    (w_warnings w ++
       (const PermissionDenied <$>
          filter (λ n, n :: d ∈ w_denied w)
                 (doomed max (log_names (w_tree w) d prefix))))%list.
Proof.
  unfold pruned. rewrite victims_sorted_logs. apply fold_unlink_warnings.
  - eapply sublist_NoDup; [apply NoDup_sorted_names | apply sublist_take].
  - apply Forall_forall. intros n Hn%elem_of_doomed.
    by apply elem_of_log_names in Hn as [? _].
Qed.

(** The loop creates nothing, removes no directory, and leaves every path
    that is not a log file of [d] where it was. *)
Lemma pruned_lookup_Some q i :
  w_tree (pruned max d prefix w) !! q = Some i → w_tree w !! q = Some i.
Proof. unfold pruned. rewrite fold_unlink_lookup. by case_decide. Qed.

Lemma pruned_lookup_dir q :
  w_tree w !! q = Some IDir → w_tree (pruned max d prefix w) !! q = Some IDir.
Proof.
  intros Hq. unfold pruned. rewrite fold_unlink_lookup, decide_False; [done|].
  intros [_ Hr]. unfold removable in Hr. by rewrite Hq in Hr.
Qed.

Lemma pruned_lookup_other q :
  (∀ n, n ∈ log_names (w_tree w) d prefix → q ≠ n :: d) →
  w_tree (pruned max d prefix w) !! q = w_tree w !! q.
Proof.
  intros Hq. unfold pruned.
  rewrite fold_unlink_lookup, decide_False; [done|]. intros [Hin _].
  rewrite victims_sorted_logs, <-list_fmap_compose in Hin.
  apply list_elem_of_fmap in Hin as (n & -> & Hn%elem_of_doomed).
  by eapply Hq.
Qed.

Lemma pruned_data : w_data (pruned max d prefix w) = w_data w.
Proof. apply fold_unlink_data. Qed.

Lemma pruned_denied : w_denied (pruned max d prefix w) = w_denied w.
Proof. apply fold_unlink_denied. Qed.

Lemma pruned_next_ino : w_next_ino (pruned max d prefix w) = w_next_ino w.
Proof. apply fold_unlink_next_ino. Qed.

Lemma pruned_now : w_now (pruned max d prefix w) = w_now w.
Proof. apply fold_unlink_now. Qed.

Lemma pruned_space : w_space (pruned max d prefix w) = w_space w.
Proof. apply fold_unlink_space. Qed.

Lemma pruned_wf : wf_world w → wf_world (pruned max d prefix w).
Proof. apply fold_unlink_wf. Qed.

(** A path that is not one of the doomed log files is still there after
    the loop. *)
Lemma pruned_lookup_kept q i :
  w_tree w !! q = Some i →
  (∀ n, n ∈ doomed max (log_names (w_tree w) d prefix) → q ≠ n :: d) →
  w_tree (pruned max d prefix w) !! q = Some i.
Proof.
  intros Hq Hne. unfold pruned.
  rewrite fold_unlink_lookup, decide_False; [done|]. intros [Hin _].
  rewrite victims_sorted_logs, <-list_fmap_compose in Hin.
  apply list_elem_of_fmap in Hin as (n & -> & Hn). by eapply Hne.
Qed.

End pruned.

End pruner.

#[export] Hint Resolve coerce_max_pos : logs.

(** ** Properties of pruning *)

(** Under the guard of line 34 the subtraction
    of line 35 and the addition of line 36 are exact on [usize], and the
    loop takes [len - max + 1] turns, never more than there are log
    files. *)
Theorem prune_arithmetic_exact (len : nat) (max : N) :
  (1 ≤ max)%N → (max ≤ N.of_nat len)%N → (N.of_nat len ≤ usize_max)%N →
  usize_add (usize_sub (N.of_nat len) max) 1 = (N.of_nat len - max + 1)%N ∧
  attempts len max = len - N.to_nat max + 1 ∧
  attempts len max ≤ len.
Proof.
  intros Hmax Hle Hlen. split_and!; [|rewrite attempts_victim_count by done..].
  - rewrite usize_sub_le, usize_add_small by (unfold usize_max in *; lia). lia.
  - unfold victim_count. by rewrite decide_True.
  - by apply victim_count_le.
Qed.

Lemma prune_arithmetic_exact_witness :
  usize_add (usize_sub (N.of_nat 3) 2) 1 = (N.of_nat 3 - 2 + 1)%N ∧
  attempts 3 2 = 3 - N.to_nat 2 + 1 ∧
  attempts 3 2 ≤ 3.
Proof. apply prune_arithmetic_exact; [lia | lia | compute_done]. Defined.

(** C4: with a limit of at least 1, on the sorted
    log files of a directory in which the system permits every removal,
    the loop of lines 34 to 44 returns, the log files left are the names
    the policy retains (all but the [len - max + 1] smallest when there
    are at least [max]), and no warning is logged. *)
Theorem prune_logs_removes_oldest (w : world) (dir : path) (prefix : string)
    (max : N) :
  (1 ≤ max)%N →
  (N.of_nat (size (log_names (w_tree w) dir prefix)) ≤ usize_max)%N →
  all_removable w dir (log_names (w_tree w) dir prefix) →
  ∃ w', prune_logs (sorted_logs (w_tree w) dir prefix) max w = (Returned (), w') ∧
        log_names (w_tree w') dir prefix =
          retained max (log_names (w_tree w) dir prefix) ∧
        w_warnings w' = w_warnings w.
Proof.
  intros Hmax Hsize Hall. exists (pruned max dir prefix w).
  split_and!; [by apply prune_sorted_logs | by apply log_names_pruned_all |].
  rewrite pruned_warnings, (list_filter_False_in _); [by rewrite app_nil_r|].
  intros n Hn%elem_of_doomed Hden. by apply (Hall n).
Qed.

Lemma prune_logs_removes_oldest_witness :
  ∃ w', prune_logs (sorted_logs (w_tree example_world) example_dir "app") 2
                   example_world = (Returned (), w') ∧
        log_names (w_tree w') example_dir "app" =
          retained 2 (log_names (w_tree example_world) example_dir "app") ∧
        w_warnings w' = w_warnings example_world.
Proof. apply prune_logs_removes_oldest; [lia | compute_done | compute_done]. Defined.

(** After the loop, when the system permitted the
    removals, fewer than [max] log files are left: there is room for the
    file of this run. *)
Theorem prune_logs_below_max (w : world) (dir : path) (prefix : string)
    (max : N) :
  (1 ≤ max)%N →
  (N.of_nat (size (log_names (w_tree w) dir prefix)) ≤ usize_max)%N →
  all_removable w dir (log_names (w_tree w) dir prefix) →
  ∃ w', prune_logs (sorted_logs (w_tree w) dir prefix) max w = (Returned (), w') ∧
        (N.of_nat (size (log_names (w_tree w') dir prefix)) < max)%N.
Proof.
  intros Hmax Hsize Hall. exists (pruned max dir prefix w).
  split; [by apply prune_sorted_logs|].
  rewrite log_names_pruned_all, size_retained by done. lia.
Qed.

Lemma prune_logs_below_max_witness :
  ∃ w', prune_logs (sorted_logs (w_tree example_world) example_dir "app") 2
                   example_world = (Returned (), w') ∧
        (N.of_nat (size (log_names (w_tree w') example_dir "app")) < 2)%N.
Proof. apply prune_logs_below_max; [lia | compute_done | compute_done]. Defined.

(** With a limit of at least 1 the loop only
    visits valid indices, whatever the list and the world: it returns,
    it creates nothing, and a path that is not the path of one of the
    entries leads where it led. *)
Theorem prune_logs_never_panics (logs : list DirEntry) (max : N) (w : world) :
  (1 ≤ max)%N →
  ∃ w', prune_logs logs max w = (Returned (), w') ∧
        w_data w' = w_data w ∧
        (∀ q i, w_tree w' !! q = Some i → w_tree w !! q = Some i) ∧
        (∀ q, q ∉ dent_path <$> logs → w_tree w' !! q = w_tree w !! q).
Proof.
  intros Hmax. eexists. split; [by apply prune_logs_attempts|].
  split; [apply fold_unlink_data|].
  split; intros q; rewrite fold_unlink_lookup.
  - intros i. by case_decide.
  - intros Hq. rewrite decide_False; [done|]. intros [Hin _]. apply Hq.
    apply list_elem_of_fmap in Hin as (e & -> & He).
    apply list_elem_of_fmap_2. apply elem_of_take in He as (j & Hj & _).
    by eapply list_elem_of_lookup_2.
Qed.

Lemma prune_logs_never_panics_witness :
  ∃ w', prune_logs (sorted_logs example_tree example_dir "app") 1 example_world =
          (Returned (), w') ∧
        w_data w' = w_data example_world ∧
        (∀ q i, w_tree w' !! q = Some i → w_tree example_world !! q = Some i) ∧
        (∀ q, q ∉ dent_path <$> sorted_logs example_tree example_dir "app" →
              w_tree w' !! q = w_tree example_world !! q).
Proof. apply prune_logs_never_panics. lia. Defined.

(** C35: with a limit of 0, which line 18 rules out,
    the loop would run one turn too many: it removes every log file and
    then panics on the index one past the end. *)
Theorem prune_logs_zero_panics (logs : list DirEntry) (w : world) :
  (N.of_nat (length logs) < usize_max)%N →
  prune_logs logs 0 w =
    (Panicked "loop only iterates over valid indices"%string,
     foldl unlink_or_warn w (dent_path <$> logs)).
Proof.
  intros Hlen. unfold prune_logs. rewrite decide_True by lia.
  rewrite usize_sub_le, usize_add_small by (unfold usize_max in *; lia).
  unfold range. replace (N.to_nat (N.of_nat (length logs) - 0 + 1))
    with (length logs + 1) by lia.
  rewrite seq_app, for_each_app. unfold bind.
  rewrite remove_logs_run, drop_0, take_ge by lia. simpl.
  unfold bind. rewrite remove_log_panic; [done|]. by apply lookup_ge_None_2.
Qed.

Lemma prune_logs_zero_panics_witness :
  prune_logs (sorted_logs example_tree example_dir "app") 0 example_world =
    (Panicked "loop only iterates over valid indices"%string,
     foldl unlink_or_warn example_world
           (dent_path <$> sorted_logs example_tree example_dir "app")).
Proof. apply prune_logs_zero_panics. compute_done. Defined.

(** When there are fewer log files than the
    limit, nothing is removed and the world is unchanged. *)
Theorem prune_logs_under_limit (logs : list DirEntry) (max : N) (w : world) :
  (N.of_nat (length logs) < max)%N → prune_logs logs max w = (Returned (), w).
Proof. intros Hlen. unfold prune_logs. by rewrite decide_False by lia. Qed.

Lemma prune_logs_under_limit_witness :
  prune_logs (sorted_logs example_tree example_dir "app") 4 example_world =
    (Returned (), example_world).
Proof. apply prune_logs_under_limit. compute_done. Defined.

(** C23: a removal the system refuses does not
    stop the loop. It returns; the log files left are the old ones without
    the doomed names the system let go; and one warning is logged for
    every doomed name it refused (a warning of the model is the kind of
    the error, the same for each of them). *)
Theorem prune_logs_tolerates_failures (w : world) (dir : path)
    (prefix : string) (max : N) :
  (1 ≤ max)%N →
  (N.of_nat (size (log_names (w_tree w) dir prefix)) ≤ usize_max)%N →
  ∃ w', prune_logs (sorted_logs (w_tree w) dir prefix) max w = (Returned (), w') ∧
        log_names (w_tree w') dir prefix =
          log_names (w_tree w) dir prefix ∖
            list_to_set (filter (λ n, n :: dir ∉ w_denied w)
                                (doomed max (log_names (w_tree w) dir prefix))) ∧
        w_warnings w' =
          (w_warnings w ++
             (const PermissionDenied <$>
                filter (λ n, n :: dir ∈ w_denied w)
                       (doomed max (log_names (w_tree w) dir prefix))))%list.
Proof.
  intros Hmax Hsize. exists (pruned max dir prefix w).
  split_and!; [by apply prune_sorted_logs | apply log_names_pruned |
               apply pruned_warnings].
Qed.

Lemma prune_logs_tolerates_failures_witness :
  ∃ w', prune_logs (sorted_logs (w_tree example_denied_world) example_dir "app") 2
                   example_denied_world = (Returned (), w') ∧
        log_names (w_tree w') example_dir "app" =
          log_names (w_tree example_denied_world) example_dir "app" ∖
            list_to_set
              (filter (λ n, n :: example_dir ∉ w_denied example_denied_world)
                 (doomed 2 (log_names (w_tree example_denied_world) example_dir "app"))) ∧
        w_warnings w' =
          (w_warnings example_denied_world ++
             (const PermissionDenied <$>
                filter (λ n, n :: example_dir ∈ w_denied example_denied_world)
                  (doomed 2 (log_names (w_tree example_denied_world) example_dir "app"))))%list.
Proof. apply prune_logs_tolerates_failures; [lia | compute_done]. Defined.

(** The files the loop removes are the oldest
    ones: every name that is gone afterwards is at most every name that is
    left, in the byte order of the names. *)
Theorem prune_logs_oldest_first (w : world) (dir : path) (prefix : string)
    (max : N) :
  (1 ≤ max)%N →
  (N.of_nat (size (log_names (w_tree w) dir prefix)) ≤ usize_max)%N →
  all_removable w dir (log_names (w_tree w) dir prefix) →
  ∃ w', prune_logs (sorted_logs (w_tree w) dir prefix) max w = (Returned (), w') ∧
        ∀ a b, a ∈ log_names (w_tree w) dir prefix →
               a ∉ log_names (w_tree w') dir prefix →
               b ∈ log_names (w_tree w') dir prefix → String.le a b.
Proof.
  intros Hmax Hsize Hall. exists (pruned max dir prefix w).
  split; [by apply prune_sorted_logs|]. rewrite log_names_pruned_all by done.
  intros a b Ha Hgone Hb. eapply doomed_before_retained; [|done].
  rewrite <-(doomed_retained max) in Ha. set_solver.
Qed.

Lemma prune_logs_oldest_first_witness :
  ∃ w', prune_logs (sorted_logs (w_tree example_world) example_dir "app") 2
                   example_world = (Returned (), w') ∧
        ∀ a b, a ∈ log_names (w_tree example_world) example_dir "app" →
               a ∉ log_names (w_tree w') example_dir "app" →
               b ∈ log_names (w_tree w') example_dir "app" → String.le a b.
Proof. apply prune_logs_oldest_first; [lia | compute_done | compute_done]. Defined.
