(* ===== verification/Style.v ===== *)
(** * Style: ANSI styling of text

    What [console::style(x).dim()], [.magenta()] and the other calls of
    src/src/format.rs (lines 29 to 42) produce when the styled value is
    displayed: the text between the escape sequences of its colour and
    attributes and the reset sequence when colours are enabled, the bare
    text otherwise. Whether colours are enabled is decided by the
    [console] library from the terminal and the environment; here it is
    a boolean the caller supplies. *)

From Stdlib Require Import Ascii.
From stdpp Require Import base tactics numbers list strings pretty.
From S2P Require Import Prelude.

Local Open Scope string_scope.

(** ** Data *)

(** [console::Color], without the 256-colour palette. *)
Inductive Color : Type :=
| Black | Red | Green | Yellow | Blue | Magenta | Cyan | White.

#[export] Instance Color_eq_dec : EqDecision Color.
Proof. solve_decision. Defined.

(** [console::Attribute]. *)
Inductive Attribute : Type :=
| Bold | Dim | Italic | Underlined | Blink | BlinkFast | Reverse | Hidden
| StrikeThrough.

#[export] Instance Attribute_eq_dec : EqDecision Attribute.
Proof. solve_decision. Defined.

(** [console::Style]: a foreground colour and attributes. *)
Record Style : Type := mkStyle {
  st_fg : option Color;
  st_attrs : list Attribute;
}.

(** ** Operations *)

Definition color_num (c : Color) : N :=
  match c with
  | Black => 0 | Red => 1 | Green => 2 | Yellow => 3
  | Blue => 4 | Magenta => 5 | Cyan => 6 | White => 7
  end.

Definition attr_num (a : Attribute) : N :=
  match a with
  | Bold => 1 | Dim => 2 | Italic => 3 | Underlined => 4 | Blink => 5
  | BlinkFast => 6 | Reverse => 7 | Hidden => 8 | StrikeThrough => 9
  end.

(** The escape character. *)
Definition esc : string := String (ascii_of_N 27) "".

(** The sequence [ESC [ n m]. *)
Definition sgr (n : N) : string := esc +:+ "[" +:+ pretty n +:+ "m".

Definition plain : Style := mkStyle None [].

Definition with_fg (c : Color) : Style := mkStyle (Some c) [].

Definition with_attr (a : Attribute) : Style := mkStyle None [a].

(** What precedes the text: the colour, then the attributes. *)
Definition style_prefix (st : Style) : string :=
  (match st_fg st with Some c => sgr (color_num c + 30) | None => "" end)
  +:+ foldr (λ a rest, sgr (attr_num a) +:+ rest) "" (st_attrs st).

(** Whether the style writes any sequence, and so needs the reset. *)
Definition styled (st : Style) : bool :=
  bool_decide (st_fg st ≠ None ∨ st_attrs st ≠ []).

(** [Display] of [style(text)] with the style [st]. *)
Definition render_styled (colors : bool) (st : Style) (text : string) : string :=
  if colors && styled st then style_prefix st +:+ text +:+ sgr 0 else text.

(** ** Facts *)

Section style.
Implicit Types (st : Style) (text : string) (c : Color).

Lemma render_styled_off st text : render_styled false st text = text.
Proof. done. Qed.

Lemma render_styled_plain colors text : render_styled colors plain text = text.
Proof. by destruct colors. Qed.

Lemma render_styled_fg c text :
  render_styled true (with_fg c) text = sgr (color_num c + 30) +:+ text +:+ sgr 0.
Proof.
  unfold render_styled, styled, style_prefix. simpl.
  by rewrite string_app_nil_r.
Qed.

#[export] Instance color_num_inj : Inj (=) (=) color_num.
Proof. intros [] []; simpl; intros; by simplify_eq. Qed.

(** Styling adds nothing to the text but sequences around it. *)
Lemma render_styled_wraps colors st text :
  ∃ pre post, render_styled colors st text = pre +:+ text +:+ post.
Proof.
  unfold render_styled. destruct (colors && styled st).
  - by eexists _, _.
  - exists "", "". by rewrite string_app_nil_r.
Qed.

End style.
