(* ===== verification/Format.v ===== *)
(** * Format: the source formatter

    [SourceFormatter::format_event] of src/src/format.rs (lines 12 to 73):
    one line per event, made of the dimmed time, the coloured level, the
    cyan tag of the call site, the spans of the event's scope from the
    root, the event's fields and a newline.

    The formatter writes to a sink it knows only through [write_str]; the
    class [FmtWrite] is that interface with its law, and the theorems
    about the formatter are proved for every sink that satisfies it. Two
    sinks are given: an unbounded text buffer that accepts everything,
    and a bounded one that fails when it is full. The trait the method
    belongs to is the class [FormatEvent], implemented by
    [SourceFormatter_FormatEvent] (lines 14 to 74); [LineFormat] states
    what a caller may rely on when it hands the formatter a [String].

    The local time, its offset and whether colours are enabled are read
    from the surroundings of the process; here they are the record
    [Env]. The text of the time is [to_rfc2822] of [Clock], which exists
    for the years 0 to 9999 only: outside of them line 25 panics. The
    spans and the fields of the event belong to the [tracing] framework:
    a span is its name and the text the framework cached for its fields,
    an event carries the pieces its field formatter writes. *)

From Stdlib Require Import Ascii.
From stdpp Require Import base tactics numbers option list strings pretty.
From S2P Require Import Prelude Clock Style.

Local Open Scope string_scope.
Local Open Scope io_scope.

(** ** The output sink *)

(** [std::fmt::Error]. *)
Inductive fmt_error : Type := FmtError.

#[export] Instance fmt_error_eq_dec : EqDecision fmt_error.
Proof. solve_decision. Defined.

(** [std::fmt::Write]: a sink accepts a string or fails; [written] is the
    text it holds. A write that succeeds appends the string; a write
    that fails appends at most the beginning of it. *)
Class FmtWrite (S : Type) : Type := {
  write_str : string → M S (result fmt_error ());
  written : S → string;
  write_str_spec (s : string) (st : S) :
    ∃ r st' p, write_str s st = (Returned r, st') ∧
      written st' = written st +:+ p ∧
      match r with Ok _ => p = s | Err _ => starts_with s p = true end;
}.

(** A sink that accepts every write. *)
Class Infallible (S : Type) `{FmtWrite S} : Prop :=
  write_str_ok (s : string) (st : S) :
    ∃ st', write_str s st = (Returned (Ok ()), st').

(** ** Data of the framework *)

(** [tracing::Level]. *)
Inductive Level : Type := TRACE | DEBUG | INFO | WARN | ERROR.

#[export] Instance Level_eq_dec : EqDecision Level.
Proof. solve_decision. Defined.

(** [tracing::Metadata], as far as the formatter reads it. *)
Record Metadata : Type := mkMetadata {
  md_level : Level;
  md_file : option string;
  md_line : option N;
}.

(** An event: its metadata and the pieces its field formatter writes. *)
Record Event : Type := mkEvent {
  ev_metadata : Metadata;
  ev_fields : list string;
}.

(** A span of the registry: its name and the [FormattedFields] cached in
    its extensions, when they are there. *)
Record Span : Type := mkSpan {
  sp_name : string;
  sp_fields : option string;
}.

(** [FmtContext]: the scope of the event, innermost span first, when the
    event is inside a span. *)
Record FmtContext : Type := mkFmtContext {
  ctx_scope : option (list Span);
}.

(** What the formatter reads from the process: the local time of
    [chrono::Local::now()], its offset from UTC in minutes, and whether
    [console] has colours enabled. *)
Record Env : Type := mkEnv {
  env_now : DateTime;
  env_offset : Z;
  env_colors : bool;
}.

(** Line 12. *)
Inductive SourceFormatter : Type := mkSourceFormatter.

(** ** The text of the head of the line *)

(** [Display] of a level. *)
Definition level_text (l : Level) : string :=
  match l with
  | TRACE => "TRACE" | DEBUG => "DEBUG" | INFO => "INFO"
  | WARN => "WARN" | ERROR => "ERROR"
  end.

(** Lines 30 to 36. *)
Definition level_style (l : Level) : Style :=
  match l with
  | TRACE => with_fg Magenta
  | DEBUG => with_fg Blue
  | INFO => with_fg Green
  | WARN => with_fg Yellow
  | ERROR => with_fg Red
  end.

(** Lines 37 to 41: [format!("[{}:{}]", file, line)] with the defaults
    of [unwrap_or_default]. *)
Definition callsite (md : Metadata) : string :=
  "[" +:+ default "" (md_file md) +:+ ":" +:+ pretty (default 0%N (md_line md))
  +:+ "]".

(** Lines 27 to 43: [format!("{} {} {}", ...)] of the dimmed time, the
    coloured level and the cyan tag. *)
Definition message (colors : bool) (time_now : string) (md : Metadata) : string :=
  render_styled colors (with_attr Dim) time_now +:+ " " +:+
  render_styled colors (level_style (md_level md)) (level_text (md_level md))
  +:+ " " +:+
  render_styled colors (with_fg Cyan) (callsite md).

(** What [writeln!(writer)] writes (line 72). *)
Definition newline : string := String (ascii_of_N 10) "".

(** [scope.from_root()]. *)
Definition from_root (scope : list Span) : list Span := reverse scope.

(** ** The formatter *)

Section formatter.
Context {S : Type} `{!FmtWrite S}.

(** Line 25: the text of the local time; the library panics when there
    is none. *)
Definition time_now (env : Env) : M S string :=
  expect (to_rfc2822 (env_now env) (env_offset env))
         "writing rfc2822 datetime to string should never fail".

(** [write!(writer, ...)]: the literal pieces and the displayed arguments
    of the format string are written in order; the first failure ends
    the call. *)
Fixpoint write_fmt (pieces : list string) : M S (result fmt_error ()) :=
  match pieces with
  | [] => ret (Ok ())
  | p :: ps => _ <-? write_str p ;; write_fmt ps
  end.

(** The body of the loop (lines 51 to 67). *)
Definition render_span (span : Span) : M S (result fmt_error ()) :=
  _ <-? write_fmt [sp_name span] ;;
  fields <- expect (sp_fields span) "will never be `None`" ;;
  _ <-? (if bool_decide (fields ≠ "") then write_fmt ["{"; fields; "}"]
         else ret (Ok ())) ;;
  write_fmt [": "].

(** Lines 49 to 69. *)
Definition render_spans (ctx : FmtContext) : M S (result fmt_error ()) :=
  match ctx_scope ctx with
  | Some scope => for_each_try render_span (from_root scope)
  | None => ret (Ok ())
  end.

(** Line 71: the field formatter of the context writes the fields of the
    event. *)
Definition format_fields (event : Event) : M S (result fmt_error ()) :=
  write_fmt (ev_fields event).

(** [format_event] (lines 19 to 73). *)
Definition format_event (self : SourceFormatter) (env : Env) (ctx : FmtContext)
    (event : Event) : M S (result fmt_error ()) :=
  time_now <- time_now env ;;
  let metadata := ev_metadata event in
  let message := message (env_colors env) time_now metadata in
  _ <-? write_fmt [message; ": "] ;;
  _ <-? render_spans ctx ;;
  _ <-? format_fields event ;;
  write_fmt [newline].

End formatter.

(** [tracing_subscriber::fmt::FormatEvent]: the method the fmt layer
    calls for every event, with the sink it has chosen and what the
    process shows of the time and the terminal. *)
Class FormatEvent (F : Type) : Type :=
  fmt_event : F → ∀ (S : Type) `{!FmtWrite S},
              Env → FmtContext → Event → M S (result fmt_error ()).

(** [impl FormatEvent for SourceFormatter] (lines 14 to 74). *)
#[export] Instance SourceFormatter_FormatEvent : FormatEvent SourceFormatter :=
  λ self S _, format_event self.

(** ** What the formatter promises *)

(** The pieces written for one span whose fields are cached. *)
Definition span_pieces (span : Span) : list string :=
  match sp_fields span with
  | Some fields =>
      sp_name span ::
      (if bool_decide (fields ≠ "") then ["{"; fields; "}"] else []) ++ [": "]
  | None => [sp_name span]
  end.

(** The spans of the scope, outermost first. *)
Definition scope_spans (ctx : FmtContext) : list Span :=
  match ctx_scope ctx with Some scope => from_root scope | None => [] end.

(** Every span of the scope has its fields cached. *)
Definition cached (ctx : FmtContext) : Prop :=
  Forall (λ span, is_Some (sp_fields span)) (scope_spans ctx).

#[export] Instance cached_dec ctx : Decision (cached ctx).
Proof. unfold cached. apply _. Defined.

(** The local time has a text: its year is one of 0 to 9999. *)
Definition representable (env : Env) : Prop :=
  (0 ≤ dt_year (env_now env) ≤ 9999)%Z.

#[export] Instance representable_dec env : Decision (representable env).
Proof. unfold representable. apply _. Defined.

(** The text of the local time, when it has one. *)
Definition time_text (env : Env) : string :=
  default "" (to_rfc2822 (env_now env) (env_offset env)).

(** The pieces of the line of an event, in the order they are written. *)
Definition event_pieces (env : Env) (ctx : FmtContext) (event : Event) :
    list string :=
  [message (env_colors env) (time_text env) (ev_metadata event); ": "] ++
  (scope_spans ctx ≫= span_pieces) ++ ev_fields event ++ [newline].

(** The line of an event. *)
Definition event_line (env : Env) (ctx : FmtContext) (event : Event) : string :=
  joined (event_pieces env ctx event).

(** ** Data for the examples: the time of the example in the source
    (line 11), six hours west of UTC, and an event of level INFO written
    at line 74 of main.rs, inside the span [B] (no fields) inside the
    span [A] (fields [x=1]). *)
Definition example_env : Env := mkEnv (mkDateTime 1997 11 12 9 55 6) (-360) false.

Definition example_event : Event :=
  mkEvent (mkMetadata INFO (Some "main.rs") (Some 74%N)) ["Hello World!"].

Definition example_ctx : FmtContext :=
  mkFmtContext (Some [mkSpan "B" (Some ""); mkSpan "A" (Some "x=1")]).

(** ** Two sinks *)

(** A [String]: it accepts every write. *)
#[export] Program Instance Buffer_write : FmtWrite string := {|
  write_str s := λ st, (Returned (Ok ()), st +:+ s);
  written st := st;
|}.
Next Obligation. intros s st. by exists (Ok ()), (st +:+ s), s. Qed.

#[export] Instance Buffer_infallible : Infallible string.
Proof. intros s st. by eexists. Qed.

(** A buffer with room for [bd_room] more characters: a write that does
    not fit fills the room that is left and fails. *)
Record Bounded : Type := mkBounded {
  bd_text : string;
  bd_room : nat;
}.

#[export] Program Instance Bounded_write : FmtWrite Bounded := {|
  write_str s := λ st,
    if decide (String.length s ≤ bd_room st)%nat
    then (Returned (Ok ()),
          mkBounded (bd_text st +:+ s) (bd_room st - String.length s)%nat)
    else (Returned (Err FmtError),
          mkBounded (bd_text st +:+ String.substring 0 (bd_room st) s) 0);
  written := bd_text;
|}.
Next Obligation.
  intros s st. cbv beta. destruct (decide _).
  - by eexists (Ok ()), _, s.
  - eexists (Err FmtError), _, _. split_and!; [done..|].
    apply starts_with_substring.
Qed.

(** ** The formatter as a sequence of writes *)

Section pieces.
Context {S : Type} `{!FmtWrite S}.
Implicit Types (st : S) (ps : list string) (span : Span) (ctx : FmtContext).

Lemma write_fmt_app ps1 ps2 :
  write_fmt (ps1 ++ ps2) ≃ (_ <-? write_fmt ps1 ;; write_fmt ps2).
Proof.
  induction ps1 as [|p ps1 IH]; simpl; [done|].
  etrans; [|symmetry; apply bind_try_assoc].
  apply bind_try_proper; [done | intros []; apply IH].
Qed.

(** A span with cached fields is written piece by piece. *)
Lemma render_span_pieces span :
  is_Some (sp_fields span) → render_span span ≃ write_fmt (span_pieces span).
Proof.
  intros [fields Hf]. unfold render_span, span_pieces. rewrite Hf.
  etrans; [|symmetry; apply (write_fmt_app [sp_name span])].
  apply bind_try_proper; [done | intros []].
  etrans; [|symmetry; apply write_fmt_app].
  intros st. unfold expect. rewrite bind_ret_l. by destruct (bool_decide _).
Qed.

Lemma render_spans_pieces ctx :
  cached ctx → render_spans ctx ≃ write_fmt (scope_spans ctx ≫= span_pieces).
Proof.
  unfold cached, render_spans, scope_spans.
  destruct (ctx_scope ctx) as [scope|]; [|done].
  induction (from_root scope) as [|span spans IH]; intros Hc; [done|].
  apply Forall_cons in Hc as [Hspan Hc]. simpl.
  etrans; [|symmetry; apply write_fmt_app].
  apply bind_try_proper; [by apply render_span_pieces | intros []; by apply IH].
Qed.

(** With the fields of the spans cached, [format_event] writes the pieces
    of the line in order. *)
Lemma time_now_run env st :
  representable env → time_now env st = (Returned (time_text env), st).
Proof.
  intros [t Ht]%(to_rfc2822_is_Some _ (env_offset env)).
  unfold time_now, time_text. by rewrite Ht.
Qed.

(** Outside the years 0 to 9999 line 25 panics. *)
Lemma time_now_panic env st :
  ¬ representable env →
  time_now env st =
    (Panicked "writing rfc2822 datetime to string should never fail", st).
Proof.
  intros Ht%(to_rfc2822_None _ (env_offset env)). unfold time_now. by rewrite Ht.
Qed.

Lemma format_event_pieces self env ctx event :
  representable env → cached ctx →
  format_event self env ctx event ≃ write_fmt (event_pieces env ctx event).
Proof.
  intros Ht Hc st. unfold format_event, bind at 1. rewrite time_now_run by done.
  revert st. change (?f ≃ ?g) with (∀ st, f st = g st).
  unfold event_pieces, format_fields.
  etrans; [|symmetry; apply write_fmt_app].
  apply bind_try_proper; [done | intros []].
  etrans; [|symmetry; apply write_fmt_app].
  apply bind_try_proper; [by apply render_spans_pieces | intros []].
  symmetry. apply write_fmt_app.
Qed.

(** What a sequence of writes leaves in the sink: the whole text when it
    succeeds, a beginning of it when it fails. *)
Lemma write_fmt_spec ps st :
  ∃ r st' p, write_fmt ps st = (Returned r, st') ∧
    written st' = written st +:+ p ∧
    match r with
    | Ok _ => p = joined ps
    | Err _ => starts_with (joined ps) p = true
    end.
Proof.
  revert st. induction ps as [|x ps IH]; intros st; simpl.
  { exists (Ok ()), st, "". by rewrite string_app_nil_r. }
  unfold bind_try, bind.
  destruct (write_str_spec x st) as ([[]|e] & st1 & p1 & -> & Hw1 & Hp1).
  - destruct (IH st1) as (r & st2 & p2 & -> & Hw2 & Hp2). subst p1.
    exists r, st2, (x +:+ p2). split; [done|].
    split; [by rewrite Hw2, Hw1, string_app_assoc|].
    destruct r; [by subst | by apply starts_with_app_r].
  - exists (Err e), st1, p1. split_and!; [done..|]. by apply starts_with_app_l.
Qed.

Lemma write_fmt_ok `{!Infallible S} ps st :
  ∃ st', write_fmt ps st = (Returned (Ok ()), st') ∧
         written st' = written st +:+ joined ps.
Proof.
  revert st. induction ps as [|x ps IH]; intros st; simpl.
  { exists st. by rewrite string_app_nil_r. }
  unfold bind_try, bind. destruct (write_str_ok x st) as [st1 Hx].
  destruct (write_str_spec x st) as (r & st1' & p1 & Hx' & Hw1 & Hp1).
  rewrite Hx in Hx'. simplify_eq. rewrite Hx.
  destruct (IH st1') as (st2 & -> & Hw2). exists st2. split; [done|].
  by rewrite Hw2, Hw1, string_app_assoc.
Qed.

(** On a sink that accepts everything, the loop panics at the first span
    from the root whose fields are not cached. *)
Lemma render_spans_panic `{!Infallible S} (spans : list Span) st :
  Exists (λ span, sp_fields span = None) spans →
  ∃ st', for_each_try render_span spans st =
           (Panicked "will never be `None`", st').
Proof.
  revert st. induction spans as [|span spans IH]; intros st Hex;
    [by apply Exists_nil in Hex|]. simpl.
  destruct (sp_fields span) as [fields|] eqn:Hf.
  - apply Exists_cons in Hex as [Hex|Hex]; [congruence|].
    unfold bind_try, bind. rewrite render_span_pieces by done.
    destruct (write_fmt_ok (span_pieces span) st) as (st1 & -> & _).
    by apply IH.
  - unfold bind_try at 1, bind at 1, render_span, bind_try at 1, bind at 1.
    destruct (write_fmt_ok [sp_name span] st) as (st1 & -> & _).
    rewrite Hf. by eexists.
Qed.

End pieces.

(** *** No error but the sink's

    Every [?] of [format_event] passes on an error of the sink: on a sink
    that accepts every write the formatter returns no error, whatever the
    event and its scope. It succeeds or panics. *)

Section unfailing.
Context {S : Type} `{!FmtWrite S, !Infallible S}.

Definition unfailing {A : Type} (c : M S (result fmt_error A)) : Prop :=
  ∀ st e, (c st).1 ≠ Returned (Err e).

Lemma unfailing_ret {A : Type} (a : A) : unfailing (ret (Ok a)).
Proof. by intros st e. Qed.

Lemma unfailing_bind {A B : Type} (c : M S A) (k : A → M S (result fmt_error B)) :
  (∀ a, unfailing (k a)) → unfailing (bind c k).
Proof.
  intros Hk st e. unfold bind. destruct (c st) as [[a|msg] st']; [apply Hk | done].
Qed.

Lemma unfailing_bind_try {A B : Type} (c : M S (result fmt_error A))
    (k : A → M S (result fmt_error B)) :
  unfailing c → (∀ a, unfailing (k a)) → unfailing (bind_try c k).
Proof.
  intros Hc Hk st e. unfold bind_try, bind. pose proof (Hc st) as Hst.
  destruct (c st) as [[[a|e0]|msg] st']; [apply Hk | by destruct (Hst e0) | done].
Qed.

Lemma unfailing_write_fmt ps : unfailing (write_fmt ps).
Proof. intros st e. by destruct (write_fmt_ok ps st) as (st' & -> & _). Qed.

Lemma unfailing_for_each_try {A : Type} (body : A → M S (result fmt_error ())) l :
  (∀ x, unfailing (body x)) → unfailing (for_each_try body l).
Proof.
  intros Hbody. induction l as [|x l IH]; [apply unfailing_ret|].
  by apply unfailing_bind_try.
Qed.

Ltac solve_unfailing :=
  repeat first
    [ apply unfailing_write_fmt | apply unfailing_ret
    | apply unfailing_bind_try | apply unfailing_bind
    | lazymatch goal with
      | |- ∀ _, _ => intros ?
      | |- unfailing (if ?b then _ else _) => destruct b
      | |- unfailing (match ?o with _ => _ end) => destruct o
      end ].

Lemma unfailing_render_span span : unfailing (render_span span).
Proof. unfold render_span. solve_unfailing. Qed.

Lemma unfailing_format_event self env ctx event :
  unfailing (format_event self env ctx event).
Proof.
  unfold format_event, render_spans, format_fields. solve_unfailing.
  apply unfailing_for_each_try, unfailing_render_span.
Qed.

End unfailing.

(** What the fmt layer relies on, whatever the formatter: given a
    [String] to write to, in an environment and a scope that are [ready],
    it succeeds and has appended [line_of] the event. *)
Class LineFormat (F : Type) `{!FormatEvent F} : Type := {
  line_of : F → Env → FmtContext → Event → string;
  ready : Env → FmtContext → Prop;
  fmt_event_line (self : F) env ctx event (st : string) :
    ready env ctx →
    fmt_event self string env ctx event st =
      (Returned (Ok ()), st +:+ line_of self env ctx event);
}.

#[export] Program Instance SourceFormatter_LineFormat : LineFormat SourceFormatter := {|
  line_of _ := event_line;
  ready env ctx := representable env ∧ cached ctx;
|}.
Next Obligation.
  intros self env ctx event st [Ht Hc]. unfold fmt_event, SourceFormatter_FormatEvent.
  rewrite format_event_pieces by done.
  destruct (write_fmt_ok (event_pieces env ctx event) st) as (st' & -> & Hw).
  simpl in Hw. by rewrite Hw.
Qed.

(** ** Properties of the formatter *)

(** C3: on a sink that accepts every write, when every
    span of the scope has its fields cached and the year of the local
    time is one of 0 to 9999, [format_event] succeeds and
    appends exactly the line of the event: the head, [": "], every span
    from the root as [name], [{fields}] when the fields are not empty,
    [": "], then the fields of the event and one newline. *)
Theorem format_event_line {S : Type} `{!FmtWrite S} `{!Infallible S}
    (self : SourceFormatter) (env : Env) (ctx : FmtContext) (event : Event)
    (st : S) :
  representable env → cached ctx →
  ∃ st', format_event self env ctx event st = (Returned (Ok ()), st') ∧
         written st' = written st +:+ event_line env ctx event.
Proof.
  intros Ht Hc. rewrite format_event_pieces by done. apply write_fmt_ok.
Qed.

Lemma format_event_line_witness :
  ∃ st', format_event mkSourceFormatter example_env example_ctx example_event "" =
           (Returned (Ok ()), st') ∧
         written st' = written "" +:+ event_line example_env example_ctx example_event.
Proof. apply (format_event_line (S := string)); compute_done. Defined.

(** C9: on every sink, when the fields of the spans
    are cached and the year of the local time is one of 0 to 9999,
    [format_event] returns; what it has appended is the line
    of the event when it succeeds and a beginning of that line when it
    fails. A failure of the sink ends the call at once: nothing is
    written after the write that failed. *)
Theorem format_event_truncates {S : Type} `{!FmtWrite S}
    (self : SourceFormatter) (env : Env) (ctx : FmtContext) (event : Event)
    (st : S) :
  representable env → cached ctx →
  ∃ r st' p, format_event self env ctx event st = (Returned r, st') ∧
    written st' = written st +:+ p ∧
    match r with
    | Ok _ => p = event_line env ctx event
    | Err _ => starts_with (event_line env ctx event) p = true
    end.
Proof.
  intros Ht Hc. rewrite format_event_pieces by done. apply write_fmt_spec.
Qed.

Lemma format_event_truncates_witness :
  ∃ r st' p,
    format_event mkSourceFormatter example_env example_ctx example_event
                 (mkBounded "" 40) = (Returned r, st') ∧
    written st' = written (mkBounded "" 40) +:+ p ∧
    match r with
    | Ok _ => p = event_line example_env example_ctx example_event
    | Err _ => starts_with (event_line example_env example_ctx example_event) p = true
    end.
Proof. apply (format_event_truncates (S := Bounded)); compute_done. Defined.

(** C34: when a span of the scope has no cached
    fields, [format_event] panics at the [expect] of line 61, after the
    head of the line and the spans before it have been written. The
    sink accepts every write and the year of the local time is one of
    0 to 9999: nothing returns before line 61 is reached. *)
Theorem format_event_missing_cache {S : Type} `{!FmtWrite S} `{!Infallible S}
    (self : SourceFormatter) (env : Env) (ctx : FmtContext) (event : Event)
    (st : S) :
  representable env → ¬ cached ctx →
  ∃ st', format_event self env ctx event st =
           (Panicked "will never be `None`", st').
Proof.
  intros Ht Hc. unfold format_event, bind at 1. rewrite time_now_run by done.
  unfold bind_try at 1, bind at 1.
  destruct (write_fmt_ok [message (env_colors env) (time_text env) (ev_metadata event);
                          ": "] st) as (st1 & -> & _).
  unfold cached, scope_spans, bind_try, bind, render_spans in *.
  destruct (ctx_scope ctx) as [scope|]; [|exfalso; apply Hc; constructor].
  apply not_Forall_Exists in Hc; [|apply _].
  destruct (render_spans_panic (from_root scope) st1) as [st2 ->]; [|by eauto].
  eapply Exists_impl; [done|]. intros span Hs. by apply eq_None_not_Some.
Qed.

Lemma format_event_missing_cache_witness :
  ∃ st', format_event mkSourceFormatter example_env
           (mkFmtContext (Some [mkSpan "B" None; mkSpan "A" (Some "x=1")]))
           example_event "" =
           (Panicked "will never be `None`", st').
Proof. apply (format_event_missing_cache (S := string)); compute_done. Defined.

(** C37: when the local year is not one
    of 0 to 9999 the time has no RFC 2822 text: [format_event] panics at
    line 25, on every sink, before anything is written. *)
Theorem format_event_year_panics {S : Type} `{!FmtWrite S}
    (self : SourceFormatter) (env : Env) (ctx : FmtContext) (event : Event)
    (st : S) :
  ¬ representable env →
  format_event self env ctx event st =
    (Panicked "writing rfc2822 datetime to string should never fail", st).
Proof.
  intros Ht. unfold format_event, bind at 1. by rewrite time_now_panic.
Qed.

Lemma format_event_year_panics_witness :
  format_event mkSourceFormatter (mkEnv (mkDateTime 10000 1 1 0 0 0) 0 false)
               example_ctx example_event "" =
    (Panicked "writing rfc2822 datetime to string should never fail", "").
Proof. apply (format_event_year_panics (S := string)). compute_done. Defined.

(** With colours disabled the line is plain text:
    the time, the level and the tag [[file:line]] separated by single
    spaces, [": "], the spans, the fields of the event and a newline,
    without any escape sequence of the formatter's own. *)
Theorem event_line_plain (now : DateTime) (offset : Z) (ctx : FmtContext)
    (event : Event) :
  event_line (mkEnv now offset false) ctx event =
    time_text (mkEnv now offset false) +:+ " " +:+
    level_text (md_level (ev_metadata event)) +:+ " " +:+
    callsite (ev_metadata event) +:+ ": " +:+
    joined (scope_spans ctx ≫= span_pieces) +:+ joined (ev_fields event) +:+
    newline.
Proof.
  unfold event_line, event_pieces, message. simpl.
  autorewrite with logs. simpl. by autorewrite with logs.
Qed.

(** With colours enabled every level is written in its
    own colour and followed by the reset sequence: TRACE in magenta (35),
    DEBUG in blue (34), INFO in green (32), WARN in yellow (33) and ERROR
    in red (31). *)
Theorem level_colours (l : Level) :
  render_styled true (level_style l) (level_text l) =
    sgr (match l with
         | TRACE => 35 | DEBUG => 34 | INFO => 32 | WARN => 33 | ERROR => 31
         end) +:+ level_text l +:+ sgr 0.
Proof. by destruct l. Qed.

(** An event without a file name and a line number
    is tagged [[:0]]: the missing name is the empty string and the
    missing number is 0. *)
Theorem callsite_defaults (l : Level) (file : string) (line : N) :
  callsite (mkMetadata l None None) = "[:0]" ∧
  callsite (mkMetadata l (Some file) None) = "[" +:+ file +:+ ":0]" ∧
  callsite (mkMetadata l None (Some line)) = "[:" +:+ pretty line +:+ "]".
Proof. done. Qed.

(** An event of level INFO from main.rs, line 74,
    outside every span, with the message [Hello World!] and colours
    disabled. *)
Example example_hello_world :
  (format_event mkSourceFormatter example_env (mkFmtContext None) example_event "").2 =
    "Wed, 12 Nov 1997 09:55:06 -0600 INFO [main.rs:74]: Hello World!" +:+ newline.
Proof. reflexivity. Qed.

(** Inside the span [A] with the fields [x=1]
    and, within it, the span [B] without fields, the segment
    [A{x=1}: B: ] stands right before the fields of the event. *)
Example example_span_segment :
  (format_event mkSourceFormatter example_env example_ctx example_event "").2 =
    "Wed, 12 Nov 1997 09:55:06 -0600 INFO [main.rs:74]: A{x=1}: B: Hello World!"
    +:+ newline.
Proof. reflexivity. Qed.
