(* ===== verification/Writer.v ===== *)
(** * Writer: the rotating file writer

    [RotatingFileWriter] of src/src/writer.rs and its constructor [new]
    (lines 10 to 53), which applies the retention policy and creates the
    file of this run. The file holds the definitions, the stages of [new]
    as lemmas (directory creation, scan, pruning, file creation), the
    relation [new_outcome] between a world and the ways in which [new]
    ends, and the theorems about the constructor, followed by worked
    examples on a small world. *)

From Stdlib Require Import Ascii.
From stdpp Require Import base tactics option list strings gmap sorting.
From S2P Require Import Prelude Clock FileSystem Sink Scanner Pruner.

Local Open Scope string_scope.
Local Open Scope io_scope.

(** ** Definitions *)

(** Lines 10 to 12. *)
Record RotatingFileWriter : Type := mkRotatingFileWriter {
  sink : BufWriter File;
}.

Definition set_sink (b : BufWriter File) (self : RotatingFileWriter) :
    RotatingFileWriter :=
  mkRotatingFileWriter b.

(** [format!("{}.{time}", prefix)] (line 50). *)
Definition log_file_name (prefix time : string) : string :=
  prefix +:+ "." +:+ time.

(** Line 46 with the rendering that [format!] forces at line 50: a format
    that fails to render makes [format!] panic. *)
Definition timestamp : M world string :=
  t <- local_now ;;
  expect (strftime time_format t)
         "a formatting trait implementation returned an error".

(** [RotatingFileWriter::new] (lines 15 to 53). *)
Definition new (max : N) (dir : path) (prefix : string) :
    M world (result io_error RotatingFileWriter) :=
  _ <-? create_dir_all dir ;;
  let max := coerce_max max in
  logs <- scan_logs dir prefix ;;
  prune_logs logs max ;;;
  time <- timestamp ;;
  file <-? file_create (path_join dir (log_file_name prefix time)) ;;
  ret (Ok (mkRotatingFileWriter (BufWriter_new file))).

(** ** What the constructor promises *)

(** The name of the file of the run that starts in the world [w]. *)
Definition new_log_name (prefix : string) (w : world) : string :=
  log_file_name prefix (timestamp_text (w_now w)).

(** The last step of [new] (lines 48 to 52): create the file and wrap it. *)
Definition open_log (p : path) : M world (result io_error RotatingFileWriter) :=
  file <-? file_create p ;;
  ret (Ok (mkRotatingFileWriter (BufWriter_new file))).

(** The world in which [new] creates the file, when the directory exists
    in [w1]: the loop has run over what the scan found. *)
Definition after_prune (max : N) (dir : path) (prefix : string) (w1 : world) :
    world :=
  let logs := visible_logs w1 dir prefix in
  foldl unlink_or_warn w1
        (dent_path <$> take (attempts (length logs) (coerce_max max)) logs).

(** What the theorems about [new] assume of the world and the prefix: the
    tree is well formed, the prefix is free of path separators, the clock
    is in the range in which the timestamp has its fixed width, the system
    lists the directory, and the number of log files fits [usize]. *)
Record new_pre (dir : path) (prefix : string) (w : world) : Prop := mkNewPre {
  pre_wf : wf_world w;
  pre_prefix : "/"%char ∉ chars prefix;
  pre_clock : valid_datetime (w_now w);
  pre_listable : dir ∉ w_denied w;
  pre_size : (N.of_nat (size (log_names (w_tree w) dir prefix)) ≤ usize_max)%N;
}.

(** The log files of before that are still there after the run: all but
    the doomed names the system let go. *)
Definition kept (max : N) (dir : path) (prefix : string) (w : world) :
    gset string :=
  log_names (w_tree w) dir prefix ∖
    list_to_set (filter (λ n, n :: dir ∉ w_denied w)
                        (doomed (coerce_max max) (log_names (w_tree w) dir prefix))).

(** The three ways in which [new] ends, with the world each leaves: line
    16 failed and at most some directories were created; line 49 failed
    after the loop had run; or the file of this run was created. *)
Inductive new_outcome (max : N) (dir : path) (prefix : string) (w : world) :
    result io_error RotatingFileWriter → world → Prop :=
| new_no_dir e w1 :
    dirs_added dir w w1 → wf_world w1 →
    create_dir_all dir w = (Returned (Err e), w1) →
    new_outcome max dir prefix w (Err e) w1
| new_no_file e w1 :
    dirs_added dir w w1 → wf_world w1 → w_tree w1 !! dir = Some IDir →
    file_create (new_log_name prefix w :: dir)
                (pruned (coerce_max max) dir prefix w1) =
      (Returned (Err e), pruned (coerce_max max) dir prefix w1) →
    new_outcome max dir prefix w (Err e) (pruned (coerce_max max) dir prefix w1)
| new_created ino w1 w' :
    dirs_added dir w w1 → w_tree w1 !! dir = Some IDir →
    file_create (new_log_name prefix w :: dir)
                (pruned (coerce_max max) dir prefix w1) =
      (Returned (Ok (mkFile ino 0)), w') →
    w_tree w' = <[new_log_name prefix w :: dir := IFile ino]>
                  (w_tree (pruned (coerce_max max) dir prefix w1)) →
    w_tree (pruned (coerce_max max) dir prefix w1) !! (new_log_name prefix w :: dir)
      ∈ [None; Some (IFile ino)] →
    w_data w' = <[ino := []]> (w_data w) →
    w_denied w' = w_denied w →
    w_warnings w' = w_warnings (pruned (coerce_max max) dir prefix w1) →
    wf_world w' →
    new_outcome max dir prefix w
      (Ok (mkRotatingFileWriter (BufWriter_new (mkFile ino 0)))) w'.

(** ** The stages of the constructor *)

Section stages.
Implicit Types (w : world) (dir : path) (prefix : string) (max : N).

Lemma timestamp_run w : timestamp w = (Returned (timestamp_text (w_now w)), w).
Proof.
  unfold timestamp, local_now, gets, bind. lazy beta iota.
  by rewrite strftime_time_format.
Qed.

(** Line 16 fails: [new] returns the error at once. *)
Lemma new_dir_error max dir prefix w e w1 :
  create_dir_all dir w = (Returned (Err e), w1) →
  new max dir prefix w = (Returned (Err e), w1).
Proof. intros H. unfold new, bind_try, bind. by rewrite H. Qed.

(** Line 16 succeeds: [new] scans, prunes, and creates the file. *)
Lemma new_runs max dir prefix w w1 :
  create_dir_all dir w = (Returned (Ok ()), w1) → w_now w1 = w_now w →
  new max dir prefix w =
    open_log (path_join dir (new_log_name prefix w)) (after_prune max dir prefix w1).
Proof.
  intros H Hnow. unfold new, bind_try, bind at 1. rewrite H.
  unfold bind at 1. rewrite scan_logs_run.
  unfold bind at 1. rewrite prune_logs_attempts by auto with logs.
  unfold bind at 1. rewrite timestamp_run, fold_unlink_now, Hnow. done.
Qed.

Lemma log_file_name_length prefix time :
  String.length (log_file_name prefix time) =
    String.length prefix + 1 + String.length time.
Proof. unfold log_file_name. autorewrite with logs. simpl. lia. Qed.

Lemma log_file_name_starts_with prefix time :
  starts_with (log_file_name prefix time) prefix = true.
Proof. unfold log_file_name. auto with logs. Qed.

(** Names with one prefix compare as their timestamps. *)
Lemma log_file_name_compare prefix a b :
  (log_file_name prefix a ?= log_file_name prefix b)%string = (a ?= b)%string.
Proof. unfold log_file_name. by rewrite !string_compare_app_l. Qed.

(** The name of the new file is one component of a path. *)
Lemma new_log_name_plain prefix w :
  "/"%char ∉ chars prefix → valid_datetime (w_now w) →
  plain_name (new_log_name prefix w).
Proof.
  intros Hprefix Hclock.
  assert (String.length (new_log_name prefix w) = String.length prefix + 20) as Hlen.
  { unfold new_log_name. rewrite log_file_name_length, timestamp_text_length by done.
    lia. }
  apply plain_name_chars;
    try (intros Heq; rewrite Heq in Hlen; simpl in Hlen; lia).
  unfold new_log_name, log_file_name. rewrite !chars_app.
  rewrite !not_elem_of_app. split; [done|]. split.
  - by intros [=]%list_elem_of_singleton.
  - by apply timestamp_text_no_slash.
Qed.

Lemma after_prune_listed max dir prefix w1 :
  w_tree w1 !! dir = Some IDir → dir ∉ w_denied w1 →
  (N.of_nat (size (log_names (w_tree w1) dir prefix)) ≤ usize_max)%N →
  after_prune max dir prefix w1 = pruned (coerce_max max) dir prefix w1.
Proof.
  intros Hdir Hden Hsize. unfold after_prune, visible_logs, pruned, victims.
  rewrite Hdir, decide_False by done.
  rewrite attempts_victim_count; [done | auto with logs |].
  by rewrite length_sorted_logs.
Qed.

Lemma after_prune_unlisted max dir prefix w1 :
  dir ∈ w_denied w1 ∨ w_tree w1 !! dir ≠ Some IDir →
  after_prune max dir prefix w1 = w1.
Proof.
  intros H. unfold after_prune. rewrite visible_logs_unlistable by done.
  by rewrite take_nil.
Qed.

(** What [new] does under [new_pre], by the result of line 16. *)
Lemma new_cases max dir prefix w :
  new_pre dir prefix w →
  ∃ r1 w1, create_dir_all dir w = (Returned r1, w1) ∧
    dirs_added dir w w1 ∧ wf_world w1 ∧
    match r1 with
    | Err e => new max dir prefix w = (Returned (Err e), w1)
    | Ok _ =>
        w_tree w1 !! dir = Some IDir ∧
        new max dir prefix w =
          open_log (new_log_name prefix w :: dir)
                   (pruned (coerce_max max) dir prefix w1)
    end.
Proof.
  intros [Hwf Hprefix Hclock Hden Hsize].
  destruct (create_dir_all_run w dir) as (r1 & w1 & Hrun & Hda & Hpost).
  destruct (Hpost Hwf) as [Hwf1 Hdir]. exists r1, w1. split_and!; [done..|].
  destruct r1 as [[]|e]; [|by apply new_dir_error]. split; [by apply Hdir|].
  rewrite (new_runs max dir prefix w w1 Hrun) by by eapply dirs_added_now.
  rewrite path_join_plain by by apply new_log_name_plain.
  rewrite after_prune_listed; [done | by apply Hdir | |].
  - by rewrite (dirs_added_denied dir w w1).
  - by rewrite (dirs_added_log_names dir w w1).
Qed.

(** The last step: the file is there and empty and the writer holds it at
    its start, or the step fails and changes nothing. *)
Lemma open_log_run p w2 :
  ∃ r w', open_log p w2 = (Returned r, w') ∧
    match r with
    | Ok wr =>
        ∃ ino, wr = mkRotatingFileWriter (BufWriter_new (mkFile ino 0)) ∧
          file_create p w2 = (Returned (Ok (mkFile ino 0)), w') ∧
          w_tree w' = <[p := IFile ino]> (w_tree w2) ∧
          w_data w' = <[ino := []]> (w_data w2) ∧
          w_tree w2 !! p ∈ [None; Some (IFile ino)] ∧
          w_denied w' = w_denied w2 ∧ w_warnings w' = w_warnings w2 ∧
          (wf_world w2 → wf_world w')
    | Err e => file_create p w2 = (Returned (Err e), w2) ∧ w' = w2
    end.
Proof.
  destruct (file_create_total w2 p w2 eq_refl) as (rf & w3 & Hfc & Hpost).
  unfold open_log, bind_try, bind. rewrite Hfc.
  destruct rf as [[ino pos]|e]; simpl; do 2 eexists; (split; [done|]);
    [|by subst].
  simpl in Hpost. destruct Hpost as (? & ? & -> & ? & ? & ? & Hp & ? & ?).
  exists ino. split_and!; try done. destruct Hp as [-> | ->]; set_solver.
Qed.

(** [new] returns, in one of the three ways. *)
Lemma new_total max dir prefix w :
  new_pre dir prefix w →
  ∃ r w', new max dir prefix w = (Returned r, w') ∧ new_outcome max dir prefix w r w'.
Proof.
  intros Hpre. destruct (new_cases max dir prefix w Hpre)
    as (r1 & w1 & Hrun & Hda & Hwf1 & Hcase).
  destruct r1 as [[]|e]; [|by eauto using new_no_dir].
  destruct Hcase as [Hdir ->].
  destruct (open_log_run (new_log_name prefix w :: dir)
              (pruned (coerce_max max) dir prefix w1)) as (r & w' & Hopen & Hpost).
  exists r, w'. split; [done|]. destruct r as [wr|e].
  - destruct Hpost as (ino & -> & Hfc & Ht & Hd & Hp & Hden & Hwarn & Hwf).
    apply (new_created _ _ _ _ ino w1); try done.
    + by rewrite Hd, pruned_data, (dirs_added_data dir w w1).
    + by rewrite Hden, pruned_denied, (dirs_added_denied dir w w1).
    + by apply Hwf, pruned_wf.
  - destruct Hpost as [Hfc ->]. by apply new_no_file.
Qed.

Lemma new_inv max dir prefix w r w' :
  new_pre dir prefix w → new max dir prefix w = (Returned r, w') →
  new_outcome max dir prefix w r w'.
Proof.
  intros Hpre Hrun.
  destruct (new_total max dir prefix w Hpre) as (r0 & w0 & Hrun0 & Hout).
  congruence.
Qed.

(** [new] takes no room on the device: the file it creates is empty. *)
Lemma new_space max dir prefix w r w' :
  new_pre dir prefix w → new max dir prefix w = (Returned r, w') →
  w_space w' = w_space w.
Proof.
  intros Hpre Hrun.
  destruct (new_inv _ _ _ _ _ _ Hpre Hrun)
    as [e w1 Hda _ _ | e w1 Hda _ _ _ | ino w1 w2 Hda _ Hfile _ _ _ _ _ _];
    rewrite ?(file_create_space _ _ _ _ Hfile), ?pruned_space;
    by eapply dirs_added_space.
Qed.

(** [new] does not touch the clock. *)
Lemma new_now max dir prefix w r w' :
  new_pre dir prefix w → new max dir prefix w = (Returned r, w') →
  w_now w' = w_now w.
Proof.
  intros Hpre Hrun.
  destruct (new_inv _ _ _ _ _ _ Hpre Hrun)
    as [e w1 Hda _ _ | e w1 Hda _ _ _ | ino w1 w2 Hda _ Hfile _ _ _ _ _ _].
  - by eapply dirs_added_now.
  - rewrite pruned_now. by eapply dirs_added_now.
  - destruct (file_create_total (pruned (coerce_max max) dir prefix w1)
                (new_log_name prefix w :: dir) _ eq_refl)
      as (r' & w'' & Hrun' & Hpost).
    rewrite Hfile in Hrun'. simplify_eq. destruct Hpost as (_ & _ & _ & _ & -> & _).
    rewrite pruned_now. by eapply dirs_added_now.
Qed.

Lemma kept_subseteq max dir prefix w : kept max dir prefix w ⊆ log_names (w_tree w) dir prefix.
Proof. unfold kept. set_solver. Qed.

Lemma kept_pruned max dir prefix w w1 :
  dirs_added dir w w1 →
  log_names (w_tree (pruned (coerce_max max) dir prefix w1)) dir prefix =
    kept max dir prefix w.
Proof.
  intros Hda. unfold kept.
  by rewrite log_names_pruned, (dirs_added_log_names dir w w1),
    (dirs_added_denied dir w w1).
Qed.

Lemma kept_all_removable max dir prefix w :
  all_removable w dir (log_names (w_tree w) dir prefix) →
  kept max dir prefix w = retained (coerce_max max) (log_names (w_tree w) dir prefix).
Proof.
  intros Hall. unfold kept. rewrite <-retained_difference. f_equal. f_equal.
  apply list_filter_True_in. intros n Hn%elem_of_doomed. by apply Hall.
Qed.

Lemma new_pre_iff dir prefix w :
  new_pre dir prefix w ↔
    wf_world w ∧ "/"%char ∉ chars prefix ∧ valid_datetime (w_now w) ∧
    dir ∉ w_denied w ∧
    (N.of_nat (size (log_names (w_tree w) dir prefix)) ≤ usize_max)%N.
Proof. split; [by intros [] | by intros (? & ? & ? & ? & ?)]. Qed.

(** The log files after a run that created the file. *)
Lemma log_names_created max dir prefix w w1 w' ino :
  dirs_added dir w w1 →
  w_tree w' = <[new_log_name prefix w :: dir := IFile ino]>
                (w_tree (pruned (coerce_max max) dir prefix w1)) →
  log_names (w_tree w') dir prefix =
    {[new_log_name prefix w]} ∪ kept max dir prefix w.
Proof.
  intros Hda ->. rewrite log_names_insert_file by apply log_file_name_starts_with.
  by rewrite (kept_pruned max dir prefix w w1).
Qed.

(** Paths away from the directory's log files and from the directory's
    ancestors are the same before the file is created as at the start. *)
Lemma pruned_dirs_lookup_other max dir prefix w w1 q :
  dirs_added dir w w1 → ¬ q `suffix_of` dir →
  (∀ n, n ∈ log_names (w_tree w) dir prefix → q ≠ n :: dir) →
  w_tree (pruned (coerce_max max) dir prefix w1) !! q = w_tree w !! q.
Proof.
  intros Hda Hq Hne. rewrite pruned_lookup_other.
  - by eapply dirs_added_lookup_other.
  - by rewrite (dirs_added_log_names dir w w1).
Qed.

(** What is there at the start and is not a doomed log file is there
    before the file is created. *)
Lemma pruned_dirs_lookup_kept max dir prefix w w1 q i :
  dirs_added dir w w1 → w_tree w !! q = Some i →
  (∀ n, n ∈ doomed (coerce_max max) (log_names (w_tree w) dir prefix) → q ≠ n :: dir) →
  w_tree (pruned (coerce_max max) dir prefix w1) !! q = Some i.
Proof.
  intros Hda Hq Hne. apply pruned_lookup_kept; [by apply Hda|].
  by rewrite (dirs_added_log_names dir w w1).
Qed.

(** Where the file is created, when no entry has its name at the start:
    the directory is there, the name is free, and the system refuses what
    it refused at the start. *)
Lemma create_site max dir prefix w w1 :
  dirs_added dir w w1 → w_tree w1 !! dir = Some IDir →
  w_tree w !! (new_log_name prefix w :: dir) = None →
  w_tree (pruned (coerce_max max) dir prefix w1) !! dir = Some IDir ∧
  w_tree (pruned (coerce_max max) dir prefix w1) !! (new_log_name prefix w :: dir)
    = None ∧
  w_denied (pruned (coerce_max max) dir prefix w1) = w_denied w.
Proof.
  intros Hda Hdir Hfree. split_and!.
  - by apply pruned_lookup_dir.
  - rewrite (pruned_dirs_lookup_other max dir prefix w w1); [done..| |].
    + apply suffix_cons_not.
    + intros n [[ino Hn] _]%elem_of_log_names [= <-]. congruence.
  - by rewrite pruned_denied, (dirs_added_denied dir w w1).
Qed.

(** When no log file has the name of this run, the file [new] creates
    has a number no file had before. *)
Lemma new_fresh_ino max dir prefix w ino w1 w' :
  dirs_added dir w w1 → w_tree w1 !! dir = Some IDir →
  new_log_name prefix w ∉ log_names (w_tree w) dir prefix →
  file_create (new_log_name prefix w :: dir) (pruned (coerce_max max) dir prefix w1) =
    (Returned (Ok (mkFile ino 0)), w') →
  w_tree (pruned (coerce_max max) dir prefix w1) !! (new_log_name prefix w :: dir)
    ∈ [None; Some (IFile ino)] →
  ino = w_next_ino w.
Proof.
  intros Hda Hdir Hfresh Hfile Hold.
  apply elem_of_cons in Hold as [Hnone|Hsome%list_elem_of_singleton].
  - destruct (decide (new_log_name prefix w :: dir
                        ∈ w_denied (pruned (coerce_max max) dir prefix w1))).
    + rewrite file_create_denied in Hfile by (done || by apply pruned_lookup_dir). done.
    + rewrite file_create_new in Hfile by (done || by apply pruned_lookup_dir).
      simplify_eq. by rewrite pruned_next_ino, (dirs_added_next_ino dir w w1).
  - destruct Hfresh. apply (kept_subseteq max). rewrite <-(kept_pruned max dir prefix w w1) by done.
    apply elem_of_log_names. split; [by eexists | apply log_file_name_starts_with].
Qed.

(** Then every file that was there has the contents it had. *)
Lemma new_fresh_keeps_contents max dir prefix w wr w' :
  new_pre dir prefix w →
  new_log_name prefix w ∉ log_names (w_tree w) dir prefix →
  new max dir prefix w = (Returned (Ok wr), w') →
  ∀ p i, w_tree w !! p = Some (IFile i) → w_data w' !! i = w_data w !! i.
Proof.
  intros Hpre Hfresh Hrun p i Hp. pose proof (new_inv _ _ _ _ _ _ Hpre Hrun) as Hout.
  inversion Hout as [| |ino w1 w2 Hda Hdir Hfile Htree Hold Hdata]; subst.
  rewrite Hdata. apply lookup_insert_ne.
  rewrite (new_fresh_ino max dir prefix w ino w1 w') by done.
  destruct (wf_data w (pre_wf _ _ _ Hpre) p i Hp). lia.
Qed.

End stages.

#[export] Instance new_pre_dec dir prefix w : Decision (new_pre dir prefix w).
Proof.
  refine (cast_if (decide (wf_world w ∧ "/"%char ∉ chars prefix ∧
                           valid_datetime (w_now w) ∧ dir ∉ w_denied w ∧
                           (N.of_nat (size (log_names (w_tree w) dir prefix))
                              ≤ usize_max)%N)));
    by rewrite new_pre_iff.
Defined.

(** Runs [new] under [new_pre] and splits the goal by its outcome. *)
Ltac new_outcomes Hpre :=
  let r := fresh "r" in
  let w' := fresh "w'" in
  let Hrun := fresh "Hrun" in
  let Hout := fresh "Hout" in
  lazymatch goal with
  | |- ∃ _ _, new ?max ?dir ?prefix ?w = _ ∧ _ =>
      destruct (new_total max dir prefix w Hpre) as (r & w' & Hrun & Hout);
      exists r, w'; split; [exact Hrun|];
      destruct Hout as [e w1 Hda Hwf1 Hcreate | e w1 Hda Hwf1 Hdir Hfile |
                        ino w1 w2 Hda Hdir Hfile Htree Hold Hdata Hden Hwarn Hwf]
  end.

(** ** Properties of the constructor *)

(** C1: under [new_pre], [new] returns, and when it returns a
    writer the log files of the directory are the file of this run and
    the old ones the policy keeps: all the old names but the
    [len - max + 1] smallest that the system let go, with [max] raised to
    at least 1. *)
Theorem new_retention (max : N) (dir : path) (prefix : string) (w : world) :
  new_pre dir prefix w →
  ∃ r w', new max dir prefix w = (Returned r, w') ∧
    (is_ok r → log_names (w_tree w') dir prefix =
                 {[new_log_name prefix w]} ∪ kept max dir prefix w).
Proof.
  intros Hpre. new_outcomes Hpre; [done..|].
  intros _. by eapply log_names_created.
Qed.

Lemma new_retention_witness :
  ∃ r w', new 2 example_dir "app" example_world = (Returned r, w') ∧
    (is_ok r → log_names (w_tree w') example_dir "app" =
                 {[new_log_name "app" example_world]} ∪
                 kept 2 example_dir "app" example_world).
Proof. apply new_retention. compute_done. Defined.

(** C2: the invariant of the retention policy. Under
    [new_pre], when the system permits the removal of every log file, a
    successful [new] leaves at most [max] log files in the directory
    ([max] raised to at least 1): the new one and at most [max - 1] old
    ones. *)
Theorem new_at_most_max (max : N) (dir : path) (prefix : string) (w : world) :
  new_pre dir prefix w →
  all_removable w dir (log_names (w_tree w) dir prefix) →
  ∃ r w', new max dir prefix w = (Returned r, w') ∧
    (is_ok r →
     (N.of_nat (size (log_names (w_tree w') dir prefix)) ≤ coerce_max max)%N).
Proof.
  intros Hpre Hall. new_outcomes Hpre; [done..|]. intros _.
  erewrite log_names_created, kept_all_removable by done.
  apply size_add_retained. auto with logs.
Qed.

Lemma new_at_most_max_witness :
  ∃ r w', new 2 example_dir "app" example_world = (Returned r, w') ∧
    (is_ok r →
     (N.of_nat (size (log_names (w_tree w') example_dir "app")) ≤ coerce_max 2)%N).
Proof. apply new_at_most_max; compute_done. Defined.

(** C19: when moreover no log file has the name of this run
    yet, a successful [new] leaves exactly [min (n, max - 1) + 1] log
    files, where [n] is their number before. *)
Theorem new_exact_count (max : N) (dir : path) (prefix : string) (w : world) :
  new_pre dir prefix w →
  all_removable w dir (log_names (w_tree w) dir prefix) →
  new_log_name prefix w ∉ log_names (w_tree w) dir prefix →
  ∃ r w', new max dir prefix w = (Returned r, w') ∧
    (is_ok r →
     size (log_names (w_tree w') dir prefix) =
       size (log_names (w_tree w) dir prefix) `min` (N.to_nat (coerce_max max) - 1) + 1).
Proof.
  intros Hpre Hall Hfresh. new_outcomes Hpre; [done..|]. intros _.
  erewrite log_names_created, kept_all_removable by done.
  apply size_add_retained_fresh; auto with logs.
Qed.

Lemma new_exact_count_witness :
  ∃ r w', new 2 example_dir "app" example_world = (Returned r, w') ∧
    (is_ok r →
     size (log_names (w_tree w') example_dir "app") =
       size (log_names (w_tree example_world) example_dir "app")
         `min` (N.to_nat (coerce_max 2) - 1) + 1).
Proof. apply new_exact_count; compute_done. Defined.

(** With a limit of 0 or 1, a successful
    [new] removes every old log file the system lets go: the file of this
    run is the only log file left. *)
Theorem new_max_one_keeps_only_new (max : N) (dir : path) (prefix : string)
    (w : world) :
  new_pre dir prefix w →
  all_removable w dir (log_names (w_tree w) dir prefix) →
  (max ≤ 1)%N →
  ∃ r w', new max dir prefix w = (Returned r, w') ∧
    (is_ok r → log_names (w_tree w') dir prefix = {[new_log_name prefix w]}).
Proof.
  intros Hpre Hall Hmax. new_outcomes Hpre; [done..|]. intros _.
  erewrite log_names_created, kept_all_removable by done.
  by rewrite coerce_max_le_one, retained_one, (right_id_L ∅ (∪)).
Qed.

Lemma new_max_one_keeps_only_new_witness :
  ∃ r w', new 0 example_dir "app" example_world = (Returned r, w') ∧
    (is_ok r → log_names (w_tree w') example_dir "app" =
                 {[new_log_name "app" example_world]}).
Proof. apply new_max_one_keeps_only_new; [compute_done | compute_done | lia]. Defined.

(** A successful [new] leaves a regular file
    named [prefix.timestamp] directly inside the directory; the file is
    empty, and the writer returned holds it at position 0 behind an empty
    buffer. The world is well formed again. *)
Theorem new_creates_empty_file (max : N) (dir : path) (prefix : string)
    (w : world) :
  new_pre dir prefix w →
  ∃ r w', new max dir prefix w = (Returned r, w') ∧
    match r with
    | Ok wr =>
        ∃ ino, wr = mkRotatingFileWriter (mkBufWriter (mkFile ino 0) [] 8192) ∧
               w_tree w' !! (new_log_name prefix w :: dir) = Some (IFile ino) ∧
               w_data w' !! ino = Some [] ∧ wf_world w'
    | Err _ => wf_world w'
    end.
Proof.
  intros Hpre. new_outcomes Hpre; [done | by apply pruned_wf |].
  exists ino. split_and!; [done | | | done].
  - rewrite Htree. apply lookup_insert_eq.
  - rewrite Hdata. apply lookup_insert_eq.
Qed.

Lemma new_creates_empty_file_witness :
  ∃ r w', new 2 example_dir "app" example_world = (Returned r, w') ∧
    match r with
    | Ok wr =>
        ∃ ino, wr = mkRotatingFileWriter (mkBufWriter (mkFile ino 0) [] 8192) ∧
               w_tree w' !! (new_log_name "app" example_world :: example_dir) =
                 Some (IFile ino) ∧
               w_data w' !! ino = Some [] ∧ wf_world w'
    | Err _ => wf_world w'
    end.
Proof. apply new_creates_empty_file. compute_done. Defined.

(** C8: whatever [new] returns, nothing disappears
    or changes but doomed log files: a path that leads somewhere before
    the run and is not the path of one of the [len - max + 1] oldest log
    files of the directory leads to the same thing after it. Files of
    other names, files in subdirectories and directories are never
    removed. *)
Theorem new_removes_only_doomed (max : N) (dir : path) (prefix : string)
    (w : world) :
  new_pre dir prefix w →
  ∃ r w', new max dir prefix w = (Returned r, w') ∧
    ∀ q i, w_tree w !! q = Some i →
      (∀ n, n ∈ doomed (coerce_max max) (log_names (w_tree w) dir prefix) →
            q ≠ n :: dir) →
      w_tree w' !! q = Some i.
Proof.
  intros Hpre. new_outcomes Hpre; intros q i Hq Hne.
  - by apply Hda.
  - by eapply pruned_dirs_lookup_kept.
  - pose proof (pruned_dirs_lookup_kept max dir prefix w w1 q i Hda Hq Hne) as Hq2.
    rewrite Htree, lookup_insert. case_decide as Heq; [|done].
    rewrite Heq, Hq2 in Hold. set_solver.
Qed.

Lemma new_removes_only_doomed_witness :
  ∃ r w', new 2 example_dir "app" example_world = (Returned r, w') ∧
    ∀ q i, w_tree example_world !! q = Some i →
      (∀ n, n ∈ doomed (coerce_max 2) (log_names (w_tree example_world) example_dir "app") →
            q ≠ n :: example_dir) →
      w_tree w' !! q = Some i.
Proof. apply new_removes_only_doomed. compute_done. Defined.

(** Whatever [new] returns, it touches nothing outside its
    directory: a path that is not the new file, not the directory or one
    of its ancestors, and not a log file of the directory leads after the
    run where it led before, or nowhere as before. *)
Theorem new_frame (max : N) (dir : path) (prefix : string) (w : world) :
  new_pre dir prefix w →
  ∃ r w', new max dir prefix w = (Returned r, w') ∧
    ∀ q, q ≠ new_log_name prefix w :: dir → ¬ q `suffix_of` dir →
      (∀ n, n ∈ log_names (w_tree w) dir prefix → q ≠ n :: dir) →
      w_tree w' !! q = w_tree w !! q.
Proof.
  intros Hpre. new_outcomes Hpre; intros q Hnew Hq Hne.
  - by eapply dirs_added_lookup_other.
  - by apply pruned_dirs_lookup_other.
  - rewrite Htree, lookup_insert_ne by done. by apply pruned_dirs_lookup_other.
Qed.

Lemma new_frame_witness :
  ∃ r w', new 2 example_dir "app" example_world = (Returned r, w') ∧
    ∀ q, q ≠ new_log_name "app" example_world :: example_dir →
      ¬ q `suffix_of` example_dir →
      (∀ n, n ∈ log_names (w_tree example_world) example_dir "app" →
            q ≠ n :: example_dir) →
      w_tree w' !! q = w_tree example_world !! q.
Proof. apply new_frame. compute_done. Defined.

(** C7: [new] returns a writer or an error in every
    world, for every limit, directory and prefix: the loop stays within
    the list for every limit once line 18 has raised it to 1, and the
    time format of line 46 always renders. *)
Theorem new_never_panics (max : N) (dir : path) (prefix : string) (w : world) :
  ∃ r w', new max dir prefix w = (Returned r, w').
Proof.
  destruct (create_dir_all_run w dir) as ([[]|e] & w1 & Hrun & Hda & _).
  - rewrite (new_runs max dir prefix w w1 Hrun) by by eapply dirs_added_now.
    destruct (open_log_run (path_join dir (new_log_name prefix w))
                (after_prune max dir prefix w1)) as (r & w' & -> & _).
    by eauto.
  - rewrite (new_dir_error max dir prefix w e w1 Hrun). by eauto.
Qed.

(** The removals the system refuses do not make
    [new] fail. When [new] got as far as the loop, the log holds one new
    warning for every doomed log file the system refused to remove, in
    the order of the names, and nothing else. *)
Theorem new_warns_per_refusal (max : N) (dir : path) (prefix : string)
    (w : world) :
  new_pre dir prefix w → w_tree w !! dir = Some IDir →
  ∃ r w', new max dir prefix w = (Returned r, w') ∧
    w_warnings w' =
      (w_warnings w ++
        (const PermissionDenied <$>
           filter (λ n, n :: dir ∈ w_denied w)
                  (doomed (coerce_max max) (log_names (w_tree w) dir prefix))))%list.
Proof.
  intros Hpre Hexists. new_outcomes Hpre.
  - rewrite create_dir_all_existing in Hcreate; [done | apply Hpre | done].
  - by rewrite pruned_warnings, (dirs_added_warnings dir w w1),
      (dirs_added_denied dir w w1), (dirs_added_log_names dir w w1).
  - by rewrite Hwarn, pruned_warnings, (dirs_added_warnings dir w w1),
      (dirs_added_denied dir w w1), (dirs_added_log_names dir w w1).
Qed.

Lemma new_warns_per_refusal_witness :
  ∃ r w', new 2 example_dir "app" example_denied_world = (Returned r, w') ∧
    w_warnings w' =
      (w_warnings example_denied_world ++
        (const PermissionDenied <$>
           filter (λ n, n :: example_dir ∈ w_denied example_denied_world)
                  (doomed (coerce_max 2)
                     (log_names (w_tree example_denied_world) example_dir "app"))))%list.
Proof. apply new_warns_per_refusal; compute_done. Defined.

(** Under [new_pre], when the directory exists, no entry
    has the name of this run and the system permits creating it, [new]
    returns a writer. *)
Theorem new_succeeds (max : N) (dir : path) (prefix : string) (w : world) :
  new_pre dir prefix w → w_tree w !! dir = Some IDir →
  w_tree w !! (new_log_name prefix w :: dir) = None →
  new_log_name prefix w :: dir ∉ w_denied w →
  ∃ r w', new max dir prefix w = (Returned r, w') ∧ is_ok r.
Proof.
  intros Hpre Hexists Hfree Hperm. new_outcomes Hpre; [| |done].
  - rewrite create_dir_all_existing in Hcreate; [done | apply Hpre | done].
  - destruct (create_site max dir prefix w w1) as (Hd2 & Hn2 & Hden2); [done..|].
    rewrite file_create_new in Hfile; [done..|]. by rewrite Hden2.
Qed.

Lemma new_succeeds_witness :
  ∃ r w', new 2 example_dir "app" example_world = (Returned r, w') ∧ is_ok r.
Proof. apply new_succeeds; compute_done. Defined.

(** When the system refuses to create the file of
    this run, [new] returns that error after the loop has run: the doomed
    log files are gone all the same, and nothing is put in their place. *)
Theorem new_file_refused (max : N) (dir : path) (prefix : string) (w : world) :
  new_pre dir prefix w → w_tree w !! dir = Some IDir →
  w_tree w !! (new_log_name prefix w :: dir) = None →
  new_log_name prefix w :: dir ∈ w_denied w →
  ∃ r w', new max dir prefix w = (Returned r, w') ∧
    r = Err PermissionDenied ∧
    log_names (w_tree w') dir prefix = kept max dir prefix w.
Proof.
  intros Hpre Hexists Hfree Hperm. new_outcomes Hpre.
  - rewrite create_dir_all_existing in Hcreate; [done | apply Hpre | done].
  - destruct (create_site max dir prefix w w1) as (Hd2 & Hn2 & Hden2); [done..|].
    rewrite file_create_denied in Hfile by (by rewrite ?Hden2).
    split; [congruence | by apply kept_pruned].
  - destruct (create_site max dir prefix w w1) as (Hd2 & Hn2 & Hden2); [done..|].
    rewrite file_create_denied in Hfile by (by rewrite ?Hden2). done.
Qed.

(** When the parent of the directory is a regular
    file, line 16 fails; [new] returns the error and leaves the world as
    it was. *)
Theorem new_dir_blocked (max : N) (n : string) (d : path) (prefix : string)
    (w : world) (ino : N) :
  wf_world w → w_tree w !! d = Some (IFile ino) →
  new max (n :: d) prefix w = (Returned (Err NotADirectory), w).
Proof.
  intros Hwf Hd. apply new_dir_error.
  assert (w_tree w !! (n :: d) ≠ Some IDir) as Hn.
  { intros Hn. apply (wf_parent w Hwf) in Hn. congruence. }
  unfold create_dir_all, mkdir, unless_is_dir, is_dir. io_simpl.
  rewrite Hd. simpl. by rewrite bool_decide_eq_false_2.
Qed.

Lemma new_dir_blocked_witness :
  new 2 ("sub" :: "other.txt" :: example_dir) "app" example_world =
    (Returned (Err NotADirectory), example_world).
Proof.
  apply (new_dir_blocked 2 "sub" ("other.txt" :: example_dir) "app" example_world 3);
    compute_done.
Defined.

(** C39: when the system refuses to list the
    directory, the scan yields nothing and the retention policy is
    skipped without a word: no log file is removed, however many there
    are, and no warning is logged. *)
Theorem new_unlistable_keeps_all (max : N) (dir : path) (prefix : string)
    (w : world) :
  wf_world w → w_tree w !! dir = Some IDir → dir ∈ w_denied w →
  ∃ r w', new max dir prefix w = (Returned r, w') ∧
    w_warnings w' = w_warnings w ∧
    ∀ q i, w_tree w !! q = Some i → w_tree w' !! q = Some i.
Proof.
  intros Hwf Hdir Hden.
  rewrite (new_runs max dir prefix w w) by by rewrite ?create_dir_all_existing.
  rewrite after_prune_unlisted by by left.
  destruct (open_log_run (path_join dir (new_log_name prefix w)) w)
    as ([wr|e] & w' & -> & Hpost); do 2 eexists; (split; [done|]).
  - destruct Hpost as (ino & _ & _ & Ht & _ & Hold & _ & Hwarn & _).
    split; [done|]. intros q i Hq. rewrite Ht, lookup_insert.
    case_decide as Heq; [|done]. rewrite Heq, Hq in Hold. set_solver.
  - by destruct Hpost as [_ ->].
Qed.

Lemma new_file_refused_witness :
  ∃ r w', new 2 example_dir "app"
              (example_world_denying {[ "app.2024-01-04T09:05:06" :: example_dir ]}) =
            (Returned r, w') ∧
    r = Err PermissionDenied ∧
    log_names (w_tree w') example_dir "app" =
      kept 2 example_dir "app"
           (example_world_denying {[ "app.2024-01-04T09:05:06" :: example_dir ]}).
Proof. apply new_file_refused; compute_done. Defined.

Lemma new_unlistable_keeps_all_witness :
  ∃ r w', new 2 example_dir "app" (example_world_denying {[ example_dir ]}) =
            (Returned r, w') ∧
    w_warnings w' = w_warnings (example_world_denying {[ example_dir ]}) ∧
    ∀ q i, w_tree (example_world_denying {[ example_dir ]}) !! q = Some i →
           w_tree w' !! q = Some i.
Proof. apply new_unlistable_keeps_all; compute_done. Defined.

(** A limit of 0 is raised to 1 at line 18: [new]
    behaves on it as on 1, in every world. *)
Theorem new_zero_is_one (dir : path) (prefix : string) (w : world) :
  new 0 dir prefix w = new 1 dir prefix w.
Proof. reflexivity. Qed.

(** ** Properties of the name of the file *)

(** Line 46 never fails: the format string is one
    the formatter accepts, so [timestamp] returns in every world and
    leaves it as it was; and while the clock shows a year from 0 to 9999
    the text is 19 characters long and free of path separators. *)
Theorem timestamp_renders (w : world) :
  ∃ s, timestamp w = (Returned s, w) ∧
       strftime time_format (w_now w) = Some s ∧
       (valid_datetime (w_now w) →
        String.length s = 19 ∧ Forall timestamp_char (chars s)).
Proof.
  exists (timestamp_text (w_now w)).
  split_and!; [apply timestamp_run | apply strftime_time_format |].
  intros Hv. split; [by apply timestamp_text_length | by apply timestamp_text_chars].
Qed.

(** C38: for two moments of the years 0 to
    9999, the names of their log files under the same prefix compare,
    byte by byte, as the moments do: the order of line 31 is the order
    of creation. *)
Theorem log_file_name_chronological (prefix : string) (a b : DateTime) :
  valid_datetime a → valid_datetime b →
  (log_file_name prefix (timestamp_text a) ?= log_file_name prefix (timestamp_text b))%string
    = dt_compare a b.
Proof.
  intros Ha Hb. by rewrite log_file_name_compare, timestamp_text_compare.
Qed.

Lemma log_file_name_chronological_witness :
  (log_file_name "app" (timestamp_text (mkDateTime 2024 1 4 9 5 6)) ?=
   log_file_name "app" (timestamp_text (mkDateTime 2024 1 10 0 0 0)))%string
    = dt_compare (mkDateTime 2024 1 4 9 5 6) (mkDateTime 2024 1 10 0 0 0).
Proof. apply log_file_name_chronological; compute_done. Defined.

(** C40: the order of line 31 is the order of
    creation up to the year 9999 and no further. From the year 10000 on
    the timestamp of line 46 begins with a sign, and the name of line 50
    sorts before the name of every file of an earlier year: the later
    file is the first one the loop of line 36 removes. *)
Theorem log_file_name_after_9999 (prefix : string) (a b : DateTime) :
  (9999 < dt_year a)%Z → valid_datetime b →
  (log_file_name prefix (timestamp_text a) ?= log_file_name prefix (timestamp_text b))%string
    = Lt ∧
  dt_compare a b = Gt.
Proof. intros Ha Hb. rewrite log_file_name_compare. by apply timestamp_text_late. Qed.

Lemma log_file_name_after_9999_witness :
  (log_file_name "app" (timestamp_text (mkDateTime 10000 1 1 0 0 0)) ?=
   log_file_name "app" (timestamp_text (mkDateTime 9999 12 31 23 59 59)))%string = Lt ∧
  dt_compare (mkDateTime 10000 1 1 0 0 0) (mkDateTime 9999 12 31 23 59 59) = Gt.
Proof. apply log_file_name_after_9999; compute_done. Defined.

(** With a prefix free of path separators and a
    clock in range, the path of line 50 is the directory extended by one
    component, and that component starts with the prefix: the file lies
    directly inside the directory and the next run counts it. *)
Theorem new_log_name_in_dir (dir : path) (prefix : string) (w : world) :
  "/"%char ∉ chars prefix → valid_datetime (w_now w) →
  path_join dir (new_log_name prefix w) = new_log_name prefix w :: dir ∧
  starts_with (new_log_name prefix w) prefix = true.
Proof.
  intros Hprefix Hclock. split; [|apply log_file_name_starts_with].
  by apply path_join_plain, new_log_name_plain.
Qed.

Lemma new_log_name_in_dir_witness :
  path_join example_dir (new_log_name "app" example_world) =
    new_log_name "app" example_world :: example_dir ∧
  starts_with (new_log_name "app" example_world) "app" = true.
Proof. apply new_log_name_in_dir; compute_done. Defined.

(** ** Worked examples *)

(** Three log files of 1, 2 and 3
    January and a limit of 2. [new] removes the files of 1 and of 2
    January, not only the oldest one: the file of 3 January and the file
    of this run are left. *)
Example example_three_files_limit_two :
  log_names (w_tree (new 2 example_dir "app" example_world).2) example_dir "app" =
    {[ "app.2024-01-03T00:00:00"; "app.2024-01-04T09:05:06" ]}.
Proof. compute_done. Qed.

(** Two runs within the same second share one
    file. The second run finds four log files, removes none under a limit
    of 5, and opens the file of the first run again, emptying it: four
    log files are left, not five. *)
Example example_same_second :
  let w1 := (new 5 example_dir "app" example_world).2 in
  size (log_names (w_tree w1) example_dir "app") = 4 ∧
  size (log_names (w_tree (new 5 example_dir "app" w1).2) example_dir "app") = 4 ∧
  (new 5 example_dir "app" w1).1 = (new 5 example_dir "app" example_world).1.
Proof. split_and!; vm_compute; reflexivity. Qed.

(** A prefix that contains a path
    separator sends the file of the run into a subdirectory, where no
    scan of the directory will ever count it. *)
Example example_prefix_with_separator :
  path_join example_dir (new_log_name "app.d/app" example_world) =
    ["app.2024-01-04T09:05:06"; "app.d"; "log"; "var"] ∧
  log_names (w_tree (new 1 example_dir "app.d/app" example_world).2)
            example_dir "app.d/app" = ∅.
Proof. compute_done. Qed.

(** From the year 10000 on the timestamp gains a
    sign and a digit, and the name of a later file sorts before the names
    of all earlier ones. *)
Example example_year_10000 :
  strftime time_format (mkDateTime 10000 1 1 0 0 0) = Some "+10000-01-01T00:00:00" ∧
  (log_file_name "app" "+10000-01-01T00:00:00" ?=
   log_file_name "app" "9999-12-31T23:59:59")%string = Lt ∧
  dt_compare (mkDateTime 10000 1 1 0 0 0) (mkDateTime 9999 12 31 23 59 59) = Gt.
Proof. compute_done. Qed.

(** The system refuses to remove the oldest of
    three log files and the limit is 2. [new] succeeds with one warning,
    and three log files are left: the one it could not remove, the file
    of 3 January and the file of this run. *)
Example example_refused_removal :
  (∃ wr, (new 2 example_dir "app" example_denied_world).1 = Returned (Ok wr)) ∧
  w_warnings (new 2 example_dir "app" example_denied_world).2 = [PermissionDenied] ∧
  log_names (w_tree (new 2 example_dir "app" example_denied_world).2)
            example_dir "app" =
    {[ "app.2024-01-01T00:00:00"; "app.2024-01-03T00:00:00";
       "app.2024-01-04T09:05:06" ]}.
Proof. split_and!; [eexists; vm_compute; reflexivity | compute_done..]. Qed.
