(* ===== verification/Names.v ===== *)
(** * Names: reading the time of a log file back from its name

    [RotatingFileWriter::new] names its file [prefix.timestamp]
    (src/src/writer.rs, lines 46 and 50) and later runs find it again by
    that name (lines 22 to 32). This file holds the inverse of the two
    formats, a reader of timestamps and of log file names, and the round
    trips: the text of a moment reads back as that moment, a text that
    is read prints back as itself, the file [new] has created is what
    the next scan lists, and its name tells when it was created. *)

From Stdlib Require Import Ascii.
From stdpp Require Import base tactics numbers option list strings gmap.
From S2P Require Import Prelude Clock FileSystem Sink Scanner Pruner Writer.

Local Open Scope string_scope.
Local Open Scope io_scope.

(** ** Readers *)

(** The value of a decimal digit. *)
Definition digit_value (c : ascii) : option N :=
  if decide (48 ≤ N_of_ascii c ≤ 57)%N then Some (N_of_ascii c - 48)%N else None.

(** [w] digits at the head of a string: the number they denote after the
    digits [acc] read so far, and the rest of the string. *)
Fixpoint read_digits (w : nat) (acc : N) (s : string) : option (N * string) :=
  match w, s with
  | O, _ => Some (acc, s)
  | S w', String c s' => d ← digit_value c; read_digits w' (10 * acc + d)%N s'
  | S _, "" => None
  end.

(** The character [c] at the head of a string: the rest of the string. *)
Definition read_char (c : ascii) (s : string) : option string :=
  match s with
  | String c' s' => if decide (c' = c) then Some s' else None
  | "" => None
  end.

(** A text of the format of line 46, [YYYY-MM-DDTHH:MM:SS], and nothing
    after it. *)
Definition parse_timestamp (s : string) : option DateTime :=
  '(y, s) ← read_digits 4 0 s; s ← read_char "-" s;
  '(m, s) ← read_digits 2 0 s; s ← read_char "-" s;
  '(d, s) ← read_digits 2 0 s; s ← read_char "T" s;
  '(h, s) ← read_digits 2 0 s; s ← read_char ":" s;
  '(mi, s) ← read_digits 2 0 s; s ← read_char ":" s;
  '(sec, s) ← read_digits 2 0 s;
  if decide (s = "") then Some (mkDateTime (Z.of_N y) m d h mi sec) else None.

(** What is left of [s] after the prefix [p]. *)
Fixpoint strip_prefix (p s : string) : option string :=
  match p, s with
  | "", _ => Some s
  | String a p', String b s' => if decide (a = b) then strip_prefix p' s' else None
  | String _ _, "" => None
  end.

(** The moment a log file of the prefix was created, from its name. *)
Definition log_time (prefix name : string) : option DateTime :=
  rest ← strip_prefix prefix name; time ← read_char "." rest; parse_timestamp time.

(** ** Reading what was printed *)

Section readers.
Implicit Types (w : nat) (n acc v : N) (s rest p : string) (c : ascii).

Lemma digit_value_digit n : (n < 10)%N → digit_value (digit n) = Some n.
Proof.
  intros. unfold digit_value. rewrite N_of_digit by done.
  rewrite decide_True by lia. f_equal. lia.
Qed.

Lemma digit_value_inv c n : digit_value c = Some n → c = digit n ∧ (n < 10)%N.
Proof.
  unfold digit_value, digit. case_decide; [|done]. intros [= <-]. split; [|lia].
  replace (48 + (N_of_ascii c - 48))%N with (N_of_ascii c) by lia.
  by rewrite ascii_N_embedding.
Qed.

Lemma pow10_pos w : (0 < 10 ^ N.of_nat w)%N.
Proof. apply N.neq_0_lt_0, N.pow_nonzero. lia. Qed.

Lemma read_digits_fixed w acc n rest :
  (n < 10 ^ N.of_nat w)%N →
  read_digits w acc (fixed_digits w n +:+ rest) =
    Some (acc * 10 ^ N.of_nat w + n, rest)%N.
Proof.
  revert acc n. induction w as [|w IH]; intros acc n Hn.
  { simpl in *. do 2 f_equal. lia. }
  pose proof (pow10_pos w). rewrite pow10_succ in *. simpl.
  rewrite digit_value_digit by (apply N.Div0.div_lt_upper_bound; lia). simpl.
  rewrite IH by (apply N.mod_lt; lia). do 2 f_equal.
  pose proof (N.div_mod n (10 ^ N.of_nat w) ltac:(lia)). nia.
Qed.

Lemma read_digits_inv w acc s v rest :
  read_digits w acc s = Some (v, rest) →
  ∃ n, (n < 10 ^ N.of_nat w)%N ∧ v = (acc * 10 ^ N.of_nat w + n)%N ∧
       s = fixed_digits w n +:+ rest.
Proof.
  revert acc s. induction w as [|w IH]; intros acc s Hread.
  { simpl in Hread. simplify_eq. exists 0%N. simpl. split_and!; [lia | lia | done]. }
  destruct s as [|c s]; simpl in Hread; [done|].
  destruct (digit_value c) as [d|] eqn:Hd; simpl in Hread; [|done].
  apply digit_value_inv in Hd as [-> Hd].
  apply IH in Hread as (n & Hn & -> & ->). pose proof (pow10_pos w).
  exists (10 ^ N.of_nat w * d + n)%N. rewrite pow10_succ. simpl.
  rewrite <-(N.div_unique _ _ d n), <-(N.mod_unique _ _ d n) by done.
  split_and!; [nia | nia | done].
Qed.

Lemma read_char_inv c s rest : read_char c s = Some rest → s = String c rest.
Proof. destruct s as [|c' s]; simpl; [done|]. case_decide; naive_solver. Qed.

Lemma strip_prefix_app p s : strip_prefix p (p +:+ s) = Some s.
Proof. induction p as [|a p IH]; simpl; [done | by rewrite decide_True]. Qed.

Lemma read_char_cons c s : read_char c (String c s) = Some s.
Proof. simpl. by rewrite decide_True. Qed.

Local Arguments fixed_digits : simpl never.
Local Arguments read_digits : simpl never.
Local Arguments read_char : simpl never.

(** The text of a moment in the calendar's ranges reads back as the
    moment. *)
Lemma parse_timestamp_text (dt : DateTime) :
  valid_datetime dt → parse_timestamp (timestamp_text dt) = Some dt.
Proof.
  intros Hv. rewrite timestamp_text_valid by done.
  destruct Hv as (Hy & Hm & Hd & Hh & Hmi & Hs). unfold parse_timestamp.
  rewrite <-(string_app_nil_r (fixed_digits 2 (dt_second dt))).
  repeat (rewrite read_digits_fixed by (simpl; lia); simpl;
          rewrite ?read_char_cons; simpl; change ("" +:+ ?s) with s).
  destruct dt as [y m d h mi sec]. simpl in *. do 2 f_equal; lia.
Qed.

(** A text that is read is the text of the moment read. *)
Lemma parse_timestamp_inv s (dt : DateTime) :
  parse_timestamp s = Some dt → timestamp_text dt = s.
Proof.
  unfold parse_timestamp. intros Hparse.
  repeat match goal with
         | H : _ ≫= _ = Some _ |- _ => apply bind_Some in H as (? & ? & H)
         | H : (let '(_, _) := ?p in _) = Some _ |- _ => destruct p
         | H : read_digits _ _ _ = Some _ |- _ =>
             apply read_digits_inv in H as (? & ? & -> & ->)
         | H : read_char _ _ = Some _ |- _ => apply read_char_inv in H as ->
         end.
  case_decide; simplify_eq. unfold timestamp_text. simpl.
  rewrite render_year_fixed, N2Z.id by (simpl in *; lia).
  rewrite !pad_decimal_fixed by (simpl; lia).
  by rewrite string_app_nil_r.
Qed.

Lemma log_time_name prefix (dt : DateTime) :
  valid_datetime dt →
  log_time prefix (log_file_name prefix (timestamp_text dt)) = Some dt.
Proof.
  intros Hv. unfold log_time, log_file_name. rewrite strip_prefix_app. simpl.
  by apply parse_timestamp_text.
Qed.

End readers.

(** ** Round trips *)

(** The timestamp of line 46 determines the moment
    it was taken at: with the clock in the calendar's ranges, [timestamp]
    returns a text that reads back as the local time of the world. *)
Theorem timestamp_round_trip (w : world) :
  valid_datetime (w_now w) →
  ∃ s, timestamp w = (Returned s, w) ∧ parse_timestamp s = Some (w_now w).
Proof.
  intros Hv. exists (timestamp_text (w_now w)).
  split; [apply timestamp_run | by apply parse_timestamp_text].
Qed.

Lemma timestamp_round_trip_witness :
  ∃ s, timestamp example_world = (Returned s, example_world) ∧
       parse_timestamp s = Some (w_now example_world).
Proof. apply timestamp_round_trip. compute_done. Defined.

(** The reader accepts nothing but what the
    format of line 46 prints: a text it reads as a moment is the text
    [strftime] renders of that moment with [time_format]. *)
Theorem timestamp_read_printed (s : string) (dt : DateTime) :
  parse_timestamp s = Some dt → strftime time_format dt = Some s.
Proof.
  intros Hparse. rewrite strftime_time_format. f_equal.
  by apply parse_timestamp_inv.
Qed.

Lemma timestamp_read_printed_witness :
  strftime time_format (mkDateTime 2024 1 3 0 0 0) = Some "2024-01-03T00:00:00".
Proof. apply timestamp_read_printed. reflexivity. Defined.

(** C28: the file a successful [new] creates is one the scan
    of the next run finds, and its name gives back the moment of this
    run: the prefix, a dot, and the timestamp that reads as the local time
    at which [new] was called. *)
Theorem new_log_found (max : N) (dir : path) (prefix : string) (w : world) :
  new_pre dir prefix w →
  ∃ r w', new max dir prefix w = (Returned r, w') ∧
    (is_ok r →
     ∃ logs, scan_logs dir prefix w' = (Returned logs, w') ∧
       log_entry dir (new_log_name prefix w) ∈ logs ∧
       log_time prefix (new_log_name prefix w) = Some (w_now w)).
Proof.
  intros Hpre. pose proof (pre_clock _ _ _ Hpre) as Hclock.
  pose proof (pre_listable _ _ _ Hpre) as Hlist.
  new_outcomes Hpre; [done..|]. intros _.
  exists (sorted_logs (w_tree w2) dir prefix). split_and!.
  - apply scan_logs_listed; [|by rewrite Hden].
    rewrite Htree, lookup_insert_ne by (symmetry; apply list_neq_cons).
    by apply pruned_lookup_dir.
  - apply elem_of_sorted_logs. exists (new_log_name prefix w), ino.
    rewrite Htree, lookup_insert_eq.
    split_and!; [done | done | apply log_file_name_starts_with].
  - by apply log_time_name.
Qed.

Lemma new_log_found_witness :
  ∃ r w', new 2 example_dir "app" example_world = (Returned r, w') ∧
    (is_ok r →
     ∃ logs, scan_logs example_dir "app" w' = (Returned logs, w') ∧
       log_entry example_dir (new_log_name "app" example_world) ∈ logs ∧
       log_time "app" (new_log_name "app" example_world) =
         Some (w_now example_world)).
Proof. apply new_log_found. compute_done. Defined.
