(* ===== verification/Output.v ===== *)
(** * Output: the writer as a byte sink

    [impl io::Write for RotatingFileWriter] of src/src/writer.rs (lines
    56 to 64): [write] and [flush] hand the call to the buffered file
    the constructor made. The file holds the two methods, the stream of
    a writer (what is in its file followed by what waits in its buffer)
    and the theorems that the writer keeps the promise of a sink from
    the moment [new] returns it, over every sequence of calls, and that
    its calls and its drop are confined to its file in every state. *)

From stdpp Require Import base tactics option list strings gmap.
From S2P Require Import Prelude Clock FileSystem Sink Scanner Pruner Writer.

Local Open Scope io_scope.

(** ** Definitions *)

(** [write] of [io::Write for RotatingFileWriter] (lines 57 to 59). *)
Definition RotatingFileWriter_write (buf : bytes) :
    M (RotatingFileWriter * world) (result io_error nat) :=
  zoom sink set_sink (write buf).

(** [flush] of [io::Write for RotatingFileWriter] (lines 61 to 63). *)
Definition RotatingFileWriter_flush :
    M (RotatingFileWriter * world) (result io_error ()) :=
  zoom sink set_sink flush.

(** Lines 56 to 64. *)
#[export] Instance RotatingFileWriter_Write : Write RotatingFileWriter := {|
  write := RotatingFileWriter_write;
  flush := RotatingFileWriter_flush;
|}.

(** The end of a writer: the struct has no [Drop] of its own, so its
    field is dropped, and the buffered writer writes what waits. *)
Definition RotatingFileWriter_drop : M (RotatingFileWriter * world) () :=
  zoom sink set_sink buf_drop.

#[export] Instance RotatingFileWriter_Handle : Handle RotatingFileWriter :=
  λ self, handle (sink self).

(** ** What the sink promises *)

(** The bytes in the file of the writer. *)
Definition on_disk (s : RotatingFileWriter * world) : bytes :=
  file_data (bw_inner (sink s.1)) s.2.

(** The bytes that wait in its buffer. *)
Definition pending (s : RotatingFileWriter * world) : bytes :=
  bw_buf (sink s.1).

(** The bytes the writer has accepted. *)
Definition log_stream (s : RotatingFileWriter * world) : bytes :=
  on_disk s ++ pending s.

(** The handle is at the end of the file and the buffer within its
    capacity. *)
Definition writer_valid (s : RotatingFileWriter * world) : Prop :=
  f_pos (bw_inner (sink s.1)) = length (on_disk s) ∧
  (N.of_nat (length (pending s)) ≤ bw_capacity (sink s.1))%N.

#[export] Instance writer_valid_dec s : Decision (writer_valid s).
Proof. unfold writer_valid. apply _. Defined.

(** The world of the examples after [new], the writer [new] returns in
    it, the same writer with three bytes waiting, and that one with no
    room left on the device. *)
Definition example_new_world : world :=
  (new 2 example_dir "app" example_world).2.

Definition example_sink : RotatingFileWriter :=
  mkRotatingFileWriter (BufWriter_new (mkFile 5 0)).

Definition example_writer : RotatingFileWriter * world :=
  (example_sink, example_new_world).

Definition example_line : bytes := [Byte.x68; Byte.x69; Byte.x0a].

Definition example_pending_writer : RotatingFileWriter * world :=
  (mkRotatingFileWriter (mkBufWriter (mkFile 5 0) example_line 8192),
   example_new_world).

Definition example_full_writer : RotatingFileWriter * world :=
  (mkRotatingFileWriter (mkBufWriter (mkFile 5 0) example_line 8192),
   set_space 0 example_new_world).

(** ** The writer keeps the promise of a sink *)

Section sink.
Implicit Types (s : RotatingFileWriter * world) (buf : bytes) (cs : list call).

(** What a method of the buffered file ensures, the method of the writer
    that forwards to it ensures of the writer. *)
Lemma sink_method {A : Type} (c : M (BufWriter File * world) A)
    (Q : A → BufWriter File * world → Prop) s :
  (∃ a (t : BufWriter File * world), c (sink s.1, s.2) = (Returned a, t) ∧ Q a t) →
  ∃ a s', zoom sink set_sink c s = (Returned a, s') ∧ Q a (sink s'.1, s'.2).
Proof. by apply zoom_spec. Qed.

End sink.

#[export] Program Instance RotatingFileWriter_Lawful : Lawful RotatingFileWriter := {|
  stream := log_stream;
  valid := writer_valid;
|}.
Next Obligation.
  intros buf s Hs.
  exact (sink_method (write buf) (λ r s', accepted buf (sink s.1, s.2) r s') s
           (buf_write_spec buf (sink s.1, s.2) Hs)).
Qed.
Next Obligation.
  intros s Hs.
  exact (sink_method flush
           (λ _ s', valid s' ∧ same_file (sink s.1, s.2) s' ∧
                    stream s' = stream (sink s.1, s.2)) s
           (flush_spec (sink s.1, s.2) Hs)).
Qed.

(** The writer changes no file but its own, also when it has lost its
    place in it: its calls and its end are those of the buffered file. *)
#[export] Instance RotatingFileWriter_Confined : Confined RotatingFileWriter.
Proof.
  split; [intros buf|]; (apply confined_zoom; [done | done |]);
    [apply write_confined | apply flush_confined].
Qed.

Lemma drop_confined : confined RotatingFileWriter_drop.
Proof. apply confined_zoom; [done | done | apply buf_drop_confined]. Qed.

(** ** Properties of the sink *)

Section properties.
Implicit Types (s : RotatingFileWriter * world) (buf : bytes) (cs : list call).

(** The writer [new] returns works, has accepted nothing yet, and its
    file is the file of this run. *)
Lemma new_writer_valid max dir prefix w wr w1 :
  new_pre dir prefix w → new max dir prefix w = (Returned (Ok wr), w1) →
  writer_valid (wr, w1) ∧ log_stream (wr, w1) = [] ∧
  w_tree w1 !! (new_log_name prefix w :: dir) = Some (IFile (handle wr)).
Proof.
  intros Hpre Hrun. pose proof (new_inv _ _ _ _ _ _ Hpre Hrun) as Hout.
  inversion Hout as [| |ino w0 w2 Hda Hdir Hfile Htree Hold Hdata]; subst.
  unfold writer_valid, log_stream, on_disk, pending, file_data. simpl.
  rewrite Hdata, Htree, !lookup_insert_eq. by split_and!.
Qed.

(** Dropping a writer that works stays with its file and loses no byte
    the device has room for. *)
Lemma drop_spec s :
  writer_valid s →
  ∃ s', RotatingFileWriter_drop s = (Returned (), s') ∧ same_file s s'.
Proof.
  intros Hs.
  destruct (sink_method buf_drop (λ _ t, same_file (sink s.1, s.2) t) s)
    as ([] & s' & Hrun & Hsame); [|by exists s'].
  destruct (buf_drop_spec (T := File) (sink s.1, s.2))
    as (r & t & Hrun & _ & (_ & Hsame & _) & _); [done | by exists (), t].
Qed.

(** Dropping moves bytes from the buffer to the file and loses none of
    the stream: what does not reach the file is what the dropped buffer
    still held. *)
Lemma drop_stream s :
  writer_valid s →
  ∃ s', RotatingFileWriter_drop s = (Returned (), s') ∧ log_stream s' = log_stream s.
Proof.
  intros Hs.
  destruct (sink_method buf_drop (λ _ t, buf_stream t = log_stream s) s)
    as ([] & s' & Hrun & Hst); [|by exists s'].
  destruct (buf_drop_spec (T := File) (sink s.1, s.2))
    as (r & t & Hrun & _ & _ & Hst & _); [done | by exists (), t].
Qed.

Lemma drop_flushes s :
  writer_valid s → (N.of_nat (length (pending s)) ≤ w_space s.2)%N →
  ∃ s', RotatingFileWriter_drop s = (Returned (), s') ∧ on_disk s' = log_stream s.
Proof.
  intros [Hend Hcap] Hroom.
  destruct (sink_method buf_drop
              (λ _ t, file_data (bw_inner t.1) t.2 = log_stream s) s)
    as ([] & s' & Hrun & Hdata); [|by exists s'].
  destruct (buf_drop_all (sink s.1, s.2) Hend Hroom) as (t & Hrun & Hdata).
  by exists (), t.
Qed.

(** C6: [write] returns on every writer that works: it
    reports a number of bytes, at most as many as it was given, and that
    beginning of them is added to the end of the stream of the writer;
    or it reports an error and the stream is as it was. The writer
    works afterwards, it holds the same file, and no other file and no
    name in the tree has changed. *)
Theorem write_appends buf s :
  writer_valid s →
  ∃ r s', RotatingFileWriter_write buf s = (Returned r, s') ∧
    writer_valid s' ∧ same_file s s' ∧
    match r with
    | Ok n => n ≤ length buf ∧ log_stream s' = log_stream s ++ take n buf
    | Err _ => log_stream s' = log_stream s
    end.
Proof. exact (write_spec (T := RotatingFileWriter) buf s). Qed.

Lemma write_appends_witness :
  ∃ r s', RotatingFileWriter_write example_line example_writer = (Returned r, s') ∧
    writer_valid s' ∧ same_file example_writer s' ∧
    match r with
    | Ok n => n ≤ length example_line ∧
              log_stream s' = log_stream example_writer ++ take n example_line
    | Err _ => log_stream s' = log_stream example_writer
    end.
Proof. apply write_appends. compute_done. Defined.

(** C24: [flush] returns on every writer that works
    and neither loses nor repeats a byte: the stream is as it was. When
    it reports success nothing waits in the buffer and the file holds
    the whole stream; when it reports an error the bytes not yet written
    still wait. *)
Theorem flush_drains s :
  writer_valid s →
  ∃ r s', RotatingFileWriter_flush s = (Returned r, s') ∧
    writer_valid s' ∧ same_file s s' ∧ log_stream s' = log_stream s ∧
    (r = Ok () → pending s' = [] ∧ on_disk s' = log_stream s).
Proof.
  intros Hs.
  destruct (sink_method flush
              (λ r t, buf_valid t ∧ same_file (sink s.1, s.2) t ∧
                      buf_stream t = buf_stream (sink s.1, s.2) ∧
                      (r = Ok () → bw_buf t.1 = [])) s)
    as (r & s' & Hrun & Hv & Hsame & Hst & Hempty); [by apply buf_flush_spec|].
  exists r, s'. split_and!; [done..|]. intros Hr. split; [by apply Hempty|].
  change (on_disk s' ++ bw_buf (sink s'.1, s'.2).1 = log_stream s) in Hst.
  by rewrite Hempty, app_nil_r in Hst.
Qed.

Lemma flush_drains_witness :
  ∃ r s', RotatingFileWriter_flush example_full_writer = (Returned r, s') ∧
    writer_valid s' ∧ same_file example_full_writer s' ∧
    log_stream s' = log_stream example_full_writer ∧
    (r = Ok () → pending s' = [] ∧ on_disk s' = log_stream example_full_writer).
Proof. apply flush_drains. compute_done. Defined.

(** Every sequence of calls of [write] and
    [flush] on a writer that works returns, one reply per call; the
    stream of the writer has grown by exactly the bytes the writes
    report as accepted, in the order of the calls, and the writer still
    works on the same file. *)
Theorem calls_append cs s :
  writer_valid s →
  ∃ rs s', run_calls cs s = (Returned rs, s') ∧ length rs = length cs ∧
    writer_valid s' ∧ same_file s s' ∧
    log_stream s' = log_stream s ++ all_taken cs rs.
Proof. exact (run_calls_spec (T := RotatingFileWriter) cs s). Qed.

Lemma calls_append_witness :
  ∃ rs s', run_calls [Write_call example_line; Flush_call; Write_call example_line]
                     example_writer = (Returned rs, s') ∧
    length rs = 3 ∧ writer_valid s' ∧ same_file example_writer s' ∧
    log_stream s' = log_stream example_writer ++
      all_taken [Write_call example_line; Flush_call; Write_call example_line] rs.
Proof.
  apply (calls_append [Write_call example_line; Flush_call; Write_call example_line]).
  compute_done.
Defined.

(** C16: the writer a successful [new] returns
    can be used at once and for ever: every sequence of calls on it
    returns; what the writes report as accepted is, in the order of the
    calls, what the file of this run holds followed by what waits in the
    buffer; the names in the directory stay as [new] left them; and the
    contents of every other file are untouched. *)
Theorem new_then_calls max dir prefix w wr w1 cs :
  new_pre dir prefix w → new max dir prefix w = (Returned (Ok wr), w1) →
  ∃ rs s', run_calls cs (wr, w1) = (Returned rs, s') ∧ length rs = length cs ∧
    log_stream s' = all_taken cs rs ∧
    w_tree s'.2 = w_tree w1 ∧
    w_tree s'.2 !! (new_log_name prefix w :: dir) = Some (IFile (handle s'.1)) ∧
    ∀ i, i ≠ handle wr → w_data s'.2 !! i = w_data w1 !! i.
Proof.
  intros Hpre Hrun.
  destruct (new_writer_valid _ _ _ _ _ _ Hpre Hrun) as (Hv & Hst & Hfile).
  destruct (run_calls_spec (T := RotatingFileWriter) cs (wr, w1))
    as (rs & s' & Hcalls & Hlen & _ & [Hh [Ht _ _ _ _ Hd _]] & Hst'); [exact Hv|].
  exists rs, s'. split_and!; [done | done | | done | | done].
  - etrans; [exact Hst'|]. by change (stream (wr, w1)) with (log_stream (wr, w1)); rewrite Hst.
  - by rewrite Ht, Hh.
Qed.

Lemma new_then_calls_witness :
  ∃ rs s', run_calls [Write_call example_line; Flush_call]
                     (example_sink, example_new_world) = (Returned rs, s') ∧
    length rs = 2 ∧
    log_stream s' = all_taken [Write_call example_line; Flush_call] rs ∧
    w_tree s'.2 = w_tree example_new_world ∧
    w_tree s'.2 !! (new_log_name "app" example_world :: example_dir) =
      Some (IFile (handle s'.1)) ∧
    ∀ i, i ≠ handle example_sink → w_data s'.2 !! i = w_data example_new_world !! i.
Proof.
  refine (new_then_calls 2 example_dir "app" example_world example_sink
            example_new_world [Write_call example_line; Flush_call] _ _);
    [compute_done | vm_compute; reflexivity].
Defined.

(** With bytes waiting and no room left
    on the device, [flush] reports the error of the device; the bytes
    still wait in the buffer and nothing else has changed, so a later
    [flush] can write them. *)
Theorem flush_storage_full s :
  pending s ≠ [] → w_space s.2 = 0%N →
  RotatingFileWriter_flush s = (Returned (Err StorageFull), s).
Proof.
  intros Hp Hfull. destruct s as [[b] w].
  apply (zoom_run sink set_sink _ (_, _) _ b w). by apply buf_flush_storage_full.
Qed.

Lemma flush_storage_full_witness :
  RotatingFileWriter_flush example_full_writer =
    (Returned (Err StorageFull), example_full_writer).
Proof. apply flush_storage_full; [done | reflexivity]. Defined.

(** With room on the device for the
    bytes that wait, [flush] succeeds: the file holds the whole stream,
    nothing waits, and the room has shrunk by the number of bytes
    written. *)
Theorem flush_enough_space s :
  writer_valid s → (N.of_nat (length (pending s)) ≤ w_space s.2)%N →
  ∃ s', RotatingFileWriter_flush s = (Returned (Ok ()), s') ∧
    pending s' = [] ∧ on_disk s' = log_stream s ∧ writer_valid s' ∧
    w_space s'.2 = (w_space s.2 - N.of_nat (length (pending s)))%N.
Proof.
  intros [Hend Hcap] Hroom.
  destruct (buf_flush_all (sink s.1, s.2) Hend Hroom)
    as ([b w'] & Hrun & Hb & Hc & Hend' & Hdata & Hsp & _).
  exists (set_sink b s.1, w'). split; [by apply zoom_run|].
  unfold writer_valid, on_disk, pending in *. simpl in *. rewrite Hb.
  split_and!; [done | done | done | simpl; lia | done].
Qed.

Lemma flush_enough_space_witness :
  ∃ s', RotatingFileWriter_flush example_pending_writer = (Returned (Ok ()), s') ∧
    pending s' = [] ∧ on_disk s' = log_stream example_pending_writer ∧
    writer_valid s' ∧
    w_space s'.2 = (w_space example_pending_writer.2 -
                    N.of_nat (length (pending example_pending_writer)))%N.
Proof. apply flush_enough_space; compute_done. Defined.

(** C36: a write of fewer bytes than the buffer
    has room for reports all of them as accepted and reaches no file:
    the bytes wait in the buffer and the world is as it was. *)
Theorem write_buffers buf s :
  (N.of_nat (length buf) < spare_capacity (sink s.1))%N →
  ∃ s', RotatingFileWriter_write buf s = (Returned (Ok (length buf)), s') ∧
    s'.2 = s.2 ∧ on_disk s' = on_disk s ∧ pending s' = pending s ++ buf.
Proof.
  intros Hroom.
  exists (set_sink (set_buf (bw_buf (sink s.1) ++ buf) (sink s.1)) s.1, s.2).
  split; [|done]. apply zoom_run. unfold write, BufWriter_Write, buf_write.
  unfold bind at 1, get. by rewrite decide_True.
Qed.

Lemma write_buffers_witness :
  ∃ s', RotatingFileWriter_write example_line example_writer =
          (Returned (Ok (length example_line)), s') ∧
    s'.2 = example_writer.2 ∧ on_disk s' = on_disk example_writer ∧
    pending s' = pending example_writer ++ example_line.
Proof. apply write_buffers. compute_done. Defined.

End properties.

(** ** Worked examples *)

(** Three bytes written to the writer [new] returned are in the stream
    and not in the file; after [flush] they are in the file. *)
Example example_write_then_flush :
  let s1 := (RotatingFileWriter_write example_line example_writer).2 in
  let s2 := (RotatingFileWriter_flush s1).2 in
  on_disk s1 = [] ∧ pending s1 = example_line ∧
  on_disk s2 = example_line ∧ pending s2 = [].
Proof. cbv zeta. split_and!; by vm_compute. Qed.

(** With room for two of three waiting bytes, [flush] writes two, fails
    on the third with the error of the device, and keeps the third in
    the buffer. *)
Example example_device_fills :
  let s := (example_pending_writer.1, set_space 2 example_new_world) in
  (RotatingFileWriter_flush s).1 = Returned (Err StorageFull) ∧
  on_disk (RotatingFileWriter_flush s).2 = [Byte.x68; Byte.x69] ∧
  pending (RotatingFileWriter_flush s).2 = [Byte.x0a].
Proof. cbv zeta. split_and!; by vm_compute. Qed.

(** A write of as many bytes as the buffer holds goes past the buffer
    into the file. *)
Example example_large_write :
  let s := (RotatingFileWriter_write (replicate 8192 Byte.x2e) example_writer).2 in
  length (on_disk s) = 8192 ∧ pending s = [].
Proof. cbv zeta. split_and!; by vm_compute. Qed.
