(* ===== verification/Lifecycle.v ===== *)
(** * Lifecycle: the directory over many runs

    The retention policy of src/src/writer.rs is a promise about a
    directory over the life of a deployment: processes start one after
    the other, each constructs its [RotatingFileWriter] with the same
    limit, directory and prefix, and logs through it. This file models
    that life as a step relation on the world and the writer of the
    running process (the clock moves, a process starts and calls [new],
    the running process calls [write] or [flush], it ends or is killed)
    and proves, by induction on the steps, what holds for ever: the
    directory never holds more than [max] log files, the file names are
    never ahead of the clock, and a process that starts after the clock
    has moved overwrites no log file. *)

From Stdlib Require Import Ascii.
From stdpp Require Import base tactics option list strings gmap relations orders.
From S2P Require Import Prelude Clock FileSystem Sink Scanner Pruner Writer Output.

Local Open Scope string_scope.
Local Open Scope io_scope.

(** ** The steps *)

Definition set_now (t : DateTime) (w : world) : world :=
  mkWorld (w_tree w) (w_data w) (w_next_ino w) (w_denied w) (w_space w) t
          (w_warnings w).

(** The world and the writer of the running process, if one runs. *)
Notation sys := (option RotatingFileWriter * world)%type (only parsing).

Section lifecycle.
Context (max : N) (dir : path) (prefix : string).
Implicit Types (s : sys) (w : world) (wr : RotatingFileWriter).

(** The clock moves forward; when no process runs, one starts and
    constructs its writer, or fails to; the running process calls a
    method of its writer; it ends and its writer is dropped; or it is
    killed, and what waited in the buffer is lost. *)
Inductive step : sys → sys → Prop :=
  | step_tick o w t :
      dt_compare (w_now w) t = Lt → valid_datetime t →
      step (o, w) (o, set_now t w)
  | step_start w r w' :
      new max dir prefix w = (Returned r, w') →
      step (None, w) (result_ok r, w')
  | step_call wr w c r wr' w' :
      run_call c (wr, w) = (Returned r, (wr', w')) →
      step (Some wr, w) (Some wr', w')
  | step_exit wr w wr' w' :
      RotatingFileWriter_drop (wr, w) = (Returned (), (wr', w')) →
      step (Some wr, w) (None, w')
  | step_kill wr w :
      step (Some wr, w) (None, w).

(** ** What holds for ever *)

(** The system refuses nothing in the directory: it lists it, and no
    path it refuses is an entry of it. *)
Definition permissive (w : world) : Prop :=
  (dir ∉ w_denied w) ∧ set_Forall (λ p, tail p ≠ dir) (w_denied w).

#[export] Instance permissive_dec w : Decision (permissive w).
Proof. unfold permissive. apply _. Defined.

(** The writer of the running process works. *)
Definition writer_ok (s : sys) : Prop :=
  from_option (λ wr, writer_valid (wr, s.2)) True s.1.

#[export] Instance writer_ok_dec s : Decision (writer_ok s).
Proof. unfold writer_ok. destruct s.1; apply _. Defined.

(** The state of a deployment that has settled: the world is well
    formed, the clock in range, the system permissive, the directory
    holds at most [max] log files, and the writer of the running process
    works. *)
Record settled (s : sys) : Prop := mkSettled {
  st_wf : wf_world s.2;
  st_clock : valid_datetime (w_now s.2);
  st_permissive : permissive s.2;
  st_count : (N.of_nat (size (log_names (w_tree s.2) dir prefix)) ≤ coerce_max max)%N;
  st_writer : writer_ok s;
}.

(** No log file is named after a later moment than the clock shows. *)
Definition dated (s : sys) : Prop :=
  set_Forall (λ n, String.le n (new_log_name prefix s.2))
             (log_names (w_tree s.2) dir prefix).

Lemma settled_iff s :
  settled s ↔
    wf_world s.2 ∧ valid_datetime (w_now s.2) ∧ permissive s.2 ∧
    (N.of_nat (size (log_names (w_tree s.2) dir prefix)) ≤ coerce_max max)%N ∧
    writer_ok s.
Proof. split; [by intros [] | by intros (? & ? & ? & ? & ?)]. Qed.

#[export] Instance settled_dec s : Decision (settled s).
Proof.
  refine (cast_if (decide (wf_world s.2 ∧ valid_datetime (w_now s.2) ∧ permissive s.2 ∧
                           (N.of_nat (size (log_names (w_tree s.2) dir prefix))
                              ≤ coerce_max max)%N ∧
                           writer_ok s)));
    by rewrite settled_iff.
Defined.

#[export] Instance dated_dec s : Decision (dated s).
Proof. unfold dated. apply _. Defined.

(** ** The invariant *)

Section invariant.
Hypothesis prefix_plain : "/"%char ∉ chars prefix.
Hypothesis max_usize : (max ≤ usize_max)%N.

Lemma coerce_max_usize : (coerce_max max ≤ usize_max)%N.
Proof. unfold coerce_max. case_decide; [done | exact max_usize]. Qed.

Lemma permissive_all_removable w names : permissive w → all_removable w dir names.
Proof. intros [_ Hall] n _ Hn. by apply (Hall _ Hn). Qed.

Lemma settled_new_pre s : settled s → new_pre dir prefix s.2.
Proof.
  intros [Hwf Hclock [Hdir _] Hcount _]. split; [done..|].
  pose proof coerce_max_usize. lia.
Qed.

Lemma wf_world_set_now t w : wf_world w → wf_world (set_now t w).
Proof. by intros []. Qed.

(** The clock moves. *)
Lemma settled_tick o w t :
  valid_datetime t → settled (o, w) → settled (o, set_now t w).
Proof.
  intros Ht [Hwf _ Hperm Hcount Hwr]. split; [|done..]. by apply wf_world_set_now.
Qed.

(** A process starts. *)
Lemma settled_start o w r w' :
  settled (o, w) → new max dir prefix w = (Returned r, w') →
  settled (result_ok r, w').
Proof.
  intros Hs Hrun. pose proof (settled_new_pre _ Hs) as Hpre.
  pose proof (new_now _ _ _ _ _ _ Hpre Hrun) as Hnow.
  destruct Hs as [Hwf Hclock Hperm Hcount _]. simpl in *.
  pose proof (permissive_all_removable w (log_names (w_tree w) dir prefix) Hperm) as Hall.
  split; simpl; [| by rewrite Hnow | | |].
  - destruct (new_inv _ _ _ _ _ _ Hpre Hrun); [done | by apply pruned_wf | done].
  - destruct (new_inv _ _ _ _ _ _ Hpre Hrun) as [e w1 Hda|e w1 Hda|ino w1 w2 Hda _ _ _ _ _ Hden];
      unfold permissive; rewrite ?pruned_denied, ?Hden, ?(dirs_added_denied dir w w1) by done;
      done.
  - destruct (new_inv _ _ _ _ _ _ Hpre Hrun) as [e w1 Hda|e w1 Hda|ino w1 w2 Hda _ _ Htree].
    + by rewrite (dirs_added_log_names dir w w1).
    + rewrite (kept_pruned max dir prefix w w1), kept_all_removable by done.
      rewrite size_retained by apply coerce_max_pos. lia.
    + erewrite log_names_created, kept_all_removable by done.
      apply size_add_retained, coerce_max_pos.
  - destruct r as [wr|]; [|done]. by apply (new_writer_valid max dir prefix w).
Qed.

(** The running process calls its writer. *)
Lemma settled_call wr w c r wr' w' :
  settled (Some wr, w) → run_call c (wr, w) = (Returned r, (wr', w')) →
  settled (Some wr', w').
Proof.
  intros [Hwf Hclock Hperm Hcount Hwr] Hrun. simpl in *.
  destruct (run_call_spec (T := RotatingFileWriter) c (wr, w))
    as (r0 & s0 & Hrun0 & Hv & [_ Hsame] & _); [done|].
  rewrite Hrun in Hrun0. simplify_eq. simpl in *.
  pose proof Hsame as [Ht _ Hd Hn _ _ _].
  split; simpl; [by eapply only_file_wf | by rewrite Hn | by unfold permissive; rewrite Hd
                 | by rewrite Ht | done].
Qed.

(** The running process ends, or is killed. *)
Lemma settled_exit wr w wr' w' :
  settled (Some wr, w) → RotatingFileWriter_drop (wr, w) = (Returned (), (wr', w')) →
  settled (None, w').
Proof.
  intros [Hwf Hclock Hperm Hcount Hwr] Hrun. simpl in *.
  destruct (drop_spec (wr, w) Hwr) as (s0 & Hrun0 & [_ Hsame]).
  rewrite Hrun in Hrun0. simplify_eq. simpl in *.
  pose proof Hsame as [Ht _ Hd Hn _ _ _].
  split; simpl; [by eapply only_file_wf | by rewrite Hn | by unfold permissive; rewrite Hd
                 | by rewrite Ht | done].
Qed.

Lemma settled_kill wr w : settled (Some wr, w) → settled (None, w).
Proof. by intros []. Qed.

Lemma settled_step s s' : settled s → step s s' → settled s'.
Proof.
  intros Hs Hstep. revert Hs.
  destruct Hstep as [o w t _ Ht | w r w' Hrun | wr w c r wr' w' Hrun
                     | wr w wr' w' Hrun | wr w]; intros Hs.
  - by apply settled_tick.
  - by eapply settled_start.
  - by eapply settled_call.
  - by eapply settled_exit.
  - by eapply settled_kill.
Qed.

(** *** Names and the clock *)

(** A later clock gives a greater name. *)
Lemma new_log_name_tick w t :
  valid_datetime (w_now w) → valid_datetime t → dt_compare (w_now w) t = Lt →
  strict String.le (new_log_name prefix w) (new_log_name prefix (set_now t w)).
Proof.
  intros Hw Ht Hlt. apply string_lt_compare. unfold new_log_name. simpl.
  by rewrite log_file_name_compare, timestamp_text_compare.
Qed.

(** Once the clock has moved, every log file is older than the file the
    next process would create. *)
Lemma dated_tick_older o w t n :
  settled (o, w) → dated (o, w) → valid_datetime t → dt_compare (w_now w) t = Lt →
  n ∈ log_names (w_tree w) dir prefix →
  strict String.le n (new_log_name prefix (set_now t w)).
Proof.
  intros Hs Hd Ht Hlt Hn. eapply strict_trans_r; [by apply Hd|].
  apply new_log_name_tick; [apply Hs | done..].
Qed.

Lemma dated_tick o w t :
  settled (o, w) → dated (o, w) → valid_datetime t → dt_compare (w_now w) t = Lt →
  dated (o, set_now t w).
Proof. intros Hs Hd Ht Hlt n Hn. by apply strict_include, (dated_tick_older o). Qed.

(** The log files after [new], whatever it returns, are old ones and
    the file of this run. *)
Lemma new_log_names_subseteq w r w' :
  new_pre dir prefix w → new max dir prefix w = (Returned r, w') →
  log_names (w_tree w') dir prefix ⊆
    {[new_log_name prefix w]} ∪ log_names (w_tree w) dir prefix.
Proof.
  intros Hpre Hrun. pose proof (kept_subseteq max dir prefix w).
  destruct (new_inv _ _ _ _ _ _ Hpre Hrun) as [e w1 Hda|e w1 Hda|ino w1 w2 Hda _ _ Htree].
  - rewrite (dirs_added_log_names dir w w1) by done. set_solver.
  - rewrite (kept_pruned max dir prefix w w1) by done. set_solver.
  - erewrite log_names_created by done. set_solver.
Qed.

(** After a successful [new] they are the file of this run and the old
    ones the policy retains, when the system is permissive. *)
Lemma new_ok_log_names w wr w' :
  new_pre dir prefix w → all_removable w dir (log_names (w_tree w) dir prefix) →
  new max dir prefix w = (Returned (Ok wr), w') →
  log_names (w_tree w') dir prefix =
    {[new_log_name prefix w]} ∪ retained (coerce_max max) (log_names (w_tree w) dir prefix).
Proof.
  intros Hpre Hall Hrun. pose proof (new_inv _ _ _ _ _ _ Hpre Hrun) as Hout.
  inversion Hout as [| |ino w1 w2 Hda _ _ Htree]; subst.
  by erewrite log_names_created, kept_all_removable.
Qed.

Lemma dated_start o w r w' :
  settled (o, w) → dated (o, w) → new max dir prefix w = (Returned r, w') →
  dated (result_ok r, w').
Proof.
  intros Hs Hd Hrun n Hn. pose proof (settled_new_pre _ Hs) as Hpre.
  unfold new_log_name in *. simpl in *. rewrite (new_now _ _ _ _ _ _ Hpre Hrun).
  apply (new_log_names_subseteq _ _ _ Hpre Hrun) in Hn.
  apply elem_of_union in Hn as [->%elem_of_singleton|Hn]; [done | by apply Hd].
Qed.

Lemma dated_call wr w c r wr' w' :
  settled (Some wr, w) → dated (Some wr, w) →
  run_call c (wr, w) = (Returned r, (wr', w')) → dated (Some wr', w').
Proof.
  intros [_ _ _ _ Hwr] Hd Hrun.
  destruct (run_call_spec (T := RotatingFileWriter) c (wr, w))
    as (r0 & s0 & Hrun0 & _ & [_ [Ht _ _ Hn _ _ _]] & _); [done|].
  rewrite Hrun in Hrun0. simplify_eq. unfold dated, new_log_name in *. simpl in *.
  by rewrite Ht, Hn.
Qed.

Lemma dated_exit wr w wr' w' :
  settled (Some wr, w) → dated (Some wr, w) →
  RotatingFileWriter_drop (wr, w) = (Returned (), (wr', w')) → dated (None, w').
Proof.
  intros [_ _ _ _ Hwr] Hd Hrun.
  destruct (drop_spec (wr, w) Hwr) as (s0 & Hrun0 & [_ [Ht _ _ Hn _ _ _]]).
  rewrite Hrun in Hrun0. simplify_eq. unfold dated, new_log_name in *. simpl in *.
  by rewrite Ht, Hn.
Qed.

Lemma dated_step s s' : settled s → dated s → step s s' → dated s'.
Proof.
  intros Hs Hd Hstep. revert Hs Hd.
  destruct Hstep as [o w t Hlt Ht | w r w' Hrun | wr w c r wr' w' Hrun
                     | wr w wr' w' Hrun | wr w]; intros Hs Hd.
  - by apply dated_tick.
  - by eapply dated_start.
  - by eapply dated_call.
  - by eapply dated_exit.
  - done.
Qed.

(** Both hold after every sequence of steps. *)
Lemma for_ever s s' : rtc step s s' → settled s → dated s → settled s' ∧ dated s'.
Proof.
  induction 1 as [s|s s1 s' Hstep _ IH]; [done|]. intros Hs Hd.
  apply IH; [by eapply settled_step | by eapply dated_step].
Qed.

(** ** Properties of the deployment *)

(** C17: a deployment that has settled stays
    settled whatever happens next: after every sequence of clock ticks,
    process starts (successful or not), writes, flushes and process
    ends, the directory holds at most [max] log files ([max] raised to at least
    1), the world is well formed, and the writer of the running process
    works. The prefix has no [/] and [max] fits a [usize]
    ([prefix_plain], [max_usize]). *)
Theorem settled_for_ever s s' : settled s → rtc step s s' → settled s'.
Proof.
  intros Hs Hsteps. induction Hsteps as [|s s1 s' Hstep _ IH]; [done|].
  by eapply IH, settled_step.
Qed.

(** C25: in a deployment that has settled and
    whose log files are not dated ahead of the clock, a process that
    starts after the clock has moved creates a file that is newer, by
    name, than every log file there is; it keeps the newest [max - 1] of
    them beside it; and it leaves the contents of every file as they
    were. The deployment starts [settled] and [dated], the prefix has
    no [/] and [max] fits a [usize]. *)
Theorem restart_keeps_logs s o w t wr w' :
  settled s → dated s → rtc step s (o, w) →
  dt_compare (w_now w) t = Lt → valid_datetime t →
  new max dir prefix (set_now t w) = (Returned (Ok wr), w') →
  log_names (w_tree w') dir prefix =
    {[new_log_name prefix (set_now t w)]} ∪
    retained (coerce_max max) (log_names (w_tree w) dir prefix) ∧
  (∀ n, n ∈ log_names (w_tree w) dir prefix →
        strict String.le n (new_log_name prefix (set_now t w))) ∧
  (∀ p i, w_tree w !! p = Some (IFile i) → w_data w' !! i = w_data w !! i).
Proof.
  intros Hs Hd Hsteps Hlt Ht Hrun. destruct (for_ever _ _ Hsteps Hs Hd) as [Hs' Hd'].
  pose proof (settled_tick o w t Ht Hs') as Hst.
  pose proof (settled_new_pre _ Hst) as Hpre.
  assert (∀ n, n ∈ log_names (w_tree w) dir prefix →
               strict String.le n (new_log_name prefix (set_now t w))) as Holder
    by (intros n; by apply (dated_tick_older o)).
  split_and!; [|done|].
  - apply (new_ok_log_names (set_now t w) wr w' Hpre); [|done].
    apply permissive_all_removable, Hst.
  - apply (new_fresh_keeps_contents max dir prefix (set_now t w) wr w' Hpre); [|done].
    intros Hin%Holder. by apply strict_ne in Hin.
Qed.

End invariant.

End lifecycle.

(** ** A deployment on the world of the examples

    A limit of 3. The first process starts at the time of the example
    world; the clock moves to 5 January; the second process starts. *)
Definition example_first_run : world :=
  (new 3 example_dir "app" example_world).2.

Definition example_tick : DateTime := mkDateTime 2024 1 5 0 0 0.

Definition example_second_sink : RotatingFileWriter :=
  mkRotatingFileWriter (BufWriter_new (mkFile 6 0)).

Definition example_second_run : world :=
  (new 3 example_dir "app" (set_now example_tick example_first_run)).2.

Lemma example_first_step :
  rtc (step 3 example_dir "app") (None, example_world)
      (Some example_sink, example_first_run).
Proof.
  apply rtc_once.
  apply (step_start 3 example_dir "app" example_world (Ok example_sink)).
  vm_compute. reflexivity.
Qed.

Lemma settled_for_ever_witness :
  settled 3 example_dir "app" (Some example_sink, example_first_run).
Proof.
  refine (settled_for_ever 3 example_dir "app" _ _ (None, example_world) _ _ _);
    [compute_done | compute_done | compute_done | apply example_first_step].
Defined.

Lemma restart_keeps_logs_witness :
  log_names (w_tree example_second_run) example_dir "app" =
    {[new_log_name "app" (set_now example_tick example_first_run)]} ∪
    retained (coerce_max 3) (log_names (w_tree example_first_run) example_dir "app") ∧
  (∀ n, n ∈ log_names (w_tree example_first_run) example_dir "app" →
        strict String.le n (new_log_name "app" (set_now example_tick example_first_run))) ∧
  (∀ p i, w_tree example_first_run !! p = Some (IFile i) →
          w_data example_second_run !! i = w_data example_first_run !! i).
Proof.
  refine (restart_keeps_logs 3 example_dir "app" _ _ (None, example_world)
            (Some example_sink) example_first_run example_tick example_second_sink
            example_second_run _ _ _ _ _ _);
    [compute_done | compute_done | compute_done | compute_done
     | apply example_first_step | compute_done | compute_done
     | vm_compute; reflexivity].
Defined.

(** The log files after each of the two runs: each run removes the
    oldest file and adds its own. *)
Example example_two_runs :
  log_names (w_tree example_first_run) example_dir "app" =
    {[ "app.2024-01-02T00:00:00"; "app.2024-01-03T00:00:00";
       "app.2024-01-04T09:05:06" ]} ∧
  log_names (w_tree example_second_run) example_dir "app" =
    {[ "app.2024-01-03T00:00:00"; "app.2024-01-04T09:05:06";
       "app.2024-01-05T00:00:00" ]}.
Proof. split; compute_done. Qed.
