(* ===== verification/Race.v ===== *)
(** * Race: several processes constructing their writer at once

    [RotatingFileWriter::new] of src/src/writer.rs (lines 15 to 53) is a
    sequence of calls of the system: create the directory (16), list it
    (22 to 32), remove a file per turn of the loop (37 to 42), read the
    clock (46), create the file (49). Nothing makes the sequence atomic:
    when several processes of the application start together, the calls
    of one fall between the calls of the others.

    This file cuts [new] at its calls. [proc] is the point a process has
    reached, with the local variables that are live there; [proc_step] is
    the call it makes next. A process running alone computes [new]
    ([alone_is_new]). [race_step] is a step of a system of processes on
    one world: one of them makes its next call, the clock changes, or
    the environment acts, a relation [env] on worlds that stands for
    what else runs on the machine. The theorems say what survives every
    interleaving: no process panics, whatever the environment does;
    the local variables of every process are what the code computes
    ([typed]: a sorted list of log files of the directory, indices that
    stop short of the newest [max - 1] entries, a writer on an empty
    buffer); and, with an environment that changes the contents of
    files only ([writes]), nothing but log files of the directory is
    removed and each process adds at most one log file. Every process comes to an end. The examples at the end are the races the
    directory is open to: a directory left with more than [max] log
    files, a file removed twice, two writers on one file, and a running
    process whose file is removed. *)

From Stdlib Require Import Ascii Relation_Operators Wellfounded.
From stdpp Require Import base tactics option list strings gmap relations sorting.
From S2P Require Import Prelude Clock FileSystem Sink Scanner Pruner Writer.
From S2P Require Import Output Lifecycle.

Local Open Scope string_scope.
Local Open Scope io_scope.

(** ** A process, call by call *)

(** Where a process is in [new]: before line 16; before the scan of line
    22; in the loop of line 36 with the list of line 32 and the indices
    still to visit; before line 46; before line 49 with the text of the
    time; returned from [new]; or panicked. *)
Inductive proc : Type :=
  | AtCreateDir
  | AtScan
  | AtRemove (logs : list DirEntry) (todo : list nat)
  | AtClock
  | AtCreate (time : string)
  | Finished (r : result io_error RotatingFileWriter)
  | Crashed (msg : string).

(** The process has left [new]. *)
Definition final (p : proc) : bool :=
  match p with
  | Finished _ | Crashed _ => true
  | _ => false
  end.

(** One call [c] of the system, and the point [k a] at which its value
    [a] leaves the process; a panic ends the process. *)
Definition stage {A} (c : M world A) (k : A → proc) (w : world) : proc * world :=
  match c w with
  | (Returned a, w') => (k a, w')
  | (Panicked msg, w') => (Crashed msg, w')
  end.

(** The [?] operator on the value of a call. *)
Definition or_return {A} (k : A → proc) (r : result io_error A) : proc :=
  match r with
  | Ok a => k a
  | Err e => Finished (Err e)
  end.

(** Lines 34 to 36: the guard and the range of the loop. *)
Definition loop_entry (logs : list DirEntry) (max : N) : proc :=
  let len := N.of_nat (length logs) in
  if decide (max ≤ len)%N then
    let extra_logs := usize_sub len max in
    AtRemove logs (range (usize_add extra_logs 1))
  else AtClock.

(** What a program that holds an open file does to the world when it
    writes to it: the contents of that file and the room on the device
    change, and nothing else. *)
Definition writes : relation world := λ w w', ∃ h, only_file h w w'.

Section race.
Context (env : relation world) (max : N) (dir : path) (prefix : string).
Implicit Types (p : proc) (w : world) (ps : list proc).

(** The next call of a process. *)
Definition proc_step (p : proc) : world → proc * world :=
  match p with
  | AtCreateDir => stage (create_dir_all dir) (or_return (λ _, AtScan))
  | AtScan =>
      stage (scan_logs dir prefix) (λ logs, loop_entry logs (coerce_max max))
  | AtRemove logs (i :: todo) =>
      stage (remove_log logs i) (λ _, AtRemove logs todo)
  | AtRemove logs [] => pair AtClock
  | AtClock => stage timestamp AtCreate
  | AtCreate time =>
      stage (file_create (path_join dir (log_file_name prefix time)))
            (or_return (λ file, Finished (Ok (mkRotatingFileWriter (BufWriter_new file)))))
  | Finished _ | Crashed _ => pair p
  end.

(** A process left alone for [n] calls. *)
Fixpoint run_proc (n : nat) (p : proc) (w : world) : proc * world :=
  match n with
  | O => (p, w)
  | S n' => let '(p', w') := proc_step p w in run_proc n' p' w'
  end.

(** What is left of [new] at each point. *)
Definition rest_of (p : proc) : M world (result io_error RotatingFileWriter) :=
  match p with
  | AtCreateDir => new max dir prefix
  | AtScan =>
      logs <- scan_logs dir prefix ;;
      prune_logs logs (coerce_max max) ;;;
      time <- timestamp ;;
      open_log (path_join dir (log_file_name prefix time))
  | AtRemove logs todo =>
      for_each (remove_log logs) todo ;;;
      time <- timestamp ;;
      open_log (path_join dir (log_file_name prefix time))
  | AtClock =>
      time <- timestamp ;;
      open_log (path_join dir (log_file_name prefix time))
  | AtCreate time => open_log (path_join dir (log_file_name prefix time))
  | Finished r => ret r
  | Crashed msg => panic msg
  end.

(** The point at which a computation that has ended leaves the process. *)
Definition ended (o : outcome (result io_error RotatingFileWriter)) : proc :=
  match o with
  | Returned r => Finished r
  | Panicked msg => Crashed msg
  end.

(** The calls a process has before it at most, by the point it is at:
    the phase, and within the loop the turns left. *)
Definition rank (p : proc) : nat * nat :=
  match p with
  | AtCreateDir => (5, 0)
  | AtScan => (4, 0)
  | AtRemove _ todo => (3, length todo)
  | AtClock => (2, 0)
  | AtCreate _ => (1, 0)
  | Finished _ | Crashed _ => (0, 0)
  end.

(** [p'] is what a call makes of [p] in some world. *)
Definition next (p' p : proc) : Prop :=
  final p = false ∧ ∃ w, (proc_step p w).1 = p'.

(** ** The system *)

(** The processes and the world they share. *)
Notation sys := (list proc * world)%type (only parsing).

(** What a schedule is made of: the clock shows another time (a second
    has passed, or the clock was set), or the process [i] makes its next
    call. *)
Inductive action : Type :=
  | Tick (t : DateTime)
  | Call (i : nat).

Definition act (a : action) (s : sys) : sys :=
  match a with
  | Tick t => (s.1, set_now t s.2)
  | Call i =>
      match s.1 !! i with
      | Some p => let '(p', w') := proc_step p s.2 in (<[i := p']> s.1, w')
      | None => s
      end
  end.

(** A schedule, from its first action. *)
Definition exec (acts : list action) (s : sys) : sys := foldl (flip act) s acts.

(** A step of the system: the clock changes, the environment [env] (the
    programs that are not inside [new]) changes the world, or a process
    makes its next call. *)
Inductive race_step : sys → sys → Prop :=
  | race_tick ps w t : race_step (ps, w) (ps, set_now t w)
  | race_env ps w w' : env w w' → race_step (ps, w) (ps, w')
  | race_call ps w i p p' w' :
      ps !! i = Some p → proc_step p w = (p', w') →
      race_step (ps, w) (<[i := p']> ps, w').

(** The system as [k] processes enter [new]. *)
Definition started (k : nat) : list proc := replicate k AtCreateDir.

(** A process that is still in [new] makes its next call. *)
Definition busy_step (s' s : sys) : Prop :=
  ∃ i p, s.1 !! i = Some p ∧ final p = false ∧ act (Call i) s = s'.

(** ** What holds at every point of a process *)

(** The loop only has indices of its list before it, and the list holds
    entries of the directory whose name starts with the prefix. *)
Definition proc_ok (p : proc) : Prop :=
  match p with
  | AtRemove logs todo =>
      Forall (λ i, i < length logs)%nat todo ∧
      Forall (λ e, ∃ n, dent_path e = n :: dir ∧ starts_with n prefix = true) logs
  | Crashed _ => False
  | _ => True
  end.

(** The local variables of a process are what the code has computed. In
    the loop, the list of line 32 holds entries of regular files of the
    directory whose names start with the prefix, in the order of their
    names (lines 24 to 32); the indices still to visit increase and leave
    the last [max - 1] entries of the list out (line 36, with the limit
    of line 20). Before line 49 the text of the time is a text in the
    format of line 46. The writer returned is an empty buffer on a
    handle at the start of its file (line 50). No process has
    panicked. *)
Definition typed (p : proc) : Prop :=
  match p with
  | AtRemove logs todo =>
      Forall (λ e, ∃ n, e = log_entry dir n ∧ starts_with n prefix = true) logs ∧
      StronglySorted by_file_name logs ∧
      StronglySorted lt todo ∧
      Forall (λ i, (N.of_nat i + coerce_max max ≤ N.of_nat (length logs))%N) todo
  | AtCreate time => ∃ now, time = timestamp_text now
  | Finished (Ok wr) => sink wr = BufWriter_new (mkFile (handle wr) 0)
  | Crashed _ => False
  | _ => True
  end.

(** The processes that may still create their file, counted. *)
Definition weight (p : proc) : nat := if final p then 0 else 1.

Definition unfinished (ps : list proc) : nat := sum_list (weight <$> ps).

(** A path the processes have no business with: not an entry of the
    directory whose name starts with the prefix. *)
Definition foreign (q : path) : Prop :=
  ∀ n, q = n :: dir → starts_with n prefix = false.

(** What a call may do to the world: it keeps the world well formed and
    what the system refuses, leaves every foreign path where it leads,
    and adds no log file to the directory but those of [extra]. *)
Record touched (extra : gset string) (w w' : world) : Prop := mkTouched {
  to_wf : wf_world w → wf_world w';
  to_denied : w_denied w' = w_denied w;
  to_foreign : ∀ q i, foreign q → w_tree w !! q = Some i → w_tree w' !! q = Some i;
  to_logs : log_names (w_tree w') dir prefix ⊆ log_names (w_tree w) dir prefix ∪ extra;
}.

(** What holds of a system that started as [s0]: every process is at a
    sound point, and the world is the first one touched by their calls;
    the log files and the processes still to create theirs are together
    no more than at the start. *)
Record race_inv (s0 s : list proc * world) : Prop := mkRaceInv {
  ri_ok : Forall proc_ok s.1;
  ri_touched : ∃ extra, touched extra s0.2 s.2;
  ri_count :
    (size (log_names (w_tree s.2) dir prefix) + unfinished s.1 ≤
     size (log_names (w_tree s0.2) dir prefix) + unfinished s0.1)%nat;
}.

(** The cases of a statement about a call: one per point of [new], with
    the call of that point in the goal. *)
Ltac proc_cases p :=
  destruct p as [| |logs [|i todo]| |time|r|msg];
  cbn [proc_step rest_of rank final fst snd].

(** Goals that count log files and processes still to create theirs. *)
Lemma weight_le p : (weight p ≤ 1)%nat.
Proof. unfold weight. destruct (final p); lia. Qed.

Ltac weigh :=
  rewrite ?size_empty; cbn [weight final or_return fst snd];
  repeat match goal with
         | |- context [weight ?p] =>
             lazymatch goal with
             | _ : (weight p ≤ 1)%nat |- _ => fail
             | _ => pose proof (weight_le p)
             end
         end;
  lia.

(** ** A process alone *)

Section alone.

(** A call hands what is left of [new] to the point it leads to. *)
Lemma stage_rest {A} (c : M world A) (k : A → proc)
    (f : A → M world (result io_error RotatingFileWriter)) w :
  (∀ a w', rest_of (k a) w' = f a w') →
  rest_of (stage c k w).1 (stage c k w).2 = bind c f w.
Proof.
  intros Hk. unfold stage, bind. destruct (c w) as [[a|msg] w']; [apply Hk | done].
Qed.

Lemma loop_entry_rest logs w :
  rest_of (loop_entry logs (coerce_max max)) w =
    (prune_logs logs (coerce_max max) ;;;
     time <- timestamp ;; open_log (path_join dir (log_file_name prefix time))) w.
Proof. unfold loop_entry, prune_logs. by case_decide. Qed.

(** A call of a process changes nothing of what [new] has left to do. *)
Lemma proc_step_rest p w :
  rest_of (proc_step p w).1 (proc_step p w).2 = rest_of p w.
Proof.
  proc_cases p; try done.
  - apply stage_rest. by intros [[]|e].
  - apply stage_rest. intros logs w'. apply loop_entry_rest.
  - rewrite (stage_rest _ _ (λ _, rest_of (AtRemove logs todo))) by done.
    simpl. unfold bind. by destruct (remove_log logs i w) as [[] ?].
  - unfold open_log, bind_try. apply stage_rest. by intros [file|e].
Qed.

Lemma run_proc_rest n p w :
  rest_of (run_proc n p w).1 (run_proc n p w).2 = rest_of p w.
Proof.
  revert p w. induction n as [|n IH]; intros p w; simpl; [done|].
  pose proof (proc_step_rest p w) as Hstep.
  destruct (proc_step p w) as [p' w']. by rewrite IH.
Qed.

(** A process that has left [new] is where its result says. *)
Lemma final_rest p w :
  final p = true → (ended (rest_of p w).1, (rest_of p w).2) = (p, w).
Proof. by destruct p. Qed.

Lemma run_proc_final n p w : final p = true → run_proc n p w = (p, w).
Proof. induction n as [|n IH]; simpl; [done|]. by destruct p. Qed.

Lemma run_proc_add n k p w :
  run_proc (n + k) p w = run_proc k (run_proc n p w).1 (run_proc n p w).2.
Proof.
  revert p w. induction n as [|n IH]; intros p w; simpl; [done|].
  destruct (proc_step p w) as [p' w']. apply IH.
Qed.

(** *** Every call brings the end nearer *)

Local Notation nearer := (slexprod nat nat lt lt).

Lemma rank_loop_entry logs m : nearer (rank (loop_entry logs m)) (4, 0).
Proof. unfold loop_entry. case_decide; apply left_slex; simpl; lia. Qed.

Lemma rank_stage {A} (c : M world A) (k : A → proc) w r :
  (∀ a, nearer (rank (k a)) r) → nearer (0, 0) r →
  nearer (rank (stage c k w).1) r.
Proof. intros Hk H0. unfold stage. destruct (c w) as [[a|msg] w']; [apply Hk | done]. Qed.

Lemma rank_or_return {A} (k : A → proc) (res : result io_error A) r :
  (∀ a, nearer (rank (k a)) r) → nearer (0, 0) r →
  nearer (rank (or_return k res)) r.
Proof. intros Hk H0. destruct res; [apply Hk | done]. Qed.

Lemma rank_proc_step p w :
  final p = false → nearer (rank (proc_step p w).1) (rank p).
Proof.
  intros Hp. proc_cases p; try done;
    repeat first [apply rank_stage | apply rank_or_return | intros ?];
    first [apply rank_loop_entry | apply left_slex; simpl; lia
          | apply right_slex; simpl; lia].
Qed.

Lemma next_wf : well_founded next.
Proof.
  apply (wf_projected (nearer) rank).
  - intros p' p [Hp [w <-]]. by apply rank_proc_step.
  - apply wf_slexprod; apply lt_wf.
Qed.

(** Left alone, a process leaves [new] after finitely many calls. *)
Lemma run_proc_ends p w : ∃ n, final (run_proc n p w).1 = true.
Proof.
  revert w. induction (next_wf p) as [p _ IH]. intros w.
  destruct (final p) eqn:Hp; [by exists 0|].
  destruct (IH (proc_step p w).1 (conj Hp (ex_intro _ w eq_refl)) (proc_step p w).2)
    as [n Hn].
  exists (S n). simpl. by destruct (proc_step p w).
Qed.

(** [new] ends where the process left alone ends. *)
Lemma new_as_run w :
  ∃ n, final (run_proc n AtCreateDir w).1 = true ∧
       ended (new max dir prefix w).1 = (run_proc n AtCreateDir w).1 ∧
       (new max dir prefix w).2 = (run_proc n AtCreateDir w).2.
Proof.
  destruct (run_proc_ends AtCreateDir w) as [n Hn]. exists n. split; [done|].
  pose proof (final_rest _ (run_proc n AtCreateDir w).2 Hn) as Hend.
  rewrite run_proc_rest in Hend. by simplify_eq/=.
Qed.

End alone.

(** ** What every call keeps *)

Section calls.
Implicit Types (extra : gset string) (q : path).

Lemma touched_refl w : touched ∅ w w.
Proof. split; [done | done | done | set_solver]. Qed.

Lemma touched_trans extra1 extra2 w1 w2 w3 :
  touched extra1 w1 w2 → touched extra2 w2 w3 → touched (extra1 ∪ extra2) w1 w3.
Proof.
  intros [Hwf1 Hd1 Hf1 Hl1] [Hwf2 Hd2 Hf2 Hl2].
  split; [by auto | congruence | by auto |].
  clear -Hl1 Hl2. set_solver.
Qed.

Lemma touched_dirs_added w w' :
  dirs_added dir w w' → (wf_world w → wf_world w') → touched ∅ w w'.
Proof.
  intros Hda Hwf. split; [done | by eapply dirs_added_denied | |].
  - intros q i _. apply Hda.
  - rewrite (dirs_added_log_names dir w w'); [set_solver | done].
Qed.

Lemma touched_set_now t w : touched ∅ w (set_now t w).
Proof. split; [apply wf_world_set_now | done | done | set_solver]. Qed.

(** A write to an open file touches nothing the processes count on. *)
Lemma touched_writes w w' : writes w w' → touched ∅ w w'.
Proof.
  intros [h Hfile]. pose proof (of_tree _ _ _ Hfile) as Htree.
  split; [by apply (only_file_wf h) | apply Hfile | by rewrite Htree |].
  rewrite Htree. set_solver.
Qed.

(** A turn of the loop on an entry of the directory with the prefix. *)
Lemma touched_unlink w n :
  starts_with n prefix = true → touched ∅ w (unlink_or_warn w (n :: dir)).
Proof.
  intros Hn. split.
  - apply unlink_or_warn_wf.
  - apply unlink_or_warn_denied.
  - intros q i Hq Hi. rewrite unlink_or_warn_lookup, decide_False; [done|].
    intros [-> _]. specialize (Hq n eq_refl). congruence.
  - rewrite unlink_or_warn_tree. case_decide; [|set_solver].
    rewrite log_names_delete. set_solver.
Qed.

(** The file a process creates is the one log file it may add. *)
Lemma touched_file_create q w r w' :
  file_create q w = (Returned r, w') →
  ∃ extra, touched extra w w' ∧ (size extra ≤ 1)%nat.
Proof.
  intros Hrun.
  pose proof (hoare_run _ _ _ _ _ _ (file_create_total w q) eq_refl Hrun) as Hpost.
  destruct r as [f|e]; simpl in Hpost;
    [|subst; exists ∅; split; [apply touched_refl | by rewrite size_empty; lia]].
  destruct Hpost as (Htree & _ & _ & Hden & _ & _ & Hold & (n & d & -> & _) & Hwf).
  exists {[n]}. split; [|by rewrite size_singleton]. split; [done | done | |].
  - intros q i _ Hi. rewrite Htree, lookup_insert. case_decide; [|done].
    subst. destruct Hold; congruence.
  - intros m. rewrite elem_of_union, !elem_of_log_names, Htree, elem_of_singleton.
    setoid_rewrite lookup_insert_Some. naive_solver.
Qed.

Lemma visible_logs_entries w :
  Forall (λ e, ∃ n, dent_path e = n :: dir ∧ starts_with n prefix = true)
         (visible_logs w dir prefix).
Proof.
  apply Forall_forall. intros e. unfold visible_logs.
  repeat case_match; try (by intros ?%elem_of_nil).
  intros (name & ino & -> & _ & Hname)%elem_of_sorted_logs. by exists name.
Qed.

(** The range of line 36 holds indices of the list only. *)
Lemma loop_entry_ok logs :
  Forall (λ e, ∃ n, dent_path e = n :: dir ∧ starts_with n prefix = true) logs →
  proc_ok (loop_entry logs (coerce_max max)).
Proof.
  intros Hlogs. unfold loop_entry. case_decide; [|done]. split; [|done].
  apply Forall_forall. intros i Hi%elem_of_range.
  pose proof (attempts_le (length logs) (coerce_max max) (coerce_max_pos max)) as Hle.
  unfold attempts in Hle. rewrite decide_True in Hle by done. lia.
Qed.

(** One call of a process at a sound point: the process is at a sound
    point again, and the world is touched by at most the one log file the
    process was still to create. *)
Lemma proc_step_sound p w :
  proc_ok p →
  ∃ extra, proc_ok (proc_step p w).1 ∧ touched extra w (proc_step p w).2 ∧
           (size extra + weight (proc_step p w).1 ≤ weight p)%nat.
Proof.
  intros Hp. proc_cases p; unfold stage.
  - destruct (create_dir_all_run w dir) as (r & w' & -> & Hda & Hwf).
    exists ∅. split_and!; [by destruct r | | destruct r; weigh].
    apply touched_dirs_added; [done | apply Hwf].
  - rewrite scan_logs_run. exists ∅.
    split_and!; [apply loop_entry_ok, visible_logs_entries | apply touched_refl | weigh].
  - exists ∅. split_and!; [done | apply touched_refl | weigh].
  - destruct Hp as [[Hi Htodo]%Forall_cons Hlogs].
    destruct (lookup_lt_is_Some_2 logs i Hi) as [e He].
    rewrite (remove_log_run logs i e w He). exists ∅.
    destruct (proj1 (Forall_forall _ _) Hlogs e) as (n & -> & Hn);
      [by eapply list_elem_of_lookup_2|].
    split_and!; [done | by apply touched_unlink | weigh].
  - rewrite timestamp_run. exists ∅. split_and!; [done | apply touched_refl | weigh].
  - destruct (file_create_total w (path_join dir (log_file_name prefix time)) w eq_refl)
      as (r & w' & Hrun & _). rewrite Hrun.
    destruct (touched_file_create _ _ _ _ Hrun) as (extra & Ht & Hsize).
    exists extra. split_and!; [by destruct r | done | destruct r; weigh].
  - exists ∅. split_and!; [done | apply touched_refl | weigh].
  - done.
Qed.

(** What a call of a process inside [new] does to the files. The call
    that returns the writer is the one of line 49: the path of the new
    file leads to the file of the writer, which was there or is new, and
    is empty. Every other call leaves the contents of all files alone and
    makes no path lead to a file. No call gives out a number in use. *)
Lemma proc_step_files p w :
  proc_ok p → final p = false →
  (w_next_ino w ≤ w_next_ino (proc_step p w).2)%N ∧
  match (proc_step p w).1 with
  | Finished (Ok wr) =>
      ∃ time, p = AtCreate time ∧
        let q := path_join dir (log_file_name prefix time) in
        w_tree (proc_step p w).2 = <[q := IFile (handle wr)]> (w_tree w) ∧
        w_data (proc_step p w).2 = <[handle wr := []]> (w_data w) ∧
        sink wr = BufWriter_new (mkFile (handle wr) 0) ∧
        (w_tree w !! q = Some (IFile (handle wr)) ∨
         w_tree w !! q = None ∧ handle wr = w_next_ino w) ∧
        (wf_world w → (handle wr < w_next_ino (proc_step p w).2)%N)
  | _ =>
      w_data (proc_step p w).2 = w_data w ∧
      ∀ q h, w_tree (proc_step p w).2 !! q = Some (IFile h) →
             w_tree w !! q = Some (IFile h)
  end.
Proof.
  intros Hp Hfinal. proc_cases p; unfold stage; try done.
  - destruct (create_dir_all_run w dir) as (r & w' & -> & Hda & _). simpl.
    rewrite (dirs_added_data dir w w'), (dirs_added_next_ino dir w w') by done.
    assert (∀ q h, w_tree w' !! q = Some (IFile h) → w_tree w !! q = Some (IFile h))
      by (by intros q h [?|[? _]]%(da_new _ _ _ Hda)).
    by destruct r.
  - rewrite scan_logs_run. split; [done|]. unfold loop_entry. by case_decide.
  - destruct Hp as [[Hi _]%Forall_cons _].
    destruct (lookup_lt_is_Some_2 logs i Hi) as [e He].
    rewrite (remove_log_run logs i e w He). simpl.
    rewrite unlink_or_warn_data, unlink_or_warn_next_ino. split_and!; [done..|].
    intros q h. rewrite unlink_or_warn_lookup. by case_decide.
  - destruct (file_create _ w) as [[[f|e]|msg] w'] eqn:Hrun; simpl.
    + destruct (file_create_files _ _ _ _ Hrun)
        as (Hnext & Htree & Hdata & Hpos & Hwas & Hino).
      split; [done|]. exists time. split_and!; [done..| | done | done].
      unfold BufWriter_new. f_equal. destruct f. by simplify_eq/=.
    + by destruct (file_create_files _ _ _ _ Hrun) as [_ ->].
    + destruct (file_create_total w (path_join dir (log_file_name prefix time)) w eq_refl)
        as (? & ? & ? & _). congruence.
Qed.

(** ** The local variables of a process *)

Lemma visible_logs_typed w :
  Forall (λ e, ∃ n, e = log_entry dir n ∧ starts_with n prefix = true)
         (visible_logs w dir prefix) ∧
  StronglySorted by_file_name (visible_logs w dir prefix).
Proof.
  unfold visible_logs. repeat case_match; try (split; constructor).
  split; [|apply sorted_logs_sorted]. apply Forall_forall.
  intros e (name & ino & -> & _ & Hname)%elem_of_sorted_logs. by exists name.
Qed.

(** The range of line 36 ends before the last [max - 1] entries. *)
Lemma loop_entry_typed logs :
  Forall (λ e, ∃ n, e = log_entry dir n ∧ starts_with n prefix = true) logs →
  StronglySorted by_file_name logs →
  typed (loop_entry logs (coerce_max max)).
Proof.
  intros Hlogs Hsorted. unfold loop_entry. case_decide as Hmax; [|done].
  split_and!; [done | done | apply range_sorted|].
  apply Forall_forall. intros i Hi%elem_of_range.
  pose proof (usize_sub_below (N.of_nat (length logs)) (coerce_max max) Hmax).
  pose proof (usize_add_le (usize_sub (N.of_nat (length logs)) (coerce_max max)) 1).
  lia.
Qed.

(** Every call of a process leaves its local variables as the code
    computes them. *)
Lemma proc_step_typed p w : typed p → typed (proc_step p w).1.
Proof.
  intros Hp. destruct p as [| |logs [|i todo]| |time|r|msg]; cbn [proc_step]; try done.
  - unfold stage. by destruct (create_dir_all_run w dir) as ([[]|e] & w' & -> & _).
  - unfold stage. rewrite scan_logs_run. apply loop_entry_typed; apply visible_logs_typed.
  - destruct Hp as (Hlogs & Hsorted & [Hi Htodo]%StronglySorted_inv & [Hb Hbound]%Forall_cons).
    pose proof (coerce_max_pos max).
    destruct (lookup_lt_is_Some_2 logs i) as [e He]; [lia|].
    unfold stage. by rewrite (remove_log_run logs i e w He).
  - unfold stage. rewrite timestamp_run. by eexists.
  - unfold stage. destruct (file_create _ w) as [[[f|e]|msg] w'] eqn:Hrun; simpl; [|done|].
    + destruct (file_create_files _ _ _ _ Hrun) as (_ & _ & _ & Hpos & _).
      destruct f; simpl in *. by subst.
    + destruct (file_create_total w (path_join dir (log_file_name prefix time)) w eq_refl)
        as (? & ? & ? & _). congruence.
Qed.

Lemma run_proc_sound n p w :
  proc_ok p →
  proc_ok (run_proc n p w).1 ∧ ∃ extra, touched extra w (run_proc n p w).2.
Proof.
  revert p w. induction n as [|n IH]; intros p w Hp; simpl.
  { split; [done|]. exists ∅. apply touched_refl. }
  destruct (proc_step_sound p w Hp) as (extra & Hok & Ht & _).
  destruct (proc_step p w) as [p' w']. simpl in *.
  destruct (IH p' w' Hok) as [Hok' [extra' Ht']]. split; [done|].
  exists (extra ∪ extra'). by eapply touched_trans.
Qed.

End calls.

(** ** Every interleaving *)

Section interleaved.
Implicit Types (s : list proc * world) (acts : list action).

Lemma unfinished_insert ps i p p' :
  ps !! i = Some p →
  (unfinished (<[i := p']> ps) + weight p = unfinished ps + weight p')%nat.
Proof.
  unfold unfinished. revert i. induction ps as [|p0 ps IH]; intros [|i] Hi;
    simplify_eq/=; [lia|]. specialize (IH i Hi). lia.
Qed.

Lemma unfinished_started k : unfinished (started k) = k.
Proof. unfold unfinished, started. rewrite fmap_replicate, sum_list_replicate.
  change (weight AtCreateDir) with 1%nat. lia.
Qed.

Lemma started_ok k : Forall proc_ok (started k).
Proof. by apply Forall_replicate. Qed.

Lemma size_union_le (X Y : gset string) : (size (X ∪ Y) ≤ size X + size Y)%nat.
Proof.
  rewrite size_union_alt.
  pose proof (subseteq_size (Y ∖ X) Y ltac:(set_solver)). lia.
Qed.

(** Whatever the environment does, every process stays at a sound
    point: what makes a point sound is local to the process. *)
Lemma race_ok_step s s' : race_step s s' → Forall proc_ok s.1 → Forall proc_ok s'.1.
Proof.
  intros [ps w t | ps w w' Henv | ps w i p p' w' Hi Hcall] Hok; simpl in *;
    [done | done |].
  destruct (proc_step_sound p w) as (extra & Hok' & _); [by eapply Forall_lookup_1|].
  rewrite Hcall in Hok'. by apply Forall_insert.
Qed.

Lemma race_ok_rtc s s' : rtc race_step s s' → Forall proc_ok s.1 → Forall proc_ok s'.1.
Proof. induction 1; [done | eauto using race_ok_step]. Qed.

Lemma race_typed_step s s' : race_step s s' → Forall typed s.1 → Forall typed s'.1.
Proof.
  intros [ps w t | ps w w' _ | ps w i p p' w' Hi Hcall]; [done..|]. simpl. intros Hps.
  apply Forall_insert; [done|]. pose proof (proc_step_typed p w) as Hp.
  rewrite Hcall in Hp. by eapply Hp, Forall_lookup_1.
Qed.

Lemma race_typed_rtc s s' : rtc race_step s s' → Forall typed s.1 → Forall typed s'.1.
Proof. induction 1; eauto using race_typed_step. Qed.

Lemma race_inv_refl s : Forall proc_ok s.1 → race_inv s s.
Proof. intros Hok. split; [done | exists ∅; apply touched_refl | done]. Qed.

(** A step that touches the world and adds no log file keeps the count. *)
Lemma race_inv_touched s0 ps w w' :
  touched ∅ w w' → race_inv s0 (ps, w) → race_inv s0 (ps, w').
Proof.
  intros Ht' [Hok [extra Ht] Hcount]. split; simpl in *; [done | |].
  - exists (extra ∪ ∅). by eapply touched_trans.
  - pose proof (subseteq_size _ _ (to_logs _ _ _ Ht')).
    rewrite (right_id_L ∅ (∪)) in *. lia.
Qed.

Section quiet.

(** The environment adds no log file, keeps the world well formed, and
    removes nothing that is not a log file. *)
Hypothesis env_touched : ∀ w w', env w w' → touched ∅ w w'.

(** The invariant survives a tick of the clock, a step of such an
    environment and a call of any process. *)
Lemma race_inv_step s0 s s' : race_inv s0 s → race_step s s' → race_inv s0 s'.
Proof.
  intros Hinv Hstep. revert Hinv.
  destruct Hstep as [ps w t | ps w w' Henv | ps w i p p' w' Hi Hcall];
    [apply race_inv_touched, touched_set_now | by apply race_inv_touched, env_touched |].
  intros [Hok [extra Ht] Hcount]; simpl in *.
  destruct (proc_step_sound p w) as (extra' & Hok' & Ht' & Hw);
    [by eapply Forall_lookup_1|].
  rewrite Hcall in *. simpl in *. split; simpl.
  - by apply Forall_insert.
  - exists (extra ∪ extra'). by eapply touched_trans.
  - pose proof (unfinished_insert ps i p p' Hi).
    pose proof (subseteq_size _ _ (to_logs _ _ _ Ht')).
    pose proof (size_union_le (log_names (w_tree w) dir prefix) extra'). lia.
Qed.

Lemma race_inv_rtc s0 s : rtc race_step s0 s → Forall proc_ok s0.1 → race_inv s0 s.
Proof.
  intros Hsteps Hok. revert s Hsteps. apply rtc_ind_r; [by apply race_inv_refl|].
  intros s1 s2 _ Hstep IH. by eapply race_inv_step.
Qed.

End quiet.

(** A schedule is an interleaving. *)
Lemma act_race a s : rtc race_step s (act a s).
Proof.
  destruct s as [ps w], a as [t|i]; simpl; [apply rtc_once, race_tick|].
  destruct (ps !! i) as [p|] eqn:Hi; [|done].
  destruct (proc_step p w) as [p' w'] eqn:Hcall. by eapply rtc_once, race_call.
Qed.

Lemma exec_race acts s : rtc race_step s (exec acts s).
Proof.
  revert s. induction acts as [|a acts IH]; intros s; [done|].
  etrans; [apply (act_race a)|apply IH].
Qed.

(** *** Interleavings end *)

(** One position of a list moves down a relation. *)
Definition list_step {A} (R : relation A) (l' l : list A) : Prop :=
  ∃ i x x', l !! i = Some x ∧ R x' x ∧ l' = <[i := x']> l.

Lemma Acc_list_step_cons {A} (R : relation A) x l :
  Acc R x → Acc (list_step R) l → Acc (list_step R) (x :: l).
Proof.
  intros Hx. revert l. induction Hx as [x Hx IHx]. intros l Hl.
  induction Hl as [l Hl IHl]. constructor.
  intros l' (i & y & y' & Hi & HR & ->). destruct i as [|i]; simplify_eq/=.
  - apply IHx; [done | by constructor].
  - apply IHl. by exists i, y, y'.
Qed.

Lemma list_step_wf {A} (R : relation A) : well_founded R → well_founded (list_step R).
Proof.
  intros HR l. induction l as [|x l IH]; [|by apply Acc_list_step_cons].
  constructor. by intros l' (i & y & y' & Hi & _).
Qed.

Lemma race_busy_wf : well_founded busy_step.
Proof.
  apply (wf_projected (list_step next) fst); [|apply list_step_wf, next_wf].
  intros [ps' w'] [ps w] (i & p & Hi & Hp & Hact). simpl in *.
  rewrite Hi in Hact. destruct (proc_step p w) as [p' w1] eqn:Hcall.
  simplify_eq. exists i, p, p'. split_and!; [done | | done].
  split; [done|]. exists w. by rewrite Hcall.
Qed.

(** *** Interleavings can be brought to an end *)

(** From every state the processes that are still in [new] can make
    their calls, in some order, until none is left in [new]. *)
Lemma exec_ends s : ∃ acts, Forall (λ p, final p = true) (exec acts s).1.
Proof.
  induction (race_busy_wf s) as [s _ IH].
  destruct (decide (Forall (λ p, final p = true) s.1)) as [Hall|Hsome];
    [by exists []|].
  apply not_Forall_Exists, Exists_exists in Hsome as (p & Hin & Hp); [|apply _].
  apply list_elem_of_lookup in Hin as [i Hi]. apply not_true_is_false in Hp.
  destruct (IH (act (Call i) s)) as [acts Hacts]; [by exists i, p|].
  by exists (Call i :: acts).
Qed.

End interleaved.

End race.

(** ** Two processes on the directory of the examples

    The directory holds the log files of 1, 2 and 3 January; the clock
    shows 4 January, 09:05:06. Two processes enter [new] together and
    take turns, call by call. *)

Definition example_later : DateTime := mkDateTime 2024 1 4 9 5 7.

(** With a limit of 4 each process has four calls to make; the clock
    moves on between the two readings of it. *)
Definition example_turns : list action :=
  [Call 0; Call 1; Call 0; Call 1; Call 0; Tick example_later; Call 1;
   Call 0; Call 1].

Definition example_under_pruned : list proc * world :=
  exec 4 example_dir "app" example_turns (started 2, example_world).

(** The same two processes one after the other: the second enters [new]
    in the world the first has left, a second later. *)
Definition example_one_by_one : world :=
  (new 4 example_dir "app"
       (set_now example_later (new 4 example_dir "app" example_world).2)).2.

(** With a limit of 3 each process has a file to remove, and six calls to
    make. *)
Definition example_long_turns : list action :=
  [Call 0; Call 1; Call 0; Call 1; Call 0; Call 1; Call 0; Call 1; Call 0;
   Tick example_later; Call 1; Call 0; Call 1].

Definition example_removed_twice : list proc * world :=
  exec 3 example_dir "app" example_long_turns (started 2, example_world).

(** The same turns within one second. *)
Definition example_shared : list proc * world :=
  exec 3 example_dir "app" (concat (replicate 6 [Call 0; Call 1]))
       (started 2, example_world).

Definition example_other_line : bytes := [Byte.x6f; Byte.x6b; Byte.x0a].

(** A process constructs its writer with a limit of 1 and keeps running;
    a second later another process does the same. *)
Definition example_second_start : world :=
  (new 1 example_dir "app"
       (set_now example_later (new 1 example_dir "app" example_world).2)).2.

(** ** Properties of a process alone *)

(** C11: cutting [new] at its calls loses nothing. A process
    that makes the calls of [proc_step] one after the other, with nothing
    in between, leaves [new] after finitely many of them, with the result
    of [new] (the writer, the error, or the panic) and in the world [new]
    leaves; further calls change nothing. *)
Theorem alone_is_new (max : N) (dir : path) (prefix : string) (w : world) :
  ∃ n, ∀ k, (n ≤ k)%nat →
    run_proc max dir prefix k AtCreateDir w =
      (ended (new max dir prefix w).1, (new max dir prefix w).2).
Proof.
  destruct (new_as_run max dir prefix w) as (n & Hn & -> & ->). exists n.
  intros k Hk. replace k with (n + (k - n))%nat by lia.
  by rewrite run_proc_add, run_proc_final.
Qed.

Lemma alone_is_new_witness :
  ∃ n, ∀ k, (n ≤ k)%nat →
    run_proc 2 example_dir "app" k AtCreateDir example_world =
      (ended (new 2 example_dir "app" example_world).1,
       (new 2 example_dir "app" example_world).2).
Proof. apply alone_is_new. Defined.

(** [new] takes a well-formed world to a well-formed
    world, in every world and whatever it returns, and the world is well
    formed after each of its calls, not only at the end: every entry of
    the tree stays below a directory and every regular file keeps
    contents, also when the directory cannot be listed, a removal is
    refused or the file cannot be created. *)
Theorem new_keeps_wf (max : N) (dir : path) (prefix : string) (w : world)
    (n : nat) :
  wf_world w →
  wf_world (run_proc max dir prefix n AtCreateDir w).2 ∧
  wf_world (new max dir prefix w).2.
Proof.
  intros Hwf. destruct (new_as_run max dir prefix w) as (k & _ & _ & ->).
  destruct (run_proc_sound max dir prefix n AtCreateDir w I) as [_ [extra Ht]].
  destruct (run_proc_sound max dir prefix k AtCreateDir w I) as [_ [extra' Ht']].
  split; [by apply (to_wf _ _ _ _ _ Ht) | by apply (to_wf _ _ _ _ _ Ht')].
Qed.

Lemma new_keeps_wf_witness :
  wf_world (run_proc 2 example_dir "app" 3 AtCreateDir example_denied_world).2 ∧
  wf_world (new 2 example_dir "app" example_denied_world).2.
Proof. apply new_keeps_wf. compute_done. Defined.

(** ** Properties of every interleaving *)

(** C13: when any number of processes enter [new]
    together, with the same limit, directory and prefix, no interleaving
    of their calls, no change of the clock and nothing the rest of the
    system does to the world in between makes one of them panic: the
    list of line 32 belongs to the process, so the indices of line 36
    stay valid whatever is removed, created or written in the meantime. *)
Theorem race_never_panics (env : relation world) (max : N) (dir : path)
    (prefix : string) (k : nat) (w : world) (s' : list proc * world) :
  rtc (race_step env max dir prefix) (started k, w) s' →
  Forall (λ p, ∀ msg, p ≠ Crashed msg) s'.1.
Proof.
  intros Hsteps. pose proof (race_ok_rtc _ _ _ _ _ _ Hsteps (started_ok _ _ k)) as Hok.
  eapply Forall_impl; [exact Hok|]. by intros p Hp msg ->.
Qed.

(** C27: whatever the interleaving and whatever else
    runs on the machine, the local variables of every process are what
    the code computes. In the loop of line 36 the list holds entries of
    regular files of the directory whose names start with the prefix,
    sorted by name; the indices still to visit increase, and each index
    [i] has [i + max <= len] for the coerced limit: the loop never
    reaches the last [max - 1] entries, the newest by name. The name of
    the new file is built from a text of the clock, and the writer
    returned is an empty buffer on a handle at offset zero. *)
Theorem race_points_typed (env : relation world) (max : N) (dir : path)
    (prefix : string) (k : nat) (w : world) (s' : list proc * world) :
  rtc (race_step env max dir prefix) (started k, w) s' →
  Forall (typed max dir prefix) s'.1.
Proof.
  intros Hsteps. apply (race_typed_rtc _ _ _ _ _ _ Hsteps).
  by apply Forall_replicate.
Qed.

(** C33: whatever the interleaving, a path that is
    not an entry of the directory with a name that starts with the prefix
    leads after the race where it led before: the processes remove
    nothing but log files of the directory, and creating the files of
    this run replaces nothing. The environment may write to files in
    between; it is assumed to leave the tree as it is. *)
Theorem race_removes_only_logs (env : relation world) (max : N) (dir : path)
    (prefix : string) (k : nat) (w : world) (s' : list proc * world) (q : path)
    (i : inode) :
  (∀ w1 w2, env w1 w2 → touched dir prefix ∅ w1 w2) →
  rtc (race_step env max dir prefix) (started k, w) s' →
  foreign dir prefix q → w_tree w !! q = Some i → w_tree s'.2 !! q = Some i.
Proof.
  intros Henv Hsteps.
  destruct (race_inv_rtc _ _ _ _ Henv _ _ Hsteps (started_ok _ _ k)) as [_ [extra Ht] _].
  apply (to_foreign _ _ _ _ _ Ht).
Qed.

(** C32: a race of [k] processes leaves at most [k] log
    files more than there were: each process creates one file at most.
    Nothing brings the number down to [max]: that bound holds for
    processes that start one after the other only. The environment may
    write to files in between; it is assumed to create none. *)
Theorem race_adds_one_each (env : relation world) (max : N) (dir : path)
    (prefix : string) (k : nat) (w : world) (s' : list proc * world) :
  (∀ w1 w2, env w1 w2 → touched dir prefix ∅ w1 w2) →
  rtc (race_step env max dir prefix) (started k, w) s' →
  (size (log_names (w_tree s'.2) dir prefix) ≤
   size (log_names (w_tree w) dir prefix) + k)%nat.
Proof.
  intros Henv Hsteps.
  destruct (race_inv_rtc _ _ _ _ Henv _ _ Hsteps (started_ok _ _ k)) as [_ _ Hcount].
  simpl in Hcount. rewrite unfinished_started in Hcount. lia.
Qed.

(** C29: no interleaving goes on for ever. In a system of
    any number of processes, the relation "a process that is still in
    [new] makes its next call" is well founded: after finitely many calls
    every process has left [new], whatever the order of the calls and
    whatever the scans have found. The measure is the point a process is
    at and, inside the loop, the number of turns left, which every call
    brings down in whatever world it is made. *)
Theorem race_terminates (max : N) (dir : path) (prefix : string) :
  well_founded (busy_step max dir prefix) ∧
  ∀ p w, final p = false →
    slexprod nat nat lt lt (rank (proc_step max dir prefix p w).1) (rank p).
Proof. split; [apply race_busy_wf | apply rank_proc_step]. Qed.

(** C30: a race can always be brought to an end, and it
    ends well. From every state that [k] processes have reached
    together, there is an order in which those still inside [new] make
    their remaining calls, and after it every process has returned from
    [new], with a writer or with an error of the system: none is stuck
    and none has panicked. *)
Theorem race_completes (env : relation world) (max : N) (dir : path)
    (prefix : string) (k : nat) (w : world) (s : list proc * world) :
  rtc (race_step env max dir prefix) (started k, w) s →
  ∃ acts, Forall (λ p, ∃ r, p = Finished r) (exec max dir prefix acts s).1.
Proof.
  intros Hsteps. destruct (exec_ends max dir prefix s) as [acts Hacts].
  exists acts.
  assert (rtc (race_step env max dir prefix) (started k, w)
              (exec max dir prefix acts s))
    as Hall by (etrans; [exact Hsteps | apply exec_race]).
  pose proof (race_ok_rtc _ _ _ _ _ _ Hall (started_ok _ _ k)) as Hok.
  eapply Forall_impl; [apply Forall_and; split; [exact Hacts | exact Hok]|].
  intros [] [Hfinal Hp]; try done. by eexists.
Qed.

Lemma race_completes_witness :
  ∃ acts, Forall (λ p, ∃ r, p = Finished r)
            (exec 3 example_dir "app" acts
               (exec 3 example_dir "app" [Call 0; Call 1; Call 0]
                     (started 2, example_world))).1.
Proof.
  apply (race_completes writes 3 example_dir "app" 2 example_world), exec_race.
Defined.

Lemma race_never_panics_witness :
  Forall (λ p, ∀ msg, p ≠ Crashed msg) example_removed_twice.1.
Proof.
  apply (race_never_panics writes 3 example_dir "app" 2 example_world).
  apply exec_race.
Defined.

Lemma race_points_typed_witness :
  Forall (typed 3 example_dir "app") example_removed_twice.1.
Proof.
  apply (race_points_typed writes 3 example_dir "app" 2 example_world).
  apply exec_race.
Defined.

Lemma race_removes_only_logs_witness :
  w_tree example_removed_twice.2 !! ("other.txt" :: example_dir) = Some (IFile 3).
Proof.
  apply (race_removes_only_logs writes 3 example_dir "app" 2 example_world);
    [apply touched_writes | apply exec_race | by intros n [= <-] | reflexivity].
Defined.

Lemma race_adds_one_each_witness :
  (size (log_names (w_tree example_under_pruned.2) example_dir "app") ≤
   size (log_names (w_tree example_world) example_dir "app") + 2)%nat.
Proof.
  apply (race_adds_one_each writes 4 example_dir "app" 2 example_world);
    [apply touched_writes | apply exec_race].
Defined.

(** ** The races

    Both processes scan before either creates its file: each finds three
    log files, fewer than the limit of 4, and removes none. Both create
    their file, and the directory holds five log files. Had the second
    process started after the first had returned, it would have removed
    the oldest and left four. *)
Example example_race_under_pruned :
  example_under_pruned.1 =
    [Finished (Ok (mkRotatingFileWriter (BufWriter_new (mkFile 5 0))));
     Finished (Ok (mkRotatingFileWriter (BufWriter_new (mkFile 6 0))))] ∧
  sorted_names (log_names (w_tree example_under_pruned.2) example_dir "app") =
    ["app.2024-01-01T00:00:00"; "app.2024-01-02T00:00:00";
     "app.2024-01-03T00:00:00"; "app.2024-01-04T09:05:06";
     "app.2024-01-04T09:05:07"] ∧
  sorted_names (log_names (w_tree example_one_by_one) example_dir "app") =
    ["app.2024-01-02T00:00:00"; "app.2024-01-03T00:00:00";
     "app.2024-01-04T09:05:06"; "app.2024-01-04T09:05:07"].
Proof. split_and!; by vm_compute. Qed.

(** With a limit of 2 and the three log files of the examples, a process
    that has listed the directory is in the loop with the three entries
    in the order of their names and the indices 0 and 1 before it: the
    entry of 3 January, the newest, is out of its reach. *)
Example example_race_in_loop :
  (exec 2 example_dir "app" [Call 0; Call 0] (started 1, example_world)).1 =
  [AtRemove [log_entry example_dir "app.2024-01-01T00:00:00";
             log_entry example_dir "app.2024-01-02T00:00:00";
             log_entry example_dir "app.2024-01-03T00:00:00"] [0; 1]%nat].
Proof. vm_compute. reflexivity. Qed.

(** With a limit of 3 both processes find three log files and set out to
    remove the oldest. The first removal succeeds; the second finds no
    file, which is logged as a warning and stops nothing. Both create
    their file: four log files are left, one more than the limit. *)
Example example_race_removed_twice :
  example_removed_twice.1 =
    [Finished (Ok (mkRotatingFileWriter (BufWriter_new (mkFile 5 0))));
     Finished (Ok (mkRotatingFileWriter (BufWriter_new (mkFile 6 0))))] ∧
  w_warnings example_removed_twice.2 = [NotFound] ∧
  sorted_names (log_names (w_tree example_removed_twice.2) example_dir "app") =
    ["app.2024-01-02T00:00:00"; "app.2024-01-03T00:00:00";
     "app.2024-01-04T09:05:06"; "app.2024-01-04T09:05:07"].
Proof. split_and!; by vm_compute. Qed.

(** When both processes read the clock within the same second they
    create the same file, and each returns a writer on it at position 0.
    What the first writes and flushes, the second overwrites: the file
    ends up with the line of the second only, although every call has
    reported success. *)
Example example_race_shared_file :
  example_shared.1 = [Finished (Ok example_sink); Finished (Ok example_sink)] ∧
  let first :=
    run_calls [Write_call example_line; Flush_call] (example_sink, example_shared.2) in
  let second :=
    run_calls [Write_call example_other_line; Flush_call]
              (example_sink, first.2.2) in
  first.1 = Returned [Wrote (Ok 3%nat); Flushed (Ok ())] ∧
  on_disk first.2 = example_line ∧
  second.1 = Returned [Wrote (Ok 3%nat); Flushed (Ok ())] ∧
  on_disk second.2 = example_other_line.
Proof. cbv zeta. split_and!; by vm_compute. Qed.

(** A process that is still running is no protection for its file. With
    a limit of 1 the second process removes the file of the first, which
    goes on logging: its writes and flushes report success, and the
    bytes are in a file that no name leads to any more. *)
Example example_live_file_removed :
  (new 1 example_dir "app" example_world).1 = Returned (Ok example_sink) ∧
  sorted_names (log_names (w_tree example_second_start) example_dir "app") =
    ["app.2024-01-04T09:05:07"] ∧
  let first :=
    run_calls [Write_call example_line; Flush_call]
              (example_sink, example_second_start) in
  first.1 = Returned [Wrote (Ok 3%nat); Flushed (Ok ())] ∧
  on_disk first.2 = example_line ∧
  w_tree first.2.2 !! ("app.2024-01-04T09:05:06" :: example_dir) = None.
Proof. cbv zeta. split_and!; by vm_compute. Qed.
