(* ===== verification/Sessions.v ===== *)
(** * Sessions: processes that log while others start

    A process of the application constructs its writer with
    [RotatingFileWriter::new] (src/src/writer.rs, lines 15 to 53), calls
    [write] and [flush] on it (lines 56 to 64) for as long as it runs,
    and ends, which drops the writer. Several such processes share the
    directory: while one logs, another is inside [new], removing old
    files and creating its own.

    This file puts the two halves of writer.rs into one system. A [task]
    is a process inside [new] (at a point of [Race]), a process that
    holds a writer, or one that has ended; [turn] is what one task does
    next ([proc_step] of [Race], a method of the writer, the end of the
    process), and [session_step] lets any task of a list take its turn on
    the world they share. With every task that holds a writer the state
    records the bytes its calls have reported as accepted.

    The theorems say that the writers do not disturb each other: seen
    from the processes inside [new], the calls of the writers are steps
    of an environment that only writes to open files, so what [Race]
    proves of every interleaving holds while the others log; and a writer
    whose file no other task has opened works, and its stream is what its
    calls have reported, whatever the others do in between. Two tasks
    open the same file only when both are constructed within one second;
    the second construction then empties the file of the first
    ([create_empties_same_name]), and the example at the end shows what
    is lost. *)

From stdpp Require Import base tactics option list strings gmap relations.
From S2P Require Import Prelude Clock FileSystem Sink Scanner Pruner Writer.
From S2P Require Import Output Lifecycle Race.

Local Open Scope string_scope.
Local Open Scope io_scope.

(** ** Tasks *)

(** A process of the application: inside [new] at the point [p]; running
    with the writer [wr], whose calls have reported the bytes [acc] as
    accepted so far; or ended, with the writer as the process left it.
    With the writer the state records the text of the time [new] has put
    into the name of its file. *)
Inductive task : Type :=
  | Starting (p : proc)
  | Running (time : string) (wr : RotatingFileWriter) (acc : bytes)
  | Exited (time : string) (wr : RotatingFileWriter) (acc : bytes).

(** The task a process is when a call of [new] has brought it from [p]
    to [p']: with the writer that line 49 returns the process starts to
    run. *)
Definition enter (p p' : proc) : task :=
  match p' with
  | Finished (Ok wr) =>
      match p with
      | AtCreate time => Running time wr []
      | _ => Starting p'
      end
  | _ => Starting p'
  end.

(** The file a task has opened. *)
Definition holds (t : task) : option N :=
  match t with
  | Starting _ => None
  | Running _ wr _ | Exited _ wr _ => Some (handle wr)
  end.

(** The tasks and the world they share. *)
Notation pool := (list task * world)%type (only parsing).

(** What can happen: the clock changes; the task [i] makes its next call
    inside [new]; it calls a method of its writer; it ends; it is
    killed. *)
Inductive move : Type :=
  | Clock (now : DateTime)
  | Construct (i : nat)
  | Method (i : nat) (c : call)
  | Exit (i : nat)
  | Kill (i : nat).

Section sessions.
Context (max : N) (dir : path) (prefix : string).
Implicit Types (t : task) (w : world) (ts : list task) (s : pool) (h : N).

(** One turn of a task. Inside [new] it makes the next call of
    [proc_step]; with a writer it calls [write] or [flush], which adds
    what the call reports to the bytes accepted; it ends and the writer
    is dropped, which writes what waits in the buffer as far as the
    device takes it; or it is killed and the writer stays as it is. *)
Inductive turn : task → world → task → world → Prop :=
  | turn_new p w p' w' :
      final p = false → proc_step max dir prefix p w = (p', w') →
      turn (Starting p) w (enter p p') w'
  | turn_call time wr acc w c r wr' w' :
      run_call c (wr, w) = (Returned r, (wr', w')) →
      turn (Running time wr acc) w (Running time wr' (acc ++ taken c r)) w'
  | turn_exit time wr acc w wr' w' :
      RotatingFileWriter_drop (wr, w) = (Returned (), (wr', w')) →
      turn (Running time wr acc) w (Exited time wr' acc) w'
  | turn_kill time wr acc w :
      turn (Running time wr acc) w (Exited time wr acc) w.

(** A step of the system: the clock changes, or a task takes its turn. *)
Inductive session_step : pool → pool → Prop :=
  | session_tick ts w now : session_step (ts, w) (ts, set_now now w)
  | session_turn ts w i t t' w' :
      ts !! i = Some t → turn t w t' w' →
      session_step (ts, w) (<[i := t']> ts, w').

(** The turn a move asks of a task, when the task can take it. *)
Definition take_turn (m : move) (t : task) (w : world) : option (task * world) :=
  match m, t with
  | Construct _, Starting p =>
      if final p then None
      else let '(p', w') := proc_step max dir prefix p w in Some (enter p p', w')
  | Method _ c, Running time wr acc =>
      match run_call c (wr, w) with
      | (Returned r, (wr', w')) => Some (Running time wr' (acc ++ taken c r), w')
      | (Panicked _, _) => None
      end
  | Exit _, Running time wr acc =>
      match RotatingFileWriter_drop (wr, w) with
      | (Returned _, (wr', w')) => Some (Exited time wr' acc, w')
      | (Panicked _, _) => None
      end
  | Kill _, Running time wr acc => Some (Exited time wr acc, w)
  | _, _ => None
  end.

(** The task a move is about. *)
Definition actor (m : move) : option nat :=
  match m with
  | Clock _ => None
  | Construct i | Method i _ | Exit i | Kill i => Some i
  end.

(** A move on the system; a move that cannot be made leaves it as it is. *)
Definition play (m : move) (s : pool) : pool :=
  match actor m with
  | Some i =>
      match s.1 !! i with
      | Some t =>
          match take_turn m t s.2 with
          | Some r => (<[i := r.1]> s.1, r.2)
          | None => s
          end
      | None => s
      end
  | None =>
      match m with
      | Clock now => (s.1, set_now now s.2)
      | _ => s
      end
  end.

(** A schedule, from its first move. *)
Definition play_all (ms : list move) (s : pool) : pool := foldl (flip play) s ms.

(** The system as [k] processes enter [new]. *)
Definition fresh (k : nat) : list task := replicate k (Starting AtCreateDir).

(** ** What the tasks have in common with the processes of [Race] *)

(** The point of [new] a task is at: a task with a writer has returned
    from [new] with one. *)
Definition at_point (t : task) (p : proc) : Prop :=
  match t with
  | Starting p' => p = p'
  | Running _ _ _ | Exited _ _ _ => ∃ wr, p = Finished (Ok wr)
  end.

(** ** A writer alone on its file *)

(** The path [new] has created the file of a task at. *)
Definition file_of (t : task) : option path :=
  match t with
  | Starting _ => None
  | Running time _ _ | Exited time _ _ =>
      Some (path_join dir (log_file_name prefix time))
  end.

(** No other task of the list has opened the file [h]. *)
Definition unshared (ts : list task) (i : nat) (h : N) : Prop :=
  ∀ j t, j ≠ i → ts !! j = Some t → holds t ≠ Some h.

(** The writer of a task is in order: while the task runs the writer
    works, and its stream is what its calls have reported. *)
Definition in_order (t : task) (w : world) : Prop :=
  match t with
  | Starting _ => True
  | Running _ wr acc => writer_valid (wr, w) ∧ log_stream (wr, w) = acc
  | Exited _ wr acc => log_stream (wr, w) = acc
  end.

(** No file has two names. *)
Definition unlinked (w : world) : Prop :=
  ∀ q q' h, w_tree w !! q = Some (IFile h) → w_tree w !! q' = Some (IFile h) → q = q'.

(** The same, entry by entry, so that a concrete world can be checked
    by evaluation. *)
Definition one_name (q : path) (i : inode) (q' : path) (i' : inode) : Prop :=
  match i with
  | IFile _ => i' = i → q' = q
  | _ => True
  end.

#[export] Instance one_name_dec q i q' i' : Decision (one_name q i q' i').
Proof. unfold one_name. destruct i; apply _. Defined.

Lemma unlinked_alt w :
  unlinked w ↔
    map_Forall (λ q i, map_Forall (one_name q i) (w_tree w)) (w_tree w).
Proof.
  split.
  - intros Hun q i Hq q' i' Hq'. destruct i as [h| |]; simpl; [|done..].
    intros ->. by apply (Hun q' q h).
  - intros Hall q q' h Hq Hq'. by apply (Hall q' _ Hq' q _ Hq).
Qed.

#[export] Instance unlinked_dec w : Decision (unlinked w).
Proof.
  refine (cast_if (decide (map_Forall (λ q i, map_Forall (one_name q i) (w_tree w))
                                      (w_tree w))));
    by rewrite unlinked_alt.
Defined.

(** What holds of every state the system reaches: the world is well
    formed and no file has two names; the files the tasks have opened
    have numbers in use, and no name but the one [new] gave them; the
    tasks inside [new] are at sound points; tasks that have opened the
    same file were given the same name; and the writer of every task that
    is alone on its file is in order. *)
Record session_inv (s : pool) : Prop := mkSessionInv {
  si_wf : wf_world s.2;
  si_links : unlinked s.2;
  si_below : ∀ i t h, s.1 !! i = Some t → holds t = Some h → (h < w_next_ino s.2)%N;
  si_path : ∀ i t h q, s.1 !! i = Some t → holds t = Some h →
    w_tree s.2 !! q = Some (IFile h) → file_of t = Some q;
  si_sound : ∀ i p, s.1 !! i = Some (Starting p) → proc_ok dir prefix p;
  si_same : ∀ i j ti tj h, i ≠ j → s.1 !! i = Some ti → s.1 !! j = Some tj →
    holds ti = Some h → holds tj = Some h → file_of ti = file_of tj;
  si_alone : ∀ i t h,
    s.1 !! i = Some t → holds t = Some h → unshared s.1 i h → in_order t s.2;
}.

(** ** What a turn does *)

Section turns.

(** A task inside [new] is at a sound point. *)
Definition sound t : Prop :=
  match t with
  | Starting p => proc_ok dir prefix p
  | _ => True
  end.

(** What a turn from [t] in [w] to [t'] in [w'] does. It keeps the world
    well formed and gives out no number in use again. It changes the
    contents of no file but the one its task holds afterwards. The task
    keeps the file it held and the name of it. A path that leads to a
    file afterwards led to it before, or the file is new and the path
    the one of the task. A task that has opened a file has opened it at
    the path of its name, and the file was there or is new. A writer in
    order is in order afterwards. *)
Record effect t w t' w' : Prop := mkEffect {
  ef_wf : wf_world w → wf_world w';
  ef_next : (w_next_ino w ≤ w_next_ino w')%N;
  ef_data : ∀ h, (h < w_next_ino w)%N → holds t' ≠ Some h →
              w_data w' !! h = w_data w !! h;
  ef_holds : ∀ h, holds t = Some h → holds t' = Some h ∧ file_of t' = file_of t;
  ef_links : ∀ q h, w_tree w' !! q = Some (IFile h) →
               w_tree w !! q = Some (IFile h) ∨
               h = w_next_ino w ∧ holds t = None ∧ file_of t' = Some q;
  ef_opened : ∀ h, holds t = None → holds t' = Some h →
                (h < w_next_ino w')%N ∧
                ∃ q, file_of t' = Some q ∧ w_tree w' !! q = Some (IFile h) ∧
                     (w_tree w !! q = Some (IFile h) ∨ h = w_next_ino w);
  ef_sound : sound t';
  ef_order : in_order t w → in_order t' w';
}.

(** The order of a writer depends on the contents of its file only. *)
Lemma in_order_data t w w' :
  (∀ h, holds t = Some h → w_data w' !! h = w_data w !! h) →
  in_order t w → in_order t w'.
Proof.
  intros Hdata. assert (∀ wr, holds t = Some (handle wr) →
                          on_disk (wr, w') = on_disk (wr, w)) as Hdisk.
  { intros wr Hwr. unfold on_disk, file_data. simpl. f_equal. by apply Hdata. }
  destruct t as [p|time wr acc|time wr acc]; simpl; [done|..];
    unfold writer_valid, log_stream; by rewrite (Hdisk wr eq_refl).
Qed.

(** A call inside [new] that does not return the writer. *)
Lemma new_effect_on p w p' w' :
  sound (Starting p') → (wf_world w → wf_world w') →
  (w_next_ino w ≤ w_next_ino w')%N → w_data w' = w_data w →
  (∀ q h, w_tree w' !! q = Some (IFile h) → w_tree w !! q = Some (IFile h)) →
  effect (Starting p) w (Starting p') w'.
Proof. intros Hp Hwf Hnext Hdata Hlinks. split; try done; [by rewrite Hdata | auto]. Qed.

(** The call of line 49 when it returns the writer. *)
Lemma new_effect_open time w wr w' :
  let q := path_join dir (log_file_name prefix time) in
  (wf_world w → wf_world w') → (w_next_ino w ≤ w_next_ino w')%N →
  w_tree w' = <[q := IFile (handle wr)]> (w_tree w) →
  w_data w' = <[handle wr := []]> (w_data w) →
  sink wr = BufWriter_new (mkFile (handle wr) 0) →
  (w_tree w !! q = Some (IFile (handle wr)) ∨
   w_tree w !! q = None ∧ handle wr = w_next_ino w) →
  (wf_world w → (handle wr < w_next_ino w')%N) →
  wf_world w →
  effect (Starting (AtCreate time)) w (Running time wr []) w'.
Proof.
  intros q Hwf Hnext Htree Hdata Hsink Hwas Hino Hw. split; try done.
  - intros h _ Hne. rewrite Hdata. apply lookup_insert_ne. simpl in *. congruence.
  - intros q' h. rewrite Htree. intros [[<- [= <-]]|[_ ?]]%lookup_insert_Some; [|by left].
    destruct Hwas as [?|[? ?]]; [by left | by right].
  - intros h _ [= <-]. split; [by apply Hino|]. exists q.
    rewrite Htree, lookup_insert_eq. split_and!; [done | done |].
    destruct Hwas as [?|[_ ?]]; [by left | by right].
  - intros _. simpl. unfold writer_valid, log_stream, on_disk, pending, file_data.
    cbn [fst snd]. rewrite Hsink. simpl. by rewrite Hdata, lookup_insert_eq.
Qed.

Lemma new_effect p w p' w' :
  proc_ok dir prefix p → final p = false → wf_world w →
  proc_step max dir prefix p w = (p', w') →
  effect (Starting p) w (enter p p') w'.
Proof.
  intros Hp Hfinal Hw Hstep.
  destruct (proc_step_sound max dir prefix p w Hp) as (extra & Hok & Ht & _).
  destruct (proc_step_files max dir prefix p w Hp Hfinal) as [Hnext Hfiles].
  rewrite Hstep in *. simpl in *. pose proof (to_wf _ _ _ _ _ Ht) as Hwf.
  destruct p' as [| | | | |[wr|e]|]; try (destruct Hfiles; by apply new_effect_on).
  destruct Hfiles as (time & -> & Htree & Hdata & Hsink & Hwas & Hino).
  by apply new_effect_open.
Qed.

(** A turn of a task with a writer, which stays with its file. *)
Lemma writer_effect time wr acc w t' wr' w' :
  same_file (wr, w) (wr', w') → holds t' = Some (handle wr') →
  file_of t' = file_of (Running time wr acc) →
  (in_order (Running time wr acc) w → in_order t' w') →
  effect (Running time wr acc) w t' w'.
Proof.
  intros [Hh Hfile] Ht' Hname Horder. simpl in *.
  pose proof (of_tree _ _ _ Hfile) as Htree.
  split; [by apply (only_file_wf (handle wr)) | by rewrite (of_next_ino _ _ _ Hfile)
         | | | | done | by destruct t' | done].
  - intros h _ Hne. apply (of_others _ _ _ Hfile). congruence.
  - intros h [= <-]. split; [congruence | done].
  - intros q h. rewrite Htree. by left.
Qed.

Lemma turn_effect t w t' w' :
  turn t w t' w' → sound t → wf_world w → effect t w t' w'.
Proof.
  intros [p w1 p' w1' Hfinal Hstep | time wr acc w1 c r wr' w1' Hrun
         | time wr acc w1 wr' w1' Hrun | time wr acc w1] Ht Hw.
  - by apply new_effect.
  - pose proof (run_call_confined (T := RotatingFileWriter) c (wr, w1)) as Hsame.
    rewrite Hrun in Hsame. apply (writer_effect _ _ _ _ _ wr'); [done..|].
    intros [Hv Hst].
    destruct (run_call_spec (T := RotatingFileWriter) c (wr, w1))
      as (r' & s' & Hrun' & Hv' & _ & Hst'); [exact Hv|].
    rewrite Hrun in Hrun'. by simplify_eq.
  - pose proof (drop_confined (wr, w1)) as Hsame. rewrite Hrun in Hsame.
    apply (writer_effect _ _ _ _ _ wr'); [done..|]. intros [Hv Hst].
    destruct (drop_stream (wr, w1) Hv) as (s' & Hrun' & Hst').
    rewrite Hrun in Hrun'. by simplify_eq.
  - apply (writer_effect _ _ _ _ _ wr); [done.. | by intros [_ Hst]].
Qed.

End turns.

(** ** What every step keeps *)

Section interleaved.

#[export] Instance unshared_dec ts i h : Decision (unshared ts i h) :=
  others_dec (λ t, holds t ≠ Some h) ts i.

(** A file that is unshared after a turn was unshared before it: a task
    keeps the file it holds. *)
Lemma unshared_back ts i t t' j h :
  ts !! i = Some t → (∀ h', holds t = Some h' → holds t' = Some h') →
  unshared (<[i := t']> ts) j h → unshared ts j h.
Proof.
  intros Hi Hholds Hun k tk Hk Htk Hh. pose proof (lookup_lt_Some _ _ _ Hi).
  destruct (decide (k = i)) as [->|Hne]; simplify_eq.
  - by apply (Hun i t' Hk); [rewrite list_lookup_insert_eq | apply Hholds].
  - by apply (Hun k tk Hk); [rewrite list_lookup_insert_ne|].
Qed.

Lemma fresh_inv k w : wf_world w → unlinked w → session_inv (fresh k, w).
Proof.
  intros Hwf Hlinks. split; simpl; [done | done |..]; unfold fresh; intros;
    repeat match goal with
      | H : replicate _ _ !! _ = Some _ |- _ => apply lookup_replicate in H as [? _]
      end; by simplify_eq/=.
Qed.

(** A task of the list after a turn is the one that took the turn or a
    task that was there before. *)
Lemma turn_lookup ts i t' j tj :
  <[i := t']> ts !! j = Some tj → j = i ∧ tj = t' ∨ j ≠ i ∧ ts !! j = Some tj.
Proof. intros [(-> & -> & _) | [Hne Hj]]%list_lookup_insert_Some; auto. Qed.

(** *** A turn of the task [i] *)

Section turn_of.
Context (ts : list task) (w : world) (i : nat) (t t' : task) (w' : world).
Hypothesis Hinv : session_inv (ts, w).
Hypothesis Hi : ts !! i = Some t.
Hypothesis Heff : effect t w t' w'.
Hypothesis Hsound : sound t.

Local Notation ts' := (<[i := t']> ts).

(** A task holds after the turn a file it held before, or one the turn
    has opened. *)
Lemma turn_held j tj h :
  ts' !! j = Some tj → holds tj = Some h →
  (∃ t0, ts !! j = Some t0 ∧ holds t0 = Some h ∧ file_of tj = file_of t0) ∨
  j = i ∧ tj = t' ∧ holds t = None.
Proof.
  intros [[-> ->]|[Hne Hj]]%turn_lookup Hh; [|by eauto].
  destruct (holds t) as [h0|] eqn:Hh0; [left | by right].
  destruct (ef_holds _ _ _ _ Heff h0 Hh0) as [Hh' Hname]. exists t.
  rewrite Hh0. split_and!; [done | congruence | done].
Qed.

Lemma turn_below j tj h :
  ts' !! j = Some tj → holds tj = Some h → (h < w_next_ino w')%N.
Proof.
  intros Hj Hh. pose proof (ef_next _ _ _ _ Heff).
  destruct (turn_held _ _ _ Hj Hh) as [(t0 & Hj0 & Hh0 & _)|(-> & -> & Hnone)].
  - pose proof (si_below _ Hinv _ _ _ Hj0 Hh0). simpl in *. lia.
  - by apply (ef_opened _ _ _ _ Heff).
Qed.

Lemma turn_links : unlinked w'.
Proof.
  intros q q' h Hq Hq'. pose proof (si_wf _ Hinv) as Hwf.
  destruct (ef_links _ _ _ _ Heff _ _ Hq) as [Hold|(-> & _ & Hname)],
           (ef_links _ _ _ _ Heff _ _ Hq') as [Hold'|(Hh & _ & Hname')].
  - by apply (si_links _ Hinv q q' h).
  - pose proof (proj2 (wf_data _ Hwf _ _ Hold)). simpl in *. lia.
  - pose proof (proj2 (wf_data _ Hwf _ _ Hold')). simpl in *. lia.
  - congruence.
Qed.

Lemma turn_path j tj h q :
  ts' !! j = Some tj → holds tj = Some h → w_tree w' !! q = Some (IFile h) →
  file_of tj = Some q.
Proof.
  intros Hj Hh Hq. pose proof (si_wf _ Hinv) as Hwf.
  destruct (turn_held _ _ _ Hj Hh) as [(t0 & Hj0 & Hh0 & ->)|(-> & -> & Hnone)];
    destruct (ef_links _ _ _ _ Heff _ _ Hq) as [Hold|(-> & Hnone' & Hname)];
    try done.
  - by apply (si_path _ Hinv j t0 h).
  - pose proof (si_below _ Hinv _ _ _ Hj0 Hh0). simpl in *. lia.
  - destruct (ef_opened _ _ _ _ Heff h Hnone Hh) as (_ & q0 & Hname & _ & [Hwas| ->]).
    + by rewrite (si_links _ Hinv q q0 h).
    + pose proof (proj2 (wf_data _ Hwf _ _ Hold)). simpl in *. lia.
Qed.

(** The task that has opened a file another task holds was given the
    name of that task. *)
Lemma turn_joined k tk h :
  k ≠ i → ts !! k = Some tk → holds tk = Some h → holds t = None →
  holds t' = Some h → file_of t' = file_of tk.
Proof.
  intros Hne Hk Hh Hnone Hh'.
  destruct (ef_opened _ _ _ _ Heff h Hnone Hh') as (_ & q0 & -> & _ & [Hwas| ->]).
  - symmetry. by apply (si_path _ Hinv k tk h).
  - pose proof (si_below _ Hinv _ _ _ Hk Hh). simpl in *. lia.
Qed.

Lemma turn_same j k tj tk h :
  j ≠ k → ts' !! j = Some tj → ts' !! k = Some tk →
  holds tj = Some h → holds tk = Some h → file_of tj = file_of tk.
Proof.
  intros Hne Hj Hk Hhj Hhk.
  destruct (turn_held _ _ _ Hj Hhj) as [(tj0 & Hj0 & Hhj0 & ->)|(-> & -> & Hnone)],
           (turn_held _ _ _ Hk Hhk) as [(tk0 & Hk0 & Hhk0 & ->)|(-> & -> & Hnone')];
    try done.
  - by apply (si_same _ Hinv j k _ _ h).
  - symmetry. by apply (turn_joined j _ h).
  - by apply (turn_joined k _ h).
Qed.

Lemma turn_alone j tj h :
  ts' !! j = Some tj → holds tj = Some h → unshared ts' j h → in_order tj w'.
Proof.
  intros Hj Hh Hun. pose proof (lookup_lt_Some _ _ _ Hi) as Hlt.
  assert (unshared ts j h) as Hun0
    by (eapply unshared_back; [done | apply Heff | done]).
  apply turn_lookup in Hj as [[-> ->]|[Hne Hj]].
  - apply (ef_order _ _ _ _ Heff).
    destruct (holds t) as [h0|] eqn:Hh0; [|by destruct t].
    assert (h0 = h) as -> by (destruct (ef_holds _ _ _ _ Heff h0 Hh0); congruence).
    by apply (si_alone _ Hinv i t h).
  - eapply in_order_data; [|by apply (si_alone _ Hinv j tj h)].
    intros h' Hh'. simplify_eq.
    apply (ef_data _ _ _ _ Heff); [by apply (si_below _ Hinv j tj)|].
    apply (Hun i); [done|]. by rewrite list_lookup_insert_eq.
Qed.

End turn_of.

(** The invariant survives a change of the clock and a turn of any
    task. *)
Lemma session_inv_step s s' : session_inv s → session_step s s' → session_inv s'.
Proof.
  intros Hinv Hstep. revert Hinv.
  destruct Hstep as [ts w now | ts w i t t' w' Hi Hturn]; intros Hinv.
  { destruct Hinv as [Hwf Hlinks Hbelow Hpath Hsound Hsame Halone].
    split; simpl in *; [by apply wf_world_set_now | done..|].
    intros i t h Hi Hh Hun. eapply in_order_data; [|by eapply Halone]. done. }
  assert (sound t) as Ht by (destruct t; [by eapply (si_sound _ Hinv) | done..]).
  pose proof (turn_effect _ _ _ _ Hturn Ht (si_wf _ Hinv)) as Heff.
  split; simpl.
  - apply (ef_wf _ _ _ _ Heff), Hinv.
  - by eapply turn_links.
  - by eapply turn_below.
  - by eapply turn_path.
  - intros j p [[-> <-]|[Hne Hj]]%turn_lookup;
      [apply (ef_sound _ _ _ _ Heff) | by eapply (si_sound _ Hinv)].
  - by eapply turn_same.
  - by eapply turn_alone.
Qed.

Lemma session_inv_rtc s s' : rtc session_step s s' → session_inv s → session_inv s'.
Proof. induction 1; eauto using session_inv_step. Qed.

(** The files that are unshared at the end of a run were unshared all
    along. *)
Lemma unshared_rtc s s' j h :
  rtc session_step s s' → session_inv s → unshared s'.1 j h → unshared s.1 j h.
Proof.
  induction 1 as [s|s1 s2 s3 Hstep _ IH]; intros Hinv Hun; [done|].
  specialize (IH (session_inv_step _ _ Hinv Hstep) Hun).
  destruct Hstep as [ts w now | ts w i t t' w' Hi Hturn]; [done|].
  assert (sound t) as Ht by (destruct t; [by eapply (si_sound _ Hinv) | done..]).
  eapply unshared_back; [done | apply (turn_effect _ _ _ _ Hturn Ht), Hinv | done].
Qed.

(** *** Seen from [new], the writers are an environment *)

Lemma at_point_enter p p' : at_point (enter p p') p'.
Proof. destruct p' as [| | | | |[wr|e]|]; try done. destruct p; simpl; eauto. Qed.

(** A turn of a task with a writer only writes to an open file, and
    leaves the task where it is for [new]. *)
Lemma turn_writes time wr acc w t' w' p :
  turn (Running time wr acc) w t' w' → at_point (Running time wr acc) p →
  writes w w' ∧ at_point t' p.
Proof.
  intros Hturn Hp. split; [exists (handle wr) | by inversion Hturn].
  inversion Hturn as [| ????? r ?? Hrun | ?????? Hrun |]; subst; [| |done].
  - pose proof (run_call_confined (T := RotatingFileWriter) c (wr, w)) as Hsame.
    rewrite Hrun in Hsame. apply Hsame.
  - pose proof (drop_confined (wr, w)) as Hsame. rewrite Hrun in Hsame. apply Hsame.
Qed.

Lemma session_race s s' ps :
  session_step s s' → Forall2 at_point s.1 ps →
  ∃ ps', rtc (race_step writes max dir prefix) (ps, s.2) (ps', s'.2) ∧
         Forall2 at_point s'.1 ps'.
Proof.
  intros [ts w now | ts w i t t' w' Hi Hturn] Hps; simpl in *.
  { exists ps. split; [apply rtc_once, race_tick | done]. }
  destruct (Forall2_lookup_l _ _ _ _ _ Hps Hi) as (p & Hp & Hat).
  destruct t as [p0|time wr acc|time wr acc]; [| |by inversion Hturn].
  - inversion Hturn as [? ? p' ? Hfinal Hstep| | |]; subst. simpl in Hat. subst.
    exists (<[i := p']> ps). split; [by eapply rtc_once, race_call|].
    apply Forall2_insert; [done | apply at_point_enter].
  - destruct (turn_writes _ _ _ _ _ _ _ Hturn Hat) as [Hw Hat'].
    exists ps. split; [by apply rtc_once, race_env|].
    rewrite <-(list_insert_id ps i p Hp). by apply Forall2_insert.
Qed.

Lemma sessions_race s s' ps :
  rtc session_step s s' → Forall2 at_point s.1 ps →
  ∃ ps', rtc (race_step writes max dir prefix) (ps, s.2) (ps', s'.2) ∧
         Forall2 at_point s'.1 ps'.
Proof.
  intros Hsteps. revert ps.
  induction Hsteps as [s|s1 s2 s3 Hstep _ IH]; intros ps Hps; [by exists ps|].
  destruct (session_race _ _ _ Hstep Hps) as (ps2 & Hrace & Hps2).
  destruct (IH ps2 Hps2) as (ps3 & Hrace' & Hps3).
  exists ps3. split; [by etrans | done].
Qed.

Lemma fresh_started k : Forall2 at_point (fresh k) (started k).
Proof. by apply Forall2_replicate. Qed.

(** *** Schedules *)

(** A move that can be made is a step of the system. *)
Lemma take_turn_turn m t w t' w' : take_turn m t w = Some (t', w') → turn t w t' w'.
Proof.
  destruct m, t; simpl; try done.
  - destruct (final p) eqn:Hp; [done|].
    destruct (proc_step max dir prefix p w) as [p' w1] eqn:Hstep.
    intros [= <- <-]. by apply turn_new.
  - destruct (run_call c (wr, w)) as [[r|msg] [wr' w1]] eqn:Hrun; [|done].
    intros [= <- <-]. by eapply turn_call.
  - destruct (RotatingFileWriter_drop (wr, w)) as [[[]|msg] [wr' w1]] eqn:Hrun; [|done].
    intros [= <- <-]. by apply turn_exit.
  - intros [= <- <-]. apply turn_kill.
Qed.

Lemma play_step m s : rtc session_step s (play m s).
Proof.
  unfold play. destruct s as [ts w]. destruct (actor m) as [i|] eqn:Hm; simpl.
  - destruct (ts !! i) as [t|] eqn:Hi; [|done].
    destruct (take_turn m t w) as [[t' w']|] eqn:Hturn; [|done].
    by eapply rtc_once, session_turn, take_turn_turn.
  - destruct m; try done. apply rtc_once, session_tick.
Qed.

Lemma play_all_steps ms s : rtc session_step s (play_all ms s).
Proof.
  revert s. induction ms as [|m ms IH]; intros s; [done|].
  etrans; [apply (play_step m) | apply IH].
Qed.

End interleaved.

End sessions.

(** ** Two processes on the directory of the examples

    The directory holds the log files of 1, 2 and 3 January and the
    limit is 5: each process has four calls to make inside [new]. *)

Definition example_construct (i : nat) : list move := replicate 4 (Construct i).

(** The second process starts a second after the first; the first logs
    a line. *)
Definition example_apart_before : list task * world :=
  play_all 5 example_dir "app"
    (example_construct 0 ++ [Clock example_later] ++ example_construct 1 ++
     [Method 0 (Write_call example_line)])
    (fresh 2, example_world).

(** Then the second logs a line and flushes. *)
Definition example_apart_after : list task * world :=
  play_all 5 example_dir "app"
    [Method 1 (Write_call example_other_line); Method 1 Flush_call]
    example_apart_before.

(** Then the first flushes and ends. *)
Definition example_apart : list task * world :=
  play_all 5 example_dir "app" [Method 0 Flush_call; Exit 0] example_apart_after.

(** Both processes start within the same second. *)
Definition example_together : list task * world :=
  play_all 5 example_dir "app"
    (example_construct 0 ++ example_construct 1 ++
     [Method 0 (Write_call example_line); Method 0 Flush_call;
      Method 1 (Write_call example_other_line); Method 1 Flush_call])
    (fresh 2, example_world).

(** The first process has logged a line and flushed it; the second,
    started within the same second, has reached line 49. *)
Definition example_before_second : list task * world :=
  play_all 5 example_dir "app"
    (example_construct 0 ++ [Method 0 (Write_call example_line); Method 0 Flush_call] ++
     replicate 3 (Construct 1))
    (fresh 2, example_world).

(** The writers of the examples: on the file number [ino], with a line
    of three bytes in the buffer, and after the flush. *)
Definition example_buffered (ino : N) (line : bytes) : RotatingFileWriter :=
  mkRotatingFileWriter (mkBufWriter (mkFile ino 0) line 8192).

Definition example_flushed (ino : N) : RotatingFileWriter :=
  mkRotatingFileWriter (mkBufWriter (mkFile ino 3) [] 8192).

(** No file of the world of the examples has two names. *)
Lemma example_world_unlinked : unlinked example_world.
Proof. compute_done. Qed.

(** ** Properties of the sessions *)

(** C14: the calls of the other processes do not
    reach into the file of a writer. In every state that processes which
    construct a writer, call [write] and [flush] on it and end can reach
    together, in whatever order they take their turns, a running process
    whose file no other process has opened has a writer that works (the
    handle is at the end of the file, the buffer within its capacity),
    and the stream of the writer, the bytes in the file followed by the
    bytes in the buffer, is exactly what its calls of [write] have
    reported as accepted, in the order of the calls. *)
Theorem writer_alone_in_order (max : N) (dir : path) (prefix : string) (k : nat)
    (w : world) (s : list task * world) (i : nat) (time : string)
    (wr : RotatingFileWriter) (acc : bytes) :
  wf_world w → unlinked w → rtc (session_step max dir prefix) (fresh k, w) s →
  s.1 !! i = Some (Running time wr acc) → unshared s.1 i (handle wr) →
  writer_valid (wr, s.2) ∧ log_stream (wr, s.2) = acc.
Proof.
  intros Hwf Hlinks Hsteps Hi Hun.
  pose proof (session_inv_rtc _ _ _ _ _ Hsteps (fresh_inv _ _ k w Hwf Hlinks)) as Hinv.
  exact (si_alone _ _ _ Hinv i _ _ Hi eq_refl Hun).
Qed.

Lemma writer_alone_in_order_witness :
  writer_valid (example_flushed 6, example_apart.2) ∧
  log_stream (example_flushed 6, example_apart.2) = example_other_line.
Proof.
  apply (writer_alone_in_order 5 example_dir "app" 2 example_world example_apart 1
           "2024-01-04T09:05:07");
    [apply example_world_wf | apply example_world_unlinked
    | do 2 (etrans; [|apply play_all_steps]); apply play_all_steps
    | by vm_compute | compute_done].
Defined.

(** C20: two processes write to the same file only
    when [new] has given their files the same name, which is the prefix
    followed by the second at which line 46 has read the clock. In every
    state the processes reach, in a world in which no file has two
    names, two of them that hold the same file have the same text of the
    time in the name of their file: processes whose files got different
    names never share a file, whatever is removed and created in
    between. *)
Theorem shared_only_same_name (max : N) (dir : path) (prefix : string) (k : nat)
    (w : world) (s : list task * world) (i j : nat) (ti tj : task) (h : N) :
  wf_world w → unlinked w → rtc (session_step max dir prefix) (fresh k, w) s →
  i ≠ j → s.1 !! i = Some ti → s.1 !! j = Some tj →
  holds ti = Some h → holds tj = Some h →
  file_of dir prefix ti = file_of dir prefix tj.
Proof.
  intros Hwf Hlinks Hsteps Hne Hi Hj Hhi Hhj.
  pose proof (session_inv_rtc _ _ _ _ _ Hsteps (fresh_inv _ _ k w Hwf Hlinks)) as Hinv.
  exact (si_same _ _ _ Hinv i j ti tj h Hne Hi Hj Hhi Hhj).
Qed.

Lemma shared_only_same_name_witness :
  file_of example_dir "app"
    (Running "2024-01-04T09:05:06" (example_flushed 5) example_line) =
  file_of example_dir "app"
    (Running "2024-01-04T09:05:06" (example_flushed 5) example_other_line).
Proof.
  apply (shared_only_same_name 5 example_dir "app" 2 example_world example_together
           0 1 _ _ 5);
    [apply example_world_wf | apply example_world_unlinked | apply play_all_steps
    | done | by vm_compute | by vm_compute | done | done].
Defined.

(** C21: line 49 empties the file of a running
    writer exactly when it creates under the same name. In every state
    the processes reach, take a running process whose file is still in
    the directory under the name [new] gave it, and a construction that
    gets past line 49. When the path it creates is the path of that
    file, it has opened the same file and the file is empty: every byte
    the running process had flushed is gone, while its handle still
    points past them. When the path is another one, the file is another
    one and the contents of the first are what they were. *)
Theorem create_empties_same_name (max : N) (dir : path) (prefix : string) (k : nat)
    (w : world) (s : list task * world) (i : nat) (time time' : string)
    (wr wr' : RotatingFileWriter) (acc : bytes) :
  wf_world w → unlinked w → rtc (session_step max dir prefix) (fresh k, w) s →
  s.1 !! i = Some (Running time wr acc) →
  w_tree s.2 !! path_join dir (log_file_name prefix time) = Some (IFile (handle wr)) →
  (proc_step max dir prefix (AtCreate time') s.2).1 = Finished (Ok wr') →
  (path_join dir (log_file_name prefix time') = path_join dir (log_file_name prefix time) →
   handle wr' = handle wr ∧
   on_disk (wr, (proc_step max dir prefix (AtCreate time') s.2).2) = []) ∧
  (path_join dir (log_file_name prefix time') ≠ path_join dir (log_file_name prefix time) →
   handle wr' ≠ handle wr ∧
   on_disk (wr, (proc_step max dir prefix (AtCreate time') s.2).2) = on_disk (wr, s.2)).
Proof.
  intros Hwf Hlinks Hsteps Hi Hq Hstep.
  pose proof (session_inv_rtc _ _ _ _ _ Hsteps (fresh_inv _ _ k w Hwf Hlinks)) as Hinv.
  destruct (proc_step_files max dir prefix (AtCreate time') s.2) as [_ Hfiles]; [done..|].
  rewrite Hstep in Hfiles. destruct Hfiles as (? & [= <-] & _ & Hdata & _ & Hwas & _).
  unfold on_disk, file_data. cbn [fst snd]. rewrite Hdata.
  change (f_ino (bw_inner (sink wr))) with (handle wr).
  split; intros Hpath.
  - rewrite Hpath in Hwas. destruct Hwas as [Hsame | [Hnone _]]; [|congruence].
    assert (handle wr' = handle wr) as -> by congruence.
    by rewrite lookup_insert_eq.
  - assert (handle wr' ≠ handle wr) as Hne; [|by rewrite lookup_insert_ne].
    destruct Hwas as [Hsame | [_ Hnew]]; intros Heq.
    + rewrite Heq in Hsame. by destruct Hpath; eapply (si_links _ _ _ Hinv).
    + pose proof (si_below _ _ _ Hinv i _ _ Hi eq_refl). lia.
Qed.

Lemma create_empties_same_name_witness :
  (path_join example_dir (log_file_name "app" "2024-01-04T09:05:06") =
   path_join example_dir (log_file_name "app" "2024-01-04T09:05:06") →
   handle (example_buffered 5 []) = handle (example_flushed 5) ∧
   on_disk (example_flushed 5,
            (proc_step 5 example_dir "app" (AtCreate "2024-01-04T09:05:06")
               example_before_second.2).2) = []) ∧
  (path_join example_dir (log_file_name "app" "2024-01-04T09:05:06") ≠
   path_join example_dir (log_file_name "app" "2024-01-04T09:05:06") →
   handle (example_buffered 5 []) ≠ handle (example_flushed 5) ∧
   on_disk (example_flushed 5,
            (proc_step 5 example_dir "app" (AtCreate "2024-01-04T09:05:06")
               example_before_second.2).2) =
     on_disk (example_flushed 5, example_before_second.2)).
Proof.
  apply (create_empties_same_name 5 example_dir "app" 2 example_world
           example_before_second 0 "2024-01-04T09:05:06" "2024-01-04T09:05:06"
           (example_flushed 5) (example_buffered 5 []) example_line);
    [apply example_world_wf | apply example_world_unlinked | apply play_all_steps
    | by vm_compute | by vm_compute | by vm_compute].
Defined.

(** What a process has logged is still there when
    it has ended. When a process has ended or was killed, and no other
    process has opened its file, then in every later state the file
    holds the bytes its calls of [write] had reported as accepted, less
    the bytes that were still in the buffer when the writer was dropped
    or the process killed. *)
Theorem exited_alone_keeps (max : N) (dir : path) (prefix : string) (k : nat)
    (w : world) (s : list task * world) (i : nat) (time : string)
    (wr : RotatingFileWriter) (acc : bytes) :
  wf_world w → unlinked w → rtc (session_step max dir prefix) (fresh k, w) s →
  s.1 !! i = Some (Exited time wr acc) → unshared s.1 i (handle wr) →
  (on_disk (wr, s.2) ++ pending (wr, s.2))%list = acc.
Proof.
  intros Hwf Hlinks Hsteps Hi Hun.
  pose proof (session_inv_rtc _ _ _ _ _ Hsteps (fresh_inv _ _ k w Hwf Hlinks)) as Hinv.
  exact (si_alone _ _ _ Hinv i _ _ Hi eq_refl Hun).
Qed.

Lemma exited_alone_keeps_witness :
  (on_disk (example_flushed 5, example_apart.2) ++
   pending (example_flushed 5, example_apart.2))%list = example_line.
Proof.
  apply (exited_alone_keeps 5 example_dir "app" 2 example_world example_apart 0
           "2024-01-04T09:05:06");
    [apply example_world_wf | apply example_world_unlinked
    | do 2 (etrans; [|apply play_all_steps]); apply play_all_steps
    | by vm_compute | compute_done].
Defined.

(** No other component writes to the file of a
    writer. Between two states of a run in which a process is at the
    same place with the same writer, whatever the other processes have
    done in between (constructed their writers, removed log files,
    written, flushed, ended), the file of the writer has the same
    contents, provided no other process has opened it. *)
Theorem others_keep_file (max : N) (dir : path) (prefix : string) (k : nat)
    (w : world) (s s' : list task * world) (i : nat) (time : string)
    (wr : RotatingFileWriter) (acc : bytes) :
  wf_world w → unlinked w → rtc (session_step max dir prefix) (fresh k, w) s →
  rtc (session_step max dir prefix) s s' →
  s.1 !! i = Some (Running time wr acc) → s'.1 !! i = Some (Running time wr acc) →
  unshared s'.1 i (handle wr) →
  on_disk (wr, s'.2) = on_disk (wr, s.2).
Proof.
  intros Hwf Hlinks Hsteps Hsteps' Hi Hi' Hun'.
  pose proof (session_inv_rtc _ _ _ _ _ Hsteps (fresh_inv _ _ k w Hwf Hlinks)) as Hinv.
  pose proof (session_inv_rtc _ _ _ _ _ Hsteps' Hinv) as Hinv'.
  pose proof (unshared_rtc _ _ _ _ _ _ _ Hsteps' Hinv Hun') as Hun.
  destruct (si_alone _ _ _ Hinv i _ _ Hi eq_refl Hun) as [_ Hst].
  destruct (si_alone _ _ _ Hinv' i _ _ Hi' eq_refl Hun') as [_ Hst'].
  unfold log_stream, pending in *. simpl in *. rewrite <-Hst' in Hst.
  by apply app_inv_tail in Hst.
Qed.

Lemma others_keep_file_witness :
  on_disk (example_buffered 5 example_line, example_apart_after.2) =
  on_disk (example_buffered 5 example_line, example_apart_before.2).
Proof.
  apply (others_keep_file 5 example_dir "app" 2 example_world example_apart_before
           example_apart_after 0 "2024-01-04T09:05:06" _ example_line);
    [apply example_world_wf | apply example_world_unlinked | apply play_all_steps
    | apply play_all_steps | by vm_compute | by vm_compute | compute_done].
Defined.

(** C26: the writers are no part of the race. Every
    run of processes that construct their writer, log and end is, for
    the processes inside [new], a race in an environment that does
    nothing but write to open files: forgetting the writers, every state
    the run reaches is one the race reaches. *)
Theorem sessions_are_races (max : N) (dir : path) (prefix : string) (k : nat)
    (w : world) (s : list task * world) :
  rtc (session_step max dir prefix) (fresh k, w) s →
  ∃ ps, rtc (race_step writes max dir prefix) (started k, w) (ps, s.2) ∧
        Forall2 at_point s.1 ps.
Proof. intros Hsteps. exact (sessions_race _ _ _ _ _ _ Hsteps (fresh_started k)). Qed.

Lemma sessions_are_races_witness :
  ∃ ps, rtc (race_step writes 5 example_dir "app") (started 2, example_world)
            (ps, example_together.2) ∧
        Forall2 at_point example_together.1 ps.
Proof. apply sessions_are_races, play_all_steps. Defined.

(** What holds of the directory in every race
    holds while the processes log. However the processes take their
    turns, constructing, writing, flushing and ending, the directory has
    at most one log file more for each of them, a path that is not a log
    file of the directory leads where it led, and no process has
    panicked inside [new]. *)
Theorem sessions_keep_directory (max : N) (dir : path) (prefix : string) (k : nat)
    (w : world) (s : list task * world) :
  rtc (session_step max dir prefix) (fresh k, w) s →
  (size (log_names (w_tree s.2) dir prefix) ≤
   size (log_names (w_tree w) dir prefix) + k)%nat ∧
  (∀ q i, foreign dir prefix q → w_tree w !! q = Some i → w_tree s.2 !! q = Some i) ∧
  Forall (λ t, ∀ msg, t ≠ Starting (Crashed msg)) s.1.
Proof.
  intros Hsteps.
  destruct (sessions_race _ _ _ _ _ _ Hsteps (fresh_started k)) as (ps & Hrace & Hps).
  destruct (race_inv_rtc _ _ _ _ (touched_writes _ _) _ _ Hrace (started_ok _ _ k))
    as [Hok [extra Ht] Hcount]. simpl in *. rewrite unfinished_started in Hcount.
  split_and!; [lia | apply (to_foreign _ _ _ _ _ Ht) |].
  apply Forall_forall. intros t [i Hi]%list_elem_of_lookup msg ->.
  destruct (Forall2_lookup_l _ _ _ _ _ Hps Hi) as (p & Hp & ->).
  by apply (Forall_lookup_1 _ _ _ _ Hok Hp).
Qed.

Lemma sessions_keep_directory_witness :
  (size (log_names (w_tree example_together.2) example_dir "app") ≤
   size (log_names (w_tree example_world) example_dir "app") + 2)%nat ∧
  (∀ q i, foreign example_dir "app" q → w_tree example_world !! q = Some i →
          w_tree example_together.2 !! q = Some i) ∧
  Forall (λ t, ∀ msg, t ≠ Starting (Crashed msg)) example_together.1.
Proof.
  apply (sessions_keep_directory 5 example_dir "app" 2 example_world example_together).
  apply play_all_steps.
Defined.

(** ** The sessions of the examples

    Started a second apart, the two processes have a file each. Their
    calls take turns, and each file holds the line of its process: the
    first has ended with its line in the file number 5, the second runs
    with its line in the file number 6. *)
Example example_sessions_apart :
  example_apart.1 =
    [Exited "2024-01-04T09:05:06" (example_flushed 5) example_line;
     Running "2024-01-04T09:05:07" (example_flushed 6) example_other_line] ∧
  file_data (mkFile 5 0) example_apart.2 = example_line ∧
  file_data (mkFile 6 0) example_apart.2 = example_other_line ∧
  sorted_names (log_names (w_tree example_apart.2) example_dir "app") =
    ["app.2024-01-01T00:00:00"; "app.2024-01-02T00:00:00";
     "app.2024-01-03T00:00:00"; "app.2024-01-04T09:05:06";
     "app.2024-01-04T09:05:07"].
Proof. split_and!; by vm_compute. Qed.

(** Started within the same second, both processes open the file number
    5. Every call reports success, and the first process has been told
    that its three bytes were accepted; the file holds the line of the
    second only. The writer of the first is not in order, and is not
    alone on its file. *)
Example example_sessions_together :
  example_together.1 =
    [Running "2024-01-04T09:05:06" (example_flushed 5) example_line;
     Running "2024-01-04T09:05:06" (example_flushed 5) example_other_line] ∧
  log_stream (example_flushed 5, example_together.2) = example_other_line ∧
  ¬ unshared example_together.1 0 5.
Proof. split_and!; [by vm_compute | by vm_compute | compute_done]. Qed.
