(* ===== verification/Serial.v ===== *)
(** * Serial: constructions one at a time among running writers

    The retention policy of src/src/writer.rs is stated for one process
    at a time ([Lifecycle]), and [Race] shows that it does not survive
    several processes inside [RotatingFileWriter::new] at once. A
    deployment lies between the two: many processes run and log, and
    now and then one of them starts. This file shows that the processes
    that log do not matter to [new]: the code of [new] (lines 15 to 53)
    reads the tree of the file system and the clock, and a writer
    (lines 56 to 64) changes the contents of its file and the room on
    the device.

    [alike] relates the worlds that differ in nothing but contents and
    room. The calls of the system that [new] makes give the same value
    and worlds that are alike on worlds that are alike ([blind]), and
    all but the reading of the clock commute with a change of the clock
    ([timeless]); both pass through the code of [new] ([Section calls]).
    [due] is what a process inside [new] still owes, and the steps of
    the process, of the writers and of the clock keep it.

    Two theorems follow. A construction that runs while the others
    write ends as [new] ends when it runs without interruption
    ([construction_among_writers]); and when the processes enter [new]
    one at a time ([serial_step]) the directory is within the limit
    in every state, however many writers are open
    ([serial_keeps_limit]). *)

From Stdlib Require Import Ascii.
From stdpp Require Import base tactics option list strings gmap relations.
From S2P Require Import Prelude Clock FileSystem Sink Scanner Pruner Writer.
From S2P Require Import Output Lifecycle Race Sessions.

Local Open Scope string_scope.
Local Open Scope io_scope.

(** ** Worlds that differ in what the writers change *)

(** The worlds [w] and [w'] have the same tree, the same file numbers in
    use, the same refusals, the same clock and the same warnings: they
    differ at most in the contents of files and in the room on the
    device. *)
Record alike (w w' : world) : Prop := mkAlike {
  al_tree : w_tree w' = w_tree w;
  al_next_ino : w_next_ino w' = w_next_ino w;
  al_denied : w_denied w' = w_denied w;
  al_now : w_now w' = w_now w;
  al_warnings : w_warnings w' = w_warnings w;
}.

#[export] Instance alike_equivalence : Equivalence alike.
Proof.
  split; [done | by intros w w' [] | intros w1 w2 w3 [] []]; split; congruence.
Qed.

Lemma writes_alike w w' : writes w w' → alike w w'.
Proof. by intros [h []]. Qed.

Lemma alike_set_now now w w' : alike w w' → alike (set_now now w) (set_now now w').
Proof. by intros []. Qed.

(** A computation on the world that reads neither the contents of files
    nor the room on the device: on worlds that are alike it gives the
    same value and worlds that are alike. *)
Definition blind {X} (f : world → X * world) : Prop :=
  Proper (alike ==> prod_relation (=) alike) f.

(** A computation that does not read the clock: it commutes with a
    change of the clock. *)
Definition timeless {X} (f : world → X * world) : Prop :=
  ∀ now w, f (set_now now w) = ((f w).1, set_now now (f w).2).

(** The two properties hold of a call of the system by evaluation: the
    call is unfolded on worlds given by their fields, and every branch
    is closed. *)
Ltac world_cases :=
  repeat first [progress io_simpl | case_match | case_decide]; simplify_eq/=; try done.

Ltac solve_blind :=
  intros [] [] []; simpl in *; subst; world_cases; by repeat split.

Ltac solve_timeless := intros now []; world_cases.

(** ** What holds of the calls of the system holds of the code *)

(** A property of computations that passes through [ret], [bind] and a
    function applied to the value, and holds of the calls of the system
    that [new] makes, holds of every stage of [new]. *)
Section calls.
Context (P : ∀ X, (world → X * world) → Prop).
Arguments P {_} _.
Hypothesis P_ext : ∀ X (f g : world → X * world), (∀ w, f w = g w) → P f → P g.
Hypothesis P_ret : ∀ A (a : A), P (ret a).
Hypothesis P_panic : ∀ A msg, P (panic (A := A) msg).
Hypothesis P_bind : ∀ A B (c : M world A) (k : A → M world B),
  P c → (∀ a, P (k a)) → P (bind c k).
Hypothesis P_map : ∀ X Y (g : X → Y) (f : world → X * world),
  P f → P (λ w, (g (f w).1, (f w).2)).
Hypothesis P_mkdir : ∀ p, P (mkdir p).
Hypothesis P_is_dir : ∀ p, P (is_dir p).
Hypothesis P_walk_dir : ∀ d, P (walk_dir d).
Hypothesis P_remove_file : ∀ p, P (remove_file p).
Hypothesis P_warn : ∀ e, P (warn e).
Hypothesis P_file_create : ∀ p, P (file_create p).

Ltac calls :=
  repeat lazymatch goal with
  | |- P (bind _ _) => apply P_bind; [|intros ?]
  | |- P (bind_try _ _) => apply P_bind; [|intros [?|?]]
  | |- P (ret _) => apply P_ret
  | |- P (panic _) => apply P_panic
  | |- P (match ?x with _ => _ end) => destruct x
  | |- P (if ?x then _ else _) => destruct x
  | _ => solve [auto]
  end.

Lemma calls_expect {A} (o : option A) msg : P (expect o msg).
Proof. unfold expect. calls. Qed.

Lemma calls_unless_is_dir p e : P (unless_is_dir p e).
Proof. unfold unless_is_dir. calls. Qed.

Lemma calls_create_dir_all p : P (create_dir_all p).
Proof.
  pose proof calls_unless_is_dir.
  induction p as [|n p IH]; simpl; calls.
Qed.

Lemma calls_scan_logs dir prefix : P (scan_logs dir prefix).
Proof. unfold scan_logs. calls. Qed.

Lemma calls_remove_log logs i : P (remove_log logs i).
Proof. pose proof @calls_expect. unfold remove_log, inspect_err. calls. Qed.

Lemma calls_for_each {A} (body : A → M world ()) l :
  (∀ a, P (body a)) → P (for_each body l).
Proof. intros Hbody. induction l as [|a l IH]; simpl; calls. Qed.

Lemma calls_prune_logs logs max : P (prune_logs logs max).
Proof.
  pose proof calls_remove_log. unfold prune_logs. case_decide; [|calls].
  by apply calls_for_each.
Qed.

Lemma calls_open_log p : P (open_log p).
Proof. unfold open_log. calls. Qed.

Lemma calls_stage {A} (c : M world A) (k : A → proc) : P c → P (stage c k).
Proof.
  intros Hc.
  apply (P_ext _ (λ w, (match (c w).1 with Returned a => k a | Panicked msg => Crashed msg end,
                        (c w).2))); [|by apply (P_map _ _ (λ o, match o with
                                                       | Returned a => k a
                                                       | Panicked msg => Crashed msg end))].
  intros w. unfold stage. by destruct (c w) as [[] ?].
Qed.

Lemma calls_pair {X} (x : X) : P (pair x).
Proof.
  apply (P_ext _ (λ w, (x, (ret () w).2))); [done|].
  apply (P_map _ _ (λ _, x)), P_ret.
Qed.

Context (max : N) (dir : path) (prefix : string).

(** Every call of [new] but the reading of the clock. *)
Lemma calls_proc_step p : (p = AtClock → P timestamp) → P (proc_step max dir prefix p).
Proof.
  pose proof calls_create_dir_all. pose proof calls_scan_logs.
  pose proof calls_remove_log. pose proof @calls_pair.
  intros Hclock. destruct p as [| |logs [|i todo]| | | |]; simpl; try apply calls_stage; auto.
Qed.

(** What is left of [new] at a point. *)
Lemma calls_rest_of p : P timestamp → P (rest_of max dir prefix p).
Proof.
  pose proof calls_create_dir_all. pose proof calls_scan_logs.
  pose proof calls_prune_logs. pose proof calls_remove_log. pose proof calls_open_log.
  pose proof @calls_for_each.
  intros Hclock. destruct p; simpl; unfold new; calls.
Qed.

End calls.

(** ** The code of [new] reads the tree and the clock only *)

Section blind.

Lemma blind_ext {X} (f g : world → X * world) : (∀ w, f w = g w) → blind f → blind g.
Proof. intros Hfg Hf w w' Hw. rewrite <-!Hfg. by apply Hf. Qed.

Lemma blind_ret {A} (a : A) : blind (ret a).
Proof. by intros w w' Hw. Qed.

Lemma blind_panic {A} msg : blind (panic (A := A) msg).
Proof. by intros w w' Hw. Qed.

Lemma blind_bind {A B} (c : M world A) (k : A → M world B) :
  blind c → (∀ a, blind (k a)) → blind (bind c k).
Proof.
  intros Hc Hk w w' [Ho Hw]%Hc. unfold bind.
  destruct (c w) as [[a|msg] w1], (c w') as [[a'|msg'] w1']; simplify_eq/=;
    [by apply Hk | done].
Qed.

Lemma blind_map {X Y} (g : X → Y) (f : world → X * world) :
  blind f → blind (λ w, (g (f w).1, (f w).2)).
Proof. intros Hf w w' [Ho Hw]%Hf. split; simpl; [by rewrite Ho | done]. Qed.

Lemma blind_timestamp : blind timestamp.
Proof. unfold timestamp, local_now, expect. solve_blind. Qed.

Lemma blind_system :
  (∀ p, blind (mkdir p)) ∧ (∀ p, blind (is_dir p)) ∧ (∀ d, blind (walk_dir d)) ∧
  (∀ p, blind (remove_file p)) ∧ (∀ e, blind (warn e)) ∧ (∀ p, blind (file_create p)).
Proof.
  unfold mkdir, is_dir, walk_dir, remove_file, warn, file_create.
  split_and!; intros ?; solve_blind.
Qed.

End blind.

Section timeless.

Lemma timeless_ext {X} (f g : world → X * world) :
  (∀ w, f w = g w) → timeless f → timeless g.
Proof. intros Hfg Hf now w. rewrite <-!Hfg. apply Hf. Qed.

Lemma timeless_ret {A} (a : A) : timeless (ret a).
Proof. done. Qed.

Lemma timeless_panic {A} msg : timeless (panic (A := A) msg).
Proof. done. Qed.

Lemma timeless_bind {A B} (c : M world A) (k : A → M world B) :
  timeless c → (∀ a, timeless (k a)) → timeless (bind c k).
Proof.
  intros Hc Hk now w. unfold bind. rewrite Hc.
  destruct (c w) as [[a|msg] w1]; simpl; [apply Hk | done].
Qed.

Lemma timeless_map {X Y} (g : X → Y) (f : world → X * world) :
  timeless f → timeless (λ w, (g (f w).1, (f w).2)).
Proof. intros Hf now w. by rewrite Hf. Qed.

Lemma timeless_system :
  (∀ p, timeless (mkdir p)) ∧ (∀ p, timeless (is_dir p)) ∧ (∀ d, timeless (walk_dir d)) ∧
  (∀ p, timeless (remove_file p)) ∧ (∀ e, timeless (warn e)) ∧
  (∀ p, timeless (file_create p)).
Proof.
  unfold mkdir, is_dir, walk_dir, remove_file, warn, file_create.
  split_and!; intros ?; solve_timeless.
Qed.

(** A computation that does not read the clock does not set it. *)
Lemma timeless_now {X} (f : world → X * world) w :
  timeless f → w_now (f w).2 = w_now w.
Proof.
  intros Hf. pose proof (Hf (w_now w) w) as Hw.
  replace (set_now (w_now w) w) with w in Hw by by destruct w.
  apply (f_equal (λ x, w_now x.2)) in Hw. by rewrite Hw.
Qed.

End timeless.

(** The two properties pass through the code. *)
Ltac lift_blind :=
  pose proof blind_system as (? & ? & ? & ? & ? & ?); intros;
  first [ by eapply blind_ext | apply blind_ret | apply blind_panic | by apply blind_bind
        | by apply blind_map | apply blind_timestamp | done ].

Ltac lift_timeless :=
  pose proof timeless_system as (? & ? & ? & ? & ? & ?); intros;
  first [ by eapply timeless_ext | apply timeless_ret | apply timeless_panic
        | by apply timeless_bind | by apply timeless_map | done ].

Section code.
Context (max : N) (dir : path) (prefix : string).

#[export] Instance proc_step_blind p :
  Proper (alike ==> prod_relation (=) alike) (proc_step max dir prefix p).
Proof. apply (calls_proc_step (@blind)); lift_blind. Qed.

#[export] Instance rest_of_blind p :
  Proper (alike ==> prod_relation (=) alike) (rest_of max dir prefix p).
Proof. apply (calls_rest_of (@blind)); lift_blind. Qed.

Lemma proc_step_timeless p : p ≠ AtClock → timeless (proc_step max dir prefix p).
Proof. intros Hp. apply (calls_proc_step (@timeless)); lift_timeless. Qed.

Lemma open_log_timeless q : timeless (open_log q).
Proof. apply (calls_open_log (@timeless)); lift_timeless. Qed.

End code.

(** ** What a construction still owes *)

Lemma set_now_id w : set_now (w_now w) w = w.
Proof. by destruct w. Qed.

Lemma proc_step_clock max dir prefix w :
  proc_step max dir prefix AtClock w = (AtCreate (timestamp_text (w_now w)), w).
Proof. unfold proc_step, stage. by rewrite timestamp_run. Qed.

(** [G] is a property of what [new] returns and of the world it leaves
    that does not depend on the contents of files, the room on the
    device or the clock, and [ok] the times at which the clock may be
    read. The process at the point [p] in the world [w] owes [G] when
    what is left of [new], run at once at whichever time, ends with
    [G]. *)
Section due.
Context (max : N) (dir : path) (prefix : string).
Context (ok : DateTime → Prop).
Context (G : outcome (result io_error RotatingFileWriter) * world → Prop).
Hypothesis G_alike : ∀ o w w', alike w w' → G (o, w) → G (o, w').
Hypothesis G_set_now : ∀ o w now, G (o, w) → G (o, set_now now w).

Definition due (p : proc) (w : world) : Prop :=
  ∀ now, ok now → G (rest_of max dir prefix p (set_now now w)).

(** The writers write. *)
Lemma due_alike p w w' : alike w w' → due p w → due p w'.
Proof.
  intros Hw Hdue now Hnow. specialize (Hdue now Hnow).
  destruct (rest_of_blind max dir prefix p _ _ (alike_set_now now _ _ Hw)) as [Ho Hw'].
  destruct (rest_of _ _ _ p (set_now now w)) as [o w1],
           (rest_of _ _ _ p (set_now now w')) as [o' w1']. simplify_eq/=. by eapply G_alike.
Qed.

(** The clock moves. *)
Lemma due_tick p w t : due p w → due p (set_now t w).
Proof. intros Hdue now Hnow. by apply Hdue. Qed.

(** The process makes its next call. *)
Lemma due_call p w :
  ok (w_now w) → due p w →
  due (proc_step max dir prefix p w).1 (proc_step max dir prefix p w).2.
Proof.
  intros Hclock Hdue now Hnow.
  assert (p = AtClock ∨ p ≠ AtClock) as [->|Hp] by (destruct p; auto).
  - specialize (Hdue (w_now w) Hclock). rewrite set_now_id in Hdue.
    rewrite <-(proc_step_rest max dir prefix AtClock w) in Hdue.
    rewrite proc_step_clock in *. cbn [fst snd rest_of] in *.
    rewrite open_log_timeless. destruct (open_log _ w) as [o w']. by apply G_set_now.
  - specialize (Hdue now Hnow). rewrite <-proc_step_rest in Hdue.
    by rewrite (proc_step_timeless max dir prefix p Hp) in Hdue.
Qed.

(** A process that has left [new] has paid. *)
Lemma due_final p w :
  final p = true → ok (w_now w) → due p w → ∃ o, ended o = p ∧ G (o, w).
Proof.
  intros Hp Hclock Hdue. specialize (Hdue (w_now w) Hclock). rewrite set_now_id in Hdue.
  pose proof (final_rest max dir prefix p w Hp) as Hrest.
  destruct (rest_of max dir prefix p w) as [o w']. simplify_eq/=. by exists o.
Qed.

End due.

(** ** One construction while the others write *)

Section lone.
Context (env : relation world) (max : N) (dir : path) (prefix : string).
Hypothesis env_alike : ∀ w w', env w w' → alike w w'.
Implicit Types (s : list proc * world) (p : proc) (w : world).

(** The result [res] is what [new] gives when it runs at once in the
    world [w0] at some time, but for the contents of files, the room on
    the device and the clock. *)
Definition as_new (w0 : world)
    (res : outcome (result io_error RotatingFileWriter) * world) : Prop :=
  ∃ now, res.1 = (new max dir prefix (set_now now w0)).1 ∧
         alike (set_now (w_now res.2) (new max dir prefix (set_now now w0)).2) res.2.

Lemma as_new_alike w0 o w w' : alike w w' → as_new w0 (o, w) → as_new w0 (o, w').
Proof.
  intros Hw (now & Ho & Hnew). exists now. split; [done|]. simpl in *.
  rewrite (al_now _ _ Hw). by etrans.
Qed.

Lemma as_new_set_now w0 o w t : as_new w0 (o, w) → as_new w0 (o, set_now t w).
Proof.
  intros (now & Ho & Hnew). exists now. split; [done|]. simpl in *.
  by apply (alike_set_now t) in Hnew.
Qed.

Lemma as_new_start w0 : due max dir prefix (λ _, True) (as_new w0) AtCreateDir w0.
Proof. intros now _. exists now. split; [done|]. by rewrite set_now_id. Qed.

(** The process [i] is the only one inside [new], and owes the result
    of [new] in [w0]. *)
Definition lone_inv (i : nat) (w0 : world) s : Prop :=
  (∀ j p, j ≠ i → s.1 !! j = Some p → final p = true) ∧
  ∃ p, s.1 !! i = Some p ∧ due max dir prefix (λ _, True) (as_new w0) p s.2.

Lemma lone_step i w0 s s' :
  lone_inv i w0 s → race_step env max dir prefix s s' → lone_inv i w0 s'.
Proof.
  intros Hinv Hstep. revert Hinv.
  destruct Hstep as [ps w t | ps w w' Henv | ps w j pj pj' w' Hj Hstep];
    intros [Hothers (p & Hi & Hdue)]; simpl in *.
  - split; [done|]. exists p. split; [done | by apply due_tick].
  - split; [done|]. exists p. split; [done|].
    eapply due_alike; [apply as_new_alike | by apply env_alike | done].
  - destruct (decide (j = i)) as [->|Hne]; simplify_eq.
    + split; simpl;
        [intros k pk Hk; rewrite list_lookup_insert_ne by done; by apply Hothers|].
      exists pj'. split; [apply list_lookup_insert_eq; by eapply lookup_lt_Some|].
      pose proof (due_call max dir prefix _ _ (as_new_set_now w0) pj w I Hdue) as Hdue'.
      rewrite Hstep in Hdue'. exact Hdue'.
    + pose proof (run_proc_final max dir prefix 1 pj w (Hothers j pj Hne Hj)) as Hsame.
      simpl in Hsame. rewrite Hstep in Hsame. simplify_eq.
      rewrite list_insert_id by done. split; [done | by exists p].
Qed.

Lemma lone_rtc i w0 s s' :
  rtc (race_step env max dir prefix) s s' → lone_inv i w0 s → lone_inv i w0 s'.
Proof. induction 1; eauto using lone_step. Qed.

End lone.

(** ** Constructions one at a time *)

(** The task is inside [new]: it has made its first call and has not
    returned. *)
Definition constructing (t : task) : bool :=
  match t with
  | Starting AtCreateDir => false
  | Starting p => negb (final p)
  | _ => false
  end.

Section serial.
Context (max : N) (dir : path) (prefix : string).
Implicit Types (t : task) (w : world) (ts : list task) (s : list task * world).

(** No task but the task [i] is inside [new]. *)
Definition quiet ts (i : nat) : Prop :=
  ∀ j t, j ≠ i → ts !! j = Some t → constructing t = false.

#[export] Instance quiet_dec ts i : Decision (quiet ts i) :=
  others_dec (λ t, constructing t = false) ts i.

(** A step of a system whose processes construct their writers one at a
    time: the clock moves within its range, or a task takes its turn; a
    task takes a turn inside [new] only when no other task is inside
    [new]. The tasks that have their writer write, flush and end as they
    like. *)
Inductive serial_step : list task * world → list task * world → Prop :=
  | serial_tick ts w now :
      valid_datetime now → serial_step (ts, w) (ts, set_now now w)
  | serial_turn ts w i t t' w' :
      ts !! i = Some t → turn max dir prefix t w t' w' →
      (holds t = None → quiet ts i) →
      serial_step (ts, w) (<[i := t']> ts, w').

(** The directory is within the limit, and the system refuses nothing
    in it. *)
Definition within w : Prop :=
  permissive dir w ∧
  (N.of_nat (size (log_names (w_tree w) dir prefix)) ≤ coerce_max max)%N.

(** What a construction owes: it returns, and leaves the directory
    within the limit. *)
Definition promise (res : outcome (result io_error RotatingFileWriter) * world) : Prop :=
  (∃ r, res.1 = Returned r) ∧ within res.2.

(** No task is inside [new], or one task is, alone, and owes the
    limit. *)
Definition idle s : Prop := ∀ i t, s.1 !! i = Some t → constructing t = false.

Definition busy s : Prop :=
  ∃ i p, s.1 !! i = Some (Starting p) ∧ constructing (Starting p) = true ∧
         quiet s.1 i ∧ due max dir prefix valid_datetime promise p s.2.

Record serial_inv s : Prop := mkSerialInv {
  sv_wf : wf_world s.2;
  sv_clock : valid_datetime (w_now s.2);
  sv_sound : ∀ i t, s.1 !! i = Some t → sound dir prefix t;
  sv_within : within s.2;
  sv_phase : idle s ∨ busy s;
}.

(** The moves of [Sessions], made only when the order allows them. *)
Definition allowed (m : move) s : bool :=
  match m with
  | Clock now => bool_decide (valid_datetime now)
  | Construct i => bool_decide (quiet s.1 i)
  | _ => true
  end.

Definition serial_play (m : move) s : list task * world :=
  if allowed m s then play max dir prefix m s else s.

Definition serial_play_all (ms : list move) s : list task * world :=
  foldl (flip serial_play) s ms.

Lemma serial_session s s' : serial_step s s' → session_step max dir prefix s s'.
Proof. intros [|]; [apply session_tick | by eapply session_turn]. Qed.

(** The limit does not depend on the contents of files. *)
#[export] Instance within_proper : Proper (alike ==> iff) within.
Proof.
  assert (∀ w w', alike w w' → within w → within w') as Himpl.
  { intros w w' [Ht _ Hd _ _] [Hperm Hcount]. unfold within, permissive. by rewrite Ht, Hd. }
  intros w w' Hw. split; by apply Himpl.
Qed.

Lemma promise_alike o w w' : alike w w' → promise (o, w) → promise (o, w').
Proof. intros Hw [Hr Hin]. split; [done|]. simpl in *. by rewrite <-Hw. Qed.

Lemma promise_set_now o w now : promise (o, w) → promise (o, set_now now w).
Proof. by intros [Hr Hin]. Qed.

(** *** A call inside [new] *)

Lemma proc_step_now p w : w_now (proc_step max dir prefix p w).2 = w_now w.
Proof.
  assert (p = AtClock ∨ p ≠ AtClock) as [->|Hp] by (destruct p; auto).
  - by rewrite proc_step_clock.
  - by apply timeless_now, proc_step_timeless.
Qed.

(** No call leads back to the first line. *)
Lemma proc_step_on p w :
  final p = false → (proc_step max dir prefix p w).1 ≠ AtCreateDir.
Proof.
  destruct p as [| |logs [|i todo]| | | |]; simpl; unfold stage, loop_entry, or_return;
    intros _; repeat case_match; by simplify_eq.
Qed.

Lemma constructing_enter p p' :
  p' ≠ AtCreateDir → constructing (enter p p') = negb (final p').
Proof. intros Hp'. destruct p' as [| | | | |[wr|e]|]; try done. by destruct p. Qed.

(** The tasks after a turn of the task [i], when the others are not
    inside [new]. *)
Lemma quiet_insert ts i t' : quiet ts i → quiet (<[i := t']> ts) i.
Proof. apply others_insert. Qed.

Lemma quiet_all ts i t' :
  quiet ts i → constructing t' = false →
  ∀ j t, <[i := t']> ts !! j = Some t → constructing t = false.
Proof. intros Hq Ht' j t [[-> ->]|[Hne Hj]]%turn_lookup; [done | by eapply Hq]. Qed.

(** A call that does not return from [new] adds no log file. *)
Lemma within_call p w :
  proc_ok dir prefix p → final (proc_step max dir prefix p w).1 = false → within w →
  within (proc_step max dir prefix p w).2.
Proof.
  intros Hp Hfinal [Hperm Hcount].
  destruct (proc_step_sound max dir prefix p w Hp) as (extra & _ & [_ Hden _ Hlogs] & Hsize).
  unfold weight in Hsize. rewrite Hfinal in Hsize.
  assert (extra = ∅) as -> by (apply leibniz_equiv, size_empty_inv; destruct (final p); lia).
  split; [unfold permissive; by rewrite Hden|].
  apply subseteq_size in Hlogs. rewrite union_empty_r_L in Hlogs. lia.
Qed.

Section invariant.
Hypothesis prefix_plain : "/"%char ∉ chars prefix.
Hypothesis max_usize : (max ≤ usize_max)%N.

Local Notation owes := (due max dir prefix valid_datetime promise).

(** A task that enters [new] while the directory is within the limit
    owes the limit: [new] keeps it. *)
Lemma idle_due w : wf_world w → within w → owes AtCreateDir w.
Proof.
  intros Hwf [Hperm Hcount] now Hnow.
  assert (settled max dir prefix (None, set_now now w)) as Hs
    by (split; simpl; [by apply wf_world_set_now | done..]).
  destruct (new_total max dir prefix (set_now now w)) as (r & w' & Hrun & _);
    [by apply (settled_new_pre max dir prefix prefix_plain max_usize _ Hs)|].
  destruct (settled_start max dir prefix prefix_plain max_usize _ _ _ _ Hs Hrun)
    as [_ _ Hperm' Hcount' _].
  simpl. rewrite Hrun. split; [by exists r | done].
Qed.

(** What the task that takes a turn inside [new] owes. *)
Lemma phase_due ts w i p :
  wf_world w → within w → ts !! i = Some (Starting p) → final p = false → quiet ts i →
  idle (ts, w) ∨ busy (ts, w) → owes p w.
Proof.
  intros Hwf Hin Hi Hp Hq [Hnone | (j & q & Hj & Hc & _ & Hdue)].
  - specialize (Hnone i _ Hi). destruct p; simplify_eq/=. by apply idle_due.
  - destruct (decide (j = i)) as [->|Hne]; [by simplify_eq/=|].
    specialize (Hq j _ Hne Hj). congruence.
Qed.

(** The directory and the phase after the call: a call that returns
    from [new] pays what was owed, and a call that does not adds no log
    file. *)
Lemma phase_after ts w i p :
  ts !! i = Some (Starting p) → final p = false → quiet ts i → proc_ok dir prefix p →
  valid_datetime (w_now w) → within w → owes p w →
  let s' := (<[i := enter p (proc_step max dir prefix p w).1]> ts,
             (proc_step max dir prefix p w).2) in
  within s'.2 ∧ (idle s' ∨ busy s').
Proof.
  intros Hi Hp Hq Hok Hclock Hin Hdue. pose proof (lookup_lt_Some _ _ _ Hi) as Hlt.
  pose proof (due_call max dir prefix _ _ promise_set_now p w Hclock Hdue) as Hdue'.
  pose proof (constructing_enter p _ (proc_step_on p w Hp)) as Hc.
  pose proof (proc_step_now p w) as Hnow. pose proof (within_call p w Hok) as Hin'.
  destruct (proc_step max dir prefix p w) as [p' w'] eqn:Hstep. simpl in *.
  destruct (final p') eqn:Hp'.
  - split; [|left; intros j tj Hj; by eapply quiet_all].
    destruct (due_final max dir prefix valid_datetime promise p' w' Hp') as (o & _ & _ & ?);
      [by rewrite Hnow | done | done].
  - split; [by apply Hin'|]. right. exists i, p'.
    assert (enter p p' = Starting p') as Henter by by destruct p' as [| | | | |[]|].
    rewrite Henter in *.
    split_and!; [by apply list_lookup_insert_eq | done | by apply quiet_insert | done].
Qed.

(** *** The steps *)

Lemma phase_tick ts w now :
  idle (ts, w) ∨ busy (ts, w) → idle (ts, set_now now w) ∨ busy (ts, set_now now w).
Proof.
  intros [Hnone | (j & q & Hj & Hc & Hq & Hdue)]; [by left|].
  right. exists j, q. split_and!; [done.. | by apply due_tick].
Qed.

(** A task that is not inside [new] takes a turn that leaves it so, and
    leaves the world as it is but for the contents of files. *)
Lemma phase_writer ts w i t t' w' :
  ts !! i = Some t → constructing t = false → constructing t' = false → alike w w' →
  idle (ts, w) ∨ busy (ts, w) → idle (<[i := t']> ts, w') ∨ busy (<[i := t']> ts, w').
Proof.
  intros Hi Ht Ht' Hw [Hnone | (j & q & Hj & Hc & Hq & Hdue)]; simpl in *.
  - left. intros k tk [[-> ->]|[_ Hk]]%turn_lookup; [done | by eapply Hnone].
  - assert (j ≠ i) as Hne by (intros ->; simplify_eq/=; congruence).
    right. exists j, q. simpl. split_and!; [by rewrite list_lookup_insert_ne | done | |].
    + intros k tk Hk [[-> ->]|[_ Hk']]%turn_lookup; [done | by eapply Hq].
    + eapply due_alike; [apply promise_alike | done..].
Qed.

Lemma turn_with_writer time wr acc w t' w' :
  turn max dir prefix (Running time wr acc) w t' w' → alike w w' ∧ constructing t' = false.
Proof.
  intros Hturn. split; [|by inversion Hturn].
  eapply writes_alike, (turn_writes _ _ _ _ _ _ _ _ _ (Finished (Ok wr)) Hturn). by eexists.
Qed.

Lemma serial_inv_turn ts w i t t' w' :
  ts !! i = Some t → turn max dir prefix t w t' w' → (holds t = None → quiet ts i) →
  serial_inv (ts, w) → serial_inv (<[i := t']> ts, w').
Proof.
  intros Hi Hturn Hq [Hwf Hclock Hsound Hin Hphase]. simpl in *.
  pose proof (turn_effect _ _ _ _ _ _ _ Hturn (Hsound i t Hi) Hwf) as Heff.
  assert (w_now w' = w_now w ∧ within w' ∧
          (idle (<[i := t']> ts, w') ∨ busy (<[i := t']> ts, w'))) as (Hnow & Hin' & Hphase').
  { destruct t as [p|time wr acc|time wr acc]; [| |by inversion Hturn].
    - inversion Hturn as [? ? p' ? Hp Hstep | | |]; subst.
      pose proof (proc_step_now p w) as Hnow.
      pose proof (phase_after ts w i p Hi Hp (Hq eq_refl) (Hsound i _ Hi) Hclock Hin) as Hafter.
      rewrite Hstep in *. split; [done|].
      apply Hafter, (phase_due ts w i p Hwf Hin Hi Hp (Hq eq_refl) Hphase).
    - destruct (turn_with_writer _ _ _ _ _ _ Hturn) as [Hw Ht'].
      split_and!; [apply Hw | by rewrite <-Hw | by eapply phase_writer]. }
  split; simpl; [by apply (ef_wf _ _ _ _ _ _ Heff) | by rewrite Hnow | | done | done].
  intros j tj [[-> ->]|[_ Hj]]%turn_lookup;
    [apply (ef_sound _ _ _ _ _ _ Heff) | by apply (Hsound j)].
Qed.

Lemma serial_inv_step s s' : serial_inv s → serial_step s s' → serial_inv s'.
Proof.
  intros Hinv Hstep. revert Hinv.
  destruct Hstep as [ts w now Hnow | ts w i t t' w' Hi Hturn Hq]; [|by apply (serial_inv_turn ts w i t)].
  intros [Hwf Hclock Hsound Hin Hphase].
  split; simpl; [by apply wf_world_set_now | done | done | done | by apply phase_tick].
Qed.

Lemma serial_inv_rtc s s' : rtc serial_step s s' → serial_inv s → serial_inv s'.
Proof. induction 1; eauto using serial_inv_step. Qed.

Lemma serial_inv_fresh k w : settled max dir prefix (None, w) → serial_inv (fresh k, w).
Proof.
  intros [Hwf Hclock Hperm Hcount _].
  split; simpl; [done | done | | done | left];
    by intros i t [-> _]%lookup_replicate.
Qed.

End invariant.

(** *** Schedules *)

Lemma serial_play_step m s : rtc serial_step s (serial_play m s).
Proof.
  unfold serial_play. destruct (allowed m s) eqn:Hm; [|done].
  unfold play. destruct s as [ts w]. destruct (actor m) as [i|] eqn:Ha; simpl.
  - destruct (ts !! i) as [t|] eqn:Hi; [|done].
    destruct (take_turn max dir prefix m t w) as [[t' w']|] eqn:Hturn; [|done].
    eapply rtc_once, serial_turn; [done | by eapply take_turn_turn|].
    intros Hh. destruct m, t; simplify_eq/=. by apply bool_decide_eq_true in Hm.
  - destruct m; try done. apply rtc_once, serial_tick. by apply bool_decide_eq_true in Hm.
Qed.

Lemma serial_play_all_steps ms s : rtc serial_step s (serial_play_all ms s).
Proof.
  revert s. induction ms as [|m ms IH]; intros s; [done|].
  etrans; [apply (serial_play_step m) | apply IH].
Qed.

End serial.

(** ** The tasks as processes of [Race] *)

(** The point of [new] a task is at, with the writer as it is now. *)
Definition point (t : task) : proc :=
  match t with
  | Starting p => p
  | Running _ wr _ | Exited _ wr _ => Finished (Ok wr)
  end.

(** The task is not inside [new] any more. *)
Definition returned (t : task) : bool := final (point t).

Lemma at_point_point t : at_point t (point t).
Proof. destruct t; simpl; eauto. Qed.

Lemma returned_final t p : returned t = true → at_point t p → final p = true.
Proof. by destruct t; simpl; [intros ? -> | intros _ [? ->]..]. Qed.

(** One task enters [new] while all the others have left it: in the
    race of [Race] the process is alone inside [new], and the writers
    are its environment. *)
Lemma lone_session max dir prefix ts w0 s i :
  rtc (session_step max dir prefix) (ts, w0) s →
  ts !! i = Some (Starting AtCreateDir) →
  (∀ j tj, j ≠ i → ts !! j = Some tj → returned tj = true) →
  ∃ ps, Forall2 at_point s.1 ps ∧ lone_inv max dir prefix i w0 (ps, s.2).
Proof.
  intros Hsteps Hi Hothers.
  destruct (sessions_race max dir prefix _ _ (point <$> ts) Hsteps) as (ps & Hrace & Hps).
  { apply Forall2_fmap_r, Forall_Forall2_diag, Forall_forall. intros; apply at_point_point. }
  exists ps. split; [done|].
  apply (lone_rtc writes max dir prefix writes_alike i w0 _ _ Hrace). split; simpl.
  - intros j p Hne (tj & -> & Hj)%list_lookup_fmap_Some. by apply (Hothers j).
  - exists AtCreateDir. split; [by rewrite list_lookup_fmap, Hi | apply as_new_start].
Qed.

(** ** Two processes on the directory of the examples

    The directory holds the log files of 1, 2 and 3 January and the
    limit is 3: a process has six calls to make inside [new], one of
    which removes the oldest file. *)

(** The first process has constructed its writer. *)
Definition example_first : list task * world :=
  serial_play_all 3 example_dir "app" (replicate 6 (Construct 0)) (fresh 2, example_world).

(** A second later the second process constructs its writer, while the
    first one logs a line and flushes. *)
Definition example_while_logging : list move :=
  [Clock example_later; Construct 1; Construct 1; Method 0 (Write_call example_line);
   Construct 1; Construct 1; Method 0 Flush_call; Construct 1; Construct 1].

Definition example_serial : list task * world :=
  serial_play_all 3 example_dir "app" example_while_logging example_first.

(** The same moves in a system without the order. *)
Definition example_among : list task * world :=
  play_all 3 example_dir "app" example_while_logging (example_first.1, example_first.2).

(** ** Properties of constructions among writers *)

(** C12: the writers do not change what [new] does. When one process
    constructs its writer while all the other processes have theirs
    and write, flush and end as they like, in whatever order the calls
    fall and however the clock moves, the construction ends as [new]
    ends when it runs without interruption in the world in which the
    process started, with the clock set to some time: it returns
    what [new] returns there (an error, or a writer), and it leaves the
    tree, the file numbers, the refusals of the system and the warnings
    that [new] leaves there. Only the contents of files, the room on
    the device and the clock may be different. *)
Theorem construction_among_writers (max : N) (dir : path) (prefix : string)
    (ts : list task) (w0 : world) (s : list task * world) (i : nat) (t : task) :
  rtc (session_step max dir prefix) (ts, w0) s →
  ts !! i = Some (Starting AtCreateDir) →
  (∀ j tj, j ≠ i → ts !! j = Some tj → returned tj = true) →
  s.1 !! i = Some t → returned t = true →
  ∃ now, at_point t (ended (new max dir prefix (set_now now w0)).1) ∧
         alike (set_now (w_now s.2) (new max dir prefix (set_now now w0)).2) s.2.
Proof.
  intros Hsteps Hi Hothers Ht Hret.
  destruct (lone_session _ _ _ _ _ _ _ Hsteps Hi Hothers) as (ps & Hps & _ & p & Hp & Hdue).
  destruct (Forall2_lookup_l _ _ _ _ _ Hps Ht) as (p' & Hp' & Hat). simplify_eq/=.
  destruct (due_final max dir prefix _ _ p s.2 (returned_final _ _ Hret Hat) I Hdue)
    as (o & <- & now & Ho & Hw).
  simpl in *. subst. by exists now.
Qed.

Lemma construction_among_writers_witness :
  ∃ now, at_point (Running "2024-01-04T09:05:07" (example_buffered 6 []) [])
           (ended (new 3 example_dir "app" (set_now now example_first.2)).1) ∧
         alike (set_now (w_now example_among.2)
                  (new 3 example_dir "app" (set_now now example_first.2)).2)
               example_among.2.
Proof.
  apply (construction_among_writers 3 example_dir "app" example_first.1 example_first.2
           example_among 1);
    [apply play_all_steps | by vm_compute | | by vm_compute | done].
  intros [|[|j]] tj Hne; vm_compute; by intros [= <-].
Defined.

(** C18: the limit holds while the processes log, when they start one
    at a time. Let the directory hold at most [max] log files, in a
    well-formed world in which the system refuses nothing in the
    directory, with a prefix that has no separator and a limit that fits
    [usize]. Let any number of processes construct their writers, write,
    flush and end, in any order but for this: no process is inside
    [new] while another is. Then in every state they reach, also while
    a process is inside [new], the world is well formed and the
    directory holds at most [max] log files ([max] raised to at least
    1), however many writers are open and whatever they have written. *)
Theorem serial_keeps_limit (max : N) (dir : path) (prefix : string) (k : nat)
    (w : world) (s : list task * world) :
  "/"%char ∉ chars prefix → (max ≤ usize_max)%N →
  settled max dir prefix (None, w) →
  rtc (serial_step max dir prefix) (fresh k, w) s →
  settled max dir prefix (None, s.2).
Proof.
  intros Hprefix Hmax Hs Hsteps.
  destruct (serial_inv_rtc max dir prefix Hprefix Hmax _ _ Hsteps
              (serial_inv_fresh max dir prefix k w Hs)) as [Hwf Hclock _ [Hperm Hcount] _].
  by split.
Qed.

Lemma serial_keeps_limit_witness : settled 3 example_dir "app" (None, example_serial.2).
Proof.
  apply (serial_keeps_limit 3 example_dir "app" 2 example_world example_serial);
    [compute_done | compute_done | compute_done
    | etrans; [|apply serial_play_all_steps]; apply serial_play_all_steps].
Defined.

(** Two processes, one at a time: the second constructs its writer a
    second after the first while the first logs. Each construction
    removes the oldest file, and the line of the first process is in
    its file. *)
Example example_serial_limit :
  elements (log_names (w_tree example_serial.2) example_dir "app") =
    ["app.2024-01-03T00:00:00"; "app.2024-01-04T09:05:07"; "app.2024-01-04T09:05:06"] ∧
  example_serial.1 !! 0%nat =
    Some (Running "2024-01-04T09:05:06" (example_flushed 5) example_line) ∧
  w_data example_serial.2 !! 5%N = Some example_line ∧
  map_to_list (w_tree example_among.2) = map_to_list (w_tree example_serial.2).
Proof. split_and!; vm_compute; reflexivity. Qed.
