(* ===== verification/Spaced.v ===== *)
(** * Spaced: processes that start in different seconds

    The name [RotatingFileWriter::new] gives its file is the prefix
    followed by the second at which line 46 of src/src/writer.rs reads
    the clock, and line 49 truncates a file that has that name already:
    two processes that read the clock within the same second come to
    write to one file ([create_empties_same_name] of [Sessions]). This
    file shows that it is the only way a log is damaged. [spaced_step]
    is a step of the system of [Sessions] in which a process reads the
    clock only when the name it is about to form is not the name of the
    file of another process; then, in every interleaving of
    constructions, writes, flushes and ends, every writer works and the
    stream of every writer is what its calls have reported, also when
    the file has been removed from the directory by a later
    construction ([spaced_writers_in_order]). Together with the order
    of [Serial] a deployment keeps both the limit and the logs
    ([orderly_deployment]). *)

From Stdlib Require Import Ascii.
From stdpp Require Import base tactics option list strings gmap relations.
From S2P Require Import Prelude Clock FileSystem Sink Scanner Pruner Writer.
From S2P Require Import Output Lifecycle Race Sessions Serial.

Local Open Scope string_scope.
Local Open Scope io_scope.

Section spaced.
Context (max : N) (dir : path) (prefix : string).
Implicit Types (t : task) (w : world) (ts : list task) (s : list task * world) (q : path).

(** The path a task has formed the name of, at line 50: the path of the
    file it is about to create, or has created. *)
Definition claim t : option path :=
  match t with
  | Starting (AtCreate time) | Running time _ _ | Exited time _ _ =>
      Some (path_join dir (log_file_name prefix time))
  | Starting _ => None
  end.

(** No task but the task [i] has formed the path [q]. *)
Definition unclaimed ts (i : nat) q : Prop :=
  ∀ j t, j ≠ i → ts !! j = Some t → claim t ≠ Some q.

(** A step of a system in which no two processes read the clock within
    the same second: a task reads the clock (line 46) only when the path
    of the name it gives is the path of no other task. *)
Inductive spaced_step : list task * world → list task * world → Prop :=
  | spaced_tick ts w now : spaced_step (ts, w) (ts, set_now now w)
  | spaced_turn ts w i t t' w' :
      ts !! i = Some t → turn max dir prefix t w t' w' →
      (t = Starting AtClock → unclaimed ts i (path_join dir (new_log_name prefix w))) →
      spaced_step (ts, w) (<[i := t']> ts, w').

(** The tasks have formed different paths. *)
Definition apart ts : Prop :=
  ∀ i t q, ts !! i = Some t → claim t = Some q → unclaimed ts i q.

#[export] Instance unclaimed_dec ts i q : Decision (unclaimed ts i q) :=
  others_dec (λ t, claim t ≠ Some q) ts i.

(** The moves of [Sessions], made only when the clock may be read. *)
Definition in_time (m : move) s : bool :=
  match m with
  | Construct i =>
      match s.1 !! i with
      | Some (Starting AtClock) =>
          bool_decide (unclaimed s.1 i (path_join dir (new_log_name prefix s.2)))
      | _ => true
      end
  | _ => true
  end.

Definition spaced_play (m : move) s : list task * world :=
  if in_time m s then play max dir prefix m s else s.

Definition spaced_play_all (ms : list move) s : list task * world :=
  foldl (flip spaced_play) s ms.

Lemma spaced_session s s' : spaced_step s s' → session_step max dir prefix s s'.
Proof. intros [|]; [apply session_tick | by eapply session_turn]. Qed.

Lemma spaced_sessions s s' :
  rtc spaced_step s s' → rtc (session_step max dir prefix) s s'.
Proof. induction 1; [done | by eapply rtc_l; [apply spaced_session|]]. Qed.

(** A task holds a file at the path it has formed. *)
Lemma claim_file_of t q : file_of dir prefix t = Some q → claim t = Some q.
Proof. by destruct t. Qed.

(** What a turn does to the path of a task: it keeps it, gives it up
    (the construction has failed), or forms it from the clock. *)
Lemma turn_claim t w t' w' :
  turn max dir prefix t w t' w' →
  claim t' = claim t ∨ claim t' = None ∨
  t = Starting AtClock ∧ claim t' = Some (path_join dir (new_log_name prefix w)).
Proof.
  intros [p w1 p' w1' Hfinal Hstep | | |]; [|by left..].
  destruct p as [| |logs [|i todo]| |time| |]; try done;
    [| | | |rewrite proc_step_clock in Hstep; simplify_eq/=; auto|];
    cbn [proc_step] in Hstep; unfold stage, or_return, loop_entry in Hstep;
    repeat case_match; simplify_eq/=; auto.
Qed.

Lemma apart_turn ts i t t' w :
  ts !! i = Some t → apart ts →
  claim t' = claim t ∨ claim t' = None ∨
    t = Starting AtClock ∧ claim t' = Some (path_join dir (new_log_name prefix w)) →
  (t = Starting AtClock → unclaimed ts i (path_join dir (new_log_name prefix w))) →
  apart (<[i := t']> ts).
Proof.
  intros Hi Hap Hclaim Hguard j tj q [[-> ->]|[Hne Hj]]%turn_lookup Hq
         k tk Hk [[-> ->]|[Hne' Hk']]%turn_lookup; try done.
  - destruct Hclaim as [Heq | [Hnone | [-> Hnew]]]; [| congruence |].
    + rewrite Heq in Hq. by apply (Hap i t q Hi Hq k).
    + rewrite Hnew in Hq. simplify_eq. by apply (Hguard eq_refl k).
  - intros Hq'. destruct Hclaim as [Heq | [Hnone | [-> Hnew]]]; [| congruence |].
    + rewrite Heq in Hq'. by apply (Hap j tj q Hj Hq i t).
    + rewrite Hnew in Hq'. simplify_eq. by apply (Hguard eq_refl j tj).
  - by apply (Hap j tj q Hj Hq k).
Qed.

Lemma apart_step s s' : spaced_step s s' → apart s.1 → apart s'.1.
Proof.
  intros [ts w now | ts w i t t' w' Hi Hturn Hguard] Hap; [done|]. simpl in *.
  eapply apart_turn; [done | done | by eapply turn_claim | done].
Qed.

Lemma apart_rtc s s' : rtc spaced_step s s' → apart s.1 → apart s'.1.
Proof. induction 1; eauto using apart_step. Qed.

Lemma apart_fresh k : apart (fresh k).
Proof. by intros i t q [-> _]%lookup_replicate. Qed.

(** Tasks that have formed different paths share no file. *)
Lemma apart_unshared s i t h :
  session_inv dir prefix s → apart s.1 → s.1 !! i = Some t → holds t = Some h →
  unshared s.1 i h.
Proof.
  intros Hinv Hap Hi Hh j tj Hne Hj Hhj.
  pose proof (si_same _ _ _ Hinv i j t tj h (not_eq_sym Hne) Hi Hj Hh Hhj) as Hsame.
  destruct (file_of dir prefix t) as [q|] eqn:Hq; [|by destruct t].
  apply (Hap i t q Hi (claim_file_of _ _ Hq) j tj Hne Hj), claim_file_of. by rewrite <-Hsame.
Qed.

Lemma spaced_play_step m s : rtc spaced_step s (spaced_play m s).
Proof.
  unfold spaced_play. destruct (in_time m s) eqn:Hm; [|done].
  unfold play. destruct s as [ts w]. destruct (actor m) as [i|] eqn:Ha; simpl.
  - destruct (ts !! i) as [t|] eqn:Hi; [|done].
    destruct (take_turn max dir prefix m t w) as [[t' w']|] eqn:Hturn; [|done].
    eapply rtc_once, spaced_turn; [done | by eapply take_turn_turn|].
    intros ->. destruct m; simplify_eq/=. rewrite Hi in Hm. by apply bool_decide_eq_true in Hm.
  - destruct m; try done. apply rtc_once, spaced_tick.
Qed.

Lemma spaced_play_all_steps ms s : rtc spaced_step s (spaced_play_all ms s).
Proof.
  revert s. induction ms as [|m ms IH]; intros s; [done|].
  etrans; [apply (spaced_play_step m) | apply IH].
Qed.

End spaced.

(** ** Two processes on the directory of the examples *)

(** The second process starts a second after the first; both log a
    line and flush, and the first ends. *)
Definition example_spaced : list task * world :=
  spaced_play_all 5 example_dir "app"
    (example_construct 0 ++ [Clock example_later] ++ example_construct 1 ++
     [Method 0 (Write_call example_line); Method 1 (Write_call example_other_line);
      Method 1 Flush_call; Method 0 Flush_call; Exit 0])
    (fresh 2, example_world).

(** Without the second in between, the second process waits before it
    reads the clock. *)
Definition example_waiting : list task * world :=
  spaced_play_all 5 example_dir "app" (example_construct 0 ++ example_construct 1)
    (fresh 2, example_world).

(** ** Properties of spaced starts *)

(** C15: no line is lost when no two processes read the clock within the
    same second. Let any number of processes construct their writers,
    write, flush and end in any order, in a well-formed world in which
    no file has two names, and let no process read the clock at line 46
    when the path of the name it is about to form is the path of
    another process. Then in every state they reach, the file of every
    process that has a writer is the file of no other process, the
    writer works, and its stream (the bytes in the file followed by the
    bytes in the buffer) is exactly what its calls of [write] have
    reported as accepted, in their order; this holds also when a later
    construction has removed the file from the directory. *)
Theorem spaced_writers_in_order (max : N) (dir : path) (prefix : string) (k : nat)
    (w : world) (s : list task * world) (i : nat) (t : task) (h : N) :
  wf_world w → unlinked w → rtc (spaced_step max dir prefix) (fresh k, w) s →
  s.1 !! i = Some t → holds t = Some h →
  unshared s.1 i h ∧ in_order t s.2.
Proof.
  intros Hwf Hlinks Hsteps Hi Hh.
  pose proof (session_inv_rtc _ _ _ _ _ (spaced_sessions _ _ _ _ _ Hsteps)
                (fresh_inv _ _ k w Hwf Hlinks)) as Hinv.
  pose proof (apart_rtc _ _ _ _ _ Hsteps (apart_fresh _ _ k)) as Hap.
  pose proof (apart_unshared _ _ _ _ _ _ Hinv Hap Hi Hh) as Hun.
  split; [done | by apply (si_alone _ _ _ Hinv i t h)].
Qed.

Lemma spaced_writers_in_order_witness :
  unshared example_spaced.1 1 6 ∧
  in_order (Running "2024-01-04T09:05:07" (example_flushed 6) example_other_line)
           example_spaced.2.
Proof.
  apply (spaced_writers_in_order 5 example_dir "app" 2 example_world example_spaced 1);
    [apply example_world_wf | apply example_world_unlinked | apply spaced_play_all_steps
    | by vm_compute | done].
Defined.

(** A deployment in which the processes start one at a time and in
    different seconds keeps the limit and the logs: in every state the
    directory is within the limit and every writer is in order. *)
Corollary orderly_deployment (max : N) (dir : path) (prefix : string) (k : nat)
    (w : world) (s : list task * world) (i : nat) (t : task) :
  "/"%char ∉ chars prefix → (max ≤ usize_max)%N →
  settled max dir prefix (None, w) → unlinked w →
  rtc (λ s1 s2, serial_step max dir prefix s1 s2 ∧ spaced_step max dir prefix s1 s2)
      (fresh k, w) s →
  s.1 !! i = Some t →
  within max dir prefix s.2 ∧ in_order t s.2.
Proof.
  intros Hprefix Hmax Hs Hlinks Hsteps Hi.
  assert (rtc (serial_step max dir prefix) (fresh k, w) s) as Hserial
    by (eapply rtc_subrel; [|exact Hsteps]; by intros ?? []).
  assert (rtc (spaced_step max dir prefix) (fresh k, w) s) as Hspaced
    by (eapply rtc_subrel; [|exact Hsteps]; by intros ?? []).
  split.
  - apply (serial_inv_rtc max dir prefix Hprefix Hmax _ _ Hserial),
      (serial_inv_fresh max dir prefix k w Hs).
  - pose proof (session_inv_rtc _ _ _ _ _ (spaced_sessions _ _ _ _ _ Hspaced)
                  (fresh_inv _ _ k w (st_wf _ _ _ _ Hs) Hlinks)) as Hinv.
    pose proof (apart_rtc _ _ _ _ _ Hspaced (apart_fresh _ _ k)) as Hap.
    destruct (holds t) as [h|] eqn:Hh; [|by destruct t].
    apply (si_alone _ _ _ Hinv i t h Hi Hh), (apart_unshared _ _ _ _ _ _ Hinv Hap Hi Hh).
Qed.

(** The two processes of the example: the line of each is in its own
    file; and the process that would read the clock within the second
    of the first waits at line 46. *)
Example example_spaced_starts :
  w_data example_spaced.2 !! 5%N = Some example_line ∧
  w_data example_spaced.2 !! 6%N = Some example_other_line ∧
  example_waiting.1 !! 1%nat = Some (Starting AtClock).
Proof. split_and!; vm_compute; reflexivity. Qed.
