(* ===== verification/Pipeline.v ===== *)
(** * Pipeline: from an event to the log file

    The two parts of the repository meet in the fmt layer of the log
    subsystem: for every event the layer calls the formatter
    ([FormatEvent::format_event], src/src/format.rs) with a [String] to
    write to, and hands the bytes of that string to the writer
    ([io::Write], src/src/writer.rs) with [write_all]. This file models
    that path from the documented behaviour of the libraries
    ([io::Write::write_all] of the standard library, [Layer::on_event] of
    the fmt layer) over the two interfaces, [FormatEvent] with [LineFormat]
    and [Write] with [Lawful], and proves what an application gets from
    the two parts together: an event becomes one line at the end of the
    stream of the writer, and a process that constructs the writer, logs
    its events and ends leaves a file that holds exactly their lines. *)

From Stdlib Require Import Ascii.
From stdpp Require Import base tactics option list strings gmap.
From S2P Require Import Prelude Clock FileSystem Sink Scanner Pruner Style Format Writer.
From S2P Require Import Output Lifecycle.

Local Open Scope io_scope.

(** ** Definitions *)

(** [str::as_bytes]. *)
Definition as_bytes (s : string) : bytes := String.list_byte_of_string s.

Section write_all.
Context {T : Type} `{!Write T}.

(** The loop of [io::Write::write_all]: write what is left until nothing
    is; a write of no byte is the error [WriteZero]. Every turn takes a
    byte or ends the loop, so the length of the bytes is fuel enough. *)
Fixpoint write_all_loop (fuel : nat) (buf : bytes) :
    M (T * world) (result io_error ()) :=
  if decide (buf = []) then ret (Ok ())
  else
    match fuel with
    | O => panic "write_all: the loop made no progress"
    | S fuel' =>
        r <- write buf ;;
        match r with
        | Ok O => ret (Err WriteZero)
        | Ok n => write_all_loop fuel' (drop n buf)
        | Err e => ret (Err e)
        end
    end.

(** [io::Write::write_all], the method every implementation of
    [io::Write] inherits. *)
Definition write_all (buf : bytes) : M (T * world) (result io_error ()) :=
  write_all_loop (length buf) buf.

End write_all.

Section layer.
Context {F T : Type} `{!FormatEvent F, !Write T}.
Context (offset : Z) (colors : bool).

(** What the formatter sees of the process in the world [w]. *)
Definition env_of (w : world) : Env := mkEnv (w_now w) offset colors.

(** [Layer::on_event] of the fmt layer: the event is formatted into an
    empty [String]; when the formatter succeeds the bytes of the string
    go to the writer with [write_all], whose result is dropped (the
    library reports it on the standard error stream, which is not part
    of the world). A formatter that returns an error leaves the writer
    alone here; the library can also be set to write a notice to the
    writer in that case. The formatter of this repository returns no
    error on a [String] (lemma [on_event_source]), so for it the two
    settings are the same. *)
Definition on_event (fmt : F) (ctx : FmtContext) (event : Event) : M (T * world) () :=
  s <- get ;;
  match fmt_event fmt string (env_of s.2) ctx event "" with
  | (Returned (Ok _), buf) => _ <- write_all (as_bytes buf) ;; ret ()
  | (Returned (Err _), _) => ret ()
  | (Panicked msg, _) => panic msg
  end.

(** An event that fires when the clock shows [e.1.1]. *)
Definition log_at (fmt : F) (e : DateTime * FmtContext * Event) : M (T * world) () :=
  modify (λ s, (s.1, set_now e.1.1 s.2)) ;;; on_event fmt e.1.2 e.2.

(** The events of a run, in the order they fire. *)
Definition log_all (fmt : F) (evs : list (DateTime * FmtContext * Event)) :
    M (T * world) () :=
  for_each (log_at fmt) evs.

End layer.

(** A computation on a writer, seen from the world. *)
Definition with_writer {T A : Type} (wr : T) (c : M (T * world) A) : M world A :=
  λ w, let (o, s') := c (wr, w) in (o, s'.2).

(** The life of a process that logs to a file: it constructs the writer,
    logs its events through the layer, and ends, which drops the writer. *)
Definition session {F : Type} `{!FormatEvent F} (max : N) (dir : path)
    (prefix : string) (offset : Z) (colors : bool) (fmt : F)
    (evs : list (DateTime * FmtContext * Event)) : M world (result io_error ()) :=
  wr <-? new max dir prefix ;;
  with_writer wr (log_all offset colors fmt evs ;;; RotatingFileWriter_drop) ;;;
  ret (Ok ()).

(** ** What the path promises *)

(** The contents of the regular file at [p]. *)
Definition file_at (p : path) (w : world) : option bytes :=
  match w_tree w !! p with
  | Some (IFile ino) => Some (default [] (w_data w !! ino))
  | _ => None
  end.

(** The bytes of the lines of the events. *)
Definition lines {F : Type} `{!FormatEvent F, !LineFormat F} (offset : Z)
    (colors : bool) (fmt : F) (evs : list (DateTime * FmtContext * Event)) : bytes :=
  evs ≫= λ e, as_bytes (line_of fmt (mkEnv e.1.1 offset colors) e.1.2 e.2).

(** Every event fires in an environment and a scope the formatter is
    ready for. *)
Definition all_ready {F : Type} `{!FormatEvent F, !LineFormat F} (offset : Z)
    (colors : bool) (evs : list (DateTime * FmtContext * Event)) : Prop :=
  Forall (λ e, ready (mkEnv e.1.1 offset colors) e.1.2) evs.

(** ** [write_all] on a sink that keeps its promise *)

Section write_all_lawful.
Context {T : Type} `{!Write T, !Handle T, !Lawful T}.
Implicit Types (s : T * world) (buf : bytes).

(** What [write_all] leaves: the sink works and is with its file, and the
    stream has grown by a beginning of the bytes, by all of them when the
    call reports success. *)
Definition all_written buf s (r : result io_error ()) s' : Prop :=
  valid s' ∧ same_file s s' ∧
  ∃ n, n ≤ length buf ∧ stream s' = stream s ++ take n buf ∧
       (is_ok r → n = length buf).

Lemma all_written_refl s r : valid s → all_written [] s r s.
Proof. intros Hs. split_and!; [done..|]. exists 0. by rewrite app_nil_r. Qed.

Lemma all_written_stop buf s s1 e :
  valid s1 → same_file s s1 → stream s1 = stream s → all_written buf s (Err e) s1.
Proof.
  intros Hs1 Hsame Hst. split_and!; [done..|]. exists 0.
  rewrite take_0, app_nil_r. split_and!; [lia | done | done].
Qed.

Lemma all_written_step buf s s1 n r s' :
  n ≤ length buf → same_file s s1 → stream s1 = stream s ++ take n buf →
  all_written (drop n buf) s1 r s' → all_written buf s r s'.
Proof.
  intros Hn Hsame Hst (Hs' & Hsame' & k & Hk & Hst' & Hall).
  rewrite length_drop in Hk, Hall. split_and!; [done | by etrans |].
  exists (n + k). rewrite Hst', Hst, <-app_assoc, take_take_drop.
  split_and!; [lia | done | intros Hr; specialize (Hall Hr); lia].
Qed.

(** [write_all] returns on every sink that works: the fuel is enough. *)
Lemma write_all_loop_spec fuel buf s :
  valid s → length buf ≤ fuel →
  ∃ r s', write_all_loop fuel buf s = (Returned r, s') ∧ all_written buf s r s'.
Proof.
  revert buf s. induction fuel as [|fuel IH]; intros buf s Hs Hfuel; simpl;
    destruct (decide (buf = [])) as [->|Hbuf];
    [by exists (Ok ()), s; split; [|apply all_written_refl]
    |destruct buf; [done | simpl in Hfuel; lia]
    |by exists (Ok ()), s; split; [|apply all_written_refl] |].
  unfold bind. destruct (write_spec buf s Hs) as ([[|n]|e] & s1 & -> & Hs1 & Hsame & Hr).
  - exists (Err WriteZero), s1. split; [done|]. apply all_written_stop; [done..|].
    destruct Hr as [_ ->]. by rewrite take_0, app_nil_r.
  - destruct Hr as [Hn Hst].
    destruct (IH (drop (S n) buf) s1 Hs1) as (r & s' & -> & Hw);
      [rewrite length_drop; lia|].
    exists r, s'. split; [done|]. by eapply all_written_step.
  - exists (Err e), s1. split; [done|]. by apply all_written_stop.
Qed.

Lemma write_all_spec buf s :
  valid s → ∃ r s', write_all buf s = (Returned r, s') ∧ all_written buf s r s'.
Proof. intros Hs. by apply write_all_loop_spec. Qed.

End write_all_lawful.

(** ** An event through the layer *)

Section on_event_lawful.
Context {F T : Type} `{!FormatEvent F, !LineFormat F}.
Context `{!Write T, !Handle T, !Lawful T}.
Context (offset : Z) (colors : bool).
Implicit Types (s : T * world).

(** The layer hands the writer the line of the event. *)
Lemma on_event_run (fmt : F) ctx event s :
  ready (env_of offset colors s.2) ctx →
  on_event offset colors fmt ctx event s =
    (write_all (as_bytes (line_of fmt (env_of offset colors s.2) ctx event)) ;;;
     ret ()) s.
Proof. intros Hready. unfold on_event, bind at 1, get. by rewrite fmt_event_line. Qed.

(** Whatever the writer does with the bytes, an event the formatter is
    ready for leaves it working, with a beginning of the line of the
    event at the end of its stream. *)
Lemma on_event_spec (fmt : F) ctx event s :
  valid s → ready (env_of offset colors s.2) ctx →
  ∃ r s', on_event offset colors fmt ctx event s = (Returned (), s') ∧
    all_written (as_bytes (line_of fmt (env_of offset colors s.2) ctx event)) s r s'.
Proof.
  intros Hs Hready. rewrite on_event_run by done.
  destruct (write_all_spec (as_bytes (line_of fmt (env_of offset colors s.2) ctx event))
              s Hs) as (r & s' & Hrun & Hw).
  exists r, s'. split; [|done]. unfold bind. by rewrite Hrun.
Qed.

End on_event_lawful.

(** With the formatter of this repository the layer writes what the
    formatter has rendered, or panics with it: the branch of a formatter
    error is never taken. *)
Lemma on_event_source {T : Type} `{!Write T} (offset : Z) (colors : bool)
    (ctx : FmtContext) (event : Event) (s : T * world) :
  on_event offset colors mkSourceFormatter ctx event s =
    match format_event mkSourceFormatter (env_of offset colors s.2) ctx event "" with
    | (Returned _, buf) => (write_all (as_bytes buf) ;;; ret ()) s
    | (Panicked msg, _) => (Panicked msg, s)
    end.
Proof.
  unfold on_event, bind at 1, get, fmt_event, SourceFormatter_FormatEvent.
  pose proof (unfailing_format_event (S := string) mkSourceFormatter
                (env_of offset colors s.2) ctx event "") as Hno.
  destruct (format_event _ _ _ _ _) as [[[[]|e]|msg] buf];
    [done | by destruct (Hno e) | done].
Qed.

(** ** The writer of this repository, on a device with room *)

Section logging.
Context {F : Type} `{!FormatEvent F, !LineFormat F}.
Context (offset : Z) (colors : bool).
Implicit Types (s : RotatingFileWriter * world) (buf bs : bytes) (n : nat)
  (evs : list (DateTime * FmtContext * Event)).

(** The device has room for what waits in the buffer and [n] bytes
    more. *)
Definition roomy n s : Prop :=
  (N.of_nat (length (pending s) + n) ≤ w_space s.2)%N.

(** From [s] to [s'] the writer has taken the bytes [bs] and stayed with
    its file, the names are as they were, and the device has room for
    [n] bytes more. *)
Record logged bs n s s' : Prop := mkLogged {
  lg_valid : writer_valid s';
  lg_handle : handle s'.1 = handle s.1;
  lg_tree : w_tree s'.2 = w_tree s.2;
  lg_stream : log_stream s' = log_stream s ++ bs;
  lg_room : roomy n s';
}.

Lemma logged_refl n s : writer_valid s → roomy n s → logged [] n s s.
Proof. intros Hs Hn. split; [done.. | by rewrite app_nil_r | done]. Qed.

Lemma logged_trans bs1 bs2 n1 n2 s1 s2 s3 :
  logged bs1 n1 s1 s2 → logged bs2 n2 s2 s3 → logged (bs1 ++ bs2) n2 s1 s3.
Proof.
  intros [_ Hh1 Ht1 Hs1 _] [Hv2 Hh2 Ht2 Hs2 Hn2].
  split; [done | congruence | congruence | by rewrite Hs2, Hs1, app_assoc | done].
Qed.

(** With room for them, [write] takes all the bytes. *)
Lemma write_room buf n s :
  writer_valid s → roomy (length buf + n) s →
  ∃ s', RotatingFileWriter_write buf s = (Returned (Ok (length buf)), s') ∧
        logged buf n s s'.
Proof.
  intros Hs Hroom. pose proof Hs as [Hend Hcap]. unfold roomy in *.
  destruct (buf_write_room buf (sink s.1, s.2) Hend) as ([b w'] & Hrun & Hpaid);
    [unfold pending in Hroom; simpl; lia|].
  assert (RotatingFileWriter_write buf s =
            (Returned (Ok (length buf)), (set_sink b s.1, w'))) as Hzoom
    by by apply zoom_run.
  destruct (write_spec (T := RotatingFileWriter) buf s)
    as (r & s' & Hrun' & Hs' & [Hh Hfile] & Hr); [exact Hs|].
  change (RotatingFileWriter_write buf s = (Returned r, s')) in Hrun'.
  rewrite Hzoom in Hrun'. simplify_eq.
  eexists. split; [done|]. destruct Hr as [_ Hst]. rewrite take_ge in Hst by done.
  split; [done | done | apply Hfile | done |].
  unfold roomy, paid, pending in *. simpl in *. lia.
Qed.

Lemma write_all_loop_nil (fuel : nat) s :
  write_all_loop fuel [] s = (Returned (Ok ()), s).
Proof. by destruct fuel. Qed.

(** With room for them, [write_all] hands all the bytes over in one
    [write]. *)
Lemma write_all_room buf n s :
  writer_valid s → roomy (length buf + n) s →
  ∃ s', write_all buf s = (Returned (Ok ()), s') ∧ logged buf n s s'.
Proof.
  intros Hs Hroom. destruct buf as [|b buf].
  { exists s. split; [done|]. apply logged_refl; [done|]. exact Hroom. }
  destruct (write_room (b :: buf) n s Hs Hroom) as (s' & Hrun & Hlog).
  exists s'. split; [|done]. unfold write_all. simpl. unfold bind.
  change (write (b :: buf) s) with (RotatingFileWriter_write (b :: buf) s).
  rewrite Hrun. simpl. by rewrite drop_all, write_all_loop_nil.
Qed.

(** An event, when the device has room for its line: the line is at the
    end of the stream, whole. *)
Lemma on_event_room (fmt : F) ctx event n s :
  writer_valid s → ready (env_of offset colors s.2) ctx →
  roomy (length (as_bytes (line_of fmt (env_of offset colors s.2) ctx event)) + n) s →
  ∃ s', on_event offset colors fmt ctx event s = (Returned (), s') ∧
    logged (as_bytes (line_of fmt (env_of offset colors s.2) ctx event)) n s s'.
Proof.
  intros Hs Hready Hroom. rewrite on_event_run by done.
  destruct (write_all_room _ n s Hs Hroom) as (s' & Hrun & Hlog).
  exists s'. split; [|done]. unfold bind. by rewrite Hrun.
Qed.

(** The same when the clock shows the time of the event. *)
Lemma log_at_room (fmt : F) e n s :
  writer_valid s → ready (mkEnv e.1.1 offset colors) e.1.2 →
  roomy (length (as_bytes (line_of fmt (mkEnv e.1.1 offset colors) e.1.2 e.2)) + n) s →
  ∃ s', log_at offset colors fmt e s = (Returned (), s') ∧
    logged (as_bytes (line_of fmt (mkEnv e.1.1 offset colors) e.1.2 e.2)) n s s'.
Proof.
  intros Hs Hready Hroom.
  destruct (on_event_room fmt e.1.2 e.2 n (s.1, set_now e.1.1 s.2) Hs Hready Hroom)
    as (s' & Hrun & [Hv Hh Ht Hst Hn]).
  exists s'. split; [|by split].
  unfold log_at, bind at 1, modify. by rewrite Hrun.
Qed.

(** The events of a run, when the device has room for their lines. *)
Lemma log_all_room (fmt : F) evs n s :
  writer_valid s → all_ready offset colors evs →
  roomy (length (lines offset colors fmt evs) + n) s →
  ∃ s', log_all offset colors fmt evs s = (Returned (), s') ∧
        logged (lines offset colors fmt evs) n s s'.
Proof.
  revert s. induction evs as [|e evs IH]; intros s Hs Hready Hroom.
  { exists s. split; [done|]. by apply logged_refl. }
  apply Forall_cons in Hready as [He Hready].
  change (lines offset colors fmt (e :: evs))
    with (as_bytes (line_of fmt (mkEnv e.1.1 offset colors) e.1.2 e.2) ++
          lines offset colors fmt evs) in *.
  destruct (log_at_room fmt e (length (lines offset colors fmt evs) + n) s)
    as (s1 & Hrun1 & Hlog1); [done | done | |].
  { unfold roomy in *. rewrite length_app in Hroom. lia. }
  destruct (IH s1) as (s2 & Hrun2 & Hlog2); [apply Hlog1 | done | apply Hlog1 |].
  exists s2. split; [|by eapply logged_trans].
  unfold log_all. cbn [for_each]. unfold bind at 1. by rewrite Hrun1.
Qed.

End logging.

(** ** Data for the examples: two events of a run, a second apart *)

Definition example_events : list (DateTime * FmtContext * Event) :=
  [(mkDateTime 2024 1 4 9 5 6, example_ctx, example_event);
   (mkDateTime 2024 1 4 9 5 7, mkFmtContext None, example_event)].

(** ** Properties of the path *)

(** C31: [write_all], which the writer inherits with its
    implementation of [io::Write], returns on every writer that works and
    for all bytes: the loop ends within the fuel of the length of the
    bytes. The writer works afterwards and is with its file; its stream
    has grown by all the bytes when the call reports success, and by a
    beginning of them when it reports an error. *)
Theorem write_all_returns (buf : bytes) (s : RotatingFileWriter * world) :
  writer_valid s →
  ∃ r s', write_all buf s = (Returned r, s') ∧ writer_valid s' ∧ same_file s s' ∧
    ∃ n, n ≤ length buf ∧ log_stream s' = log_stream s ++ take n buf ∧
         (is_ok r → n = length buf).
Proof. exact (write_all_spec (T := RotatingFileWriter) buf s). Qed.

Lemma write_all_returns_witness :
  ∃ r s', write_all example_line example_full_writer = (Returned r, s') ∧
    writer_valid s' ∧ same_file example_full_writer s' ∧
    ∃ n, n ≤ length example_line ∧
         log_stream s' = log_stream example_full_writer ++ take n example_line ∧
         (is_ok r → n = length example_line).
Proof. apply write_all_returns. compute_done. Defined.

(** Whatever becomes of the bytes on the
    device, an event whose time has a text and whose spans have their
    fields cached never spoils the log: the layer returns, the writer
    works afterwards and is with its file, and its stream is the one of
    before followed by a beginning of the line [format_event] renders. *)
Theorem on_event_keeps_stream (offset : Z) (colors : bool) (ctx : FmtContext)
    (event : Event) (s : RotatingFileWriter * world) :
  writer_valid s → representable (env_of offset colors s.2) → cached ctx →
  ∃ s' n, on_event offset colors mkSourceFormatter ctx event s = (Returned (), s') ∧
    writer_valid s' ∧ same_file s s' ∧
    log_stream s' =
      log_stream s ++ take n (as_bytes (event_line (env_of offset colors s.2) ctx event)).
Proof.
  intros Hs Ht Hc.
  destruct (on_event_spec (T := RotatingFileWriter) offset colors mkSourceFormatter
              ctx event s) as (r & s' & Hrun & Hv & Hsame & n & _ & Hst & _);
    [exact Hs | by split|].
  by exists s', n.
Qed.

Lemma on_event_keeps_stream_witness :
  ∃ s' n, on_event (-360) false mkSourceFormatter example_ctx example_event
            example_full_writer = (Returned (), s') ∧
    writer_valid s' ∧ same_file example_full_writer s' ∧
    log_stream s' =
      log_stream example_full_writer ++
      take n (as_bytes (event_line (env_of (-360) false example_full_writer.2)
                                   example_ctx example_event)).
Proof. apply on_event_keeps_stream; compute_done. Defined.

(** C22: on a device with room for what waits in the
    buffer and for the line, an event becomes exactly its line at the end
    of the stream of the writer: the text [format_event] renders, byte
    for byte, after everything the writer had accepted before. *)
Theorem on_event_logs_line (offset : Z) (colors : bool) (ctx : FmtContext)
    (event : Event) (s : RotatingFileWriter * world) :
  writer_valid s →
  representable (env_of offset colors s.2) → cached ctx →
  (N.of_nat (length (pending s) +
             length (as_bytes (event_line (env_of offset colors s.2) ctx event)))
     ≤ w_space s.2)%N →
  ∃ s', on_event offset colors mkSourceFormatter ctx event s = (Returned (), s') ∧
    writer_valid s' ∧
    log_stream s' =
      log_stream s ++ as_bytes (event_line (env_of offset colors s.2) ctx event).
Proof.
  intros Hs Ht Hc Hroom.
  destruct (on_event_room offset colors mkSourceFormatter ctx event 0 s Hs)
    as (s' & Hrun & [Hv _ _ Hst _]); [done | unfold roomy; simpl in *; lia|].
  by exists s'.
Qed.

Lemma on_event_logs_line_witness :
  ∃ s', on_event (-360) false mkSourceFormatter example_ctx example_event
          example_pending_writer = (Returned (), s') ∧
    writer_valid s' ∧
    log_stream s' =
      log_stream example_pending_writer ++
      as_bytes (event_line (env_of (-360) false example_pending_writer.2)
                           example_ctx example_event).
Proof. apply on_event_logs_line; [compute_done.. | by vm_compute]. Defined.

(** C10: a process that constructs the writer,
    logs its events through the layer and ends leaves, on a device with
    room for them, a file named [prefix.timestamp] in the directory that
    holds exactly the lines of its events, in the order they fired and
    each rendered at the time it fired. *)
Theorem session_file_holds_lines (max : N) (dir : path) (prefix : string)
    (offset : Z) (colors : bool) (evs : list (DateTime * FmtContext * Event))
    (w : world) :
  new_pre dir prefix w → all_ready (F := SourceFormatter) offset colors evs →
  (N.of_nat (length (lines offset colors mkSourceFormatter evs)) ≤ w_space w)%N →
  ∃ r w', session max dir prefix offset colors mkSourceFormatter evs w =
            (Returned r, w') ∧
    (is_ok r →
     file_at (new_log_name prefix w :: dir) w' =
       Some (lines offset colors mkSourceFormatter evs)).
Proof.
  intros Hpre Hready Hroom. set (fmt := mkSourceFormatter) in *.
  unfold session, bind_try, bind at 1.
  destruct (new_total max dir prefix w Hpre) as ([wr|e] & w1 & Hnew & _);
    rewrite Hnew; [|by exists (Err e), w1].
  destruct (new_writer_valid _ _ _ _ _ _ Hpre Hnew) as (Hs & Hempty & Hfile).
  destruct (log_all_room offset colors fmt evs 0 (wr, w1) Hs Hready)
    as (s1 & Hrun1 & [Hs1 Hh1 Ht1 Hst1 Hn1]).
  { unfold roomy. simpl. rewrite (new_space _ _ _ _ _ _ Hpre Hnew). unfold log_stream in Hempty.
    apply app_eq_nil in Hempty as [_ ->]. simpl. lia. }
  destruct (drop_flushes s1 Hs1) as (s2 & Hrun2 & Hdisk);
    [unfold roomy in Hn1; lia|].
  destruct (drop_spec s1 Hs1) as (s2' & Hrun2' & Hh2 & Hfile2).
  rewrite Hrun2 in Hrun2'. simplify_eq.
  exists (Ok ()), s2'.2. unfold with_writer, bind. rewrite Hrun1, Hrun2.
  split; [done|]. intros _. unfold file_at.
  rewrite (of_tree _ _ _ Hfile2), Ht1. simpl. rewrite Hfile. simpl. f_equal.
  rewrite Hst1, Hempty in Hdisk. simpl in Hdisk. rewrite <-Hdisk.
  unfold on_disk, file_data.
  assert (handle s2'.1 = handle wr) as Hh by (etrans; [exact Hh2 | exact Hh1]).
  by rewrite <-Hh.
Qed.

Lemma session_file_holds_lines_witness :
  ∃ r w', session 2 example_dir "app" (-360) false mkSourceFormatter
            example_events example_world = (Returned r, w') ∧
    (is_ok r →
     file_at (new_log_name "app" example_world :: example_dir) w' =
       Some (lines (-360) false mkSourceFormatter example_events)).
Proof.
  apply session_file_holds_lines;
    [compute_done | repeat constructor; compute_done | by vm_compute].
Defined.

(** The file of the example after the run: the two lines, the first
    with its spans, the second a second later. *)
Example example_session :
  (session 2 example_dir "app" (-360) false mkSourceFormatter example_events
           example_world).1 = Returned (Ok ()) ∧
  file_at ("app.2024-01-04T09:05:06" :: example_dir)
          (session 2 example_dir "app" (-360) false mkSourceFormatter example_events
                   example_world).2 =
    Some (as_bytes
      ("Thu, 4 Jan 2024 09:05:06 -0600 INFO [main.rs:74]: A{x=1}: B: Hello World!" +:+
       newline +:+
       "Thu, 4 Jan 2024 09:05:07 -0600 INFO [main.rs:74]: Hello World!" +:+ newline)).
Proof. split; by vm_compute. Qed.
